(** * memorybench: the checkpoint-driven phase engine

  A shallow embedding of the TypeScript sources of the benchmark
  orchestrator:

  - [src/types/parallelism.ts]            (resolveParallelism)
  - [src/orchestrator/parallel.ts]        (ParallelExecutor)
  - [src/orchestrator/phases/*.ts]        (the five phase runners)

  Conventions of the embedding.

  - A JavaScript [number] that the code uses as a length or an array index
    is a [nat]; a configurable number (a concurrency level, a delay) is a
    [Z], because the code itself tests it against zero.
  - An [async] function is a state transformer over a world [W]: it maps
    the world at the point where its promise settles to its outcome and
    the world it leaves behind.  A rejected promise is the right injection
    of a sum, carrying the thrown value.
  - The observers and the logger of the executor are not state; what they
    would see is returned as a chronological list of events. *)

From Stdlib Require Import ZArith Lia Ascii.
From stdpp Require Import functions gmap strings list fin_maps.

#[local] Set Warnings "-clear-no-such-hyp".

(** ** JavaScript values *)

(** A number that need not be whole (a relevance threshold, a sampling
  temperature, a reciprocal rank).  The phases only hand such numbers
  on. *)
Record Fraction := mkFraction { numerator : Z; denominator : Z }.

(** ** JavaScript exceptions *)

(** [new Error(message)]: only the message is observable to the code. *)
Record Error := mkError { message : string }.

(** Anything can be thrown in JavaScript.  The code distinguishes values
  that are [instanceof Error] from all others, of which it only takes the
  string conversion [String(e)]. *)
Inductive Thrown :=
| ThrownError (e : Error)
| ThrownValue (repr : string).

(** [error instanceof Error ? error : new Error(String(error))] *)
Definition asError (t : Thrown) : Error :=
match t with
| ThrownError e => e
| ThrownValue repr => mkError repr
end.

(** [e instanceof Error ? e.message : String(e)] *)
Definition errorText (t : Thrown) : string :=
match t with
| ThrownError e => message e
| ThrownValue repr => repr
end.

(** ** The batch executor, [src/orchestrator/parallel.ts] *)

Module ParallelExecutor.
Section Executor.
Context {T R W : Type}.

(** [shouldStop(runId)] of [server/runState]: the per-run stop flag is
    part of the world; its implementation is not in the sources and is
    taken as given. *)
Variable shouldStop : string → W → bool.

(** The order in which the promises of a batch settle is not fixed by
    the program.  [completion b] lists, for batch [b], which of the still
    pending tasks settles next (a position in the list of pending tasks,
    taken modulo its length, 0 when the list runs out), so every list
    denotes one completion order and every completion order is denoted. *)
Variable completion : nat → list nat.

Record ParallelTaskContext := mkContext {
  item : T;
  index : nat;
  total : nat;
}.

Definition Task := ParallelTaskContext → W → (R + Thrown) * W.

Record ParallelExecutionOptions := mkOptions {
  items : list T;
  concurrency : Z;
  rateLimitMs : Z;
  runId : string;
  phaseName : string;
  executeTask : Task;
}.

(** What the optional observers ([onBatchStart], [onTaskComplete],
    [onError], [onBatchComplete]) are called with, together with the
    three things the executor does to its environment: sampling the
    stop flag, starting a task, and sleeping. *)
Inductive Event :=
| StopSampled (batchIdx : nat) (stop : bool)
| OnBatchStart (batchIdx size : nat)
| Dispatched (batchIdx : nat) (context : ParallelTaskContext)
| OnTaskComplete (context : ParallelTaskContext) (result : R)
| OnError (context : ParallelTaskContext) (error : Error)
| OnBatchComplete (batchIdx : nat) (results : list R)
| Waited (ms : Z).

(** The value each wrapped task promise resolves to:
    [{ success: true, result, context }] or
    [{ success: false, error, context }]. *)
Inductive Settled :=
| Success (result : R) (context : ParallelTaskContext)
| Failure (error : Error) (context : ParallelTaskContext).

Definition success (s : Settled) : bool :=
  match s with Success _ _ => true | Failure _ _ => false end.

Definition settledContext (s : Settled) : ParallelTaskContext :=
  match s with Success _ c => c | Failure _ c => c end.

(** The observer call made when a task settles. *)
Definition settleEvent (s : Settled) : Event :=
  match s with
  | Success r c => OnTaskComplete c r
  | Failure e c => OnError c e
  end.

(** The body of the [batch.map(async (item, batchOffset) => ...)]
    callback from the point where [executeTask] settles: the [try]
    branch or the [catch] branch. *)
Definition settleTask (exec : Task) (context : ParallelTaskContext) (w : W)
  : Settled * W :=
  match exec context w with
  | (inl result, w') => (Success result context, w')
  | (inr error, w') => (Failure (asError error) context, w')
  end.

(** The promises of one batch settling one after the other.  [pending]
    holds the batch offsets and contexts of the tasks still running,
    [slots] the array [Promise.all] fills, one cell per promise. *)
Fixpoint settleAll (exec : Task) (picks : list nat)
    (pending : list (nat * ParallelTaskContext))
    (slots : list (option Settled)) (w : W) (fuel : nat)
  : list (option Settled) * W * list Event :=
  match fuel with
  | O => (slots, w, [])
  | S fuel' =>
      let p := hd 0 picks `mod` length pending in
      match pending !! p with
      | None => (slots, w, [])
      | Some (batchOffset, context) =>
          let '(s, w1) := settleTask exec context w in
          let '(slots', w2, evs) :=
            settleAll exec (tl picks) (delete p pending)
                      (<[batchOffset := Some s]> slots) w1 fuel' in
          (slots', w2, settleEvent s :: evs)
      end
  end.

(** [await Promise.all(batchPromises)]: the array of settled values in
    the order of the promises, available once every promise has
    settled. *)
Definition promiseAll (slots : list (option Settled)) : option (list Settled) :=
  mapM id slots.

Inductive Outcome :=
| Returned (results : list R)
| Threw (error : Error)
| NeverSettles.

Definition stopError : Error :=
  mkError "Run stopped by user. Resume with the same run ID.".

Definition concurrencyError : Error :=
  mkError "Concurrency must be positive".

Definition resultOf (s : Settled) : option R :=
  match s with Success r _ => Some r | Failure _ _ => None end.

Definition errorOf (s : Settled) : option Error :=
  match s with Success _ _ => None | Failure e _ => Some e end.

(** [items.slice(batchStart, batchEnd)] for [0 ≤ batchStart ≤ batchEnd]. *)
Definition slice (l : list T) (batchStart batchEnd : nat) : list T :=
  take (batchEnd - batchStart) (drop batchStart l).

(** The [for] loop over the batches; [remaining] counts the iterations
    left, [totalBatches - batchIdx]. *)
Fixpoint batchLoop (o : ParallelExecutionOptions) (batchSize totalBatches : nat)
    (remaining batchIdx : nat) (allResults : list R) (w : W)
  : Outcome * W * list Event :=
  match remaining with
  | O => (Returned allResults, w, [])
  | S remaining' =>
      if shouldStop (runId o) w then
        (Threw stopError, w, [StopSampled batchIdx true])
      else
        let batchStart := batchIdx * batchSize in
        let batchEnd := (batchStart + batchSize) `min` length (items o) in
        let batch := slice (items o) batchStart batchEnd in
        let contexts :=
          imap (λ batchOffset item,
                  mkContext item (batchStart + batchOffset) (length (items o)))
               batch in
        let '(slots, w1, settleEvents) :=
          settleAll (executeTask o) (completion batchIdx)
                    (imap (λ batchOffset context, (batchOffset, context)) contexts)
                    (replicate (length batch) None) w (length batch) in
        let started :=
          StopSampled batchIdx false :: OnBatchStart batchIdx (length batch)
            :: (Dispatched batchIdx <$> contexts) ++ settleEvents in
        match promiseAll slots with
        | None => (NeverSettles, w1, started)
        | Some batchResults =>
            match find (λ r, negb (success r)) batchResults with
            | Some (Failure error _) => (Threw error, w1, started)
            | _ =>
                let successfulResults :=
                  omap resultOf (filter (λ r, success r = true) batchResults) in
                let waited :=
                  if bool_decide (batchIdx < totalBatches - 1)
                     && bool_decide (0 < rateLimitMs o)%Z
                  then [Waited (rateLimitMs o)] else [] in
                let '(out, w2, evs) :=
                  batchLoop o batchSize totalBatches remaining' (S batchIdx)
                            (allResults ++ successfulResults) w1 in
                (out, w2,
                 started ++ OnBatchComplete batchIdx successfulResults
                   :: waited ++ evs)
            end
        end
  end.

(** [Math.ceil(items.length / batchSize)] for a positive [batchSize]. *)
Definition ceilDiv (n d : nat) : nat := (n + d - 1) / d.

Definition executeBatched (o : ParallelExecutionOptions) (w : W)
  : Outcome * W * list Event :=
  if bool_decide (length (items o) = 0) then (Returned [], w, [])
  else if bool_decide (concurrency o ≤ 0)%Z then (Threw concurrencyError, w, [])
  else
    let batchSize := Z.to_nat (concurrency o) in
    let totalBatches := ceilDiv (length (items o)) batchSize in
    batchLoop o batchSize totalBatches totalBatches 0 [] w.

Definition executeParallel (items : list T) (concurrency : Z) (runId : string)
    (phaseName : string) (executeTask : Task) (w : W)
  : Outcome * W * list Event :=
  executeBatched (mkOptions items concurrency 0%Z runId phaseName executeTask) w.

(** *** Reading a trace *)

(** The task whose promise an event reports as settled. *)
Definition settledBy (e : Event) : option ParallelTaskContext :=
  match e with
  | OnTaskComplete c _ | OnError c _ => Some c
  | _ => None
  end.

(** The world after the tasks reported settled in [evs] have had their
    effect, in the order of the trace. *)
Fixpoint replay (exec : Task) (evs : list Event) (w : W) : W :=
  match evs with
  | [] => w
  | e :: evs' =>
      match settledBy e with
      | Some c => replay exec evs' (settleTask exec c w).2
      | None => replay exec evs' w
      end
  end.

(** The world after the tasks of the contexts [cs] have run one after
    the other from [w], each in the world the one before left. *)
Definition effects (exec : Task) (cs : list ParallelTaskContext) (w : W) : W :=
  foldl (λ w c, (exec c w).2) w cs.

(** A trace is faithful from [w] when every settle event reports what
    the task produced in the world it ran in, and every sample of the
    stop flag reports the flag of the world at that point. *)
Fixpoint faithful (exec : Task) (run : string) (evs : list Event) (w : W) : Prop :=
  match evs with
  | [] => True
  | e :: evs' =>
      match e with
      | OnTaskComplete c _ | OnError c _ =>
          e = settleEvent (settleTask exec c w).1
          ∧ faithful exec run evs' (settleTask exec c w).2
      | StopSampled _ stop =>
          stop = shouldStop run w ∧ faithful exec run evs' w
      | _ => faithful exec run evs' w
      end
  end.

Definition dispatches (evs : list Event) : list (nat * ParallelTaskContext) :=
  omap (λ e, match e with Dispatched b c => Some (b, c) | _ => None end) evs.

Definition batchStarts (evs : list Event) : list (nat * nat) :=
  omap (λ e, match e with OnBatchStart b n => Some (b, n) | _ => None end) evs.

Definition stopSamples (evs : list Event) : list (nat * bool) :=
  omap (λ e, match e with StopSampled b s => Some (b, s) | _ => None end) evs.

Definition settles (evs : list Event) : list ParallelTaskContext :=
  omap settledBy evs.

(** *** The shape of a run *)

(** The contexts the loop builds in iteration [b]. *)
Definition batchContexts (o : ParallelExecutionOptions) (batchSize b : nat)
  : list ParallelTaskContext :=
  imap (λ batchOffset item,
          mkContext item (b * batchSize + batchOffset) (length (items o)))
       (slice (items o) (b * batchSize)
              ((b * batchSize + batchSize) `min` length (items o))).

(** The events of iteration [b] up to the point where [Promise.all]
    resolves, [sevs] being the settle events in completion order. *)
Definition batchEvents (b : nat) (contexts : list ParallelTaskContext)
    (sevs : list Event) : list Event :=
  StopSampled b false :: OnBatchStart b (length contexts)
    :: (Dispatched b <$> contexts) ++ sevs.

Definition waitEvents (o : ParallelExecutionOptions) (totalBatches b : nat)
  : list Event :=
  if bool_decide (b < totalBatches - 1) && bool_decide (0 < rateLimitMs o)%Z
  then [Waited (rateLimitMs o)] else [].

(** [Run o batchSize totalBatches b acc out evs]: entered at iteration
    [b] with [acc] collected so far, the loop ends with [out] and emits
    [evs].  The four rules are the four ways an iteration can go: the
    loop condition fails, the stop flag is set, some task of the batch
    failed, or the whole batch succeeded. *)
Inductive Run (o : ParallelExecutionOptions) (batchSize totalBatches : nat)
  : nat → list R → Outcome → list Event → Prop :=
| Run_done b acc :
    b = totalBatches →
    Run o batchSize totalBatches b acc (Returned acc) []
| Run_stopped b acc :
    b < totalBatches →
    Run o batchSize totalBatches b acc (Threw stopError) [StopSampled b true]
| Run_failed b acc batchResults sevs ok error context rest :
    b < totalBatches →
    settledContext <$> batchResults = batchContexts o batchSize b →
    sevs ≡ₚ settleEvent <$> batchResults →
    batchResults = ok ++ Failure error context :: rest →
    Forall (λ s, success s = true) ok →
    Run o batchSize totalBatches b acc (Threw error)
        (batchEvents b (batchContexts o batchSize b) sevs)
| Run_next b acc batchResults sevs out evs :
    b < totalBatches →
    settledContext <$> batchResults = batchContexts o batchSize b →
    sevs ≡ₚ settleEvent <$> batchResults →
    Forall (λ s, success s = true) batchResults →
    Run o batchSize totalBatches (S b) (acc ++ omap resultOf batchResults) out evs →
    Run o batchSize totalBatches b acc out
        (batchEvents b (batchContexts o batchSize b) sevs
           ++ OnBatchComplete b (omap resultOf batchResults)
           :: waitEvents o totalBatches b ++ evs).

End Executor.
End ParallelExecutor.

(** *** More trace vocabulary: the sleeps and the batch observer *)

Module ParallelExecutorTrace.
Import ParallelExecutor.
Section Trace.
Context {T R : Type}.

(** The delays the executor slept for, in order
    ([setTimeout(resolve, rateLimitMs)]). *)
Definition waits (evs : list (@Event T R)) : list Z :=
omap (λ e, match e with Waited ms => Some ms | _ => None end) evs.

(** What [onBatchComplete] was called with, in order. *)
Definition batchCompletes (evs : list (@Event T R)) : list (nat * list R) :=
omap (λ e, match e with OnBatchComplete b rs => Some (b, rs) | _ => None end) evs.

End Trace.
End ParallelExecutorTrace.


(** ** The parallelism resolver, [src/types/parallelism.ts] *)

(** [PhaseId]: the five string literals. *)
Inductive PhaseId := Ingest | Indexing | Search | Answer | Evaluate.

Global Instance PhaseId_eq_dec : EqDecision PhaseId.
Proof. solve_decision. Defined.

Module Parallelism.

(** [ParallelismConfig].  The interface declares [default] as required,
    but the resolver tests it against [undefined] like the others, and
    providers declare configurations without it; every key is optional
    here.  The numbers are whole numbers. *)
Record ParallelismConfig := mkConfig {
  default : option Z;
  ingest : option Z;
  indexing : option Z;
  search : option Z;
  answer : option Z;
  evaluate : option Z;
}.

(** [config[phase]] *)
Definition perPhase (config : ParallelismConfig) (phase : PhaseId) : option Z :=
  match phase with
  | Ingest => ingest config
  | Indexing => indexing config
  | Search => search config
  | Answer => answer config
  | Evaluate => evaluate config
  end.

Definition resolveParallelism (phase : PhaseId)
    (cliConfig providerDefault : option ParallelismConfig) : Z :=
  (* Priority 1: CLI per-phase flag *)
  match cliConfig ≫= (λ c, perPhase c phase) with
  | Some n => n
  | None =>
  (* Priority 2: CLI default flag *)
  match cliConfig ≫= default with
  | Some n => n
  | None =>
  (* Priority 3: Provider per-phase default *)
  match providerDefault ≫= (λ c, perPhase c phase) with
  | Some n => n
  | None =>
  (* Priority 4: Provider default *)
  match providerDefault ≫= default with
  | Some n => n
  | None =>
  (* Priority 5: Global default (sequential) *)
  1%Z
  end end end end.

(** The priority chain in the words of the specification: the first
    defined of [callerConfig[phase]], [callerConfig.default],
    [providerDefault[phase]], [providerDefault.default], else 1. *)
Definition priorityChain (phase : PhaseId)
    (callerConfig providerDefault : option ParallelismConfig) : list (option Z) :=
  [ callerConfig ≫= (λ c, perPhase c phase);
    callerConfig ≫= default;
    providerDefault ≫= (λ c, perPhase c phase);
    providerDefault ≫= default ].

Definition resolveSpec (phase : PhaseId)
    (callerConfig providerDefault : option ParallelismConfig) : Z :=
  from_option id 1%Z (head (omap id (priorityChain phase callerConfig providerDefault))).

(** Every number a configuration defines is positive. *)
Definition allPositive (config : option ParallelismConfig) : Prop :=
  ∀ c, config = Some c →
    ∀ n, n ∈ [default c; ingest c; indexing c; search c; answer c; evaluate c] →
         from_option (λ n, 0 < n)%Z True n.

Definition noConfig : ParallelismConfig := mkConfig None None None None None None.

End Parallelism.

(** ** [String.prototype.replace] with a string pattern

  [buildAnswerPrompt] fills a template with
  [template.replace(placeholder, value)].  With a string as pattern the
  built-in (ECMAScript, String.prototype.replace) looks for the first
  occurrence of the pattern; when there is none the string is returned
  as it is, otherwise the result is the text before the occurrence, the
  expansion of the replacement by [GetSubstitution], and the text after
  the occurrence.  A string is its sequence of code units. *)

Module JsString.

(** [stripPrefix pat s]: what follows [pat] when [s] starts with it. *)
Fixpoint stripPrefix (pat s : string) : option string :=
  match pat, s with
  | EmptyString, _ => Some s
  | String a pat', String b s' =>
      if bool_decide (a = b) then stripPrefix pat' s' else None
  | String _ _, EmptyString => None
  end.

(** The text before and the text after the first occurrence of
    [searchValue] (StringIndexOf from position 0 and the two substrings
    around the match). *)
Fixpoint splitAtFirst (searchValue s : string) : option (string * string) :=
  match stripPrefix searchValue s with
  | Some following => Some (EmptyString, following)
  | None =>
      match s with
      | EmptyString => None
      | String c s' =>
          match splitAtFirst searchValue s' with
          | Some (preceding, following) => Some (String c preceding, following)
          | None => None
          end
      end
  end.

(** GetSubstitution for a match without capture groups: [$$] is a
    dollar, [$&] the matched text, [$`] the text before the match, [$']
    the text after it; a dollar followed by anything else, digits and
    [<] included, stands for itself. *)
Fixpoint GetSubstitution (matched preceding following replacementTemplate : string)
  : string :=
  match replacementTemplate with
  | EmptyString => EmptyString
  | String "$"%char (String "$"%char rest) =>
      String "$"%char (GetSubstitution matched preceding following rest)
  | String "$"%char (String "&"%char rest) =>
      matched +:+ GetSubstitution matched preceding following rest
  | String "$"%char (String "`"%char rest) =>
      preceding +:+ GetSubstitution matched preceding following rest
  | String "$"%char (String "'"%char rest) =>
      following +:+ GetSubstitution matched preceding following rest
  | String c rest =>
      String c (GetSubstitution matched preceding following rest)
  end.

Definition replace (searchValue replaceValue s : string) : string :=
  match splitAtFirst searchValue s with
  | None => s
  | Some (preceding, following) =>
      preceding
        +:+ GetSubstitution searchValue preceding following replaceValue
        +:+ following
  end.

(** [pat] occurs in [s]; [pat] occurs in [s] at two places that do not
    overlap. *)
Definition occurs (pat s : string) : Prop :=
  ∃ x y, s = x +:+ pat +:+ y.

Definition occursTwice (pat s : string) : Prop :=
  ∃ x y z, s = x +:+ pat +:+ y +:+ pat +:+ z.

(** Occurrences of [p] and of [q] in one string never overlap: of any
    two, one lies wholly before the other. *)
Definition apart (p q : string) : Prop :=
  ∀ x y pre post,
    x +:+ p +:+ y = pre +:+ q +:+ post →
    (∃ m, x = pre +:+ q +:+ m ∧ post = m +:+ p +:+ y)
    ∨ (∃ m, pre = x +:+ p +:+ m ∧ y = m +:+ q +:+ post).

(** No dollar sign: the replacement is inserted as it is. *)
Fixpoint plain (s : string) : bool :=
  match s with
  | EmptyString => true
  | String c rest => negb (bool_decide (c = "$"%char)) && plain rest
  end.

End JsString.
(** *** Texts without an opening brace *)

Module JsChars.

(** No opening brace: the text holds no placeholder and no part of
one. *)
Fixpoint noBrace (s : string) : bool :=
match s with
| EmptyString => true
| String c rest => negb (bool_decide (c = "{"%char)) && noBrace rest
end.

End JsChars.


(** ** The benchmark source *)

Module Benchmark.

(** [UnifiedSession]; of its metadata the phases read the key [date]. *)
Record UnifiedSession := mkSession {
  sessionId : string;
  messages : list string;
  date : option string;
}.

Record UnifiedQuestion := mkQuestion {
  questionId : string;
  question : string;
  questionType : string;
  groundTruth : string;
}.

Record Benchmark := mkBenchmark {
  getQuestions : list UnifiedQuestion;
  getHaystackSessions : string → list UnifiedSession;
}.

End Benchmark.

(** ** The checkpoint

  The declarations of [types/checkpoint] and the class
  [CheckpointManager] are not among the sources; the data is modelled
  from the way the phases read and write it, the operations from the
  specification. *)

Module Checkpoint.

Inductive PhaseStatus := pending | in_progress | completed | failed.

Global Instance PhaseStatus_eq_dec : EqDecision PhaseStatus.
Proof. solve_decision. Defined.

(** A record a provider returned from a search: opaque to the phases,
    kept as its JSON text. *)
Definition SearchRecord : Type := string.

(** [IngestResult]: [{ documentIds, taskIds? }] *)
Record IngestResult := mkIngestResult {
  documentIds : list string;
  taskIds : option (list string);
}.

Record RetrievalMetrics := mkRetrievalMetrics {
  k : nat;
  hitAtK : bool;
  mrr : Fraction;
}.

Record SessionMetadata := mkSessionMetadata {
  sessionId : string;
  date : option string;
  messageCount : nat;
}.

(** The state of one phase of one question is a JavaScript object that
    [updatePhase] merges partial objects into: a finite map from keys to
    values.  The keys the phases use are [status], [startedAt],
    [completedAt], [durationMs], [error], and per phase
    [completedSessions], [ingestResult] (ingest), [resultFile], [results]
    (search), [hypothesis] (answer), [score], [label], [explanation],
    [retrievalMetrics] (evaluate). *)
Inductive Value :=
| Status (s : PhaseStatus)
| Str (s : string)
| Num (n : Z)
| Strs (l : list string)
| Ingested (r : IngestResult)
| Records (l : list SearchRecord)
| Metrics (m : RetrievalMetrics)
| Undefined.

Abbreviation PhaseState := (gmap string Value).

Record QuestionCheckpoint := mkQuestionCheckpoint {
  questionId : string;
  containerTag : string;
  questionDate : option string;
  sessions : list SessionMetadata;
  phases : PhaseId → PhaseState;
}.

Record RunCheckpoint := mkRunCheckpoint {
  runId : string;
  dataSourceRunId : string;
  answeringModel : string;
  parallelism : option Parallelism.ParallelismConfig;
  questions : gmap string QuestionCheckpoint;
}.

(** *** Reading a phase state *)

Definition statusOf (st : PhaseState) : option PhaseStatus :=
  match st !! "status" with Some (Status s) => Some s | _ => None end.

Definition stringOf (key : string) (st : PhaseState) : option string :=
  match st !! key with Some (Str s) => Some s | _ => None end.

Definition completedSessionsOf (st : PhaseState) : option (list string) :=
  match st !! "completedSessions" with Some (Strs l) => Some l | _ => None end.

Definition ingestResultOf (st : PhaseState) : option IngestResult :=
  match st !! "ingestResult" with Some (Ingested r) => Some r | _ => None end.

Definition resultsOf (st : PhaseState) : option (list SearchRecord) :=
  match st !! "results" with Some (Records l) => Some l | _ => None end.

(** A string that is defined and not empty: what JavaScript takes for
    true where the phases test a string. *)
Definition truthy (s : option string) : Prop :=
  ∃ text, s = Some text ∧ text ≠ "".

Global Instance truthy_dec s : Decision (truthy s).
Proof.
  refine (match s with
          | Some text => cast_if (decide (text ≠ ""))
          | None => right _
          end); unfold truthy; naive_solver.
Defined.

(** [checkpoint.questions[questionId]?.phases[phase]] *)
Definition phaseOf (checkpoint : RunCheckpoint) (questionId : string)
    (phase : PhaseId) : option PhaseState :=
  (λ q, phases q phase) <$> questions checkpoint !! questionId.

(** *** The operations of [CheckpointManager] on the in-memory object *)

(** Modelled from the spec: [getPhaseStatus(run, questionId, phase)],
    whose code is not among the sources; "defaults to [pending] if
    absent". *)
Definition getPhaseStatus (checkpoint : RunCheckpoint) (questionId : string)
    (phase : PhaseId) : PhaseStatus :=
  default pending (phaseOf checkpoint questionId phase ≫= statusOf).

Definition setPhase (q : QuestionCheckpoint) (phase : PhaseId) (st : PhaseState)
  : QuestionCheckpoint :=
  mkQuestionCheckpoint (questionId q) (containerTag q) (questionDate q)
    (sessions q) (<[phase := st]> (phases q)).

Definition setQuestions (checkpoint : RunCheckpoint)
    (qs : gmap string QuestionCheckpoint) : RunCheckpoint :=
  mkRunCheckpoint (runId checkpoint) (dataSourceRunId checkpoint)
    (answeringModel checkpoint) (parallelism checkpoint) qs.

(** Modelled from the spec: the merge of [updatePhase], whose code is not
    among the sources: "merges the given fields into existing PhaseState
    (keyed merge, never clobbers unrelated fields)".  A question without
    an entry has no state to merge into and is left absent. *)
Definition mergePhase (checkpoint : RunCheckpoint) (questionId : string)
    (phase : PhaseId) (updates : PhaseState) : RunCheckpoint :=
  setQuestions checkpoint
    (alter (λ q, setPhase q phase (updates ∪ phases q phase)) questionId
           (questions checkpoint)).

(** Modelled from the spec: [updateSessionsMetadata(run, questionId,
    sessions)], called [updateSessions] by the ingest phase. *)
Definition setSessions (checkpoint : RunCheckpoint) (questionId : string)
    (metadata : list SessionMetadata) : RunCheckpoint :=
  setQuestions checkpoint
    (alter (λ q, mkQuestionCheckpoint (Checkpoint.questionId q) (containerTag q)
                   (questionDate q) metadata (phases q))
           questionId (questions checkpoint)).

(** [completedSessions.push(sessionId)] on the array held by the
    in-memory checkpoint: the local variable of the ingest task and the
    checkpoint share the array, so the checkpoint changes without any
    call to the manager. *)
Definition pushCompletedSession (checkpoint : RunCheckpoint)
    (questionId sessionId : string) : RunCheckpoint :=
  setQuestions checkpoint
    (alter (λ q, setPhase q Ingest
                   (alter (λ v, match v with
                                | Strs l => Strs (l ++ [sessionId])
                                | v => v
                                end)
                          "completedSessions" (phases q Ingest)))
           questionId (questions checkpoint)).

End Checkpoint.

(** ** The world of the phase runners *)

Module Phases.
Export Checkpoint.

Section Engine.

(** Everything outside the process: the backends behind the provider,
    the language model and the judge, the wall clock, the stop flags of
    the server.  Calls to collaborators read and change it. *)
Context {Backend : Type}.

(** [shouldStop(runId)] of [server/runState] and [Date.now()]: readings
    of the outside; [new Date().toISOString()] renders an instant. *)
Variable shouldStop : string → Backend → bool.
Variable now : Backend → Z.
Variable toISOString : Z → string.

(** *** Collaborators *)

Record SearchOptions := mkSearchOptions {
  searchContainerTag : string;
  limit : Z;
  threshold : Fraction;
}.

Inductive AnswerPrompt :=
| TemplatePrompt (template : string)
| BuilderPrompt (build : string → list SearchRecord → option string → string).

(** [ProviderPrompts]; the keys other than [answerPrompt] are only
    handed to the judge. *)
Record ProviderPrompts := mkPrompts {
  answerPrompt : option AnswerPrompt;
}.

Record Provider := mkProvider {
  ingest : list Benchmark.UnifiedSession → string
           → Backend → (IngestResult + Thrown) * Backend;
  awaitIndexing : IngestResult → string → Backend → (unit + Thrown) * Backend;
  search : string → SearchOptions
           → Backend → (list SearchRecord + Thrown) * Backend;
  defaultParallelism : option Parallelism.ParallelismConfig;
  prompts : option ProviderPrompts;
}.

Record JudgeInput := mkJudgeInput {
  judgeQuestion : string;
  judgeQuestionType : string;
  judgeGroundTruth : string;
  judgeHypothesis : option string;
  providerPrompts : option ProviderPrompts;
}.

Record JudgeResult := mkJudgeResult {
  score : Z;
  label : string;
  explanation : string;
}.

Record Judge := mkJudge {
  judgeName : string;
  evaluate : JudgeInput → Backend → (JudgeResult + Thrown) * Backend;
  getModel : string;
}.

Inductive ModelProvider := openai | anthropic | google.

Record ModelConfig := mkModelConfig {
  modelId : string;
  displayName : string;
  modelProvider : ModelProvider;
  defaultMaxTokens : Z;
  supportsTemperature : bool;
  defaultTemperature : Fraction;
}.

Record GenerateParams := mkGenerateParams {
  model : ModelProvider * string;
  prompt : string;
  maxTokens : Z;
  temperature : option Fraction;
}.

(** Functions of the repository and of its libraries whose code is not
    among the sources: [getModelConfig] and [DEFAULT_ANSWERING_MODEL]
    ([utils/models]), [generateText] ([ai]), [buildDefaultAnswerPrompt]
    ([prompts/defaults]), [buildContextString] ([types/prompts]),
    [calculateRetrievalMetrics] ([./retrieval-eval]),
    [getResultsDir] ([CheckpointManager]), [String.prototype.trim] and
    [path.join]. *)
Variable getModelConfig : string → ModelConfig.
Variable DEFAULT_ANSWERING_MODEL : string.
Variable generateText : GenerateParams → Backend → (string + Thrown) * Backend.
Variable buildDefaultAnswerPrompt : string → list SearchRecord → option string → string.
Variable buildContextString : list SearchRecord → string.
Variable calculateRetrievalMetrics :
  string → string → string → list SearchRecord
  → Backend → (option RetrievalMetrics + Thrown) * Backend.
Variable getResultsDir : string → string.
Variable trim : string → string.
Variable join : string → string → string.

(** When both promises of the [Promise.all] of the evaluate task reject,
    the one that rejects first decides the error. *)
Variable judgeRejectsFirst : Backend → bool.

(** *** The world *)

(** The JSON artifact the search phase writes and the answer phase
    parses, kept parsed ([JSON.parse] undoes [JSON.stringify] on it). *)
Record ResultData := mkResultData {
  rdQuestionId : string;
  rdQuestion : string;
  rdQuestionType : string;
  rdGroundTruth : string;
  rdContainerTag : string;
  rdTimestamp : string;
  rdDurationMs : Z;
  rdResults : option (list SearchRecord);
}.

(** The calls made to collaborators, as they are made. *)
Inductive Call :=
| IngestCall (sessions : list Benchmark.UnifiedSession) (containerTag : string)
| AwaitIndexingCall (ingestResult : IngestResult) (containerTag : string)
| SearchCall (query : string) (options : SearchOptions)
| GenerateTextCall (params : GenerateParams)
| JudgeCall (input : JudgeInput)
| RetrievalMetricsCall (question groundTruth : string) (results : list SearchRecord).

Record World := mkWorld {
  checkpoint : RunCheckpoint;            (* the in-memory checkpoint object *)
  durable : gmap string RunCheckpoint;   (* the saved checkpoints, by run id *)
  files : gmap string ResultData;        (* the result files, by path *)
  directories : gset string;
  backend : Backend;
  calls : list Call;
}.

(** The manager writes the whole checkpoint through to durable storage. *)
Definition save (w : World) (c : RunCheckpoint) : World :=
  mkWorld c (<[runId c := c]> (durable w)) (files w) (directories w)
          (backend w) (calls w).

(** A change of the in-memory object that no call to the manager
    accompanies. *)
Definition mutate (w : World) (c : RunCheckpoint) : World :=
  mkWorld c (durable w) (files w) (directories w) (backend w) (calls w).

(** Modelled from the spec: [updatePhase(run, questionId, phase,
    partialFields)] of [CheckpointManager], whose code is not among the
    sources: the keyed merge, and "every [updatePhase] call is a
    synchronous durable write". *)
Definition updatePhase (w : World) (questionId : string) (phase : PhaseId)
    (updates : PhaseState) : World :=
  save w (mergePhase (checkpoint w) questionId phase updates).

Definition updateSessions (w : World) (questionId : string)
    (metadata : list SessionMetadata) : World :=
  save w (setSessions (checkpoint w) questionId metadata).

(** [await collaborator(...)]: the call is journalled, the outside
    changes, the result or the rejection comes back. *)
Definition await {A} (c : Call) (f : Backend → (A + Thrown) * Backend)
    (w : World) : (A + Thrown) * World :=
  let '(r, b) := f (backend w) in
  (r, mkWorld (checkpoint w) (durable w) (files w) (directories w) b
              (calls w ++ [c])).

(** [writeFileSync(path, data)]: the file at [path] then holds [data].
    The write is taken to succeed; a write the file system refuses (a
    path into a directory that does not exist, say) is not modelled. *)
Definition writeFileSync (w : World) (path : string) (data : ResultData) : World :=
  mkWorld (checkpoint w) (durable w) (<[path := data]> (files w))
          (directories w) (backend w) (calls w).

Definition mkdirSync (w : World) (path : string) : World :=
  mkWorld (checkpoint w) (durable w) (files w) ({[path]} ∪ directories w)
          (backend w) (calls w).

Definition existsSync (w : World) (path : string) : bool :=
  bool_decide (is_Some (files w !! path) ∨ path ∈ directories w).

(** Reading a property of [undefined] throws a [TypeError]; its message
    depends on the engine. *)
Definition typeError : Thrown :=
  ThrownError (mkError "TypeError: undefined is not an object").

(** What every per-question task resolves to: [{ questionId,
    durationMs }], with the label for the evaluate phase. *)
Record TaskReport := mkReport {
  reportQuestionId : string;
  reportDurationMs : Z;
  reportLabel : option string;
}.

(** The standard remediation message of the [catch] blocks. *)
Definition failedAt (what questionId error : string) : Thrown :=
  ThrownError (mkError (what +:+ " failed at " +:+ questionId +:+ ": " +:+ error
                          +:+ ". Fix the issue and resume with the same run ID.")).

(** The [catch] block shared by the five tasks:
    [updatePhase(..., { status: "failed", error })], then the [throw]. *)
Definition recordFailure (what : string) (phase : PhaseId) (questionId : string)
    (e : Thrown) (w : World) : (TaskReport + Thrown) * World :=
  let error := errorText e in
  let w := updatePhase w questionId phase
             {[ "status" := Status failed; "error" := Str error ]} in
  (inr (failedAt what questionId error), w).


(** *** The ingest phase, [src/orchestrator/phases/ingest.ts] *)

Definition RATE_LIMIT_MS : Z := 1000.

(** The container tag of the ingest task:
    [`${question.questionId}-${checkpoint.dataSourceRunId}`]. *)
Definition ingestContainerTag (question : Benchmark.UnifiedQuestion)
    (c : RunCheckpoint) : string :=
  Benchmark.questionId question +:+ "-" +:+ dataSourceRunId c.

(** The [for (const session of sessions)] loop of the ingest task.
    [completedSessions] is the array held by the checkpoint: it is read
    from the checkpoint where the loop reads it, [push] changes it in the
    checkpoint, and the array handed to [updatePhase] is that same
    array after the [push]. *)
Fixpoint ingestSessions (provider : Provider) (containerTag questionId : string)
    (sessions : list Benchmark.UnifiedSession) (combinedResult : IngestResult)
    (w : World) : (IngestResult + Thrown) * World :=
  match sessions with
  | [] => (inl combinedResult, w)
  | session :: rest =>
      match phaseOf (checkpoint w) questionId Ingest ≫= completedSessionsOf with
      | None => (inr typeError, w)
      | Some completedSessions =>
          if bool_decide (Benchmark.sessionId session ∈ completedSessions)
          then ingestSessions provider containerTag questionId rest combinedResult w
          else
            match await (IngestCall [session] containerTag)
                        (ingest provider [session] containerTag) w with
            | (inr e, w) => (inr e, w)
            | (inl result, w) =>
                let combinedResult :=
                  mkIngestResult
                    (documentIds combinedResult ++ documentIds result)
                    (Some (default [] (taskIds combinedResult)
                             ++ default [] (taskIds result))) in
                let w := mutate w (pushCompletedSession (checkpoint w) questionId
                                     (Benchmark.sessionId session)) in
                let completedSessions :=
                  completedSessions ++ [Benchmark.sessionId session] in
                let w :=
                  updatePhase w questionId Ingest
                    {[ "completedSessions" := Strs completedSessions ]} in
                ingestSessions provider containerTag questionId rest combinedResult w
            end
      end
  end.

(** The [try] block of the ingest task. *)
Definition ingestQuestion (provider : Provider) (containerTag : string)
    (question : Benchmark.UnifiedQuestion)
    (sessions : list Benchmark.UnifiedSession) (startTime : Z) (w : World)
  : (TaskReport + Thrown) * World :=
  let questionId := Benchmark.questionId question in
  match questions (checkpoint w) !! questionId with
  | None => (inr typeError, w)
  | Some _ =>
      match ingestSessions provider containerTag questionId sessions
              (mkIngestResult [] (Some [])) w with
      | (inr e, w) => (inr e, w)
      | (inl combinedResult, w) =>
          let combinedResult :=
            match taskIds combinedResult with
            | Some [] => mkIngestResult (documentIds combinedResult) None
            | _ => combinedResult
            end in
          let existingResult :=
            phaseOf (checkpoint w) questionId Ingest ≫= ingestResultOf in
          let combinedResult :=
            match existingResult with
            | None => combinedResult
            | Some existingResult =>
                mkIngestResult
                  (documentIds existingResult ++ documentIds combinedResult)
                  (match taskIds existingResult, taskIds combinedResult with
                   | None, None => None
                   | existing, combined =>
                       Some (default [] existing ++ default [] combined)
                   end)
            end in
          let durationMs := (now (backend w) - startTime)%Z in
          let w :=
            updatePhase w questionId Ingest
              {[ "status" := Status completed;
                 "ingestResult" := Ingested combinedResult;
                 "completedAt" := Str (toISOString (now (backend w)));
                 "durationMs" := Num durationMs ]} in
          (inl (mkReport questionId durationMs None), w)
      end
  end.

(** The task function given to the executor by [runIngestPhase]. *)
Definition ingestTask (provider : Provider) (benchmark : Benchmark.Benchmark)
  : ParallelExecutor.Task (T := Benchmark.UnifiedQuestion) (R := TaskReport) (W := World) :=
  λ context w,
    let question := ParallelExecutor.item context in
    let questionId := Benchmark.questionId question in
    let containerTag := ingestContainerTag question (checkpoint w) in
    let sessions := Benchmark.getHaystackSessions benchmark questionId in
    let sessionsMetadata :=
      (λ s, mkSessionMetadata (Benchmark.sessionId s) (Benchmark.date s)
                              (length (Benchmark.messages s))) <$> sessions in
    let w := updateSessions w questionId sessionsMetadata in
    let startTime := now (backend w) in
    let w :=
      updatePhase w questionId Ingest
        {[ "status" := Status in_progress;
           "startedAt" := Str (toISOString (now (backend w))) ]} in
    match ingestQuestion provider containerTag question sessions startTime w with
    | (inl report, w) => (inl report, w)
    | (inr e, w) => recordFailure "Ingest" Ingest questionId e w
    end.

(** [questionIds ? questions.filter(q => questionIds.includes(q.questionId))
    : questions] *)
Definition targetQuestions (questions : list Benchmark.UnifiedQuestion)
    (questionIds : option (list string)) : list Benchmark.UnifiedQuestion :=
  match questionIds with
  | Some ids => filter (λ q, Benchmark.questionId q ∈ ids) questions
  | None => questions
  end.

(** What a phase runner did: it found nothing pending, logged that and
    returned; or it drove the executor, whose outcome and trace are
    given.  A runner has no [catch]: what the executor throws, the runner
    throws. *)
Inductive PhaseRun (T : Type) :=
| NothingPending
| Executed (out : @ParallelExecutor.Outcome TaskReport)
           (trace : list (@ParallelExecutor.Event T TaskReport)).
Arguments NothingPending {T}.
Arguments Executed {T} out trace.

Definition executed {T} (r : @ParallelExecutor.Outcome TaskReport * World
                             * list (@ParallelExecutor.Event T TaskReport))
  : PhaseRun T * World :=
  (Executed r.1.1 r.2, r.1.2).

(** The executor of the runners: the stop flag is read from the outside
    of the world. *)
Definition stopRequested (runId : string) (w : World) : bool :=
  shouldStop runId (backend w).

Variable completion : nat → list nat.

Definition ingestPending (benchmark : Benchmark.Benchmark) (c : RunCheckpoint)
    (questionIds : option (list string)) : list Benchmark.UnifiedQuestion :=
  filter (λ q, getPhaseStatus c (Benchmark.questionId q) Ingest ≠ completed)
         (targetQuestions (Benchmark.getQuestions benchmark) questionIds).

Definition runIngestPhase (provider : Provider) (benchmark : Benchmark.Benchmark)
    (questionIds : option (list string)) (w : World)
  : PhaseRun Benchmark.UnifiedQuestion * World :=
  let pendingQuestions := ingestPending benchmark (checkpoint w) questionIds in
  if bool_decide (length pendingQuestions = 0) then (NothingPending, w)
  else
    let concurrency :=
      Parallelism.resolveParallelism Ingest (parallelism (checkpoint w))
                                     (defaultParallelism provider) in
    executed
      (ParallelExecutor.executeBatched stopRequested completion
         (ParallelExecutor.mkOptions pendingQuestions concurrency RATE_LIMIT_MS
            (runId (checkpoint w)) "ingest" (ingestTask provider benchmark))
         w).

(** *** The indexing phase, [src/orchestrator/phases/indexing.ts] *)

(** [Object.values(checkpoint.questions)]; the order of the entries is
    that of the map, no property below depends on it. *)
Definition checkpointQuestions (c : RunCheckpoint) : list QuestionCheckpoint :=
  (map_to_list (questions c)).*2.

Definition targetCheckpoints (allQuestions : list QuestionCheckpoint)
    (questionIds : option (list string)) : list QuestionCheckpoint :=
  match questionIds with
  | Some ids => filter (λ q, questionId q ∈ ids) allQuestions
  | None => allQuestions
  end.

Definition indexingPending (c : RunCheckpoint)
    (questionIds : option (list string)) : list QuestionCheckpoint :=
  filter (λ q, statusOf (phases q Ingest) = Some completed
               ∧ statusOf (phases q Indexing) ≠ Some completed)
         (targetCheckpoints (checkpointQuestions c) questionIds).

(** [!ingestResult || (ingestResult.documentIds.length === 0 &&
    !ingestResult.taskIds?.length)] *)
Definition nothingToIndex (ingestResult : option IngestResult) : bool :=
  match ingestResult with
  | None => true
  | Some r =>
      bool_decide (length (documentIds r) = 0)
      && bool_decide (length (default [] (taskIds r)) = 0)
  end.

(** The [try] block of the indexing task. *)
Definition awaitIndexed (provider : Provider) (question : QuestionCheckpoint)
    (ingestResult : IngestResult) (startTime : Z) (w : World)
  : (TaskReport + Thrown) * World :=
  match await (AwaitIndexingCall ingestResult (containerTag question))
              (awaitIndexing provider ingestResult (containerTag question)) w with
  | (inr e, w) => (inr e, w)
  | (inl _, w) =>
      let durationMs := (now (backend w) - startTime)%Z in
      let w :=
        updatePhase w (questionId question) Indexing
          {[ "status" := Status completed;
             "completedAt" := Str (toISOString (now (backend w)));
             "durationMs" := Num durationMs ]} in
      (inl (mkReport (questionId question) durationMs None), w)
  end.

(** The task function of [runIndexingPhase].  The item is the question's
    checkpoint object; the task reads its ingest state, which no indexing
    task writes. *)
Definition indexingTask (provider : Provider)
  : ParallelExecutor.Task (T := QuestionCheckpoint) (R := TaskReport) (W := World) :=
  λ context w,
    let question := ParallelExecutor.item context in
    let ingestResult := ingestResultOf (phases question Ingest) in
    match ingestResult with
    | Some r =>
        if nothingToIndex ingestResult then
          let w :=
            updatePhase w (questionId question) Indexing
              {[ "status" := Status completed;
                 "completedAt" := Str (toISOString (now (backend w)));
                 "durationMs" := Num 0 ]} in
          (inl (mkReport (questionId question) 0 None), w)
        else
          let startTime := now (backend w) in
          let w :=
            updatePhase w (questionId question) Indexing
              {[ "status" := Status in_progress;
                 "startedAt" := Str (toISOString (now (backend w))) ]} in
          match awaitIndexed provider question r startTime w with
          | (inl report, w) => (inl report, w)
          | (inr e, w) =>
              recordFailure "Indexing" Indexing (questionId question) e w
          end
    | None =>
        let w :=
          updatePhase w (questionId question) Indexing
            {[ "status" := Status completed;
               "completedAt" := Str (toISOString (now (backend w)));
               "durationMs" := Num 0 ]} in
        (inl (mkReport (questionId question) 0 None), w)
    end.

Definition runIndexingPhase (provider : Provider)
    (questionIds : option (list string)) (w : World)
  : PhaseRun QuestionCheckpoint * World :=
  let toIndex := indexingPending (checkpoint w) questionIds in
  if bool_decide (length toIndex = 0) then (NothingPending, w)
  else
    let concurrency :=
      Parallelism.resolveParallelism Indexing (parallelism (checkpoint w))
                                     (defaultParallelism provider) in
    executed
      (ParallelExecutor.executeParallel stopRequested completion
         toIndex concurrency (runId (checkpoint w)) "indexing"
         (indexingTask provider) w).

(** *** The search phase, [src/orchestrator/phases/search.ts] *)

(** The container tag of the search task:
    [`${question.questionId}-${checkpoint.dataSourceRunId}`]. *)
Definition searchContainerTagOf (question : Benchmark.UnifiedQuestion)
    (c : RunCheckpoint) : string :=
  Benchmark.questionId question +:+ "-" +:+ dataSourceRunId c.

Definition searchPending (benchmark : Benchmark.Benchmark) (c : RunCheckpoint)
    (questionIds : option (list string)) : list Benchmark.UnifiedQuestion :=
  filter (λ q, getPhaseStatus c (Benchmark.questionId q) Search ≠ completed
               ∧ getPhaseStatus c (Benchmark.questionId q) Indexing = completed)
         (targetQuestions (Benchmark.getQuestions benchmark) questionIds).

(** The [try] block of the search task. *)
Definition searchQuestion (provider : Provider) (resultsDir containerTag : string)
    (question : Benchmark.UnifiedQuestion) (startTime : Z) (w : World)
  : (TaskReport + Thrown) * World :=
  let questionId := Benchmark.questionId question in
  let options := mkSearchOptions containerTag 10 (mkFraction 3 10) in
  match await (SearchCall (Benchmark.question question) options)
              (search provider (Benchmark.question question) options) w with
  | (inr e, w) => (inr e, w)
  | (inl results, w) =>
      let durationMs := (now (backend w) - startTime)%Z in
      let resultFile := join resultsDir (questionId +:+ ".json") in
      let resultData :=
        mkResultData questionId (Benchmark.question question)
          (Benchmark.questionType question) (Benchmark.groundTruth question)
          containerTag (toISOString (now (backend w))) durationMs
          (Some results) in
      let w := writeFileSync w resultFile resultData in
      let w :=
        updatePhase w questionId Search
          {[ "status" := Status completed;
             "resultFile" := Str resultFile;
             "results" := Records results;
             "completedAt" := Str (toISOString (now (backend w)));
             "durationMs" := Num durationMs ]} in
      (inl (mkReport questionId durationMs None), w)
  end.

Definition searchTask (provider : Provider) (resultsDir : string)
  : ParallelExecutor.Task (T := Benchmark.UnifiedQuestion) (R := TaskReport) (W := World) :=
  λ context w,
    let question := ParallelExecutor.item context in
    let questionId := Benchmark.questionId question in
    let containerTag := searchContainerTagOf question (checkpoint w) in
    let startTime := now (backend w) in
    let w :=
      updatePhase w questionId Search
        {[ "status" := Status in_progress;
           "startedAt" := Str (toISOString (now (backend w))) ]} in
    match searchQuestion provider resultsDir containerTag question startTime w with
    | (inl report, w) => (inl report, w)
    | (inr e, w) => recordFailure "Search" Search questionId e w
    end.

Definition runSearchPhase (provider : Provider) (benchmark : Benchmark.Benchmark)
    (questionIds : option (list string)) (w : World)
  : PhaseRun Benchmark.UnifiedQuestion * World :=
  let pendingQuestions := searchPending benchmark (checkpoint w) questionIds in
  if bool_decide (length pendingQuestions = 0) then (NothingPending, w)
  else
    let resultsDir := getResultsDir (runId (checkpoint w)) in
    let w := if existsSync w resultsDir then w else mkdirSync w resultsDir in
    let concurrency :=
      Parallelism.resolveParallelism Search (parallelism (checkpoint w))
                                     (defaultParallelism provider) in
    executed
      (ParallelExecutor.executeParallel stopRequested completion
         pendingQuestions concurrency (runId (checkpoint w)) "search"
         (searchTask provider resultsDir) w).

(** *** The answer phase, [src/orchestrator/phases/answer.ts] *)

(** [getAnsweringModel]: the client is chosen by the provider of the
    model and only called with the model id. *)
Definition getAnsweringModel (modelAlias : string) : ModelConfig :=
  getModelConfig (if bool_decide (modelAlias = "") then DEFAULT_ANSWERING_MODEL
                  else modelAlias).

(** [questionDate || "Not specified"] *)
Definition dateOrNotSpecified (questionDate : option string) : string :=
  match questionDate with
  | Some d => if bool_decide (d = "") then "Not specified" else d
  | None => "Not specified"
  end.

(** [provider?.prompts?.answerPrompt], when truthy: a function, or a
    string that is not empty. *)
Definition customAnswerPrompt (provider : option Provider) : option AnswerPrompt :=
  match (provider ≫= prompts) ≫= answerPrompt with
  | Some (TemplatePrompt template) =>
      if bool_decide (template = "") then None else Some (TemplatePrompt template)
  | other => other
  end.

Definition buildAnswerPrompt (question : string) (context : list SearchRecord)
    (questionDate : option string) (provider : option Provider) : string :=
  match customAnswerPrompt provider with
  | Some (BuilderPrompt customPrompt) => customPrompt question context questionDate
  | Some (TemplatePrompt customPrompt) =>
      let contextStr := buildContextString context in
      JsString.replace "{{context}}" contextStr
        (JsString.replace "{{questionDate}}" (dateOrNotSpecified questionDate)
           (JsString.replace "{{question}}" question customPrompt))
  | None => buildDefaultAnswerPrompt question context questionDate
  end.

Definition answerPending (benchmark : Benchmark.Benchmark) (w : World)
    (questionIds : option (list string)) : list Benchmark.UnifiedQuestion :=
  filter (λ q,
            let resultFile :=
              phaseOf (checkpoint w) (Benchmark.questionId q) Search
                ≫= stringOf "resultFile" in
            getPhaseStatus (checkpoint w) (Benchmark.questionId q) Answer ≠ completed
            ∧ getPhaseStatus (checkpoint w) (Benchmark.questionId q) Search = completed
            ∧ truthy resultFile
            ∧ existsSync w (default "" resultFile) = true)
         (targetQuestions (Benchmark.getQuestions benchmark) questionIds).

(** [JSON.parse(readFileSync(resultFile, "utf8"))] *)
Definition readResultFile (w : World) (resultFile : option string)
  : ResultData + Thrown :=
  match resultFile with
  | None => inr typeError
  | Some path =>
      match files w !! path with
      | Some data => inl data
      | None =>
          inr (ThrownError
                 (mkError ("ENOENT: no such file or directory, open '"
                             +:+ path +:+ "'")))
      end
  end.

(** The [try] block of the answer task. *)
Definition answerQuestion (modelConfig : ModelConfig) (provider : option Provider)
    (question : Benchmark.UnifiedQuestion) (resultFile : option string)
    (startTime : Z) (w : World) : (TaskReport + Thrown) * World :=
  let questionId := Benchmark.questionId question in
  match readResultFile w resultFile with
  | inr e => (inr e, w)
  | inl searchData =>
      let context := default [] (rdResults searchData) in
      let questionDate :=
        questions (checkpoint w) !! questionId ≫= questionDate in
      let prompt :=
        buildAnswerPrompt (Benchmark.question question) context
                          questionDate provider in
      let params :=
        mkGenerateParams (modelProvider modelConfig, modelId modelConfig)
          prompt (defaultMaxTokens modelConfig)
          (if supportsTemperature modelConfig
           then Some (defaultTemperature modelConfig) else None) in
      match await (GenerateTextCall params) (generateText params) w with
      | (inr e, w) => (inr e, w)
      | (inl text, w) =>
          let durationMs := (now (backend w) - startTime)%Z in
          let w :=
            updatePhase w questionId Answer
              {[ "status" := Status completed;
                 "hypothesis" := Str (trim text);
                 "completedAt" := Str (toISOString (now (backend w)));
                 "durationMs" := Num durationMs ]} in
          (inl (mkReport questionId durationMs None), w)
      end
  end.

Definition answerTask (modelConfig : ModelConfig) (provider : option Provider)
  : ParallelExecutor.Task (T := Benchmark.UnifiedQuestion) (R := TaskReport) (W := World) :=
  λ context w,
    let question := ParallelExecutor.item context in
    let questionId := Benchmark.questionId question in
    match questions (checkpoint w) !! questionId with
    | None => (inr typeError, w)
    | Some entry =>
        let resultFile := stringOf "resultFile" (phases entry Search) in
        let startTime := now (backend w) in
        let w :=
          updatePhase w questionId Answer
            {[ "status" := Status in_progress;
               "startedAt" := Str (toISOString (now (backend w))) ]} in
        match answerQuestion modelConfig provider question resultFile startTime w with
        | (inl report, w) => (inl report, w)
        | (inr e, w) => recordFailure "Answer" Answer questionId e w
        end
    end.

Definition runAnswerPhase (benchmark : Benchmark.Benchmark)
    (questionIds : option (list string)) (provider : option Provider) (w : World)
  : PhaseRun Benchmark.UnifiedQuestion * World :=
  let pendingQuestions := answerPending benchmark w questionIds in
  if bool_decide (length pendingQuestions = 0) then (NothingPending, w)
  else
    let modelConfig := getAnsweringModel (answeringModel (checkpoint w)) in
    let concurrency :=
      Parallelism.resolveParallelism Answer (parallelism (checkpoint w))
                                     (provider ≫= defaultParallelism) in
    executed
      (ParallelExecutor.executeParallel stopRequested completion
         pendingQuestions concurrency (runId (checkpoint w)) "answer"
         (answerTask modelConfig provider) w).

(** *** The evaluate phase, [src/orchestrator/phases/evaluate.ts] *)

Definition evaluatePending (benchmark : Benchmark.Benchmark) (c : RunCheckpoint)
    (questionIds : option (list string)) : list Benchmark.UnifiedQuestion :=
  filter (λ q,
            getPhaseStatus c (Benchmark.questionId q) Evaluate ≠ completed
            ∧ getPhaseStatus c (Benchmark.questionId q) Answer = completed
            ∧ truthy (phaseOf c (Benchmark.questionId q) Answer
                        ≫= stringOf "hypothesis"))
         (targetQuestions (Benchmark.getQuestions benchmark) questionIds).

(** [await Promise.all([judge.evaluate(...), calculateRetrievalMetrics(...)])]:
    both calls are made; the pair of results, or the rejection that came
    first. *)
Definition judgeAndMeasure (judge : Judge) (input : JudgeInput)
    (question groundTruth : string) (searchResults : list SearchRecord)
    (w : World) : (JudgeResult * option RetrievalMetrics + Thrown) * World :=
  let first := judgeRejectsFirst (backend w) in
  let '(result, w) := await (JudgeCall input) (evaluate judge input) w in
  let '(retrievalMetrics, w) :=
    await (RetrievalMetricsCall question groundTruth searchResults)
          (calculateRetrievalMetrics (getModel judge) question groundTruth
                                     searchResults) w in
  match result, retrievalMetrics with
  | inl result, inl retrievalMetrics => (inl (result, retrievalMetrics), w)
  | inr e, inl _ => (inr e, w)
  | inl _, inr e => (inr e, w)
  | inr e1, inr e2 => (inr (if first then e1 else e2), w)
  end.

(** The [try] block of the evaluate task. *)
Definition evaluateQuestion (judge : Judge) (provider : option Provider)
    (question : Benchmark.UnifiedQuestion) (hypothesis : option string)
    (startTime : Z) (w : World) : (TaskReport + Thrown) * World :=
  let questionId := Benchmark.questionId question in
  let searchResults :=
    default [] (phaseOf (checkpoint w) questionId Search ≫= resultsOf) in
  let input :=
    mkJudgeInput (Benchmark.question question)
      (Benchmark.questionType question) (Benchmark.groundTruth question)
      hypothesis (provider ≫= prompts) in
  match judgeAndMeasure judge input (Benchmark.question question)
          (Benchmark.groundTruth question) searchResults w with
  | (inr e, w) => (inr e, w)
  | (inl (result, retrievalMetrics), w) =>
      let durationMs := (now (backend w) - startTime)%Z in
      let w :=
        updatePhase w questionId Evaluate
          {[ "status" := Status completed;
             "score" := Num (score result);
             "label" := Str (label result);
             "explanation" := Str (explanation result);
             "retrievalMetrics" :=
               from_option Metrics Undefined retrievalMetrics;
             "completedAt" := Str (toISOString (now (backend w)));
             "durationMs" := Num durationMs ]} in
      (inl (mkReport questionId durationMs (Some (label result))), w)
  end.

Definition evaluateTask (judge : Judge) (provider : option Provider)
  : ParallelExecutor.Task (T := Benchmark.UnifiedQuestion) (R := TaskReport) (W := World) :=
  λ context w,
    let question := ParallelExecutor.item context in
    let questionId := Benchmark.questionId question in
    match questions (checkpoint w) !! questionId with
    | None => (inr typeError, w)
    | Some entry =>
        let hypothesis := stringOf "hypothesis" (phases entry Answer) in
        let startTime := now (backend w) in
        let w :=
          updatePhase w questionId Evaluate
            {[ "status" := Status in_progress;
               "startedAt" := Str (toISOString (now (backend w))) ]} in
        match evaluateQuestion judge provider question hypothesis startTime w with
        | (inl report, w) => (inl report, w)
        | (inr e, w) => recordFailure "Evaluate" Evaluate questionId e w
        end
    end.

Definition runEvaluatePhase (judge : Judge) (benchmark : Benchmark.Benchmark)
    (questionIds : option (list string)) (provider : option Provider) (w : World)
  : PhaseRun Benchmark.UnifiedQuestion * World :=
  let pendingQuestions := evaluatePending benchmark (checkpoint w) questionIds in
  if bool_decide (length pendingQuestions = 0) then (NothingPending, w)
  else
    let concurrency :=
      Parallelism.resolveParallelism Evaluate (parallelism (checkpoint w))
                                     (provider ≫= defaultParallelism) in
    executed
      (ParallelExecutor.executeParallel stopRequested completion
         pendingQuestions concurrency (runId (checkpoint w)) "evaluate"
         (evaluateTask judge provider) w).

(** *** Vocabulary for stating what the phases do *)

(** The questions that have an entry in the in-memory checkpoint. *)
Definition entries (w : World) : gset string := dom (questions (checkpoint w)).

(** The state of [phase] of [questionId] says [failed] with [error] as
    message, and the durable copy of the run is the in-memory
    checkpoint. *)
Definition failureRecorded (phase : PhaseId) (questionId error : string)
    (w : World) : Prop :=
  phaseOf (checkpoint w) questionId phase ≫= statusOf = Some failed
  ∧ phaseOf (checkpoint w) questionId phase ≫= stringOf "error" = Some error
  ∧ durable w !! runId (checkpoint w) = Some (checkpoint w).

(** A task that fails has recorded the failure of its [try] block and
    throws the remediation message in its place: [e] is what the [try]
    block threw. *)
Definition recordedThenThrown (what : string) (phase : PhaseId)
    (questionId : string) (e t : Thrown) (w : World) : Prop :=
  t = failedAt what questionId (errorText e)
  ∧ failureRecorded phase questionId (errorText e) w.


(** The ingest calls among the calls made, in order. *)
Definition ingestCalls (cs : list Call)
  : list (list Benchmark.UnifiedSession * string) :=
  omap (λ c, match c with IngestCall s t => Some (s, t) | _ => None end) cs.

Definition searchCalls (cs : list Call) : list (string * SearchOptions) :=
  omap (λ c, match c with SearchCall q o => Some (q, o) | _ => None end) cs.

(** The status a checkpoint object gives for a phase, [pending] when it
    gives none. *)
Definition statusIn (q : QuestionCheckpoint) (phase : PhaseId) : PhaseStatus :=
  default pending (statusOf (phases q phase)).

(** A runner called in world [w] with working set [workingSet]: with an
    empty working set it returns in [w] without having called the
    executor; otherwise it drives the executor, which dispatches only
    members of the working set. *)
Definition drivesExecutorOver {T} (run : PhaseRun T * World) (w : World)
    (workingSet : list T) : Prop :=
  match workingSet with
  | [] => run = (NothingPending, w)
  | _ :: _ =>
      ∃ out trace w',
        run = (Executed out trace, w')
        ∧ ∀ b c, ParallelExecutor.Dispatched b c ∈ trace
                 → ParallelExecutor.item c ∈ workingSet
  end.

(** *** Vocabulary for stating what the tasks leave alone *)

(** Two checkpoint objects of a question that differ at most in the
state of [phase] and in the session metadata. *)
Definition sameBut (phase : PhaseId) (q q2 : QuestionCheckpoint) : Prop :=
questionId q2 = questionId q
∧ containerTag q2 = containerTag q
∧ questionDate q2 = questionDate q
∧ ∀ phase', phase' ≠ phase → phases q2 phase' = phases q phase'.

(** From [w] to [w'] the checkpoint changed at most in the state of
[phase] of [questionId] (and in that question's session metadata): the
run's own fields and every other question are as they were, no entry
appeared or disappeared, and no result file or directory was
removed. *)
Definition touchesOnly (questionId : string) (phase : PhaseId)
  (w w' : World) : Prop :=
runId (checkpoint w') = runId (checkpoint w)
∧ dataSourceRunId (checkpoint w') = dataSourceRunId (checkpoint w)
∧ answeringModel (checkpoint w') = answeringModel (checkpoint w)
∧ parallelism (checkpoint w') = parallelism (checkpoint w)
∧ (∀ questionId', questionId' ≠ questionId →
     questions (checkpoint w') !! questionId'
     = questions (checkpoint w) !! questionId')
∧ option_Forall2 (sameBut phase)
    (questions (checkpoint w) !! questionId)
    (questions (checkpoint w') !! questionId)
∧ dom (files w) ⊆ dom (files w')
∧ directories w ⊆ directories w'.

(** Every checkpoint object is stored under its own question id. *)
Definition keyedById (c : RunCheckpoint) : Prop :=
∀ key q, questions c !! key = Some q → questionId q = key.

(** The checkpoint in durable storage is the in-memory one. *)
Definition persisted (w : World) : Prop :=
durable w !! runId (checkpoint w) = Some (checkpoint w).

(** The trace of the executor in a run of a phase, empty when the
runner returned without calling it. *)
Definition traceOf {T} (r : PhaseRun T)
  : list (@ParallelExecutor.Event T TaskReport) :=
match r with
| NothingPending => []
| Executed _ trace => trace
end.

(** The sessions the ingest loop hands to the provider when every call
succeeds, given the ids in [completedSessions] when it starts: the
sessions whose id is not there, a session that comes twice only the
first time. *)
Fixpoint sessionsToIngest (completedSessions : list string)
  (sessions : list Benchmark.UnifiedSession) : list Benchmark.UnifiedSession :=
match sessions with
| [] => []
| session :: rest =>
    if bool_decide (Benchmark.sessionId session ∈ completedSessions)
    then sessionsToIngest completedSessions rest
    else session
         :: sessionsToIngest (completedSessions ++ [Benchmark.sessionId session])
                             rest
end.


End Engine.

Arguments NothingPending {T}.
Arguments Executed {T} out trace.

End Phases.
(** ** The Graphiti provider, [src/providers/graphiti/index.ts]

  The provider talks to a Graphiti server over HTTP and keeps, in the
  memory of the process, the group it has used for each container tag.
  [fetch] is the outside: a request may be rejected (the promise of
  [fetch] rejects), or answered with a response whose body is read by
  [resp.text()] or [resp.json()], which may reject as well.  The
  rendering of a session's messages into the request body is not
  modelled: the body of a [POST /messages] is given by the group id and
  the session.  [initialize] and the polling loop of [awaitIndexing] are
  not modelled. *)

Module Graphiti.
Import Phases.

(** *** The group of a container tag *)

(** [[a-zA-Z0-9_-]], on code units. *)
Definition allowed (c : ascii) : bool :=
let n := nat_of_ascii c in
(bool_decide (97 ≤ n) && bool_decide (n ≤ 122))
|| (bool_decide (65 ≤ n) && bool_decide (n ≤ 90))
|| (bool_decide (48 ≤ n) && bool_decide (n ≤ 57))
|| bool_decide (n = 95) || bool_decide (n = 45).

(** [s.replace(/[^a-zA-Z0-9_-]/g, "_")] *)
Fixpoint sanitize (s : string) : string :=
match s with
| EmptyString => EmptyString
| String c rest => String (if allowed c then c else "_"%char) (sanitize rest)
end.

(** [`memorybench_${options.containerTag.replace(/[^a-zA-Z0-9_-]/g, "_")}`] *)
Definition groupIdOf (containerTag : string) : string :=
"memorybench_" +:+ sanitize containerTag.

(** Every code unit of the text is in [[a-zA-Z0-9_-]]. *)
Fixpoint allAllowed (s : string) : bool :=
match s with
| EmptyString => true
| String c rest => allowed c && allAllowed rest
end.

(** *** HTTP *)

Inductive Body :=
| NoBody
| MessagesBody (group_id : string) (session : Benchmark.UnifiedSession)
| SearchBody (query : string) (group_ids : list string) (max_facts : Z).

Record Request := mkRequest {
  url : string;
  method : string;
  body : Body;
}.

(** A response: [resp.ok], [resp.status], what [await resp.text()]
gives, and what [(await resp.json()).facts] gives for the answer to a
search. *)
Record Response := mkResponse {
  ok : bool;
  status : Z;
  text : string + Thrown;
  facts : option (list SearchRecord) + Thrown;
}.

Section Provider.

(** The network and the server behind it. *)
Context {Net : Type}.
Variable fetch : Request → Net → (Response + Thrown) * Net.

(** [String(n)] for a status code. *)
Variable showStatus : Z → string.

(** The provider object and the outside; the requests sent are
journalled in order. *)
Record World := mkWorld {
  baseUrl : string;
  groupIds : gmap string string;
  net : Net;
  requests : list Request;
}.

(** [await fetch(url, { method, body })] *)
Definition send (request : Request) (w : World) : (Response + Thrown) * World :=
let '(r, n) := fetch request (net w) in
(r, mkWorld (baseUrl w) (groupIds w) n (requests w ++ [request])).

(** [this.groupIds.set(containerTag, groupId)] *)
Definition setGroup (w : World) (containerTag groupId : string) : World :=
mkWorld (baseUrl w) (<[containerTag := groupId]> (groupIds w)) (net w)
        (requests w).

(** [this.groupIds.delete(containerTag)] *)
Definition deleteGroup (w : World) (containerTag : string) : World :=
mkWorld (baseUrl w) (delete containerTag (groupIds w)) (net w) (requests w).

(** The [for (const session of sessions)] loop of [ingest]: a session
whose request is answered with a status that is not [ok] is logged and
passed over. *)
Fixpoint postSessions (groupId : string)
  (sessions : list Benchmark.UnifiedSession) (documentIds : list string)
  (w : World) : (list string + Thrown) * World :=
match sessions with
| [] => (inl documentIds, w)
| session :: rest =>
    match send (mkRequest (baseUrl w +:+ "/messages") "POST"
                          (MessagesBody groupId session)) w with
    | (inr e, w) => (inr e, w)
    | (inl resp, w) =>
        if ok resp
        then postSessions groupId rest
               (documentIds ++ [Benchmark.sessionId session]) w
        else
          match text resp with
          | inr e => (inr e, w)
          | inl _ => postSessions groupId rest documentIds w
          end
    end
end.

Definition ingest (sessions : list Benchmark.UnifiedSession)
  (containerTag : string) (w : World) : (IngestResult + Thrown) * World :=
let groupId := groupIdOf containerTag in
let w := setGroup w containerTag groupId in
match postSessions groupId sessions [] w with
| (inr e, w) => (inr e, w)
| (inl documentIds, w) =>
    (inl (mkIngestResult documentIds (Some [groupId])), w)
end.

(** [this.groupIds.get(containerTag)] when it is truthy. *)
Definition groupOf (w : World) (containerTag : string) : option string :=
match groupIds w !! containerTag with
| Some groupId => if bool_decide (groupId = "") then None else Some groupId
| None => None
end.

Definition search (query : string) (options : SearchOptions) (w : World)
  : (list SearchRecord + Thrown) * World :=
match groupOf w (searchContainerTag options) with
| None =>
    (inr (ThrownError
            (mkError ("No group found for container "
                        +:+ searchContainerTag options))), w)
| Some groupId =>
    match send (mkRequest (baseUrl w +:+ "/search") "POST"
                  (SearchBody query [groupId]
                     (if bool_decide (limit options = 0%Z) then 20%Z
                      else limit options))) w with
    | (inr e, w) => (inr e, w)
    | (inl resp, w) =>
        if ok resp
        then
          match facts resp with
          | inr e => (inr e, w)
          | inl data => (inl (default [] data), w)
          end
        else
          match text resp with
          | inr e => (inr e, w)
          | inl text =>
              (inr (ThrownError
                      (mkError ("Graphiti search failed: "
                                  +:+ showStatus (status resp) +:+ " " +:+ text))),
               w)
          end
    end
end.

Definition clear (containerTag : string) (w : World) : (unit + Thrown) * World :=
match groupOf w containerTag with
| None => (inl (), w)
| Some groupId =>
    match send (mkRequest (baseUrl w +:+ "/group/" +:+ groupId) "DELETE" NoBody)
               w with
    | (inr e, w) => (inr e, w)
    | (inl _, w) => (inl (), deleteGroup w containerTag)
    end
end.

(** The provider as the phases see it.  The class declares its
concurrency under the name [concurrency]; the phases read
[defaultParallelism], which it does not define.  [awaitIndexing] and the
prompt builder are taken as given. *)
Variable awaitIndexing : IngestResult → string → World → (unit + Thrown) * World.
Variable buildGraphitiAnswerPrompt :
  string → list SearchRecord → option string → string.

Definition provider : @Provider World :=
mkProvider ingest awaitIndexing search None
  (Some (mkPrompts (Some (BuilderPrompt buildGraphitiAnswerPrompt)))).

(** A server that answers every request, and every one with a status
that is not [ok]. *)
Definition refusing : Prop :=
∀ request n, ∃ resp n' t,
  fetch request n = (inl resp, n') ∧ ok resp = false ∧ text resp = inl t.

End Provider.
End Graphiti.

(** ** The CTE provider, [src/providers/cte/index.ts] and [ffi.ts]

  The provider stores sessions as blobs of a native library, reached
  through the wrappers of [ffi.ts].  The library is the outside: each of
  its functions is given with the state of the library it reads and
  changes, and the calls made are journalled.  [JSON.stringify] and
  [JSON.parse] are taken as given. *)

Module Cte.
Import Phases.

(** The calls into the library, with what they returned: a pointer is
an integer, 0 the null pointer. *)
Inductive NativeCall :=
| CInit (configPath : string) (rc : Z)
| CTagNew (name : string) (pointer : Z)
| CTagFree (pointer : Z)
| CTagPutBlob (pointer : Z) (name data : string) (offset : Z) (rc : Z)
| CTagGetBlobSize (pointer : Z) (name : string) (size : Z)
| CTagGetBlob (pointer : Z) (name : string) (size : Z) (rc : Z)
| CTagGetContainedBlobs (pointer : Z) (rc : Z)
| CFreeString
| CDelTag (name : string) (rc : Z).

Section Provider.

Context {Lib : Type}.
Variable cte_c_init : string → Lib → Z * Lib.
Variable cte_c_tag_new : string → Lib → Z * Lib.
Variable cte_c_tag_free : Z → Lib → Lib.
Variable cte_c_tag_put_blob : Z → string → string → Z → Lib → Z * Lib.
Variable cte_c_tag_get_blob_size : Z → string → Lib → Z * Lib.
Variable cte_c_tag_get_blob : Z → string → Z → Lib → (Z * string) * Lib.
(** The return code and the string written to the out parameter, when
it is not null. *)
Variable cte_c_tag_get_contained_blobs : Z → Lib → (Z * option string) * Lib.
Variable cte_c_free_string : Lib → Lib.
Variable cte_c_del_tag : string → Lib → Z * Lib.

(** [JSON.stringify(session)]; [JSON.parse] of the list of blob names
and of a stored session, which throw on a text that is not JSON. *)
Variable stringify : Benchmark.UnifiedSession → string.
Variable parseNames : string → list string + Thrown.
Variable parseRecord : string → SearchRecord + Thrown.

Record World := mkWorld {
  initialized : bool;
  lib : Lib;
  journal : list NativeCall;
}.

Definition native (w : World) (l : Lib) (call : NativeCall) : World :=
mkWorld (initialized w) l (journal w ++ [call]).

(** *** [ffi.ts] *)

Definition cteInit (configPath : string) (w : World) : (unit + Thrown) * World :=
let '(rc, l) := cte_c_init configPath (lib w) in
let w := native w l (CInit configPath rc) in
if bool_decide (rc ≠ 0%Z)
then (inr (ThrownError (mkError "CTE initialization failed")), w)
else (inl (), w).

(** [cteTagNew]: the handle is its pointer. *)
Definition cteTagNew (name : string) (w : World) : (Z + Thrown) * World :=
let '(p, l) := cte_c_tag_new name (lib w) in
let w := native w l (CTagNew name p) in
if bool_decide (p = 0%Z)
then (inr (ThrownError (mkError ("Failed to create tag: " +:+ name))), w)
else (inl p, w).

(** [TagHandle.free] on a handle that has not been freed. *)
Definition free (pointer : Z) (w : World) : World :=
if bool_decide (pointer = 0%Z) then w
else native w (cte_c_tag_free pointer (lib w)) (CTagFree pointer).

Definition cteTagPutBlob (tag : Z) (name data : string) (w : World)
  : (unit + Thrown) * World :=
let '(rc, l) := cte_c_tag_put_blob tag name data 0%Z (lib w) in
let w := native w l (CTagPutBlob tag name data 0 rc) in
if bool_decide (rc ≠ 0%Z)
then (inr (ThrownError (mkError ("Failed to put blob: " +:+ name))), w)
else (inl (), w).

Definition cteTagGetBlobSize (tag : Z) (name : string) (w : World) : Z * World :=
let '(size, l) := cte_c_tag_get_blob_size tag name (lib w) in
(size, native w l (CTagGetBlobSize tag name size)).

Definition cteTagGetBlob (tag : Z) (name : string) (size : Z) (w : World)
  : (string + Thrown) * World :=
let '(rc, buf, l) := cte_c_tag_get_blob tag name size (lib w) in
let w := native w l (CTagGetBlob tag name size rc) in
if bool_decide (rc ≠ 0%Z)
then (inr (ThrownError (mkError ("Failed to get blob: " +:+ name))), w)
else (inl buf, w).

Definition cteTagGetContainedBlobs (tag : Z) (w : World)
  : (list string + Thrown) * World :=
let '(rc, out, l) := cte_c_tag_get_contained_blobs tag (lib w) in
let w := native w l (CTagGetContainedBlobs tag rc) in
if bool_decide (rc ≠ 0%Z)
then (inr (ThrownError (mkError "Failed to get contained blobs")), w)
else
  match out with
  | None => (inl [], w)
  | Some jsonStr =>
      let w := native w (cte_c_free_string (lib w)) CFreeString in
      (parseNames jsonStr, w)
  end.

Definition cteDelTag (name : string) (w : World) : (unit + Thrown) * World :=
let '(rc, l) := cte_c_del_tag name (lib w) in
let w := native w l (CDelTag name rc) in
if bool_decide (rc ≠ 0%Z)
then (inr (ThrownError (mkError ("Failed to delete tag: " +:+ name))), w)
else (inl (), w).

(** *** [CteProvider] *)

Definition notInitialized : Thrown :=
ThrownError (mkError "Provider not initialized").

(** The [for] loop in the [try] block of [ingest]. *)
Fixpoint putSessions (tag : Z) (sessions : list Benchmark.UnifiedSession)
  (documentIds : list string) (w : World) : (list string + Thrown) * World :=
match sessions with
| [] => (inl documentIds, w)
| session :: rest =>
    match cteTagPutBlob tag (Benchmark.sessionId session) (stringify session) w with
    | (inr e, w) => (inr e, w)
    | (inl _, w) =>
        putSessions tag rest (documentIds ++ [Benchmark.sessionId session]) w
    end
end.

Definition ingest (sessions : list Benchmark.UnifiedSession)
  (containerTag : string) (w : World) : (IngestResult + Thrown) * World :=
if negb (initialized w) then (inr notInitialized, w)
else
  match cteTagNew containerTag w with
  | (inr e, w) => (inr e, w)
  | (inl tag, w) =>
      (* try { ... } finally { tag.free() } *)
      let '(r, w) := putSessions tag sessions [] w in
      let w := free tag w in
      match r with
      | inr e => (inr e, w)
      | inl documentIds => (inl (mkIngestResult documentIds None), w)
      end
  end.

(** The [for] loop of [search]: an empty blob is passed over, a blob
that does not parse is logged and passed over. *)
Fixpoint readBlobs (tag : Z) (blobNames : list string)
  (sessions : list SearchRecord) (w : World)
  : (list SearchRecord + Thrown) * World :=
match blobNames with
| [] => (inl sessions, w)
| blobName :: rest =>
    let '(size, w) := cteTagGetBlobSize tag blobName w in
    if bool_decide (size = 0%Z) then readBlobs tag rest sessions w
    else
      match cteTagGetBlob tag blobName size w with
      | (inr e, w) => (inr e, w)
      | (inl buf, w) =>
          match parseRecord buf with
          | inl record => readBlobs tag rest (sessions ++ [record]) w
          | inr _ => readBlobs tag rest sessions w
          end
      end
end.

Definition search (query : string) (options : SearchOptions) (w : World)
  : (list SearchRecord + Thrown) * World :=
if negb (initialized w) then (inr notInitialized, w)
else
  (* let tag = null; try { ... } finally { tag?.free() } *)
  match cteTagNew (searchContainerTag options) w with
  | (inr e, w) => (inr e, w)
  | (inl tag, w) =>
      let '(r, w) :=
        match cteTagGetContainedBlobs tag w with
        | (inr e, w) => (inr e, w)
        | (inl blobNames, w) => readBlobs tag blobNames [] w
        end in
      (r, free tag w)
  end.

Definition clear (containerTag : string) (w : World) : (unit + Thrown) * World :=
if negb (initialized w) then (inr notInitialized, w)
else cteDelTag containerTag w.

(** *** Reading a journal *)

(** The handle a call works on, for the calls that take one. *)
Definition handleOf (call : NativeCall) : option Z :=
match call with
| CTagPutBlob p _ _ _ _ | CTagGetBlobSize p _ _ | CTagGetBlob p _ _ _
| CTagGetContainedBlobs p _ => Some p
| _ => None
end.

(** The calls between the creation of a handle and its release work on
that handle or on none, and none of them creates or releases a
handle. *)
Definition usesOnly (pointer : Z) (calls : list NativeCall) : Prop :=
∀ call, call ∈ calls →
  (∀ p, handleOf call = Some p → p = pointer)
  ∧ (∀ name p, call ≠ CTagNew name p)
  ∧ (∀ p, call ≠ CTagFree p).

(** What a method adds to the journal when it has been given a handle:
the creation of the handle, calls that use only that handle, and its
release as the last call. *)
Definition bracketed (name : string) (added : list NativeCall) : Prop :=
∃ pointer calls,
  pointer ≠ 0%Z
  ∧ added = CTagNew name pointer :: calls ++ [CTagFree pointer]
  ∧ usesOnly pointer calls.

End Provider.
End Cte.

(** ** Configuration, [src/utils/config.ts], and the provider registry,
  [src/providers/index.ts] *)

Module Config.

(** [process.env]: the variables that are set, with their values. *)
Abbreviation Env := (gmap string string).

(** [process.env.NAME || fallback]: an unset variable and an empty one
both give the fallback. *)
Definition envOr (env : Env) (name fallback : string) : string :=
match env !! name with
| Some value => if bool_decide (value = "") then fallback else value
| None => fallback
end.

Record Config := mkConfig {
  supermemoryApiKey : string;
  supermemoryBaseUrl : string;
  mem0ApiKey : string;
  zepApiKey : string;
  hindsightBaseUrl : string;
  graphitiBaseUrl : string;
  openaiApiKey : string;
  anthropicApiKey : string;
  googleApiKey : string;
}.

(** The object [config], built from the environment when the module is
loaded. *)
Definition config (env : Env) : Config :=
mkConfig
  (envOr env "SUPERMEMORY_API_KEY" "")
  (envOr env "SUPERMEMORY_BASE_URL" "https://api.supermemory.ai")
  (envOr env "MEM0_API_KEY" "")
  (envOr env "ZEP_API_KEY" "")
  (envOr env "HINDSIGHT_BASE_URL" "http://localhost:8888")
  (envOr env "GRAPHITI_BASE_URL" "http://localhost:8000")
  (envOr env "OPENAI_API_KEY" "")
  (envOr env "ANTHROPIC_API_KEY" "")
  (envOr env "GOOGLE_API_KEY" "").

(** [{ apiKey, baseUrl? }] *)
Record ProviderConfig := mkProviderConfig {
  apiKey : string;
  baseUrl : option string;
}.

(** [getProviderConfig]: [loaded] is the environment when the module was
loaded, [env] the environment at the call, which the [cte] case
reads. *)
Definition getProviderConfig (loaded env : Env) (provider : string)
  : ProviderConfig + Thrown :=
if bool_decide (provider = "supermemory") then
  inl (mkProviderConfig (supermemoryApiKey (config loaded))
                        (Some (supermemoryBaseUrl (config loaded))))
else if bool_decide (provider = "mem0") then
  inl (mkProviderConfig (mem0ApiKey (config loaded)) None)
else if bool_decide (provider = "zep") then
  inl (mkProviderConfig (zepApiKey (config loaded)) None)
else if bool_decide (provider = "cte") then
  inl (mkProviderConfig "" (Some (envOr env "CTE_LIB_PATH" "")))
else if bool_decide (provider = "hindsight") then
  inl (mkProviderConfig "" (Some (hindsightBaseUrl (config loaded))))
else if bool_decide (provider = "graphiti") then
  inl (mkProviderConfig "" (Some (graphitiBaseUrl (config loaded))))
else inr (ThrownError (mkError ("Unknown provider: " +:+ provider))).

(** [{ apiKey, model? }]; no case sets [model]. *)
Definition getJudgeConfig (loaded : Env) (judge : string) : string + Thrown :=
if bool_decide (judge = "openai") then inl (openaiApiKey (config loaded))
else if bool_decide (judge = "anthropic") then inl (anthropicApiKey (config loaded))
else if bool_decide (judge = "google") then inl (googleApiKey (config loaded))
else inr (ThrownError (mkError ("Unknown judge: " +:+ judge))).

(** [getAvailableProviders]: [Object.keys(providers)], the keys of the
registry in the order they are written. *)
Definition getAvailableProviders : list string :=
["supermemory"; "mem0"; "zep"; "cte"; "hindsight"; "graphiti"].

(** The name a judge is configured under, for each provider of a model
that [getAnsweringModel] has a case for. *)
Definition judgeName (p : Phases.ModelProvider) : string :=
match p with
| Phases.openai => "openai"
| Phases.anthropic => "anthropic"
| Phases.google => "google"
end.

End Config.

(** ** The executor on a small instance *)

Module ExecutorDemo.
Import ParallelExecutor.

(** The world: the stop flag and a journal of the items done. *)
Definition World : Type := bool * list nat.

Definition shouldStop (_ : string) (w : World) : bool := w.1.

(** Item 13 fails, item 99 raises the stop flag, every item is
    journalled and yields ten times itself. *)
Definition task : Task (T := nat) (R := nat) (W := World) :=
  λ context w,
    if Nat.eqb (item context) 13
    then (inr (ThrownError (mkError "unlucky")), w)
    else (inl (10 * item context),
          (w.1 || Nat.eqb (item context) 99, w.2 ++ [item context])).

(** In every batch the second pending task settles first. *)
Definition completion (_ : nat) : list nat := [1].

Definition options (items : list nat) (concurrency : Z)
  : ParallelExecutionOptions :=
  mkOptions items concurrency 0%Z "run-1" "demo" task.

Definition run (items : list nat) (concurrency : Z) :=
  executeBatched shouldStop completion (options items concurrency) (false, []).

End ExecutorDemo.


(** ** The ingest phase on a small run

  One question with five sessions, and a backend that is down for the
  third session until the operator repairs it. *)

Module IngestDemo.
Import Phases.

(** The outside: whether the backend is healthy. *)
Definition Backend : Type := bool.

Definition shouldStop (_ : string) (_ : Backend) : bool := false.
Definition now (_ : Backend) : Z := 0.
Definition toISOString (_ : Z) : string := "2025-01-01T00:00:00.000Z".
Definition completion (_ : nat) : list nat := [].

Definition session (id : string) : Benchmark.UnifiedSession :=
  Benchmark.mkSession id ["hello"] None.

Definition benchmark : Benchmark.Benchmark :=
  Benchmark.mkBenchmark
    [Benchmark.mkQuestion "q1" "Where did I go?" "single-session" "Paris"]
    (λ _, session <$> ["s1"; "s2"; "s3"; "s4"; "s5"]).

(** Each session yields one document, named after it; session [s3] is
    rejected while the backend is down. *)
Definition provider : @Provider Backend :=
  mkProvider
    (λ sessions _ healthy,
       match sessions with
       | [s] =>
           if bool_decide (Benchmark.sessionId s = "s3") && negb healthy
           then (inr (ThrownError (mkError "backend unavailable")), healthy)
           else (inl (mkIngestResult ["doc-" +:+ Benchmark.sessionId s] None),
                 healthy)
       | _ => (inl (mkIngestResult [] None), healthy)
       end)
    (λ _ _ healthy, (inl (), healthy))
    (λ _ _ healthy, (inl [], healthy))
    None None.

Definition freshPhase : PhaseState := {[ "status" := Status pending ]}.

Definition freshQuestion : QuestionCheckpoint :=
  mkQuestionCheckpoint "q1" "q1-data-1" None []
    (λ phase,
       match phase with
       | Ingest => {[ "status" := Status pending; "completedSessions" := Strs [] ]}
       | _ => freshPhase
       end).

Definition freshCheckpoint : RunCheckpoint :=
  mkRunCheckpoint "run-1" "data-1" "gpt-4o" None {[ "q1" := freshQuestion ]}.

Definition start : @World Backend :=
  mkWorld freshCheckpoint ∅ ∅ ∅ false [].

(** The operator repairs the backend between two invocations. *)
Definition repaired (w : @World Backend) : @World Backend :=
  mkWorld (checkpoint w) (durable w) (files w) (directories w) true (calls w).

Definition attempt (w : @World Backend) :=
  runIngestPhase shouldStop now toISOString completion provider benchmark None w.

Definition firstAttempt := attempt start.
Definition resumed := attempt (repaired firstAttempt.2).

(** The ingest state of [q1] in a world. *)
Definition ingestState (w : @World Backend) : option PhaseState :=
  phaseOf (checkpoint w) "q1" Ingest.

End IngestDemo.

(** ** The answer prompt of a provider with a template *)

Module PromptDemo.
Import Phases.

Definition template : string :=
  "Q: {{question}} ({{questionDate}}) C: {{context}} Again: {{question}}".

Definition provider : @Provider bool :=
  mkProvider
    (λ _ _ b, (inl (mkIngestResult [] None), b))
    (λ _ _ b, (inl (), b))
    (λ _ _ b, (inl [], b))
    None
    (Some (mkPrompts (Some (TemplatePrompt template)))).

Definition buildContextString (context : list SearchRecord) : string :=
  String.concat "; " context.

Definition buildDefaultAnswerPrompt (question : string)
    (context : list SearchRecord) (questionDate : option string) : string :=
  question.

Definition prompt : string :=
  buildAnswerPrompt buildDefaultAnswerPrompt buildContextString
    "Where?" ["in Paris"] None (Some provider).

End PromptDemo.
(** ** More small instances *)

Module SearchDemo.
Import Phases IngestDemo.

Definition join (directory file : string) : string := directory +:+ "/" +:+ file.

Definition question : Benchmark.UnifiedQuestion :=
Benchmark.mkQuestion "q1" "Where did I go?" "single-session" "Paris".

Definition context : @ParallelExecutor.ParallelTaskContext Benchmark.UnifiedQuestion :=
ParallelExecutor.mkContext question 0 1.

Definition modelConfig : ModelConfig :=
mkModelConfig "gpt-4o" "GPT-4o" openai 1000 true (mkFraction 0 1).

Definition generateText (_ : GenerateParams) (b : Backend)
  : (string + Thrown) * Backend := (inl " Paris ", b).

Definition searched :=
searchTask now toISOString join provider "results" context start.

End SearchDemo.

Module PatternDemo.
Import Phases.

(** A template with one placeholder and no other brace. *)
Definition provider : @Provider bool :=
mkProvider
  (λ _ _ b, (inl (mkIngestResult [] None), b))
  (λ _ _ b, (inl (), b))
  (λ _ _ b, (inl [], b))
  None
  (Some (mkPrompts (Some (TemplatePrompt ("Q: " +:+ "{{question}}" +:+ " A:"))))).

End PatternDemo.

Module GraphitiDemo.
Import Phases Graphiti.

(** A server that refuses everything with status 503. *)
Definition fetch (_ : Request) (n : unit) : (Response + Thrown) * unit :=
(inl (mkResponse false 503 (inl "unavailable") (inl None)), n).

Definition showStatus (_ : Z) : string := "503".

Definition fresh : @World unit := mkWorld "http://localhost:8000" ∅ () [].

Definition awaitIndexing (_ : IngestResult) (_ : string) (w : @World unit)
  : (unit + Thrown) * @World unit := (inl (), w).

Definition buildGraphitiAnswerPrompt (question : string)
  (_ : list SearchRecord) (_ : option string) : string := question.

Definition graphiti : @Provider (@World unit) :=
provider fetch showStatus awaitIndexing buildGraphitiAnswerPrompt.

(** The ingest demo's checkpoint, with the Graphiti provider behind. *)
Definition start : @Phases.World (@World unit) :=
Phases.mkWorld IngestDemo.freshCheckpoint ∅ ∅ ∅ fresh [].

Definition sessions : list Benchmark.UnifiedSession :=
IngestDemo.session <$> ["s1"; "s2"].

End GraphitiDemo.

Module IngestLoopDemo.

(** The five sessions of the question of [IngestDemo]. *)
Definition sessions : list Benchmark.UnifiedSession :=
  IngestDemo.session <$> ["s1"; "s2"; "s3"; "s4"; "s5"].

End IngestLoopDemo.

Module NoEntryDemo.
Import Phases IngestDemo.

(** A run whose checkpoint holds no entry for the question [q1] of the
    benchmark; the backend is healthy. *)
Definition bare : @World Backend :=
  mkWorld (mkRunCheckpoint "run-1" "data-1" "gpt-4o" None ∅) ∅ ∅ ∅ true [].

Definition attempt :=
  runIngestPhase shouldStop now toISOString completion provider benchmark None
                 bare.

End NoEntryDemo.
(** * Properties of the batch executor *)

Module ParallelExecutorFacts.
Import ParallelExecutor.
Section Facts.
Context {T R W : Type}.
Variable shouldStop : string → W → bool.
Variable completion : nat → list nat.

Abbreviation Ctx := (@ParallelTaskContext T).
Abbreviation Ev := (@Event T R).
Abbreviation Stl := (@Settled T R).
Abbreviation Tsk := (@Task T R W).

Implicit Types (exec : Tsk) (w : W) (c : Ctx) (s : Stl) (evs : list Ev).
Implicit Types (o : @ParallelExecutionOptions T R W).

Lemma settleTask_context exec c w :
  settledContext (settleTask exec c w).1 = c.
Proof.
  unfold settleTask. by destruct (exec c w) as [[r|t] w'].
Qed.

Lemma settledBy_settleEvent s : settledBy (settleEvent s) = Some (settledContext s).
Proof. by destruct s. Qed.

Lemma replay_app exec evs1 evs2 w :
  replay exec (evs1 ++ evs2) w = replay exec evs2 (replay exec evs1 w).
Proof.
  revert w. induction evs1 as [|e evs1 IH]; intros w; simpl; [done|].
  destruct (settledBy e); apply IH.
Qed.

Lemma faithful_app exec run evs1 evs2 w :
  faithful shouldStop exec run (evs1 ++ evs2) w
  ↔ faithful shouldStop exec run evs1 w
    ∧ faithful shouldStop exec run evs2 (replay exec evs1 w).
Proof.
  revert w. induction evs1 as [|e evs1 IH]; intros w; simpl; [tauto|].
  destruct e; simpl; rewrite IH; tauto.
Qed.

(** Filling an empty cell of the [Promise.all] array adds one settled
    value to those it holds. *)
Lemma filled_insert (slots : list (option Stl)) k s :
  slots !! k = Some None →
  omap id (<[k := Some s]> slots) ≡ₚ s :: omap id slots.
Proof.
  revert k. induction slots as [|o slots IH]; intros [|k] Hk; simplify_eq/=.
  - done.
  - destruct o as [s'|]; simpl.
    + rewrite (IH k Hk). apply Permutation_swap.
    + by apply IH.
Qed.

Lemma settleAll_spec exec fuel :
  ∀ picks (pending : list (nat * Ctx)) (slots : list (option Stl)) w slots' w' evs run,
    settleAll exec picks pending slots w fuel = (slots', w', evs) →
    length pending = fuel →
    NoDup pending.*1 →
    (∀ k c, (k, c) ∈ pending → slots !! k = Some None) →
    length slots' = length slots
    ∧ (∀ k, k ∉ pending.*1 → slots' !! k = slots !! k)
    ∧ (∀ k c, (k, c) ∈ pending →
         ∃ s, slots' !! k = Some (Some s) ∧ settledContext s = c)
    ∧ settleEvent <$> omap id slots' ≡ₚ (settleEvent <$> omap id slots) ++ evs
    ∧ faithful shouldStop exec run evs w
    ∧ w' = replay exec evs w.
Proof.
  induction fuel as [|fuel IH]; intros picks pending slots w slots' w' evs run Hrun Hlen Hnd Hnone.
  - destruct pending; [|done]. simplify_eq/=.
    rewrite app_nil_r. split_and!; try done.
    intros k c Hin. by apply elem_of_nil in Hin.
  - simpl in Hrun.
    set (p := hd 0 picks `mod` length pending) in *.
    assert (Hp : p < length pending).
    { apply Nat.mod_upper_bound. lia. }
    destruct (lookup_lt_is_Some_2 pending p Hp) as [[k c] Hkc].
    rewrite Hkc in Hrun.
    destruct (settleTask exec c w) as [s w1] eqn:Hs.
    destruct (settleAll exec (tl picks) (delete p pending)
                (<[k:=Some s]> slots) w1 fuel) as [[slots1 w2] evs1] eqn:Hrest.
    simplify_eq.
    pose proof (delete_Permutation pending p (k, c) Hkc) as Hperm.
    assert (Hnd' : NoDup (k :: (delete p pending).*1)).
    { change (NoDup ((k, c) :: delete p pending).*1). by rewrite <- Hperm. }
    apply NoDup_cons in Hnd' as [Hk Hnd'].
    assert (Hslot : slots !! k = Some None).
    { apply (Hnone k c). rewrite Hperm. left. }
    destruct (IH _ _ _ _ _ _ _ run Hrest) as (Hl & Hout & Hin & Hev & Hf & Hw).
    { rewrite length_delete; [lia|eauto]. }
    { done. }
    { intros k' c' Hin'.
      assert (k' ≠ k).
      { intros ->. apply Hk. apply list_elem_of_fmap. by exists (k, c'). }
      rewrite list_lookup_insert_ne by done.
      apply (Hnone k' c'). rewrite Hperm. by right. }
    assert (Hctx : settledContext s = c).
    { pose proof (settleTask_context exec c w) as E. by rewrite Hs in E. }
    split_and!.
    + by rewrite Hl, length_insert.
    + intros k' Hk'.
      assert (k' ≠ k ∧ k' ∉ (delete p pending).*1) as [Hne Hk''].
      { rewrite Hperm in Hk'. simpl in Hk'.
        apply not_elem_of_cons in Hk'. tauto. }
      rewrite Hout by done. by rewrite list_lookup_insert_ne.
    + intros k' c' Hin'. rewrite Hperm in Hin'.
      apply elem_of_cons in Hin' as [Heq|Hin'].
      * simplify_eq. exists s. split; [|done].
        rewrite Hout by done. apply list_lookup_insert_eq.
        by eapply lookup_lt_Some.
      * by apply Hin.
    + rewrite Hev. rewrite (filled_insert slots k s Hslot).
      simpl. by rewrite Permutation_middle.
    + destruct s; simpl in *; subst; rewrite Hs; simpl; done.
    + simpl. rewrite settledBy_settleEvent, Hctx, Hs. done.
Qed.

Lemma imap_pair_fst {A} (l : list A) j :
  (imap (λ i x, (j + i, x)) l).*1 = seq j (length l).
Proof.
  revert j. induction l as [|x l IH]; intros j; simpl; [done|].
  rewrite Nat.add_0_r. f_equal.
  rewrite <- (IH (S j)). f_equal. apply imap_ext. intros i y _. simpl.
  f_equal. lia.
Qed.

Lemma filled_all (slots : list (option Stl)) (ctxs : list Ctx) :
  Forall2 (λ cell c, ∃ s, cell = Some s ∧ settledContext s = c) slots ctxs →
  mapM id slots = Some (omap id slots)
  ∧ settledContext <$> omap id slots = ctxs.
Proof.
  induction 1 as [|o c slots ctxs (s & -> & Hc) _ [IH1 IH2]]; [done|].
  split; [simpl; by rewrite IH1|].
  simpl. change (list_fmap _ _ settledContext (list_omap _ _ id slots))
    with (settledContext <$> omap id slots). by rewrite Hc, IH2.
Qed.

Lemma filled_replicate n : omap id (replicate n (@None Stl)) = [].
Proof. induction n; simpl; auto. Qed.

(** One batch: whatever the completion order, every promise settles,
    and [Promise.all] delivers the settled values in input order. *)
Lemma settleAll_batch exec picks (ctxs : list Ctx) w slots w' evs run :
  settleAll exec picks (imap (λ batchOffset context, (batchOffset, context)) ctxs)
            (replicate (length ctxs) None) w (length ctxs) = (slots, w', evs) →
  ∃ batchResults,
    promiseAll slots = Some batchResults
    ∧ settledContext <$> batchResults = ctxs
    ∧ evs ≡ₚ settleEvent <$> batchResults
    ∧ faithful shouldStop exec run evs w
    ∧ w' = replay exec evs w.
Proof.
  intros Hrun.
  destruct (settleAll_spec exec _ _ _ _ _ _ _ _ run Hrun)
    as (Hl & _ & Hin & Hev & Hf & Hw).
  { by rewrite length_imap. }
  { pose proof (imap_pair_fst ctxs 0) as E. simpl in E. rewrite E.
    apply NoDup_seq. }
  { intros k c Hkc. apply elem_of_lookup_imap in Hkc as (i & x & ? & Hx).
    simplify_eq. apply lookup_replicate. split; [done|].
    by eapply lookup_lt_Some. }
  rewrite length_replicate in Hl.
  destruct (filled_all slots ctxs) as [HmapM Hctx].
  { apply Forall2_same_length_lookup_2; [done|].
    intros i o c Ho Hc.
    destruct (Hin i c) as (s & Hs & Hsc).
    { apply elem_of_lookup_imap. eauto. }
    exists s. split; [congruence|done]. }
  exists (omap id slots). split_and!; try done.
  rewrite filled_replicate in Hev. simpl in Hev. by symmetry.
Qed.

Lemma find_failure (l : list Stl) :
  match find (λ r, negb (success r)) l with
  | Some (Failure e c) =>
      ∃ ok rest, l = ok ++ Failure e c :: rest ∧ Forall (λ s, success s = true) ok
  | Some (Success _ _) => False
  | None => Forall (λ s, success s = true) l
  end.
Proof.
  induction l as [|[r c|e c] l IH]; simpl.
  - constructor.
  - destruct (find _ l) as [[r' c'|e' c']|].
    + done.
    + destruct IH as (ok & rest & -> & Hok).
      exists (Success r c :: ok), rest. split; [done|]. by constructor.
    + by constructor.
  - exists [], l. split; [done|constructor].
Qed.

Lemma filter_success (l : list Stl) :
  Forall (λ s, success s = true) l →
  filter (λ r, success r = true) l = l.
Proof.
  induction 1 as [|s l Hs _ IH]; [done|].
  rewrite filter_cons_True by done. by rewrite IH.
Qed.

Lemma batchEvents_app b (ctxs : list Ctx) (sevs rest : list Ev) :
  StopSampled b false :: OnBatchStart b (length ctxs)
    :: ((Dispatched b <$> ctxs) ++ sevs) ++ rest
  = batchEvents b ctxs sevs ++ rest.
Proof. done. Qed.

(** The loop follows one of the four rules in every iteration; in
    particular it always ends. *)
Lemma batchLoop_Run o batchSize totalBatches remaining :
  ∀ b acc w out w' evs,
    batchLoop shouldStop completion o batchSize totalBatches remaining b acc w
      = (out, w', evs) →
    b + remaining = totalBatches →
    Run o batchSize totalBatches b acc out evs
    ∧ faithful shouldStop (executeTask o) (runId o) evs w
    ∧ w' = replay (executeTask o) evs w.
Proof.
  induction remaining as [|remaining IH]; intros b acc w out w' evs Hrun Hb;
    simpl in Hrun.
  - simplify_eq. split_and!; try done. constructor. lia.
  - destruct (shouldStop (runId o) w) eqn:Hstop.
    { simplify_eq. split_and!; try done. constructor. lia. }
    fold (batchContexts o batchSize b) in Hrun.
    set (ctxs := batchContexts o batchSize b) in *.
    assert (Hlen : length (slice (items o) (b * batchSize)
               ((b * batchSize + batchSize) `min` length (items o))) = length ctxs).
    { unfold ctxs, batchContexts. by rewrite length_imap. }
    rewrite Hlen in Hrun.
    destruct (settleAll _ _ _ _ _ _) as [[slots w1] sevs] eqn:Hsettle.
    destruct (settleAll_batch _ _ _ _ _ _ _ (runId o) Hsettle)
      as (batchResults & Hall & Hctx & Hperm & Hf & Hw).
    rewrite Hall in Hrun.
    assert (Hstarted : ∀ rest,
      faithful shouldStop (executeTask o) (runId o)
               (batchEvents b ctxs sevs ++ rest) w
      ↔ faithful shouldStop (executeTask o) (runId o) rest w1).
    { intros rest. unfold batchEvents. simpl. rewrite Hstop.
      rewrite <- app_assoc, !faithful_app.
      assert (Hd : ∀ w0, faithful shouldStop (executeTask o) (runId o)
                      (Dispatched b <$> ctxs) w0
                    ∧ replay (executeTask o) (Dispatched b <$> ctxs) w0 = w0).
      { clear. induction ctxs as [|c l IHl]; intros w0; simpl; [done|apply IHl]. }
      destruct (Hd w) as [Hd1 Hd2]. rewrite Hd2, <- Hw. tauto. }
    assert (Hreplay : ∀ rest,
      replay (executeTask o) (batchEvents b ctxs sevs ++ rest) w
      = replay (executeTask o) rest w1).
    { intros rest. unfold batchEvents. simpl.
      rewrite <- app_assoc, !replay_app. f_equal. rewrite Hw. f_equal.
      clear. induction ctxs as [|c l IHl]; simpl; [done|apply IHl]. }
    pose proof (find_failure batchResults) as Hfind.
    destruct (find _ batchResults) as [[r c|e c]|] eqn:Hfd.
    + done.
    + simplify_eq. destruct Hfind as (ok & rest & -> & Hok).
      split_and!.
      * eapply Run_failed; eauto. lia.
      * fold (batchEvents b (batchContexts o batchSize b) sevs).
        rewrite <- (app_nil_r (batchEvents _ _ _)). by apply Hstarted.
      * fold (batchEvents b (batchContexts o batchSize b) sevs).
        rewrite <- (app_nil_r (batchEvents _ _ _)). by rewrite Hreplay.
    + rewrite (filter_success _ Hfind) in Hrun.
      destruct (batchLoop _ _ _ _ _ _ _ _ _) as [[out2 w2] evs2] eqn:Hnext.
      simplify_eq.
      destruct (IH _ _ _ _ _ _ Hnext) as (HR & Hf2 & Hw2); [lia|].
      fold (waitEvents o (b + S remaining) b).
      rewrite batchEvents_app.
      split_and!.
      * eapply Run_next; eauto. lia.
      * apply Hstarted. simpl. unfold waitEvents.
        destruct (_ && _); simpl; done.
      * rewrite Hreplay. simpl. unfold waitEvents.
        destruct (_ && _); simpl; done.
Qed.

Lemma executeBatched_Run o w out w' evs :
  executeBatched shouldStop completion o w = (out, w', evs) →
  items o ≠ [] →
  (0 < concurrency o)%Z →
  Run o (Z.to_nat (concurrency o))
      (ceilDiv (length (items o)) (Z.to_nat (concurrency o))) 0 [] out evs
  ∧ faithful shouldStop (executeTask o) (runId o) evs w
  ∧ w' = replay (executeTask o) evs w.
Proof.
  intros Hrun Hne Hpos. unfold executeBatched in Hrun.
  rewrite bool_decide_eq_false_2 in Hrun.
  2:{ by destruct (items o). }
  rewrite bool_decide_eq_false_2 in Hrun by lia.
  by eapply batchLoop_Run.
Qed.

(** *** Which items a batch holds *)

Lemma div_batch b C k : k < C → (b * C + k) `div` C = b.
Proof.
  intros Hk. replace (b * C + k) with (k + b * C) by lia.
  rewrite Nat.div_add by lia. rewrite Nat.div_small by done. done.
Qed.

Lemma batchContexts_lookup o C b k c :
  batchContexts o C b !! k = Some c
  ↔ k < C ∧ ∃ x, items o !! (b * C + k) = Some x
                 ∧ c = mkContext x (b * C + k) (length (items o)).
Proof.
  unfold batchContexts, slice. rewrite list_lookup_imap.
  destruct (decide (k < (b * C + C) `min` length (items o) - b * C)) as [Hk|Hk].
  - rewrite lookup_take_lt by done. rewrite lookup_drop.
    destruct (items o !! (b * C + k)) as [x|] eqn:Hx; simpl.
    + split.
      * intros [= <-]. split; [lia|eauto].
      * intros (_ & x' & [= <-] & ->). done.
    + split; [done|]. intros (_ & x' & [=] & _).
  - rewrite lookup_take_ge by lia. simpl. split; [done|].
    intros (HkC & x & Hx & _). apply lookup_lt_Some in Hx. lia.
Qed.

Lemma batchContexts_elem o C b c :
  0 < C →
  c ∈ batchContexts o C b
  ↔ index c `div` C = b ∧ items o !! index c = Some (item c)
    ∧ total c = length (items o).
Proof.
  intros HC. rewrite list_elem_of_lookup. split.
  - intros (k & Hk). apply batchContexts_lookup in Hk as (HkC & x & Hx & ->).
    simpl. split_and!; try done. by apply div_batch.
  - intros (Hb & Hx & Ht). exists (index c `mod` C).
    apply batchContexts_lookup. split; [apply Nat.mod_upper_bound; lia|].
    assert (Hi : b * C + index c `mod` C = index c).
    { rewrite <- Hb. rewrite (Nat.mul_comm _ C). symmetry. apply Nat.div_mod_eq. }
    exists (item c). rewrite Hi. split; [done|].
    destruct c; simpl in *. by subst.
Qed.

Lemma batchContexts_length o C b :
  length (batchContexts o C b)
  = (b * C + C) `min` length (items o) - b * C.
Proof.
  unfold batchContexts, slice. rewrite length_imap, length_take, length_drop. lia.
Qed.

(** The batches laid end to end are the items in input order, each with
    its global index; item [i] is in batch [i / C]. *)
Lemma batchContexts_join o C n :
  0 < C →
  mjoin ((λ b, (b,.) <$> batchContexts o C b) <$> seq 0 n)
  = imap (λ i x, (i `div` C, mkContext x i (length (items o))))
         (take (n * C) (items o)).
Proof.
  intros HC. induction n as [|n IH]; [done|].
  replace (S n * C) with (n * C + C) by lia.
  rewrite seq_S, fmap_app, join_app, IH.
  change (mjoin ((λ b, (b,.) <$> batchContexts o C b) <$> [0 + n]))
    with ((pair n <$> batchContexts o C n) ++ []).
  rewrite app_nil_r.
  rewrite <- (take_take_drop (items o) (n * C) C), imap_app. f_equal.
  unfold batchContexts, slice.
  rewrite fmap_imap.
  destruct (decide (n * C ≤ length (items o))) as [Hle|Hgt].
  - rewrite length_take_le by done.
    replace ((n * C + C) `min` length (items o) - n * C)
      with (C `min` (length (items o) - n * C)) by lia.
    rewrite <- (length_drop (items o) (n * C)).
    rewrite <- (take_take (drop (n * C) (items o))) at 1.
    rewrite firstn_all.
    apply imap_ext. intros k x Hk. simpl. f_equal.
    apply lookup_lt_Some in Hk. rewrite length_take in Hk.
    symmetry. apply div_batch. lia.
  - rewrite drop_ge by lia. by rewrite !take_nil.
Qed.

Lemma ceilDiv_covers N C : 0 < C → N ≤ ceilDiv N C * C.
Proof.
  intros HC. unfold ceilDiv.
  pose proof (Nat.div_mod_eq (N + C - 1) C) as E.
  pose proof (Nat.mod_upper_bound (N + C - 1) C ltac:(lia)). nia.
Qed.

Lemma ceilDiv_tight N C b : 0 < C → b * C < N → b < ceilDiv N C.
Proof.
  intros HC Hb. unfold ceilDiv.
  apply (Nat.div_le_lower_bound (N + C - 1) C (S b)); lia.
Qed.

(** *** Membership in, and projections of, the events of a batch *)

Lemma elem_of_batchEvents (e : Ev) b (ctxs : list Ctx) sevs :
  e ∈ batchEvents b ctxs sevs
  ↔ e = StopSampled b false ∨ e = OnBatchStart b (length ctxs)
    ∨ (∃ c, c ∈ ctxs ∧ e = Dispatched b c) ∨ e ∈ sevs.
Proof.
  unfold batchEvents. rewrite !elem_of_cons, elem_of_app, list_elem_of_fmap.
  naive_solver.
Qed.

Lemma elem_of_settled sevs (trs : list Stl) (e : Ev) :
  sevs ≡ₚ settleEvent <$> trs →
  e ∈ sevs ↔ ∃ s, s ∈ trs ∧ e = settleEvent s.
Proof.
  intros ->. rewrite list_elem_of_fmap. naive_solver.
Qed.

Lemma omap_settled {B} (f : Ev → option B) sevs (trs : list Stl) :
  sevs ≡ₚ settleEvent <$> trs →
  (∀ s, f (settleEvent s) = None) →
  omap f sevs = [].
Proof.
  intros Hperm Hf. apply Permutation_nil_r.
  rewrite Hperm. clear Hperm.
  induction trs as [|s trs IH]; simpl; [done|]. by rewrite Hf.
Qed.

Lemma dispatches_batchEvents b (ctxs : list Ctx) sevs (trs : list Stl) :
  sevs ≡ₚ settleEvent <$> trs →
  dispatches (batchEvents b ctxs sevs) = (b,.) <$> ctxs.
Proof.
  intros Hperm. unfold dispatches, batchEvents. simpl.
  rewrite omap_app, (omap_settled _ sevs trs Hperm), app_nil_r by by intros [].
  induction ctxs as [|c l IH]; simpl; [done|]. by f_equal.
Qed.

Lemma batchStarts_batchEvents b (ctxs : list Ctx) sevs (trs : list Stl) :
  sevs ≡ₚ settleEvent <$> trs →
  batchStarts (batchEvents b ctxs sevs) = [(b, length ctxs)].
Proof.
  intros Hperm. unfold batchStarts, batchEvents. simpl.
  rewrite omap_app, (omap_settled _ sevs trs Hperm), app_nil_r by by intros [].
  f_equal. induction ctxs as [|c l IH]; simpl; done.
Qed.

Lemma stopSamples_batchEvents b (ctxs : list Ctx) sevs (trs : list Stl) :
  sevs ≡ₚ settleEvent <$> trs →
  stopSamples (batchEvents b ctxs sevs) = [(b, false)].
Proof.
  intros Hperm. unfold stopSamples, batchEvents. simpl.
  rewrite omap_app, (omap_settled _ sevs trs Hperm), app_nil_r by by intros [].
  f_equal. induction ctxs as [|c l IH]; simpl; done.
Qed.

Lemma settles_batchEvents b (ctxs : list Ctx) sevs (trs : list Stl) :
  sevs ≡ₚ settleEvent <$> trs →
  settles (batchEvents b ctxs sevs) ≡ₚ settledContext <$> trs.
Proof.
  intros Hperm. unfold settles, batchEvents. simpl.
  rewrite omap_app.
  replace (omap settledBy (Dispatched b <$> ctxs)) with (@nil Ctx)
    by (induction ctxs; simpl; done).
  simpl. rewrite Hperm. clear.
  induction trs as [|s trs IH]; simpl; [done|].
  rewrite settledBy_settleEvent. simpl. by rewrite IH.
Qed.

Lemma waitEvents_elem o total b (e : Ev) :
  e ∈ waitEvents o total b → e = Waited (rateLimitMs o).
Proof.
  unfold waitEvents. destruct (_ && _); [|by intros ?%elem_of_nil].
  by intros ->%list_elem_of_singleton.
Qed.

Lemma omap_waitEvents {B} (f : Ev → option B) o total b :
  (∀ ms, f (Waited ms) = None) → omap f (waitEvents o total b) = [].
Proof.
  intros Hf. unfold waitEvents. destruct (_ && _); simpl; [|done]. by rewrite Hf.
Qed.

(** The results of a batch without failure, item by item. *)
Lemma success_results (trs : list Stl) :
  Forall (λ s, success s = true) trs →
  Forall2 (λ c r, Success r c ∈ trs) (settledContext <$> trs) (omap resultOf trs).
Proof.
  induction 1 as [|[r c|e c] trs Hs _ IH]; simpl; [constructor| |done].
  constructor; [left|].
  eapply Forall2_impl; [exact IH|]. intros c' r' Hin. by right.
Qed.

(** *** What a run dispatches *)

Lemma dispatches_app (evs1 evs2 : list Ev) :
  dispatches (evs1 ++ evs2) = dispatches evs1 ++ dispatches evs2.
Proof. apply omap_app. Qed.

Lemma dispatches_after o total b (rs : list R) evs :
  dispatches (OnBatchComplete b rs :: waitEvents o total b ++ evs)
  = dispatches evs.
Proof.
  unfold dispatches. simpl. by rewrite omap_app, omap_waitEvents.
Qed.

Lemma batchStarts_app (evs1 evs2 : list Ev) :
  batchStarts (evs1 ++ evs2) = batchStarts evs1 ++ batchStarts evs2.
Proof. apply omap_app. Qed.

Lemma batchStarts_after o total b (rs : list R) evs :
  batchStarts (OnBatchComplete b rs :: waitEvents o total b ++ evs)
  = batchStarts evs.
Proof.
  unfold batchStarts. simpl. by rewrite omap_app, omap_waitEvents.
Qed.

Lemma settles_app (evs1 evs2 : list Ev) :
  settles (evs1 ++ evs2) = settles evs1 ++ settles evs2.
Proof. apply omap_app. Qed.

Lemma settles_after o total b (rs : list R) evs :
  settles (OnBatchComplete b rs :: waitEvents o total b ++ evs) = settles evs.
Proof.
  unfold settles. simpl. by rewrite omap_app, omap_waitEvents.
Qed.

Lemma elem_of_Run_next (e : Ev) o total b (ctxs : list Ctx) sevs (rs : list R) evs :
  e ∈ batchEvents b ctxs sevs ++ OnBatchComplete b rs :: waitEvents o total b ++ evs
  ↔ e ∈ batchEvents b ctxs sevs ∨ e = OnBatchComplete b rs
    ∨ e ∈ waitEvents o total b ∨ e ∈ evs.
Proof. by rewrite elem_of_app, elem_of_cons, elem_of_app. Qed.

(** Batches are dispatched one after the other from the first, without
    gaps, each with all of its items; and the tasks that settle are the
    tasks that were dispatched, each once. *)
Lemma Run_dispatches o C total b acc out evs :
  Run o C total b acc out evs →
  ∃ n, b + n ≤ total
       ∧ dispatches evs
         = mjoin ((λ b, (b,.) <$> batchContexts o C b) <$> seq b n)
       ∧ settles evs ≡ₚ (dispatches evs).*2.
Proof.
  induction 1 as [b acc Hb|b acc Hb|b acc trs sevs ok e c rest Hb Hctx Hperm Htrs Hok
                 |b acc trs sevs out evs Hb Hctx Hperm Hok _ (n & Hn & IH & IHs)].
  - exists 0. split; [lia|done].
  - exists 0. split; [lia|done].
  - exists 1. split; [lia|].
    rewrite (dispatches_batchEvents _ _ _ _ Hperm).
    rewrite (settles_batchEvents _ _ _ _ Hperm), Hctx. simpl.
    rewrite app_nil_r, <- list_fmap_compose. split; [done|].
    by rewrite list_fmap_id.
  - exists (S n). split; [lia|].
    rewrite dispatches_app, dispatches_after, settles_app, settles_after.
    rewrite (dispatches_batchEvents _ _ _ _ Hperm).
    rewrite (settles_batchEvents _ _ _ _ Hperm), Hctx, IHs, IH.
    split; [done|]. rewrite fmap_app, <- list_fmap_compose.
    by rewrite list_fmap_id.
Qed.

Lemma dispatched_indices (l : list T) C N j :
  (λ bc : nat * Ctx, index bc.2)
    <$> imap (λ i x, ((j + i) `div` C, mkContext x (j + i) N)) l
  = seq j (length l).
Proof.
  revert j. induction l as [|x l IH]; intros j; simpl; [done|].
  rewrite Nat.add_0_r. f_equal. rewrite <- (IH (S j)). f_equal.
  apply imap_ext. intros i y _. simpl.
  by replace (j + S i) with (S (j + i)) by lia.
Qed.

Lemma failing_batch_order o C k (trs ok rest : list Stl) e c :
  settledContext <$> trs = batchContexts o C k →
  trs = ok ++ Failure e c :: rest →
  Forall (λ s, success s = true) ok →
  ∀ e' c', Failure e' c' ∈ trs → index c ≤ index c'.
Proof.
  intros Hctx Htrs Hok e' c' Hin.
  apply list_elem_of_lookup in Hin as [j Hj].
  assert (Hge : length ok ≤ j).
  { destruct (decide (j < length ok)) as [Hlt|]; [|lia].
    rewrite Htrs, lookup_app_l in Hj by done.
    rewrite Forall_lookup in Hok. by apply Hok in Hj. }
  assert (H1 : batchContexts o C k !! j = Some c').
  { by rewrite <- Hctx, list_lookup_fmap, Hj. }
  assert (H2 : batchContexts o C k !! length ok = Some c).
  { rewrite <- Hctx, list_lookup_fmap, Htrs.
    by rewrite list_lookup_middle. }
  apply batchContexts_lookup in H1 as (_ & x1 & _ & ->).
  apply batchContexts_lookup in H2 as (_ & x2 & _ & ->).
  simpl. lia.
Qed.

(** A run in which no task failed and the stop flag was never seen set
    goes through every batch and returns the results item by item. *)
Lemma Run_clean o C total b acc out evs :
  Run o C total b acc out evs →
  (∀ c e, OnError c e ∉ evs) →
  (∀ b', StopSampled b' true ∉ evs) →
  ∃ rs, out = Returned (acc ++ rs)
    ∧ dispatches evs
      = mjoin ((λ b, (b,.) <$> batchContexts o C b) <$> seq b (total - b))
    ∧ batchStarts evs
      = (λ b, (b, length (batchContexts o C b))) <$> seq b (total - b)
    ∧ Forall2 (λ bc r, OnTaskComplete bc.2 r ∈ evs) (dispatches evs) rs.
Proof.
  induction 1 as [b acc Hb|b acc Hb|b acc trs sevs ok e c rest Hb Hctx Hperm Htrs Hok
                 |b acc trs sevs out evs Hb Hctx Hperm Hok _ IH];
    intros Hnoerr Hnostop.
  - exists []. rewrite app_nil_r. subst b. rewrite Nat.sub_diag.
    split_and!; done.
  - exfalso. apply (Hnostop b). left.
  - exfalso. apply (Hnoerr c e). apply elem_of_batchEvents. do 3 right.
    apply (elem_of_settled _ _ _ Hperm). exists (Failure e c).
    split; [|done]. subst trs. apply elem_of_app. right. left.
  - destruct IH as (rs & -> & Hd & Hs & Hrs).
    { intros c e Hin. apply (Hnoerr c e). apply elem_of_app. right. right.
      apply elem_of_app. by right. }
    { intros b' Hin. apply (Hnostop b'). apply elem_of_app. right. right.
      apply elem_of_app. by right. }
    exists (omap resultOf trs ++ rs). rewrite app_assoc.
    replace (total - b) with (S (total - S b)) by lia.
    rewrite dispatches_app, dispatches_after, Hd.
    rewrite (dispatches_batchEvents _ _ _ _ Hperm).
    split_and!; try done.
    + rewrite batchStarts_app, batchStarts_after, Hs.
      by rewrite (batchStarts_batchEvents _ _ _ _ Hperm).
    + apply Forall2_app.
      * rewrite <- Hctx. do 2 apply Forall2_fmap_l.
        pose proof (success_results trs Hok) as Hsr.
        apply Forall2_fmap_l in Hsr.
        eapply Forall2_impl; [exact Hsr|]. intros s r Hin.
        unfold compose in *. cbn [snd].
        apply elem_of_app. left. apply elem_of_batchEvents. do 3 right.
        apply (elem_of_settled _ _ _ Hperm). by exists (Success r (settledContext s)).
      * rewrite <- Hd. eapply Forall2_impl; [exact Hrs|]. intros bc r Hin.
        cbv beta in *.
        apply elem_of_app. right. right. apply elem_of_app. by right.
Qed.




(** *** A run in which a task fails *)

Lemma settleEvent_OnError s c (e : Error) :
  OnError c e = settleEvent s → s = Failure e c.
Proof. destruct s; simpl; congruence. Qed.

Lemma settleEvent_not_Dispatched s b c : Dispatched b c ≠ settleEvent s.
Proof. by destruct s. Qed.

Lemma Run_failure o C total b acc out evs :
  Run o C total b acc out evs →
  ∀ c0 e0, OnError c0 e0 ∈ evs →
  ∃ k c e,
    b ≤ k < total
    ∧ out = Threw e
    ∧ OnError c e ∈ evs
    ∧ c ∈ batchContexts o C k
    ∧ (∀ c' e', OnError c' e' ∈ evs →
         c' ∈ batchContexts o C k ∧ index c ≤ index c')
    ∧ (∀ c', c' ∈ batchContexts o C k → Dispatched k c' ∈ evs)
    ∧ (∀ b' c', Dispatched b' c' ∈ evs → b' ≤ k).
Proof.
  induction 1 as [b acc Hb|b acc Hb|b acc trs sevs ok e c rest Hb Hctx Hperm Htrs Hok
                 |b acc trs sevs out evs Hb Hctx Hperm Hok _ IH];
    intros c0 e0 Hin.
  - by apply elem_of_nil in Hin.
  - by apply list_elem_of_singleton in Hin.
  - assert (Hfail : ∀ c' e', OnError c' e' ∈ batchEvents b (batchContexts o C b) sevs
                             → Failure e' c' ∈ trs).
    { intros c' e' H. apply elem_of_batchEvents in H as [?|[?|[(?&?&?)|H]]]; try done.
      apply (elem_of_settled _ _ _ Hperm) in H as (s & Hs & Heq).
      by apply settleEvent_OnError in Heq as ->. }
    assert (Hc : Failure e c ∈ trs).
    { rewrite Htrs. apply elem_of_app. right. left. }
    assert (Hmem : ∀ s, s ∈ trs → settledContext s ∈ batchContexts o C b).
    { intros s Hs. rewrite <- Hctx. by apply list_elem_of_fmap_2. }
    exists b, c, e. split_and!; try done; try lia.
    + apply elem_of_batchEvents. do 3 right.
      apply (elem_of_settled _ _ _ Hperm). by exists (Failure e c).
    + by apply (Hmem _ Hc).
    + intros c' e' H. apply Hfail in H. split; [by apply (Hmem _ H)|].
      exact (failing_batch_order o C b trs ok rest e c Hctx Htrs Hok e' c' H).
    + intros c' Hc'. apply elem_of_batchEvents. right. right. left. eauto.
    + intros b' c' H. apply elem_of_batchEvents in H as [?|[?|[(?&?&?)|H]]];
        simplify_eq; [done|].
      apply (elem_of_settled _ _ _ Hperm) in H as (s & _ & Heq).
      by apply settleEvent_not_Dispatched in Heq.
  - assert (Hlater : ∀ c' e', OnError c' e' ∈ batchEvents b (batchContexts o C b) sevs
                        ++ OnBatchComplete b (omap resultOf trs)
                        :: waitEvents o total b ++ evs → OnError c' e' ∈ evs).
    { intros c' e' H. apply elem_of_Run_next in H as [H|[?|[H|?]]]; try done.
      - apply elem_of_batchEvents in H as [?|[?|[(?&?&?)|H]]]; try done.
        apply (elem_of_settled _ _ _ Hperm) in H as (s & Hs & Heq).
        apply settleEvent_OnError in Heq as ->.
        rewrite Forall_forall in Hok. by apply Hok in Hs.
      - by apply waitEvents_elem in H. }
    destruct (IH c0 e0 (Hlater _ _ Hin)) as (k & c & e & Hk & -> & He & Hck & Hmin & Hd & Hno).
    exists k, c, e. split_and!; try done; try lia.
    + apply elem_of_Run_next. by do 3 right.
    + intros c' e' H. apply (Hmin c' e'). by apply Hlater.
    + intros c' Hc'. apply elem_of_Run_next. do 3 right. by apply Hd.
    + intros b' c' H. apply elem_of_Run_next in H as [H|[?|[H|?]]]; try done.
      * apply elem_of_batchEvents in H as [?|[?|[(?&?&?)|H]]]; simplify_eq; [lia|].
        apply (elem_of_settled _ _ _ Hperm) in H as (s & _ & Heq).
        by apply settleEvent_not_Dispatched in Heq.
      * by apply waitEvents_elem in H.
      * by apply (Hno b' c').
Qed.

Lemma executeBatched_settles o w out w' evs :
  executeBatched shouldStop completion o w = (out, w', evs) →
  (0 < concurrency o)%Z →
  settles evs ≡ₚ (dispatches evs).*2 ∧ NoDup (index <$> settles evs).
Proof.
  intros Hrun Hpos.
  destruct (decide (items o = [])) as [Hnil|Hne].
  { unfold executeBatched in Hrun. rewrite Hnil in Hrun. simpl in Hrun.
    simplify_eq. split; [done|constructor]. }
  apply executeBatched_Run in Hrun as (HR & _); [|done..].
  apply Run_dispatches in HR as (n & _ & Hd & Hs).
  split; [done|]. rewrite Hs, Hd.
  rewrite batchContexts_join by lia.
  rewrite <- list_fmap_compose.
  pose proof (dispatched_indices (take (n * Z.to_nat (concurrency o)) (items o))
                (Z.to_nat (concurrency o)) (length (items o)) 0) as E.
  simpl in E. unfold compose. rewrite E. apply NoDup_seq.
Qed.

(** C1.  If some task fails, then, for every completion order: the
    executor throws the failure of the failing item that comes first in
    input order; every item of that item's batch was dispatched and has
    settled, each task settling exactly once; and no task of a later
    batch was dispatched. *)
Theorem executeBatched_fail_fast o w out w' evs c0 e0 :
  executeBatched shouldStop completion o w = (out, w', evs) →
  (0 < concurrency o)%Z →
  OnError c0 e0 ∈ evs →
  let N := length (items o) in
  let C := Z.to_nat (concurrency o) in
  ∃ c e,
    out = Threw e
    ∧ OnError c e ∈ evs
    ∧ (∀ c' e', OnError c' e' ∈ evs →
         index c' `div` C = index c `div` C ∧ index c ≤ index c')
    ∧ (∀ i x, items o !! i = Some x → i `div` C = index c `div` C →
         Dispatched (i `div` C) (mkContext x i N) ∈ evs
         ∧ mkContext x i N ∈ settles evs)
    ∧ settles evs ≡ₚ (dispatches evs).*2
    ∧ NoDup (index <$> settles evs)
    ∧ (∀ b' c', Dispatched b' c' ∈ evs → b' ≤ index c `div` C).
Proof.
  intros Hrun Hpos Hin N C.
  assert (HC : 0 < C) by (unfold C; lia).
  destruct (executeBatched_settles _ _ _ _ _ Hrun Hpos) as [Hsettles Hnodup].
  destruct (decide (items o = [])) as [Hnil|Hne].
  { unfold executeBatched in Hrun. rewrite Hnil in Hrun. simpl in Hrun.
    simplify_eq. by apply elem_of_nil in Hin. }
  apply executeBatched_Run in Hrun as (HR & _); [|done..].
  fold C in HR.
  destruct (Run_failure _ _ _ _ _ _ _ HR c0 e0 Hin)
    as (k & c & e & Hk & -> & He & Hck & Hmin & Hd & Hno).
  apply batchContexts_elem in Hck as (Hkc & _); [|done].
  exists c, e. rewrite Hkc. split_and!; try done.
  - intros c' e' H. apply Hmin in H as [H1 H2].
    apply batchContexts_elem in H1 as (? & _); done.
  - intros i x Hx Hi.
    assert (Hmem : mkContext x i N ∈ batchContexts o C k).
    { apply batchContexts_elem; [done|]. simpl. done. }
    rewrite Hi. split; [by apply Hd|].
    rewrite Hsettles. apply list_elem_of_fmap.
    exists (k, mkContext x i N). split; [done|].
    apply list_elem_of_omap. exists (Dispatched k (mkContext x i N)).
    split; [by apply Hd|done].
Qed.

(** *** The stop flag *)

Lemma app_cons_split {A} (l1 l2 k1 k2 : list A) x :
  l1 ++ x :: l2 = k1 ++ k2 →
  (∃ m, k1 = l1 ++ x :: m ∧ l2 = m ++ k2)
  ∨ (∃ m, l1 = k1 ++ m ∧ k2 = m ++ x :: l2).
Proof.
  revert k1. induction l1 as [|y l1 IH]; intros [|z k1] Heq; simplify_eq/=.
  - right. by exists [].
  - left. by exists k1.
  - right. by exists (y :: l1).
  - destruct (IH k1 H0) as [(m & -> & ->)|(m & -> & ->)].
    + left. by exists m.
    + right. by exists m.
Qed.

Lemma stopSamples_app (evs1 evs2 : list Ev) :
  stopSamples (evs1 ++ evs2) = stopSamples evs1 ++ stopSamples evs2.
Proof. apply omap_app. Qed.

Lemma stopSamples_after o total b (rs : list R) evs :
  stopSamples (OnBatchComplete b rs :: waitEvents o total b ++ evs)
  = stopSamples evs.
Proof.
  unfold stopSamples. simpl. by rewrite omap_app, omap_waitEvents.
Qed.

Lemma batchEvents_no_stop b b' (ctxs : list Ctx) sevs (trs : list Stl) :
  sevs ≡ₚ settleEvent <$> trs →
  StopSampled b' true ∉ batchEvents b ctxs sevs.
Proof.
  intros Hperm H. apply elem_of_batchEvents in H as [?|[?|[(?&?&?)|H]]]; try done.
  apply (elem_of_settled _ _ _ Hperm) in H as ([] & _ & ?); done.
Qed.

Lemma batchEvents_Dispatched b b' c (ctxs : list Ctx) sevs (trs : list Stl) :
  sevs ≡ₚ settleEvent <$> trs →
  Dispatched b' c ∈ batchEvents b ctxs sevs → b' = b.
Proof.
  intros Hperm H. apply elem_of_batchEvents in H as [?|[?|[(?&?&?)|H]]];
    simplify_eq; [done|].
  apply (elem_of_settled _ _ _ Hperm) in H as (s & _ & Heq).
  by apply settleEvent_not_Dispatched in Heq.
Qed.

Lemma batchEvents_sampled_first b b' c (ctxs : list Ctx) sevs (trs : list Stl) l1 l2 :
  sevs ≡ₚ settleEvent <$> trs →
  batchEvents b ctxs sevs = l1 ++ Dispatched b' c :: l2 →
  StopSampled b' false ∈ l1.
Proof.
  intros Hperm Heq.
  assert (b' = b) as ->.
  { eapply (batchEvents_Dispatched b b' c _ _ _ Hperm). rewrite Heq.
    apply elem_of_app. right. left. }
  destruct l1 as [|e l1]; [done|]. injection Heq as <- _. left.
Qed.

Lemma Run_stop o C total b acc out evs :
  Run o C total b acc out evs →
  (stopSamples evs).*1 = seq b (length (stopSamples evs))
  ∧ (∀ l1 l2 b' c, evs = l1 ++ Dispatched b' c :: l2 → StopSampled b' false ∈ l1)
  ∧ (∀ b', StopSampled b' true ∈ evs →
       b ≤ b' ∧ out = Threw stopError
       ∧ (∃ l, evs = l ++ [StopSampled b' true])
       ∧ ∀ b'' c, Dispatched b'' c ∈ evs → b'' < b').
Proof.
  induction 1 as [b acc Hb|b acc Hb|b acc trs sevs ok e c rest Hb Hctx Hperm Htrs Hok
                 |b acc trs sevs out evs Hb Hctx Hperm Hok _ (IH1 & IH2 & IH3)].
  - split_and!; [done| |].
    + intros [|??] ? ? ? ?; done.
    + intros b' H. by apply elem_of_nil in H.
  - split_and!; [done| |].
    + intros [|?[|??]] ? ? ? ?; done.
    + intros b' H. apply list_elem_of_singleton in H. simplify_eq.
      split_and!; [done..|by exists []|].
      intros b'' c H. by apply list_elem_of_singleton in H.
  - split_and!.
    + by rewrite (stopSamples_batchEvents _ _ _ _ Hperm).
    + intros l1 l2 b' c' Heq. by eapply batchEvents_sampled_first.
    + intros b' H. by apply (batchEvents_no_stop _ _ _ _ _ Hperm) in H.
  - split_and!.
    + rewrite stopSamples_app, stopSamples_after.
      rewrite (stopSamples_batchEvents _ _ _ _ Hperm). simpl. f_equal. exact IH1.
    + intros l1 l2 b' c' Heq. symmetry in Heq.
      apply app_cons_split in Heq as [(m & Hm & _)|(m & -> & Hm)].
      { by eapply batchEvents_sampled_first. }
      apply elem_of_app. right.
      destruct m as [|e m]; [done|]. injection Hm as <- Hm. right.
      symmetry in Hm.
      apply app_cons_split in Hm as [(m' & Hm' & _)|(m' & -> & Hm')].
      { assert (Hw : Dispatched b' c' ∈ waitEvents o total b).
        { rewrite Hm'. apply elem_of_app. right. left. }
        by apply waitEvents_elem in Hw. }
      apply elem_of_app. right. by eapply IH2.
    + intros b' H. apply elem_of_Run_next in H as [H|[?|[H|H]]]; try done.
      { by apply (batchEvents_no_stop _ _ _ _ _ Hperm) in H. }
      { by apply waitEvents_elem in H. }
      destruct (IH3 b' H) as (Hle & -> & (l & ->) & Hnone).
      split_and!; [lia|done| |].
      * eexists (batchEvents b _ sevs ++ OnBatchComplete b _ :: waitEvents o total b ++ l).
        by rewrite <- !app_assoc, <- app_comm_cons, <- app_assoc.
      * intros b'' c' Hd. apply elem_of_Run_next in Hd as [Hd|[?|[Hd|Hd]]]; try done.
        -- apply (batchEvents_Dispatched _ _ _ _ _ _ Hperm) in Hd. lia.
        -- by apply waitEvents_elem in Hd.
        -- by eapply Hnone.
Qed.

(** The trace of a run is faithful, and the world at the end is the
    world the settled tasks left: the executor itself changes nothing. *)
Lemma executeBatched_faithful o w out w' evs :
  executeBatched shouldStop completion o w = (out, w', evs) →
  faithful shouldStop (executeTask o) (runId o) evs w
  ∧ w' = replay (executeTask o) evs w.
Proof.
  intros Hrun.
  destruct (decide (items o ≠ [] ∧ 0 < concurrency o)%Z) as [[Hne Hpos]|Hdeg].
  - by apply executeBatched_Run in Hrun as (_ & Hf & Hw).
  - unfold executeBatched in Hrun. repeat case_bool_decide; simplify_eq; try done.
    exfalso. apply Hdeg. split; [|lia].
    intros Heq. by apply (f_equal length) in Heq.
Qed.

(** The world a trace leaves is the world after the tasks it reports
    settled, run by [executeTask] itself in the order they settled. *)
Lemma settleTask_world exec c w : (settleTask exec c w).2 = (exec c w).2.
Proof. unfold settleTask. by destruct (exec c w) as [[r|t] w']. Qed.

Lemma replay_effects exec evs w :
  replay exec evs w = effects exec (settles evs) w.
Proof.
  revert w. induction evs as [|e evs IH]; intros w; [done|].
  unfold settles. simpl. destruct (settledBy e) as [c|]; simpl.
  - rewrite IH, settleTask_world. done.
  - apply IH.
Qed.

Lemma faithful_sample exec run l1 l2 b stop w :
  faithful shouldStop exec run (l1 ++ StopSampled b stop :: l2) w →
  stop = shouldStop run (effects exec (settles l1) w).
Proof.
  rewrite faithful_app, replay_effects. simpl. tauto.
Qed.

(** A run entered at a batch that exists starts by sampling the stop
    flag for that batch. *)
Lemma Run_head o C total b acc out evs :
  Run o C total b acc out evs →
  b < total →
  ∃ stop rest, evs = StopSampled b stop :: rest.
Proof.
  destruct 1; intros Hb; try lia; unfold batchEvents; simpl; eauto.
Qed.

Lemma batchEvents_sample b b' (ctxs : list Ctx) sevs (trs : list Stl) :
  sevs ≡ₚ settleEvent <$> trs →
  StopSampled b' false ∈ batchEvents b ctxs sevs → b' = b.
Proof.
  intros Hperm H. apply elem_of_batchEvents in H as [?|[?|[(?&?&?)|H]]];
    simplify_eq; [done|].
  apply (elem_of_settled _ _ _ Hperm) in H as ([] & _ & ?); done.
Qed.

Lemma batchEvents_no_complete b b' rs (ctxs : list Ctx) sevs (trs : list Stl) :
  sevs ≡ₚ settleEvent <$> trs →
  OnBatchComplete b' rs ∉ batchEvents b ctxs sevs.
Proof.
  intros Hperm H. apply elem_of_batchEvents in H as [?|[?|[(?&?&?)|H]]]; try done.
  apply (elem_of_settled _ _ _ Hperm) in H as ([] & _ & ?); done.
Qed.

(** The samples of a run: a sample that finds the flag clear is
    followed by the dispatch of its whole batch, a batch that completed
    is followed by the sample for the next batch when there is one, and
    a run that returns has sampled every batch. *)
Lemma Run_samples o C total b acc out evs :
  Run o C total b acc out evs →
  (∀ b' c, StopSampled b' false ∈ evs → c ∈ batchContexts o C b' →
           Dispatched b' c ∈ evs)
  ∧ (∀ b' rs, OnBatchComplete b' rs ∈ evs → S b' < total →
              ∃ stop, StopSampled (S b') stop ∈ evs)
  ∧ (∀ rs, out = Returned rs →
           stopSamples evs = (λ b, (b, false)) <$> seq b (total - b)).
Proof.
  induction 1 as [b acc Hb|b acc Hb|b acc trs sevs ok e c rest Hb Hctx Hperm Htrs Hok
                 |b acc trs sevs out evs Hb Hctx Hperm Hok HR (IH1 & IH2 & IH3)].
  - split_and!.
    + by intros ? ? ?%elem_of_nil.
    + by intros ? ? ?%elem_of_nil.
    + intros rs _. by replace (total - b) with 0 by lia.
  - split_and!; [| |done].
    + intros b' c' H. by apply list_elem_of_singleton in H.
    + intros b' rs H. by apply list_elem_of_singleton in H.
  - split_and!; [| |done].
    + intros b' c' H Hc'.
      apply (batchEvents_sample _ _ _ _ _ Hperm) in H as ->.
      apply elem_of_batchEvents. right. right. left. by exists c'.
    + intros b' rs H. by apply (batchEvents_no_complete _ _ _ _ _ _ Hperm) in H.
  - split_and!.
    + intros b' c' H Hc'. apply elem_of_Run_next.
      apply elem_of_Run_next in H as [H|[?|[H|H]]]; try done.
      * left. apply (batchEvents_sample _ _ _ _ _ Hperm) in H as ->.
        apply elem_of_batchEvents. right. right. left. by exists c'.
      * by apply waitEvents_elem in H.
      * right. right. right. by apply IH1.
    + intros b' rs H Hnext.
      apply elem_of_Run_next in H as [H|[H|[H|H]]].
      * by apply (batchEvents_no_complete _ _ _ _ _ _ Hperm) in H.
      * injection H as -> _.
        destruct (Run_head _ _ _ _ _ _ _ HR Hnext) as (stop & rest' & ->).
        exists stop. apply elem_of_Run_next. right. right. right. left.
      * by apply waitEvents_elem in H.
      * destruct (IH2 b' rs H Hnext) as [stop Hs]. exists stop.
        apply elem_of_Run_next. by right; right; right.
    + intros rs Hout. rewrite stopSamples_app, stopSamples_after.
      rewrite (stopSamples_batchEvents _ _ _ _ Hperm), (IH3 rs Hout).
      replace (total - b) with (S (total - S b)) by lia. done.
Qed.

(** C4.  The stop flag is sampled once per batch, in batch order, before
    any task of the batch is dispatched.  A run with work to do starts
    by sampling the flag, and when the flag is set then, the run ends
    there with the stop error and nothing else has happened.  Each batch
    that completes is followed by the sample for the next batch, and a
    run that returns has sampled every batch.  Each sample reads the
    flag of the world the tasks settled so far have left.  A sample that
    finds the flag clear is followed by the dispatch of its whole batch;
    a sample that finds it set is the last event: the executor throws
    the stop error, no task of that or a later batch is dispatched, and
    the world is the one the settled tasks left.  Nothing is undone or
    aborted: every dispatched task has settled, and the final world is
    the initial one after the effects of [executeTask] on the settled
    tasks, so a flag raised while a batch is in flight is only acted
    upon at the next sample. *)
Theorem executeBatched_stop_between_batches o w out w' evs :
  executeBatched shouldStop completion o w = (out, w', evs) →
  let C := Z.to_nat (concurrency o) in
  let totalBatches := ceilDiv (length (items o)) C in
  let worldAfter l := effects (executeTask o) (settles l) w in
  (items o ≠ [] → (0 < concurrency o)%Z →
   ∃ rest, evs = StopSampled 0 (shouldStop (runId o) w) :: rest)
  ∧ (items o ≠ [] → (0 < concurrency o)%Z → shouldStop (runId o) w = true →
     out = Threw stopError ∧ w' = w ∧ evs = [StopSampled 0 true])
  ∧ (stopSamples evs).*1 = seq 0 (length (stopSamples evs))
  ∧ (∀ b rs, OnBatchComplete b rs ∈ evs → S b < totalBatches →
             ∃ stop, StopSampled (S b) stop ∈ evs)
  ∧ (∀ rs, out = Returned rs →
           stopSamples evs = (λ b, (b, false)) <$> seq 0 totalBatches)
  ∧ (∀ l1 l2 b stop, evs = l1 ++ StopSampled b stop :: l2 →
                     stop = shouldStop (runId o) (worldAfter l1))
  ∧ (∀ l1 l2 b c, evs = l1 ++ Dispatched b c :: l2 → StopSampled b false ∈ l1)
  ∧ (∀ b c, StopSampled b false ∈ evs → c ∈ batchContexts o C b →
            Dispatched b c ∈ evs)
  ∧ (∀ b, StopSampled b true ∈ evs →
       out = Threw stopError
       ∧ (∃ l, evs = l ++ [StopSampled b true] ∧ w' = worldAfter l)
       ∧ ∀ b' c, Dispatched b' c ∈ evs → b' < b)
  ∧ settles evs ≡ₚ (dispatches evs).*2
  ∧ w' = worldAfter evs.
Proof.
  intros Hrun C totalBatches worldAfter.
  assert (Hsample : ∀ l1 l2 b stop, evs = l1 ++ StopSampled b stop :: l2 →
                      stop = shouldStop (runId o) (worldAfter l1)).
  { intros l1 l2 b stop ->.
    apply executeBatched_faithful in Hrun as [Hf _].
    by eapply faithful_sample. }
  assert (Hworld : w' = worldAfter evs).
  { apply executeBatched_faithful in Hrun as [_ ->]. apply replay_effects. }
  destruct (decide (items o ≠ [] ∧ 0 < concurrency o)%Z) as [[Hne Hpos]|Hdeg].
  - assert (Hbatches : 0 < totalBatches).
    { apply ceilDiv_tight; [lia|]. destruct (items o); [done|simpl; lia]. }
    assert (Hset : shouldStop (runId o) w = true →
                   out = Threw stopError ∧ w' = w ∧ evs = [StopSampled 0 true]).
    { intros Hflag. unfold executeBatched in Hrun.
      rewrite bool_decide_eq_false_2 in Hrun by by rewrite length_zero_iff_nil.
      rewrite bool_decide_eq_false_2 in Hrun by lia.
      fold C totalBatches in Hrun.
      destruct totalBatches as [|n]; [lia|]. simpl in Hrun.
      rewrite Hflag in Hrun. by simplify_eq. }
    destruct (executeBatched_settles _ _ _ _ _ Hrun Hpos) as [Hs _].
    apply executeBatched_Run in Hrun as (HR & Hf & Hw); [|done..].
    destruct (Run_stop _ _ _ _ _ _ _ HR) as (H1 & H2 & H3).
    destruct (Run_samples _ _ _ _ _ _ _ HR) as (H4 & H5 & H6).
    split_and!; try done.
    + intros _ _.
      destruct (Run_head _ _ _ _ _ _ _ HR Hbatches) as (stop & rest & Hevs).
      exists rest. rewrite Hevs. f_equal. f_equal.
      apply (Hsample [] rest 0 stop Hevs).
    + intros rs Hout. rewrite (H6 rs Hout). by rewrite Nat.sub_0_r.
    + intros b Hb. destruct (H3 b Hb) as (_ & Hout & (l & Hl) & Hno).
      split_and!; [done| |done].
      exists l. split; [done|]. rewrite Hworld. unfold worldAfter.
      by rewrite Hl, settles_app, app_nil_r.
  - assert (w' = w ∧ evs = [] ∧ (∀ rs, out = Returned rs → items o = []))
      as (-> & -> & Hret).
    { unfold executeBatched in Hrun. repeat case_bool_decide; simplify_eq.
      - split_and!; [done..|]. intros _ _. by apply length_zero_iff_nil.
      - split_and!; done.
      - exfalso. apply Hdeg. split; [|lia].
        intros Heq. by apply (f_equal length) in Heq. }
    split_and!; try done.
    + intros Hne Hpos. by destruct Hdeg.
    + intros Hne Hpos. by destruct Hdeg.
    + intros b rs Hb. by apply elem_of_nil in Hb.
    + intros rs Hout. subst totalBatches. rewrite (Hret rs Hout). simpl.
      unfold ceilDiv. destruct C as [|n]; [done|].
      rewrite Nat.div_small by lia. done.
    + intros [|??] ????; done.
    + intros b c Hb. by apply elem_of_nil in Hb.
    + intros b Hb. by apply elem_of_nil in Hb.
Qed.

(** *** Non-positive concurrency *)

(** C7 (amended).  With a concurrency bound [C ≤ 0], a non-empty item
    list makes the executor throw [Concurrency must be positive] before
    anything is sampled or dispatched and without touching the world; the
    empty item list is returned as the empty result before the bound is
    looked at. *)
Theorem executeBatched_nonpositive_concurrency o w :
  (concurrency o ≤ 0)%Z →
  (items o ≠ [] →
     executeBatched shouldStop completion o w = (Threw concurrencyError, w, []))
  ∧ (items o = [] →
     executeBatched shouldStop completion o w = (Returned [], w, [])).
Proof.
  intros HC. unfold executeBatched. split.
  - intros Hne. rewrite bool_decide_eq_false_2.
    2:{ intros Hlen. by destruct (items o). }
    by rewrite bool_decide_eq_true_2.
  - intros ->. done.
Qed.

(** *** What the executor throws, and invariants of the tasks *)

Lemma Run_threw o C total b acc error evs :
  Run o C total b acc (Threw error) evs →
  error = stopError ∨ ∃ c, OnError c error ∈ evs.
Proof.
  remember (Threw error) as out eqn:Hout.
  induction 1 as [b acc Hb|b acc Hb|b acc trs sevs ok e c rest Hb Hctx Hperm Htrs Hok
                 |b acc trs sevs out evs Hb Hctx Hperm Hok _ IH].
  - done.
  - left. congruence.
  - right. injection Hout as ->. exists c. apply elem_of_batchEvents. do 3 right.
    apply (elem_of_settled _ _ _ Hperm). exists (Failure error c).
    split; [|done]. rewrite Htrs. apply elem_of_app. right. left.
  - destruct (IH Hout) as [->|[c Hc]]; [by left|].
    right. exists c. apply elem_of_Run_next. by do 3 right.
Qed.

(** The executor throws the stop error, the configuration error, or an
    error with which one of its tasks was reported failed. *)
Lemma executeBatched_threw o w error w' evs :
  executeBatched shouldStop completion o w = (Threw error, w', evs) →
  error = stopError ∨ error = concurrencyError ∨ ∃ c, OnError c error ∈ evs.
Proof.
  intros Hrun.
  destruct (decide (items o ≠ [] ∧ 0 < concurrency o)%Z) as [[Hne Hpos]|Hdeg].
  - apply executeBatched_Run in Hrun as (HR & _); [|done..].
    apply Run_threw in HR as [->|?]; auto.
  - unfold executeBatched in Hrun. repeat case_bool_decide; simplify_eq; auto.
    exfalso. apply Hdeg. split; [|lia].
    intros Heq. by apply (f_equal length) in Heq.
Qed.

(** Every context of the trace carries an item of the list. *)
Lemma executeBatched_settled_items o w out w' evs c :
  executeBatched shouldStop completion o w = (out, w', evs) →
  c ∈ settles evs → item c ∈ items o.
Proof.
  intros Hrun Hc.
  destruct (decide (items o ≠ [] ∧ 0 < concurrency o)%Z) as [[Hne Hpos]|Hdeg].
  - destruct (executeBatched_settles _ _ _ _ _ Hrun Hpos) as [Hs _].
    apply executeBatched_Run in Hrun as (HR & _); [|done..].
    apply Run_dispatches in HR as (n & _ & Hd & _).
    rewrite Hs, Hd in Hc.
    apply list_elem_of_fmap in Hc as ([b c'] & -> & Hin).
    apply list_elem_of_join in Hin as (l & Hin & Hl).
    apply list_elem_of_fmap in Hl as (b' & -> & _).
    apply list_elem_of_fmap in Hin as (c'' & [= <- <-] & Hin).
    apply batchContexts_elem in Hin as (_ & Hitem & _); [|lia].
    simpl. by eapply list_elem_of_lookup_2.
  - assert (evs = []) as ->.
    { unfold executeBatched in Hrun. repeat case_bool_decide; simplify_eq; try done.
      exfalso. apply Hdeg. split; [|lia].
      intros Heq. by apply (f_equal length) in Heq. }
    by apply elem_of_nil in Hc.
Qed.

(** An invariant [I] of the world that every task on a context
    satisfying [P] preserves holds at the end of a faithful trace whose
    settled contexts satisfy [P], and what the tasks guarantee of their
    outcome from such worlds, [Q], holds of every settle event. *)
Lemma faithful_invariant exec run (I : W → Prop) (P : Ctx → Prop)
    (Q : Stl → Prop) evs :
  (∀ c w, P c → I w →
          I (settleTask exec c w).2 ∧ Q (settleTask exec c w).1) →
  ∀ w, I w →
       faithful shouldStop exec run evs w →
       (∀ c, c ∈ settles evs → P c) →
       I (replay exec evs w) ∧ ∀ s, settleEvent s ∈ evs → Q s.
Proof.
  intros Htask. induction evs as [|ev evs IH]; intros w HI Hf HP.
  - split; [done|]. intros s Hs. by apply elem_of_nil in Hs.
  - assert (HP' : ∀ c, c ∈ settles evs → P c).
    { intros c Hc. apply HP. unfold settles in *. simpl.
      destruct (settledBy ev); [by right|done]. }
    destruct ev as [b stop|b n|b c|c r|c error|b rs|ms]; simpl in Hf |- *;
      try (destruct (IH w HI Hf HP') as [H1 H2]; split; [done|];
           intros s Hs; apply elem_of_cons in Hs as [Hs|Hs];
             [by destruct s|by apply H2]).
    + destruct Hf as [_ Hf].
      destruct (IH w HI Hf HP') as [H1 H2]; split; [done|].
      intros s Hs; apply elem_of_cons in Hs as [Hs|Hs];
        [by destruct s|by apply H2].
    + destruct Hf as [Heq Hf].
      destruct (Htask c w) as [HI' HQ]; [apply HP; left|done|].
      destruct (IH _ HI' Hf HP') as [H1 H2]. split; [done|].
      intros s Hs. apply elem_of_cons in Hs as [Hs|Hs]; [|by apply H2].
      assert (s = (settleTask exec c w).1) as ->; [|done].
      rewrite Heq in Hs. destruct s, (settleTask exec c w).1; simplify_eq/=; done.
    + destruct Hf as [Heq Hf].
      destruct (Htask c w) as [HI' HQ]; [apply HP; left|done|].
      destruct (IH _ HI' Hf HP') as [H1 H2]. split; [done|].
      intros s Hs. apply elem_of_cons in Hs as [Hs|Hs]; [|by apply H2].
      assert (s = (settleTask exec c w).1) as ->; [|done].
      rewrite Heq in Hs. destruct s, (settleTask exec c w).1; simplify_eq/=; done.
Qed.

(** When every task, run on an item of the list from a world satisfying
    [I], keeps [I] and throws only values satisfying [Q], the executor
    throws the stop error, the configuration error, or an error thrown by
    a task on an item of the list that satisfies [Q]. *)
Lemma executeBatched_throws_task_error o (I : W → Prop)
    (Q : T → Thrown → Prop) w error w' evs :
  (∀ c w r w', item c ∈ items o → I w → executeTask o c w = (r, w') →
               I w' ∧ ∀ t, r = inr t → Q (item c) t) →
  I w →
  executeBatched shouldStop completion o w = (Threw error, w', evs) →
  error = stopError ∨ error = concurrencyError
  ∨ ∃ x t, x ∈ items o ∧ Q x t ∧ error = asError t.
Proof.
  intros Htask HI Hrun.
  destruct (executeBatched_threw _ _ _ _ _ Hrun) as [?|[?|[c Hc]]]; auto.
  do 2 right.
  destruct (executeBatched_faithful _ _ _ _ _ Hrun) as [Hf _].
  destruct (faithful_invariant (executeTask o) (runId o) I
              (λ c, item c ∈ items o)
              (λ s, ∀ e c, s = Failure e c → ∃ t, Q (item c) t ∧ e = asError t)
              evs) with (w := w) as [_ HQ]; try done.
  - intros c0 w0 Hc0 HI0. unfold settleTask.
    destruct (executeTask o c0 w0) as [[r|t] w1] eqn:Hexec;
      destruct (Htask _ _ _ _ Hc0 HI0 Hexec) as [HI1 HQ1]; simpl.
    + split; [done|]. intros ? ? [=].
    + split; [done|]. intros e c1 [= <- <-]. exists t. split; [by apply HQ1|done].
  - intros c0 Hc0. by eapply executeBatched_settled_items.
  - destruct (HQ (Failure error c) Hc error c eq_refl) as (t & Ht & ->).
    exists (item c), t. split_and!; try done.
    eapply executeBatched_settled_items; [done|].
    apply list_elem_of_omap. by exists (OnError c (asError t)).
Qed.

(** Every dispatched context carries an item of the list. *)
Lemma executeBatched_dispatched_items o w out w' evs b c :
  executeBatched shouldStop completion o w = (out, w', evs) →
  Dispatched b c ∈ evs → item c ∈ items o.
Proof.
  intros Hrun Hc.
  destruct (decide (items o ≠ [] ∧ 0 < concurrency o)%Z) as [[Hne Hpos]|Hdeg].
  - destruct (executeBatched_settles _ _ _ _ _ Hrun Hpos) as [Hs _].
    eapply executeBatched_settled_items; [done|]. rewrite Hs.
    apply list_elem_of_fmap. exists (b, c). split; [done|].
    apply list_elem_of_omap. by exists (Dispatched b c).
  - assert (evs = []) as ->.
    { unfold executeBatched in Hrun. repeat case_bool_decide; simplify_eq; try done.
      exfalso. apply Hdeg. split; [|lia].
      intros Heq. by apply (f_equal length) in Heq. }
    by apply elem_of_nil in Hc.
Qed.

End Facts.
End ParallelExecutorFacts.

(** * The executor: rate limit, batch observer, sequential runs *)

Module ParallelExecutorMore.
Import ParallelExecutor ParallelExecutorTrace ParallelExecutorFacts.
Section Facts.
Context {T R W : Type}.
Variable shouldStop : string → W → bool.
Variable completion : nat → list nat.

Implicit Types (w : W) (evs : list (@Event T R)).
Implicit Types (o : @ParallelExecutionOptions T R W).

(** *** The sleep between batches *)

Lemma waits_batchEvents b (ctxs : list (@ParallelTaskContext T)) sevs
    (trs : list (@Settled T R)) :
  sevs ≡ₚ settleEvent <$> trs →
  waits (batchEvents b ctxs sevs) = [].
Proof.
  intros Hperm. unfold waits, batchEvents. simpl.
  rewrite omap_app, (omap_settled _ sevs trs Hperm), app_nil_r by by intros [].
  induction ctxs as [|c l IH]; simpl; done.
Qed.

Lemma waits_waitEvents o total b :
  waits (waitEvents o total b : list (@Event T R))
  = if bool_decide (b < total - 1) && bool_decide (0 < rateLimitMs o)%Z
    then [rateLimitMs o] else [].
Proof. unfold waitEvents. by destruct (_ && _). Qed.

Lemma Run_waits o C total b acc out evs :
  Run o C total b acc out evs →
  ∃ k, waits evs = replicate k (rateLimitMs o)
    ∧ k ≤ total - 1 - b
    ∧ ((rateLimitMs o ≤ 0)%Z → k = 0)
    ∧ (∀ rs, out = Returned rs → (0 < rateLimitMs o)%Z → k = total - 1 - b).
Proof.
  induction 1 as [b acc Hb|b acc Hb|b acc trs sevs ok e c rest Hb Hctx Hperm Htrs Hok
                 |b acc trs sevs out evs Hb Hctx Hperm Hok _ IH].
  - exists 0. split_and!; try done; lia.
  - exists 0. split_and!; try done; lia.
  - exists 0. rewrite (waits_batchEvents _ _ _ _ Hperm). split_and!; try done; lia.
  - destruct IH as (k & Hk & Hle & Hzero & Hall).
    unfold waits in *. rewrite omap_app. fold (waits (batchEvents b (batchContexts o C b) sevs)).
    rewrite (waits_batchEvents _ _ _ _ Hperm). simpl. rewrite omap_app, Hk.
    fold (waits (waitEvents o total b : list (@Event T R))).
    rewrite waits_waitEvents.
    destruct (bool_decide (b < total - 1)) eqn:Hlast;
      destruct (bool_decide (0 < rateLimitMs o)%Z) eqn:Hms; simpl;
      [apply bool_decide_eq_true in Hlast|apply bool_decide_eq_true in Hlast
      |apply bool_decide_eq_false in Hlast|apply bool_decide_eq_false in Hlast];
      [apply bool_decide_eq_true in Hms|apply bool_decide_eq_false in Hms
      |apply bool_decide_eq_true in Hms|apply bool_decide_eq_false in Hms].
    + exists (S k). split_and!; [done|lia|lia|].
      intros rs Hrs Hpos. specialize (Hall rs Hrs Hpos). lia.
    + exists k. split_and!; [done|lia|done|]. intros; lia.
    + exists k. split_and!; [done|lia|done|].
      intros rs Hrs Hpos. specialize (Hall rs Hrs Hpos). lia.
    + exists k. split_and!; [done|lia|done|]. intros; lia.
Qed.

(** A sleep comes between the observer call that ends a batch and the
    sample of the stop flag for the next batch. *)
Lemma Run_wait_position o C total b acc out evs :
  Run o C total b acc out evs →
  ∀ pre post ms,
    evs = pre ++ Waited ms :: post →
    ∃ b' rs pre' stop post',
      pre = pre' ++ [OnBatchComplete b' rs]
      ∧ post = StopSampled (S b') stop :: post'.
Proof.
  induction 1 as [b acc Hb|b acc Hb|b acc trs sevs ok e c rest Hb Hctx Hperm Htrs Hok
                 |b acc trs sevs out evs Hb Hctx Hperm Hok HR IH];
    intros pre post ms Heq.
  - by destruct pre.
  - destruct pre as [|? [|? ?]]; simplify_eq/=.
  - exfalso.
    assert (Hin : Waited ms ∈ batchEvents b (batchContexts o C b) sevs).
    { rewrite Heq. apply elem_of_app. right. left. }
    apply elem_of_batchEvents in Hin as [?|[?|[(? & _ & ?)|Hin]]]; try done.
    apply (elem_of_settled _ _ _ Hperm) in Hin as (s & _ & Hs). by destruct s.
  - symmetry in Heq. apply app_cons_split in Heq as [(m & Hpre & ->)|(m & -> & Hm)].
    + exfalso.
      assert (Hin : Waited ms ∈ batchEvents b (batchContexts o C b) sevs).
      { rewrite Hpre. apply elem_of_app. right. left. }
      apply elem_of_batchEvents in Hin as [?|[?|[(? & _ & ?)|Hin]]]; try done.
      apply (elem_of_settled _ _ _ Hperm) in Hin as (s & _ & Hs). by destruct s.
    + destruct m as [|x m]; [discriminate Hm|].
      injection Hm as <- Hm.
      assert (Hlater : ∀ m', evs = m' ++ Waited ms :: post →
                ∀ front, ∃ b' rs pre' stop post',
                  (batchEvents b (batchContexts o C b) sevs ++ front) ++ m'
                  = pre' ++ [OnBatchComplete b' rs]
                  ∧ post = StopSampled (S b') stop :: post').
      { intros m' Hm' front.
        destruct (IH m' post ms Hm') as (b' & rs & pre' & stop & post' & -> & ->).
        exists b', rs, ((batchEvents b (batchContexts o C b) sevs ++ front) ++ pre'),
          stop, post'.
        split; [|done]. by rewrite <- !app_assoc. }
      unfold waitEvents in Hm.
      destruct (bool_decide (b < total - 1)) eqn:Hlast; simpl in Hm.
      2:{ destruct (Hlater m Hm [OnBatchComplete b (omap resultOf trs)])
            as (b' & rs & pre' & stop & post' & Hpre & ->).
          exists b', rs, pre', stop, post'. split; [|done].
          rewrite <- Hpre. by rewrite <- !app_assoc. }
      apply bool_decide_eq_true in Hlast.
      destruct (bool_decide (0 < rateLimitMs o)%Z); simpl in Hm.
      2:{ destruct (Hlater m Hm [OnBatchComplete b (omap resultOf trs)])
            as (b' & rs & pre' & stop & post' & Hpre & ->).
          exists b', rs, pre', stop, post'. split; [|done].
          rewrite <- Hpre. by rewrite <- !app_assoc. }
      destruct m as [|y m].
      * injection Hm as _ <-.
        destruct (Run_head _ _ _ _ _ _ _ HR ltac:(lia)) as (stop & rest & ->).
        exists b, (omap resultOf trs), (batchEvents b (batchContexts o C b) sevs),
          stop, rest. done.
      * injection Hm as <- Hm.
        destruct (Hlater m Hm [OnBatchComplete b (omap resultOf trs);
                               Waited (rateLimitMs o)])
          as (b' & rs & pre' & stop & post' & Hpre & ->).
        exists b', rs, pre', stop, post'. split; [|done].
        rewrite <- Hpre. by rewrite <- !app_assoc.
Qed.

Lemma executeBatched_degenerate o w :
  ¬ (items o ≠ [] ∧ 0 < concurrency o)%Z →
  (executeBatched shouldStop completion o w).2 = []
  ∧ (executeBatched shouldStop completion o w).1.2 = w
  ∧ ((executeBatched shouldStop completion o w).1.1 = Returned []
     ∨ (executeBatched shouldStop completion o w).1.1 = Threw concurrencyError).
Proof.
  intros Hdeg. unfold executeBatched.
  repeat case_bool_decide; simpl; auto.
  exfalso. apply Hdeg. split; [|lia].
  intros Heq. by apply (f_equal length) in Heq.
Qed.

Lemma ceilDiv_degenerate o :
  ¬ (items o ≠ [] ∧ 0 < concurrency o)%Z →
  ceilDiv (length (items o)) (Z.to_nat (concurrency o)) = 0.
Proof.
  intros Hdeg. unfold ceilDiv.
  destruct (Z.to_nat (concurrency o)) as [|n] eqn:HC; [done|].
  destruct (items o) as [|x l] eqn:Hitems.
  - cbn [length]. apply Nat.div_small. lia.
  - exfalso. apply Hdeg. split; [done|lia].
Qed.

Lemma executeBatched_waits o w :
  ∃ k, waits (executeBatched shouldStop completion o w).2
       = replicate k (rateLimitMs o)
    ∧ k ≤ ceilDiv (length (items o)) (Z.to_nat (concurrency o)) - 1
    ∧ ((rateLimitMs o ≤ 0)%Z → k = 0)
    ∧ (∀ rs, (executeBatched shouldStop completion o w).1.1 = Returned rs →
             (0 < rateLimitMs o)%Z →
             k = ceilDiv (length (items o)) (Z.to_nat (concurrency o)) - 1).
Proof.
  destruct (decide (items o ≠ [] ∧ 0 < concurrency o)%Z) as [[Hne Hpos]|Hdeg].
  - destruct (executeBatched _ _ o w) as [[out w'] evs] eqn:Hrun.
    apply executeBatched_Run in Hrun as (HR & _); [|done..].
    apply Run_waits in HR as (k & Hk & Hle & Hzero & Hall).
    exists k. rewrite Nat.sub_0_r in *. done.
  - destruct (executeBatched_degenerate o w Hdeg) as (-> & _ & Hout).
    exists 0. split_and!; try done; [lia|].
    intros rs Hrs _. by rewrite ceilDiv_degenerate.
Qed.

(** X1.  [executeBatched] sleeps only between batches: every sleep lasts
    [rateLimitMs], there is none when [rateLimitMs] is not positive and
    none after the last batch, so a run that returns with a positive
    [rateLimitMs] has slept once less than there are batches; and each
    sleep comes right after the observer call that ends a batch and right
    before the stop flag is sampled for the next batch. *)
Theorem executeBatched_rate_limit o w :
  let run := executeBatched shouldStop completion o w in
  let totalBatches := ceilDiv (length (items o)) (Z.to_nat (concurrency o)) in
  (∃ k, waits run.2 = replicate k (rateLimitMs o)
      ∧ k ≤ totalBatches - 1
      ∧ ((rateLimitMs o ≤ 0)%Z → k = 0)
      ∧ (∀ rs, run.1.1 = Returned rs → (0 < rateLimitMs o)%Z →
               k = totalBatches - 1))
  ∧ (∀ pre post ms,
       run.2 = pre ++ Waited ms :: post →
       ∃ b rs pre' stop post',
         pre = pre' ++ [OnBatchComplete b rs]
         ∧ post = StopSampled (S b) stop :: post').
Proof.
  intros run totalBatches. split; [apply executeBatched_waits|].
  intros pre post ms Heq. subst run.
  destruct (decide (items o ≠ [] ∧ 0 < concurrency o)%Z) as [[Hne Hpos]|Hdeg].
  - destruct (executeBatched _ _ o w) as [[out w'] evs] eqn:Hrun.
    apply executeBatched_Run in Hrun as (HR & _); [|done..].
    by eapply Run_wait_position.
  - destruct (executeBatched_degenerate o w Hdeg) as (Hevs & _).
    rewrite Hevs in Heq. by destruct pre.
Qed.

(** X2.  [executeParallel] is [executeBatched] without rate limit: it
    never sleeps, whatever the items, the concurrency and the tasks. *)
Theorem executeParallel_never_waits (l : list T) (n : Z) (run phase : string)
    (exec : @Task T R W) w :
  waits (executeParallel shouldStop completion l n run phase exec w).2 = [].
Proof.
  unfold executeParallel.
  destruct (executeBatched_waits (mkOptions l n 0%Z run phase exec) w)
    as (k & -> & _ & Hzero & _).
  by rewrite Hzero.
Qed.

(** *** The batch observer *)

Lemma batchCompletes_batchEvents b (ctxs : list (@ParallelTaskContext T)) sevs
    (trs : list (@Settled T R)) :
  sevs ≡ₚ settleEvent <$> trs →
  batchCompletes (batchEvents b ctxs sevs) = [].
Proof.
  intros Hperm. unfold batchCompletes, batchEvents. simpl.
  rewrite omap_app, (omap_settled _ sevs trs Hperm), app_nil_r by by intros [].
  induction ctxs as [|c l IH]; simpl; done.
Qed.

Lemma Run_batchCompletes o C total b acc out evs :
  Run o C total b acc out evs →
  ∃ rss, batchCompletes evs = imap (λ j rs, (b + j, rs)) rss
    ∧ b + length rss ≤ total
    ∧ (∀ j rs, rss !! j = Some rs →
               length rs = length (batchContexts o C (b + j)))
    ∧ (∀ rs, out = Returned rs → rs = acc ++ mjoin rss ∧ b + length rss = total)
    ∧ (∀ e, out = Threw e → b + length rss < total).
Proof.
  induction 1 as [b acc Hb|b acc Hb|b acc trs sevs ok e c rest Hb Hctx Hperm Htrs Hok
                 |b acc trs sevs out evs Hb Hctx Hperm Hok _ IH].
  - exists []. simpl. split_and!; try done; try lia.
    intros rs [= <-]. rewrite app_nil_r. split; [done|lia].
  - exists []. simpl. split_and!; try done; try lia; intros; lia.
  - exists []. rewrite (batchCompletes_batchEvents _ _ _ _ Hperm). simpl.
    split_and!; try done; try lia; intros; lia.
  - destruct IH as (rss & Hbc & Hle & Hlen & Hret & Hthrew).
    exists (omap resultOf trs :: rss). split_and!.
    + unfold batchCompletes in *. rewrite omap_app.
      fold (batchCompletes (batchEvents b (batchContexts o C b) sevs)).
      rewrite (batchCompletes_batchEvents _ _ _ _ Hperm). simpl.
      rewrite omap_app, omap_waitEvents by done. simpl. rewrite Hbc.
      rewrite Nat.add_0_r. f_equal. apply imap_ext. intros j rs _. simpl.
      f_equal. lia.
    + simpl. lia.
    + intros [|j] rs Hj; simpl in Hj.
      * injection Hj as <-. rewrite Nat.add_0_r, <- Hctx, length_fmap.
        pose proof (success_results trs Hok) as Hsr.
        apply Forall2_length in Hsr. by rewrite length_fmap in Hsr.
      * rewrite (Hlen j rs Hj). do 2 f_equal. lia.
    + intros rs Hrs. destruct (Hret rs Hrs) as [-> Htot]. simpl.
      rewrite app_assoc. split; [done|lia].
    + intros e He. specialize (Hthrew e He). simpl. lia.
Qed.

(** Where the calls of the observer end: at the batch whose sample
    found the stop flag set, or at the batch a task of which failed.
    And what the observer is given: the results of the tasks of the
    batch, in the order of its items. *)
Lemma Run_observer o C total b acc out evs :
  Run o C total b acc out evs →
  0 < C →
  (∀ b', StopSampled b' true ∈ evs → b + length (batchCompletes evs) = b')
  ∧ (∀ c e, OnError c e ∈ evs → b + length (batchCompletes evs) = index c `div` C)
  ∧ (∀ e, out = Threw e →
          (∃ b', StopSampled b' true ∈ evs) ∨ (∃ c, OnError c e ∈ evs))
  ∧ (∀ b' rs, OnBatchComplete b' rs ∈ evs →
              Forall2 (λ c r, OnTaskComplete c r ∈ evs) (batchContexts o C b') rs).
Proof.
  intros HR HC.
  induction HR as [b acc Hb|b acc Hb|b acc trs sevs ok e cf rest Hb Hctx Hperm Htrs Hok
                  |b acc trs sevs out evs Hb Hctx Hperm Hok _ (IH1 & IH2 & IH3 & IH4)].
  - split_and!; [by intros ? ?%elem_of_nil|by intros ? ? ?%elem_of_nil|done|].
    by intros ? ? ?%elem_of_nil.
  - split_and!.
    + intros b' H. apply list_elem_of_singleton in H. simplify_eq. simpl. lia.
    + intros c e H. by apply list_elem_of_singleton in H.
    + intros e _. left. exists b. left.
    + intros b' rs H. by apply list_elem_of_singleton in H.
  - rewrite (batchCompletes_batchEvents _ _ _ _ Hperm). split_and!.
    + intros b' H. by apply (batchEvents_no_stop completion _ _ _ _ _ Hperm) in H.
    + intros c e' H. apply elem_of_batchEvents in H as [?|[?|[(?&?&?)|H]]]; try done.
      apply (elem_of_settled _ _ _ Hperm) in H as (s & Hs & Heq).
      apply settleEvent_OnError in Heq as ->.
      assert (Hc : c ∈ batchContexts o C b).
      { rewrite <- Hctx. by apply (list_elem_of_fmap_2 settledContext) in Hs. }
      apply batchContexts_elem in Hc as (Hc & _); [|done]. simpl. lia.
    + intros e' [= <-]. right. exists cf. apply (elem_of_batchEvents completion). do 3 right.
      apply (elem_of_settled _ _ _ Hperm). exists (Failure e cf). split; [|done].
      rewrite Htrs. apply elem_of_app. right. left.
    + intros b' rs H.
      by apply (batchEvents_no_complete completion _ _ _ _ _ _ Hperm) in H.
  - assert (Hlen : length (batchCompletes
                     (batchEvents b (batchContexts o C b) sevs
                        ++ OnBatchComplete b (omap resultOf trs)
                        :: waitEvents o total b ++ evs))
                   = S (length (batchCompletes evs))).
    { unfold batchCompletes. rewrite omap_app.
      fold (batchCompletes (batchEvents b (batchContexts o C b) sevs)).
      rewrite (batchCompletes_batchEvents _ _ _ _ Hperm). simpl.
      by rewrite omap_app, omap_waitEvents. }
    rewrite Hlen. split_and!.
    + intros b' H. apply elem_of_Run_next in H as [H|[?|[H|H]]]; try done.
      * by apply (batchEvents_no_stop completion _ _ _ _ _ Hperm) in H.
      * by apply waitEvents_elem in H.
      * specialize (IH1 b' H). lia.
    + intros c e H. apply elem_of_Run_next in H as [H|[?|[H|H]]]; try done.
      * apply elem_of_batchEvents in H as [?|[?|[(?&?&?)|H]]]; try done.
        apply (elem_of_settled _ _ _ Hperm) in H as (s & Hs & Heq).
        apply settleEvent_OnError in Heq as ->.
        rewrite Forall_forall in Hok. by apply Hok in Hs.
      * by apply waitEvents_elem in H.
      * specialize (IH2 c e H). lia.
    + intros e He. destruct (IH3 e He) as [[b' H]|[c H]].
      * left. exists b'. apply elem_of_Run_next. by do 3 right.
      * right. exists c. apply elem_of_Run_next. by do 3 right.
    + intros b' rs H. apply elem_of_Run_next in H as [H|[H|[H|H]]].
      * by apply (batchEvents_no_complete completion _ _ _ _ _ _ Hperm) in H.
      * injection H as -> ->. rewrite <- Hctx.
        eapply Forall2_impl; [exact (success_results trs Hok)|].
        intros c r Hin. apply elem_of_Run_next. left.
        apply (elem_of_batchEvents completion). do 3 right.
        apply (elem_of_settled _ _ _ Hperm). by exists (Success r c).
      * by apply waitEvents_elem in H.
      * eapply Forall2_impl; [exact (IH4 b' rs H)|].
        intros c r Hin. apply elem_of_Run_next. by do 3 right.
Qed.

(** X3.  [onBatchComplete] is called once for every batch that completed
    without failure and for no other, in batch order from batch 0 and
    without gaps, with the results of the tasks of the batch in the
    order of its items; the array [executeBatched] returns is the
    concatenation of what the observer received.  A run that throws
    after it has started has met a set stop flag or a failed task: the
    calls of the observer are then those for the batches before the
    batch whose sample found the flag set, or before the batch of the
    failed task, so each earlier batch had its call and that batch and
    the later ones had none. *)
Theorem executeBatched_batch_observer o w :
  let run := executeBatched shouldStop completion o w in
  let N := length (items o) in
  let C := Z.to_nat (concurrency o) in
  ∃ rss, batchCompletes run.2 = imap (λ b rs, (b, rs)) rss
    ∧ (∀ b rs, rss !! b = Some rs → length rs = ((b + 1) * C) `min` N - b * C)
    ∧ (∀ b rs, rss !! b = Some rs →
               Forall2 (λ c r, OnTaskComplete c r ∈ run.2)
                       (batchContexts o C b) rs)
    ∧ (∀ rs, run.1.1 = Returned rs → rs = mjoin rss ∧ length rss = ceilDiv N C)
    ∧ (∀ e, run.1.1 = Threw e → (0 < concurrency o)%Z →
            length rss < ceilDiv N C
            ∧ ((∃ b, StopSampled b true ∈ run.2) ∨ (∃ c, OnError c e ∈ run.2)))
    ∧ (∀ b, StopSampled b true ∈ run.2 → length rss = b)
    ∧ (∀ c e, OnError c e ∈ run.2 → length rss = index c `div` C).
Proof.
  intros run N C. subst run.
  destruct (decide (items o ≠ [] ∧ 0 < concurrency o)%Z) as [[Hne Hpos]|Hdeg].
  - destruct (executeBatched _ _ o w) as [[out w'] evs] eqn:Hrun.
    apply executeBatched_Run in Hrun as (HR & _); [|done..].
    destruct (Run_observer _ _ _ _ _ _ _ HR) as (Hstop & Herr & Hwhy & Hres);
      [lia|].
    apply Run_batchCompletes in HR as (rss & Hbc & Hle & Hlen & Hret & Hthrew).
    assert (Hcount : length (batchCompletes evs) = length rss).
    { by rewrite Hbc, length_imap. }
    rewrite Hcount in Hstop, Herr.
    exists rss. simpl in *. split_and!; try done.
    + intros b rs Hb. rewrite (Hlen b rs Hb). simpl.
      rewrite batchContexts_length. fold C N. f_equal. lia.
    + intros b rs Hb. apply Hres.
      assert (Hin : (b, rs) ∈ batchCompletes evs).
      { rewrite Hbc. apply list_elem_of_lookup. exists b.
        by rewrite list_lookup_imap, Hb. }
      apply list_elem_of_omap in Hin as (ev & Hev & Heq).
      destruct ev; simplify_eq. done.
    + intros e He _. split; [by apply (Hthrew e)|by apply Hwhy].
  - destruct (executeBatched_degenerate o w Hdeg) as (-> & _ & Hout).
    exists []. split_and!; try done.
    + intros rs Hrs. rewrite Hrs in Hout. destruct Hout as [[= ->]|[=]].
      split; [done|]. simpl. subst N C. by rewrite ceilDiv_degenerate.
    + intros e He Hpos. rewrite He in Hout. destruct Hout as [[=]|[= ->]].
      exfalso. apply Hdeg. split; [|done]. intros Hnil.
      unfold executeBatched in He. rewrite Hnil in He. simpl in He. done.
    + intros b Hb. by apply elem_of_nil in Hb.
    + intros c e He. by apply elem_of_nil in He.
Qed.

(** *** One task at a time *)

Lemma settleAll_nil (exec : @Task T R W) picks slots w fuel :
  settleAll exec picks [] slots w fuel = (slots, w, []).
Proof. destruct fuel; [done|]. simpl. by destruct (hd 0 picks `mod` 0). Qed.

(** With at most one task in flight there is one completion order. *)
Lemma settleAll_single (exec : @Task T R W) picks picks'
    (pending : list (nat * @ParallelTaskContext T)) slots w fuel :
  length pending ≤ 1 →
  settleAll exec picks pending slots w fuel
  = settleAll exec picks' pending slots w fuel.
Proof.
  intros Hlen. destruct pending as [|[k c] [|? ?]]; simpl in Hlen; [| |lia].
  - by rewrite !settleAll_nil.
  - destruct fuel as [|fuel]; [done|]. cbn [settleAll length].
    rewrite !Nat.mod_1_r. cbn [lookup list_lookup delete list_delete].
    destruct (settleTask exec c w) as [s w1].
    by rewrite !settleAll_nil.
Qed.

Lemma batchLoop_sequential completion' o totalBatches remaining :
  ∀ b acc w,
    batchLoop shouldStop completion o 1 totalBatches remaining b acc w
    = batchLoop shouldStop completion' o 1 totalBatches remaining b acc w.
Proof.
  induction remaining as [|remaining IH]; intros b acc w; simpl; [done|].
  destruct (shouldStop (runId o) w); [done|].
  rewrite (settleAll_single _ (completion b) (completion' b)).
  2:{ rewrite !length_imap. unfold slice. rewrite length_take. lia. }
  destruct (settleAll _ _ _ _ _ _) as [[slots w1] sevs].
  destruct (promiseAll slots) as [batchResults|]; [|done].
  destruct (find _ batchResults) as [[r c|e c]|]; try done; by rewrite IH.
Qed.

(** X4.  With a concurrency of 1 the run does not depend on the order in
    which promises settle: outcome, final world and the whole trace are
    the same for any two completion orders. *)
Theorem executeBatched_sequential_deterministic completion' o w :
  concurrency o = 1%Z →
  executeBatched shouldStop completion o w
  = executeBatched shouldStop completion' o w.
Proof.
  intros Hone. unfold executeBatched. rewrite Hone.
  case_bool_decide; [done|]. case_bool_decide; [lia|].
  change (Z.to_nat 1) with 1. apply batchLoop_sequential.
Qed.

(** *** What the executor throws and what it leaves of the world *)

(** X5.  [executeBatched] throws nothing of its own besides the stop
    error and the configuration error: any other error it throws was
    thrown by a task on an item of the list, as it is when it is an
    [Error] and wrapped in [new Error(String(value))] otherwise, so that
    its message is the task's error text either way. *)
Theorem executeBatched_throws_only o w error w' evs :
  executeBatched shouldStop completion o w = (Threw error, w', evs) →
  error = stopError ∨ error = concurrencyError
  ∨ ∃ c w0 t,
      item c ∈ items o
      ∧ (executeTask o c w0).1 = inr t
      ∧ error = asError t
      ∧ message error = errorText t.
Proof.
  intros Hrun.
  destruct (executeBatched_throws_task_error shouldStop completion o
              (λ _, True)
              (λ x t, ∃ c w0, item c = x ∧ (executeTask o c w0).1 = inr t)
              w error w' evs) as [?|[?|(x & t & Hx & (c & w0 & <- & Ht) & ->)]];
    auto.
  - intros c w0 r w1 _ _ Hexec. split; [done|]. intros t ->.
    exists c, w0. by rewrite Hexec.
  - do 2 right. exists c, w0, t. split_and!; try done. by destruct t.
Qed.

(** X6.  The executor changes the world only through its tasks: a
    property of the world that every task on an item of the list
    preserves holds after the run if it held before, whatever the
    outcome. *)
Theorem executeBatched_preserves o (I : W → Prop) w :
  (∀ c w0, item c ∈ items o → I w0 → I (executeTask o c w0).2) →
  I w →
  I (executeBatched shouldStop completion o w).1.2.
Proof.
  intros Htask HI.
  destruct (executeBatched _ _ o w) as [[out w'] evs] eqn:Hrun. simpl.
  destruct (executeBatched_faithful _ _ _ _ _ _ _ Hrun) as [Hf ->].
  destruct (faithful_invariant shouldStop (executeTask o) (runId o) I
              (λ c, item c ∈ items o) (λ _, True) evs) with (w := w)
    as [HI' _]; try done.
  - intros c w0 Hc HI0. split; [|done]. unfold settleTask.
    specialize (Htask c w0 Hc HI0).
    by destruct (executeTask o c w0) as [[r|t] w1].
  - intros c Hc. by eapply executeBatched_settled_items.
Qed.

(** *** Tasks in flight *)

Lemma omap_take_length {A B} (f : A → option B) (l : list A) k :
  length (omap f (take k l)) ≤ length (omap f l).
Proof.
  rewrite <- (take_drop k l) at 2. rewrite omap_app, length_app. lia.
Qed.

Lemma omap_take_none {A B} (f : A → option B) (l : list A) k :
  omap f l = [] → omap f (take k l) = [].
Proof.
  intros Hl. pose proof (omap_take_length f l k) as Hle.
  rewrite Hl in Hle. destruct (omap f (take k l)); [done|simpl in Hle; lia].
Qed.

Lemma dispatches_take_after o total b (rs : list R) k :
  dispatches (take k (OnBatchComplete b rs :: waitEvents o total b
                        : list (@Event T R))) = [].
Proof. apply omap_take_none. simpl. by apply omap_waitEvents. Qed.

Lemma settles_take_after o total b (rs : list R) k :
  settles (take k (OnBatchComplete b rs :: waitEvents o total b
                     : list (@Event T R))) = [].
Proof. apply omap_take_none. simpl. by apply omap_waitEvents. Qed.

Lemma Run_in_flight o C total b acc out evs :
  Run o C total b acc out evs →
  ∀ k, length (dispatches (take k evs)) ≤ length (settles (take k evs)) + C.
Proof.
  induction 1 as [b acc Hb|b acc Hb|b acc trs sevs ok e c rest Hb Hctx Hperm Htrs Hok
                 |b acc trs sevs out evs Hb Hctx Hperm Hok _ IH]; intros k.
  - rewrite take_nil. simpl. lia.
  - destruct k as [|[|k]]; simpl; lia.
  - etrans; [apply omap_take_length|].
    fold (dispatches (batchEvents b (batchContexts o C b) sevs)).
    rewrite (dispatches_batchEvents _ _ _ _ Hperm), length_fmap.
    rewrite batchContexts_length. lia.
  - rewrite take_app.
    destruct (decide (k ≤ length (batchEvents b (batchContexts o C b) sevs)))
      as [Hk|Hk].
    + replace (k - length (batchEvents b (batchContexts o C b) sevs)) with 0 by lia.
      rewrite take_0, app_nil_r.
      etrans; [apply omap_take_length|].
      fold (dispatches (batchEvents b (batchContexts o C b) sevs)).
      rewrite (dispatches_batchEvents _ _ _ _ Hperm), length_fmap.
      rewrite batchContexts_length. lia.
    + rewrite take_ge by lia.
      rewrite dispatches_app, settles_app, !length_app.
      rewrite (dispatches_batchEvents _ _ _ _ Hperm), length_fmap.
      rewrite (settles_batchEvents _ _ _ _ Hperm), Hctx.
      set (j := k - length (batchEvents b (batchContexts o C b) sevs)).
      change (OnBatchComplete b (omap resultOf trs) :: waitEvents o total b ++ evs)
        with ((OnBatchComplete b (omap resultOf trs) :: waitEvents o total b) ++ evs).
      rewrite take_app, dispatches_app, settles_app, !length_app.
      rewrite dispatches_take_after, settles_take_after.
      specialize (IH (j - length (OnBatchComplete b (omap resultOf trs)
                                    :: waitEvents o total b))).
      simpl in *. lia.
Qed.

(** X24.  At no point of a run are more than [concurrency] tasks in
    flight: of every initial part of the trace, the tasks dispatched
    exceed those settled by at most the concurrency bound; and at the end
    none is in flight, whatever the outcome. *)
Theorem executeBatched_in_flight_bound o w :
  let evs := (executeBatched shouldStop completion o w).2 in
  (∀ k, length (dispatches (take k evs))
        ≤ length (settles (take k evs)) + Z.to_nat (concurrency o))
  ∧ length (dispatches evs) = length (settles evs).
Proof.
  intros evs. subst evs.
  destruct (decide (items o ≠ [] ∧ 0 < concurrency o)%Z) as [[Hne Hpos]|Hdeg].
  - destruct (executeBatched _ _ o w) as [[out w'] evs] eqn:Hrun.
    apply executeBatched_Run in Hrun as (HR & _); [|done..]. simpl. split.
    + by eapply Run_in_flight.
    + apply Run_dispatches in HR as (n & _ & _ & Hperm).
      by rewrite Hperm, length_fmap.
  - destruct (executeBatched_degenerate o w Hdeg) as (-> & _).
    split; [|done]. intros k. rewrite take_nil. simpl. lia.
Qed.

(** *** Batches do not overlap *)

Lemma Run_barrier o C total b0 acc out evs :
  Run o C total b0 acc out evs →
  (∀ b c, Dispatched b c ∈ evs → b0 ≤ b)
  ∧ ∀ l1 l2 b c,
      evs = l1 ++ Dispatched b c :: l2 →
      ∀ b' c', Dispatched b' c' ∈ l1 → b' ≤ b ∧ (b' < b → c' ∈ settles l1).
Proof.
  induction 1 as [b0 acc Hb|b0 acc Hb|b0 acc trs sevs ok e cf rest Hb Hctx Hperm Htrs Hok
                 |b0 acc trs sevs out evs Hb Hctx Hperm Hok _ [IH1 IH2]].
  - split; [by intros ? ? ?%elem_of_nil|]. by intros [|??] ? ? ? ?.
  - split.
    + intros b c H. by apply list_elem_of_singleton in H.
    + by intros [|?[|??]] ? ? ? ?.
  - assert (Hall : ∀ b c, Dispatched b c ∈ batchEvents b0 (batchContexts o C b0) sevs
                          → b = b0).
    { intros b c H. by eapply batchEvents_Dispatched. }
    split; [intros b c H; by rewrite (Hall b c H)|].
    intros l1 l2 b c Heq b' c' Hin.
    assert (b = b0) as ->.
    { apply (Hall b c). rewrite Heq. apply elem_of_app. right. left. }
    assert (b' = b0) as ->.
    { apply (Hall b' c'). rewrite Heq. apply elem_of_app. by left. }
    split; [done|lia].
  - assert (Hall : ∀ b c, Dispatched b c ∈ batchEvents b0 (batchContexts o C b0) sevs
                          → b = b0).
    { intros b c H. by eapply batchEvents_Dispatched. }
    split.
    + intros b c H. apply elem_of_Run_next in H as [H|[?|[H|H]]]; try done.
      * by rewrite (Hall b c H).
      * by apply waitEvents_elem in H.
      * apply IH1 in H. lia.
    + intros l1 l2 b c Heq b' c' Hin. symmetry in Heq.
      apply app_cons_split in Heq as [(m & Hm & _)|(m & -> & Hm)].
      * assert (b = b0) as ->.
        { apply (Hall b c). rewrite Hm. apply elem_of_app. right. left. }
        assert (b' = b0) as ->.
        { apply (Hall b' c'). rewrite Hm. apply elem_of_app. by left. }
        split; [done|lia].
      * destruct m as [|x m]; [done|]. injection Hm as <- Hm. symmetry in Hm.
        apply app_cons_split in Hm as [(m' & Hm' & _)|(m' & -> & Hm')].
        { assert (Hw : Dispatched b c ∈ waitEvents o total b0).
          { rewrite Hm'. apply elem_of_app. right. left. }
          by apply waitEvents_elem in Hw. }
        assert (Hb0 : S b0 ≤ b).
        { apply (IH1 b c). rewrite Hm'. apply elem_of_app. right. left. }
        apply elem_of_app in Hin as [Hin|Hin].
        -- rewrite (Hall b' c' Hin). split; [lia|]. intros _.
           rewrite settles_app. apply elem_of_app. left.
           rewrite (settles_batchEvents _ _ _ _ Hperm), Hctx.
           apply elem_of_batchEvents in Hin as [?|[?|[(c0 & Hc0 & ?)|Hin]]];
             simplify_eq; try done.
           apply (elem_of_settled _ _ _ Hperm) in Hin as (s & _ & Hs).
           by apply settleEvent_not_Dispatched in Hs.
        -- apply elem_of_cons in Hin as [?|Hin]; [done|].
           apply elem_of_app in Hin as [Hin|Hin];
             [by apply waitEvents_elem in Hin|].
           destruct (IH2 _ _ _ _ Hm' b' c' Hin) as [Hle Hset].
           split; [done|]. intros Hlt.
           rewrite settles_app. apply elem_of_app. right.
           change (OnBatchComplete b0 (omap resultOf trs)
                     :: waitEvents o total b0 ++ m')
             with ((OnBatchComplete b0 (omap resultOf trs)
                      :: waitEvents o total b0) ++ m').
           rewrite settles_app. apply elem_of_app. right. by apply Hset.
Qed.

(** X25.  Batches do not overlap.  When a task of batch [b] is
    dispatched, every task dispatched so far belongs to batch [b] or to an
    earlier batch, and every task of an earlier batch has settled: batch
    [b + 1] is not started before batch [b] has fully settled. *)
Theorem executeBatched_batch_barrier o w :
  ∀ l1 l2 b c,
    (executeBatched shouldStop completion o w).2 = l1 ++ Dispatched b c :: l2 →
    ∀ b' c', Dispatched b' c' ∈ l1 → b' ≤ b ∧ (b' < b → c' ∈ settles l1).
Proof.
  destruct (decide (items o ≠ [] ∧ 0 < concurrency o)%Z) as [[Hne Hpos]|Hdeg].
  - destruct (executeBatched _ _ o w) as [[out w'] evs] eqn:Hrun.
    apply executeBatched_Run in Hrun as (HR & _); [|done..].
    by apply Run_barrier in HR as [_ HR].
  - destruct (executeBatched_degenerate o w Hdeg) as (-> & _).
    by intros [|??] ? ? ? ?.
Qed.

(** *** A run that returns *)

Lemma Run_returned o C total b acc rs evs :
  Run o C total b acc (Returned rs) evs →
  (∀ c e, OnError c e ∉ evs) ∧ (∀ b', StopSampled b' true ∉ evs).
Proof.
  remember (Returned rs) as out eqn:Hout.
  induction 1 as [b acc Hb|b acc Hb|b acc trs sevs ok e cf rest Hb Hctx Hperm Htrs Hok
                 |b acc trs sevs out evs Hb Hctx Hperm Hok _ IH].
  - split; intros; apply not_elem_of_nil.
  - done.
  - done.
  - destruct (IH Hout) as [IH1 IH2]. split.
    + intros c e Hin. apply elem_of_Run_next in Hin as [Hin|[?|[Hin|Hin]]];
        try done.
      * apply elem_of_batchEvents in Hin as [?|[?|[(? & _ & ?)|Hin]]]; try done.
        apply (elem_of_settled _ _ _ Hperm) in Hin as (s & Hs & Heq).
        apply settleEvent_OnError in Heq. subst s.
        rewrite Forall_forall in Hok. by apply Hok in Hs.
      * by apply waitEvents_elem in Hin.
      * by apply IH1 in Hin.
    + intros b' Hin. apply elem_of_Run_next in Hin as [Hin|[?|[Hin|Hin]]];
        try done.
      * by apply (batchEvents_no_stop completion _ _ _ _ _ Hperm) in Hin.
      * by apply waitEvents_elem in Hin.
      * by apply IH2 in Hin.
Qed.

(** When the executor returns, no task has failed and every item of the
    list has been taken through a task that returned. *)
Lemma executeBatched_returned o w rs w' evs :
  executeBatched shouldStop completion o w = (Returned rs, w', evs) →
  (∀ c e, OnError c e ∉ evs)
  ∧ ∀ x, x ∈ items o → ∃ c r, item c = x ∧ OnTaskComplete c r ∈ evs.
Proof.
  intros Hrun.
  destruct (decide (items o ≠ [] ∧ 0 < concurrency o)%Z) as [[Hne Hpos]|Hdeg].
  - apply executeBatched_Run in Hrun as (HR & _); [|done..].
    destruct (Run_returned _ _ _ _ _ _ _ HR) as [Hnoerr Hnostop].
    split; [done|].
    apply Run_clean in HR as (rs' & _ & Hd & _ & Hall); [|done..].
    rewrite Nat.sub_0_r in Hd. rewrite batchContexts_join in Hd by lia.
    rewrite take_ge in Hd by (apply ceilDiv_covers; lia).
    intros x [i Hi]%list_elem_of_lookup_1.
    rewrite Hd in Hall.
    destruct (Forall2_lookup_l _ _ _ i
                (i `div` Z.to_nat (concurrency o),
                 mkContext x i (length (items o))) Hall)
      as (r & _ & Hr).
    { by rewrite list_lookup_imap, Hi. }
    by exists (mkContext x i (length (items o))), r.
  - destruct (executeBatched_degenerate o w Hdeg) as (Hevs & _ & Hout).
    rewrite Hrun in Hevs, Hout. simpl in *. subst evs.
    split; [intros; apply not_elem_of_nil|].
    intros x Hx. exfalso. destruct Hout as [_|[=]].
    apply Hdeg. split.
    + intros Hnil. rewrite Hnil in Hx. by apply elem_of_nil in Hx.
    + unfold executeBatched in Hrun.
      case_bool_decide as Hlen.
      * destruct (items o); [by apply elem_of_nil in Hx|done].
      * case_bool_decide; [done|lia].
Qed.

(** Along a faithful trace without failure, with an invariant [I] of
    the world that the returning tasks keep: what a returning task establishes for
    its context, and every returning task keeps for the other contexts,
    holds at the end for every context that settled and for every
    context for which it held at the start. *)
Lemma faithful_established (exec : @Task T R W) run (I : W → Prop)
    (P : @ParallelTaskContext T → Prop)
    (Done : @ParallelTaskContext T → W → Prop) evs :
  (∀ c w0 r w1, P c → I w0 → exec c w0 = (inl r, w1) → I w1) →
  (∀ c w0 r w1, P c → I w0 → exec c w0 = (inl r, w1) →
                Done c w1 ∧ ∀ c', Done c' w0 → Done c' w1) →
  ∀ w, I w →
       faithful shouldStop exec run evs w →
       (∀ c e, OnError c e ∉ evs) →
       (∀ c, c ∈ settles evs → P c) →
       I (replay exec evs w)
       ∧ (∀ c r, OnTaskComplete c r ∈ evs → Done c (replay exec evs w))
       ∧ (∀ c, Done c w → Done c (replay exec evs w)).
Proof.
  intros Hinv Htask. induction evs as [|ev evs IH]; intros w HI Hf Hnoerr HP.
  - split_and!; [done|by intros ? ? ?%elem_of_nil|done].
  - assert (Hnoerr' : ∀ c e, OnError c e ∉ evs).
    { intros c e Hin. apply (Hnoerr c e). by right. }
    assert (HP' : ∀ c, c ∈ settles evs → P c).
    { intros c Hc. apply HP. unfold settles in *. simpl.
      destruct (settledBy ev); [by right|done]. }
    destruct ev as [b stop|b n|b c|c r|c error|b rs0|ms]; simpl in Hf |- *;
      try (destruct (IH w) as (H0 & H1 & H2); [done|tauto|done|done|];
           split_and!; [done| |done];
           intros c0 r0 [?|Hin]%elem_of_cons; [done|by eapply H1]).
    + destruct Hf as [Heq Hf]. unfold settleTask in *.
      assert (HPc : P c) by (apply HP; left).
      destruct (exec c w) as [[r'|t] w1] eqn:Hexec; simpl in *; [|done].
      injection Heq as ->.
      pose proof (Hinv _ _ _ _ HPc HI Hexec) as HI1.
      destruct (Htask _ _ _ _ HPc HI Hexec) as [Hdone Hkeep].
      destruct (IH w1 HI1 Hf Hnoerr' HP') as (H0 & H1 & H2). split_and!.
      * done.
      * intros c0 r0 [[= -> ->]|Hin]%elem_of_cons; [by apply H2|by eapply H1].
      * intros c0 Hc0. by apply H2, Hkeep.
    + exfalso. apply (Hnoerr c error). left.
Qed.

(** The same for a run of the executor. *)
Lemma executeBatched_established o (I : W → Prop)
    (Done : T → W → Prop) w rs w' evs :
  (∀ c w0 r w1, item c ∈ items o → I w0 → executeTask o c w0 = (inl r, w1) →
                I w1) →
  (∀ c w0 r w1, item c ∈ items o → I w0 → executeTask o c w0 = (inl r, w1) →
                Done (item c) w1 ∧ ∀ x, Done x w0 → Done x w1) →
  I w →
  executeBatched shouldStop completion o w = (Returned rs, w', evs) →
  I w'
  ∧ (∀ x, x ∈ items o → Done x w')
  ∧ (∀ x, Done x w → Done x w').
Proof.
  intros Hinv Htask HI Hrun.
  destruct (executeBatched_returned _ _ _ _ _ Hrun) as [Hnoerr Hall].
  destruct (executeBatched_faithful _ _ _ _ _ _ _ Hrun) as [Hf ->].
  destruct (faithful_established (executeTask o) (runId o) I
              (λ c, item c ∈ items o) (λ c, Done (item c)) evs Hinv)
    with (w := w) as (HI' & Hdone & Hkeep); try done.
  - intros c w0 r w1 Hc HI0 Hexec.
    destruct (Htask _ _ _ _ Hc HI0 Hexec) as [H1 H2]. split; [done|].
    intros c'. apply H2.
  - intros c Hc. by eapply executeBatched_settled_items.
  - split_and!; [done| |].
    + intros x Hx. destruct (Hall x Hx) as (c & r & <- & Hin). by eapply Hdone.
    + intros x Hx. by apply (Hkeep (mkContext x 0 0)).
Qed.

End Facts.
End ParallelExecutorMore.

(** * Properties of the parallelism resolver *)

Module ParallelismFacts.
Import Parallelism.

Lemma resolveParallelism_spec phase cli prov :
  resolveParallelism phase cli prov = resolveSpec phase cli prov.
Proof.
  unfold resolveParallelism, resolveSpec, priorityChain.
  destruct (cli ≫= (λ c, perPhase c phase)); [done|].
  destruct (cli ≫= default); [done|].
  destruct (prov ≫= (λ c, perPhase c phase)); [done|].
  destruct (prov ≫= default); done.
Qed.

Lemma perPhase_positive config c phase n :
  allPositive config → config = Some c → perPhase c phase = Some n → (0 < n)%Z.
Proof.
  intros Hpos Hc Hn. specialize (Hpos c Hc (Some n)). simpl in Hpos.
  apply Hpos. rewrite <- Hn. destruct phase; simpl; set_solver.
Qed.

Lemma default_positive config c n :
  allPositive config → config = Some c → default c = Some n → (0 < n)%Z.
Proof.
  intros Hpos Hc Hn. specialize (Hpos c Hc (Some n)). simpl in Hpos.
  apply Hpos. rewrite <- Hn. set_solver.
Qed.

(** The resolver hands a configured number on as it is: zero stays
    zero, so the result is not positive for every input. *)
Lemma resolveParallelism_zero_default :
  ¬ (0 < resolveParallelism Ingest
           (Some (mkConfig (Some 0%Z) None None None None None)) None)%Z.
Proof. unfold resolveParallelism. simpl. lia. Qed.

(** C5 (amended).  [resolveParallelism] is a function of its three
    arguments alone and returns the first defined of
    [callerConfig[phase]], [callerConfig.default], [providerDefault[phase]],
    [providerDefault.default], and 1 when none is; the four examples of
    the specification evaluate to 3, 5, 1 and 1.  The result is positive
    whenever every number the two configurations define is positive (the
    resolver does not check them). *)
Theorem resolveParallelism_priority_chain :
  (∀ phase cli prov,
     resolveParallelism phase cli prov = resolveSpec phase cli prov)
  ∧ resolveParallelism Ingest
      (Some (mkConfig (Some 5%Z) (Some 3%Z) None None None None))
      (Some (mkConfig (Some 1%Z) (Some 2%Z) None None None None)) = 3%Z
  ∧ resolveParallelism Ingest
      (Some (mkConfig (Some 5%Z) None None None None None))
      (Some (mkConfig None (Some 2%Z) None None None None)) = 5%Z
  ∧ resolveParallelism Ingest None
      (Some (mkConfig (Some 1%Z) None None None None None)) = 1%Z
  ∧ (∀ phase, resolveParallelism phase None None = 1%Z)
  ∧ (∀ phase cli prov,
       allPositive cli → allPositive prov →
       (0 < resolveParallelism phase cli prov)%Z).
Proof.
  split_and!; try done.
  - apply resolveParallelism_spec.
  - intros phase cli prov Hcli Hprov. unfold resolveParallelism.
    destruct cli as [c|], prov as [p|]; simpl.
    + destruct (perPhase c phase) as [n|] eqn:H1;
        [by eapply (perPhase_positive (Some c))|].
      destruct (default c) as [n|] eqn:H2;
        [by eapply (default_positive (Some c))|].
      destruct (perPhase p phase) as [n|] eqn:H3;
        [by eapply (perPhase_positive (Some p))|].
      destruct (default p) as [n|] eqn:H4;
        [by eapply (default_positive (Some p))|done].
    + destruct (perPhase c phase) as [n|] eqn:H1;
        [by eapply (perPhase_positive (Some c))|].
      destruct (default c) as [n|] eqn:H2;
        [by eapply (default_positive (Some c))|done].
    + destruct (perPhase p phase) as [n|] eqn:H3;
        [by eapply (perPhase_positive (Some p))|].
      destruct (default p) as [n|] eqn:H4;
        [by eapply (default_positive (Some p))|done].
    + done.
Qed.

Lemma resolveParallelism_priority_chain_witness :
  allPositive (Some (mkConfig (Some 5%Z) (Some 3%Z) None None None None))
  ∧ allPositive None
  ∧ (0 < resolveParallelism Search
           (Some (mkConfig (Some 5%Z) (Some 3%Z) None None None None)) None)%Z.
Proof.
  assert (H1 : allPositive (Some (mkConfig (Some 5%Z) (Some 3%Z) None None None None))).
  { intros c [= <-] n Hn. simpl in Hn.
    repeat (apply elem_of_cons in Hn as [->|Hn]; [done|]).
    by apply elem_of_nil in Hn. }
  assert (H2 : allPositive None) by (intros c [=]).
  split; [exact H1|]. split; [exact H2|].
  destruct resolveParallelism_priority_chain as (_ & _ & _ & _ & _ & Hpos).
  by apply Hpos.
Defined.

End ParallelismFacts.

(** * Properties of [String.prototype.replace] *)

Module JsStringFacts.
Import JsString.

Implicit Types (s pat rep pre post x y z m : string).

(** Let [simpl] compute the concatenation with a string that starts
    with a known character. *)
#[local] Arguments String.append !_ _ : simpl nomatch.

Lemma app_empty_r s : s +:+ "" = s.
Proof. induction s as [|a s IH]; [done|]. simpl. by f_equal. Qed.

Lemma app_assoc x y z : (x +:+ y) +:+ z = x +:+ y +:+ z.
Proof. induction x as [|a x IH]; [done|]. simpl. by f_equal. Qed.

Lemma length_app x y :
  String.length (x +:+ y) = String.length x + String.length y.
Proof. induction x as [|a x IH]; [done|]. simpl. by f_equal. Qed.

(** Two ways of cutting the same string in two differ by a middle
    part. *)
Lemma app_eq_app x y pre post :
  x +:+ y = pre +:+ post →
  (∃ m, x = pre +:+ m ∧ post = m +:+ y)
  ∨ (∃ m, pre = x +:+ m ∧ y = m +:+ post).
Proof.
  revert pre. induction x as [|a x IH]; intros [|b pre] H; simpl in *.
  - left. by exists "".
  - right. by exists (String b pre).
  - left. by exists (String a x).
  - injection H as -> H. destruct (IH _ H) as [(m & -> & ->)|(m & -> & ->)].
    + left. by exists m.
    + right. by exists m.
Qed.

Lemma app_inj_length x y pre post :
  x +:+ y = pre +:+ post → String.length x = String.length pre →
  x = pre ∧ y = post.
Proof.
  revert pre. induction x as [|a x IH]; intros [|b pre] H Hlen;
    simplify_eq/=; [done|].
  destruct (IH _ H0) as [-> ->]; [congruence|done].
Qed.

Lemma stripPrefix_Some pat s following :
  stripPrefix pat s = Some following ↔ s = pat +:+ following.
Proof.
  revert s. induction pat as [|a pat IH]; intros s; simpl.
  - split; congruence.
  - destruct s as [|b s]; [split; discriminate|].
    case_bool_decide as Hab.
    + subst b. rewrite IH. split; congruence.
    + split; [discriminate|]. intros [= ? ?]. congruence.
Qed.

Lemma splitAtFirst_unfold pat s :
  splitAtFirst pat s
  = match stripPrefix pat s with
    | Some following => Some ("", following)
    | None =>
        match s with
        | "" => None
        | String c s' =>
            match splitAtFirst pat s' with
            | Some (preceding, following) => Some (String c preceding, following)
            | None => None
            end
        end
    end.
Proof. by destruct s. Qed.

(** [splitAtFirst] cuts at an occurrence, and at the first one. *)
Lemma splitAtFirst_Some pat s pre post :
  splitAtFirst pat s = Some (pre, post) →
  s = pre +:+ pat +:+ post
  ∧ ∀ x y, s = x +:+ pat +:+ y → String.length pre ≤ String.length x.
Proof.
  revert pre post. induction s as [|c s IH]; intros pre post;
    rewrite splitAtFirst_unfold;
    destruct (stripPrefix pat _) as [following|] eqn:Hstrip.
  - intros [= <- <-]. apply stripPrefix_Some in Hstrip. split; [done|].
    simpl. lia.
  - done.
  - intros [= <- <-]. apply stripPrefix_Some in Hstrip. split; [done|].
    simpl. lia.
  - destruct (splitAtFirst pat s) as [[pre' post']|] eqn:Hrec; [|done].
    intros [= <- <-]. destruct (IH _ _ eq_refl) as [-> Hmin].
    split; [done|]. intros [|a x] y Hxy; simpl in *.
    + apply stripPrefix_Some in Hxy. congruence.
    + injection Hxy as _ Hxy. apply Hmin in Hxy. lia.
Qed.

Lemma splitAtFirst_None pat s :
  splitAtFirst pat s = None → ¬ occurs pat s.
Proof.
  induction s as [|c s IH]; rewrite splitAtFirst_unfold;
    destruct (stripPrefix pat _) as [following|] eqn:Hstrip; try done.
  - intros _ ([|a x] & y & Hxy); simpl in *; [|done].
    apply stripPrefix_Some in Hxy. congruence.
  - destruct (splitAtFirst pat s) as [[pre' post']|] eqn:Hrec; [done|].
    intros _ ([|a x] & y & Hxy); simpl in *.
    + apply stripPrefix_Some in Hxy. congruence.
    + injection Hxy as _ Hxy. apply IH; [done|]. by exists x, y.
Qed.

Lemma splitAtFirst_first pat s pre post :
  s = pre +:+ pat +:+ post →
  (∀ x y, s = x +:+ pat +:+ y → String.length pre ≤ String.length x) →
  splitAtFirst pat s = Some (pre, post).
Proof.
  intros Hs Hmin.
  destruct (splitAtFirst pat s) as [[pre' post']|] eqn:Hsplit.
  - apply splitAtFirst_Some in Hsplit as [Hs' Hmin'].
    assert (Hlen : String.length pre' = String.length pre).
    { apply Nat.le_antisymm; [by apply (Hmin' pre post)|by apply (Hmin pre' post')]. }
    rewrite Hs in Hs'. symmetry in Hs'.
    apply app_inj_length in Hs' as [-> Hrest]; [|done].
    by apply (inj (String.app pat)) in Hrest as ->.
  - apply splitAtFirst_None in Hsplit. destruct Hsplit. by exists pre, post.
Qed.

(** [replace] rewrites the first occurrence and nothing else. *)
Lemma replace_first pat rep s pre post :
  s = pre +:+ pat +:+ post →
  (∀ x y, s = x +:+ pat +:+ y → String.length pre ≤ String.length x) →
  replace pat rep s = pre +:+ GetSubstitution pat pre post rep +:+ post.
Proof.
  intros Hs Hmin. unfold replace. by rewrite (splitAtFirst_first _ _ _ _ Hs Hmin).
Qed.

Lemma replace_absent pat rep s : ¬ occurs pat s → replace pat rep s = s.
Proof.
  intros Hno. unfold replace.
  destruct (splitAtFirst pat s) as [[pre post]|] eqn:Hsplit; [|done].
  apply splitAtFirst_Some in Hsplit as [-> _]. destruct Hno. by eexists _, _.
Qed.

(** A replacement without dollar sign is inserted as it is. *)
Lemma GetSubstitution_plain matched pre post rep :
  plain rep = true → GetSubstitution matched pre post rep = rep.
Proof.
  induction rep as [|a rep IH]; [done|]. intros H. simpl in H.
  apply andb_prop in H as [Ha Hrep].
  apply negb_true_iff, bool_decide_eq_false in Ha.
  assert (E : GetSubstitution matched pre post (String a rep)
              = String a (GetSubstitution matched pre post rep)).
  { destruct a as [[] [] [] [] [] [] [] []]; try reflexivity. by destruct Ha. }
  by rewrite E, IH.
Qed.

(** *** Occurrences that a replacement leaves in place *)

Lemma apart_sym p q : apart p q → apart q p.
Proof.
  intros H x y pre post Heq. symmetry in Heq.
  destruct (H _ _ _ _ Heq) as [?|?]; auto.
Qed.

Lemma occurs_replace_other p q rep s :
  apart p q → occurs p s → occurs p (replace q rep s).
Proof.
  intros Hpq (x & y & Hs). unfold replace.
  destruct (splitAtFirst q s) as [[pre post]|] eqn:Hsplit; [|by exists x, y].
  apply splitAtFirst_Some in Hsplit as [Hs' _]. rewrite Hs in Hs'.
  set (g := GetSubstitution q pre post rep). clearbody g.
  destruct (Hpq _ _ _ _ Hs') as [(m & -> & ->)|(m & -> & ->)].
  - exists (pre +:+ g +:+ m), y. by rewrite !app_assoc.
  - exists x, (m +:+ g +:+ post). by rewrite !app_assoc.
Qed.

Lemma occursTwice_replace_other p q rep s :
  apart p q → occursTwice p s → occursTwice p (replace q rep s).
Proof.
  intros Hpq (x & y & z & Hs). unfold replace.
  destruct (splitAtFirst q s) as [[pre post]|] eqn:Hsplit; [|by exists x, y, z].
  apply splitAtFirst_Some in Hsplit as [Hs' _]. rewrite Hs in Hs'.
  set (g := GetSubstitution q pre post rep). clearbody g.
  destruct (Hpq _ _ _ _ Hs') as [(m & -> & ->)|(m & -> & Hy)].
  - exists (pre +:+ g +:+ m), y, z. by rewrite !app_assoc.
  - destruct (Hpq _ _ _ _ Hy) as [(m' & -> & ->)|(m' & -> & ->)].
    + exists x, (m +:+ g +:+ m'), z. by rewrite !app_assoc.
    + exists x, y, (m' +:+ g +:+ post). by rewrite !app_assoc.
Qed.

Lemma occursTwice_replace_self p rep s :
  occursTwice p s → occurs p (replace p rep s).
Proof.
  intros (x & y & z & Hs). unfold replace.
  destruct (splitAtFirst p s) as [[pre post]|] eqn:Hsplit.
  2:{ apply splitAtFirst_None in Hsplit. destruct Hsplit. by eexists _, _. }
  apply splitAtFirst_Some in Hsplit as [Hs' Hmin].
  assert (Hpost : occurs p post); [|destruct Hpost as (u & v & ->)].
  { specialize (Hmin x _ Hs). rewrite Hs in Hs'.
    apply app_eq_app in Hs' as [(m & -> & Hm)|(m & -> & Hm)].
    - replace (m +:+ p +:+ y +:+ p +:+ z) with ((m +:+ p +:+ y) +:+ p +:+ z) in Hm
        by by rewrite !app_assoc.
      apply app_eq_app in Hm as [(m' & Hp & Hz)|(m' & Hp & Hz)].
      + apply (f_equal String.length) in Hp. rewrite !length_app in Hp.
        assert (String.length m' = 0) as Hm'0 by lia.
        destruct m'; [|done]. exists "", z. by rewrite Hz.
      + by exists m', z.
    - rewrite length_app in Hmin. destruct m; simpl in Hmin; [|lia].
      simpl in Hm. apply (inj (String.app p)) in Hm as <-. by exists y, z. }
  set (g := GetSubstitution p pre (u +:+ p +:+ v) rep). clearbody g.
  exists (pre +:+ g +:+ u), v. by rewrite !app_assoc.
Qed.

(** *** The three placeholders *)

(** [H1 : token = m +:+ m'] with a known token: go through the places
    where the token can be cut, closing those that [H2] contradicts. *)
Ltac cut_token H1 H2 m :=
  repeat (destruct m as [|? m]; simpl in H1;
          [subst; simpl in H2; try (by simplify_eq)
          |first [discriminate H1|injection H1 as <- H1]]).

Ltac solve_apart :=
  intros x y pre post Heq;
  apply app_eq_app in Heq as [(m & -> & Heq)|(m & -> & Heq)];
  [ apply app_eq_app in Heq as [(m' & H1 & H2)|(m' & -> & ->)];
    [ cut_token H1 H2 m; left; exists ""; by rewrite ?app_empty_r
    | left; exists m'; by rewrite ?app_assoc ]
  | apply app_eq_app in Heq as [(m' & H1 & H2)|(m' & -> & ->)];
    [ cut_token H1 H2 m; right; exists ""; by rewrite ?app_empty_r
    | right; exists m'; by rewrite ?app_assoc ] ].

Lemma question_apart_questionDate : apart "{{question}}" "{{questionDate}}".
Proof. solve_apart. Qed.

Lemma question_apart_context : apart "{{question}}" "{{context}}".
Proof. solve_apart. Qed.

Lemma questionDate_apart_context : apart "{{questionDate}}" "{{context}}".
Proof. solve_apart. Qed.

End JsStringFacts.
(** * Replacement patterns in the replacement text *)

Module JsStringMore.
Import JsString JsChars JsStringFacts.

Implicit Types (s pat rep pre post x y z m a b : string).

#[local] Arguments String.append !_ _ : simpl nomatch.

Lemma plain_app a b : plain (a +:+ b) = plain a && plain b.
Proof.
  induction a as [|c a IH]; [done|]. simpl. rewrite IH. by rewrite andb_assoc.
Qed.

Lemma noBrace_app a b : noBrace (a +:+ b) = noBrace a && noBrace b.
Proof.
  induction a as [|c a IH]; [done|]. simpl. rewrite IH. by rewrite andb_assoc.
Qed.

(** A text without dollar sign at the head of the replacement is copied
    as it is. *)
Lemma GetSubstitution_app_plain matched pre post a rep :
  plain a = true →
  GetSubstitution matched pre post (a +:+ rep)
  = a +:+ GetSubstitution matched pre post rep.
Proof.
  induction a as [|c a IH]; [done|]. intros H. simpl in H.
  apply andb_prop in H as [Hc Ha].
  apply negb_true_iff, bool_decide_eq_false in Hc.
  change (String c a +:+ rep) with (String c (a +:+ rep)).
  assert (E : GetSubstitution matched pre post (String c (a +:+ rep))
              = String c (GetSubstitution matched pre post (a +:+ rep))).
  { destruct c as [[] [] [] [] [] [] [] []]; try reflexivity. by destruct Hc. }
  rewrite E, IH by done. done.
Qed.

(** A pattern that starts with an opening brace does not occur in a
    text without one. *)
Lemma noBrace_absent pat s :
  noBrace s = true → ¬ occurs (String "{"%char pat) s.
Proof.
  intros Hs (x & y & ->). rewrite noBrace_app in Hs.
  apply andb_prop in Hs as [_ Hs]. simpl in Hs. done.
Qed.

(** In a text that has no brace before a placeholder, that placeholder
    is the first one. *)
Lemma noBrace_first pat pre post x y :
  noBrace pre = true →
  pre +:+ String "{"%char pat +:+ post = x +:+ String "{"%char pat +:+ y →
  String.length pre ≤ String.length x.
Proof.
  intros Hpre Heq. symmetry in Heq.
  apply app_eq_app in Heq as [(m & -> & _)|(m & -> & Heq)].
  - rewrite length_app. lia.
  - destruct m as [|c m]; [rewrite app_empty_r; lia|].
    simpl in Heq. injection Heq as <- _.
    rewrite noBrace_app in Hpre. apply andb_prop in Hpre as [_ Hpre].
    simpl in Hpre. done.
Qed.

Lemma replace_noBrace pat rep s :
  noBrace s = true → replace (String "{"%char pat) rep s = s.
Proof. intros Hs. by apply replace_absent, noBrace_absent. Qed.

(** The first of three chained calls, for a template with one
    placeholder and no other brace. *)
Lemma replace_single pat rep pre post :
  noBrace pre = true →
  replace (String "{"%char pat) rep (pre +:+ String "{"%char pat +:+ post)
  = pre +:+ GetSubstitution (String "{"%char pat) pre post rep +:+ post.
Proof.
  intros Hpre. apply replace_first; [done|].
  intros x y Heq. by eapply noBrace_first.
Qed.

(** A placeholder that comes back into a text without other braces is
    the only placeholder there. *)
Lemma apart_absent p q x y :
  apart p (String "{"%char q) →
  noBrace x = true → noBrace y = true →
  ¬ occurs (String "{"%char q) (x +:+ p +:+ y).
Proof.
  intros Hapart Hx Hy (x' & y' & Heq).
  destruct (Hapart _ _ _ _ Heq) as [(m & -> & _)|(m & _ & ->)].
  - rewrite noBrace_app in Hx. apply andb_prop in Hx as [_ Hx].
    simpl in Hx. done.
  - rewrite !noBrace_app in Hy. apply andb_prop in Hy as [_ Hy].
    simpl in Hy. done.
Qed.

(** The four patterns of GetSubstitution for a match without capture
    groups. *)
Lemma GetSubstitution_patterns matched pre post rep :
  GetSubstitution matched pre post ("$$" +:+ rep)
  = "$" +:+ GetSubstitution matched pre post rep
  ∧ GetSubstitution matched pre post ("$&" +:+ rep)
    = matched +:+ GetSubstitution matched pre post rep
  ∧ GetSubstitution matched pre post ("$`" +:+ rep)
    = pre +:+ GetSubstitution matched pre post rep
  ∧ GetSubstitution matched pre post ("$'" +:+ rep)
    = post +:+ GetSubstitution matched pre post rep.
Proof. by split_and!. Qed.

Lemma noBrace_dollar : noBrace "$" = true.
Proof. done. Qed.

End JsStringMore.

(** * The sessions the ingest loop hands over *)

Module SessionsFacts.
Import Phases.

Lemma prefix_sublist {A} (l k : list A) : l `prefix_of` k → l `sublist_of` k.
Proof. intros [m ->]. by apply sublist_inserts_r. Qed.

Lemma NoDup_prefix {A} (l k : list A) : l `prefix_of` k → NoDup k → NoDup l.
Proof. intros [m ->]. by intros [? _]%NoDup_app. Qed.

Lemma sessionsToIngest_sublist completedSessions sessions :
  sessionsToIngest completedSessions sessions `sublist_of` sessions.
Proof.
  revert completedSessions.
  induction sessions as [|s rest IH]; intros completedSessions; simpl; [done|].
  case_bool_decide; [by apply sublist_cons|by apply sublist_skip].
Qed.

Lemma sessionsToIngest_fresh completedSessions sessions s :
  s ∈ sessionsToIngest completedSessions sessions →
  Benchmark.sessionId s ∉ completedSessions.
Proof.
  revert completedSessions.
  induction sessions as [|s0 rest IH]; intros completedSessions; simpl.
  - by intros ?%elem_of_nil.
  - case_bool_decide as Hin; [apply IH|].
    intros [->|Hs]%elem_of_cons; [done|].
    apply IH in Hs. intros Hin'. apply Hs, elem_of_app. by left.
Qed.

Lemma sessionsToIngest_NoDup completedSessions sessions :
  NoDup (Benchmark.sessionId <$> sessionsToIngest completedSessions sessions).
Proof.
  revert completedSessions.
  induction sessions as [|s0 rest IH]; intros completedSessions; simpl.
  - constructor.
  - case_bool_decide as Hin; [apply IH|]. simpl. constructor; [|apply IH].
    intros (s & Hid & Hs)%list_elem_of_fmap.
    apply sessionsToIngest_fresh in Hs. apply Hs, elem_of_app. right.
    rewrite Hid. left.
Qed.

Lemma sessionsToIngest_covers completedSessions sessions s :
  s ∈ sessions →
  Benchmark.sessionId s ∈ completedSessions
  ∨ Benchmark.sessionId s
      ∈ Benchmark.sessionId <$> sessionsToIngest completedSessions sessions.
Proof.
  revert completedSessions.
  induction sessions as [|s0 rest IH]; intros completedSessions; simpl.
  - by intros ?%elem_of_nil.
  - intros [->|Hs]%elem_of_cons.
    + case_bool_decide as Hin; [by left|]. right. simpl. left.
    + case_bool_decide as Hin; [by apply IH|].
      destruct (IH (completedSessions ++ [Benchmark.sessionId s0]) Hs)
        as [[?|Heq%list_elem_of_singleton]%elem_of_app|?].
      * by left.
      * right. simpl. rewrite Heq. left.
      * right. simpl. by right.
Qed.

Lemma filter_ext_in {A} (P Q : A → Prop) `{!∀ x, Decision (P x)}
    `{!∀ x, Decision (Q x)} (l : list A) :
  (∀ x, x ∈ l → P x ↔ Q x) → filter P l = filter Q l.
Proof.
  induction l as [|x l IH]; intros Hext; [done|].
  rewrite !filter_cons.
  rewrite IH by (intros y Hy; apply Hext; by right).
  destruct (decide (P x)) as [HP|HP], (decide (Q x)) as [HQ|HQ]; try done;
    exfalso; apply (Hext x) in HP || apply (Hext x) in HQ; try done; left.
Qed.

Lemma sessionsToIngest_filter completedSessions sessions :
  NoDup (Benchmark.sessionId <$> sessions) →
  sessionsToIngest completedSessions sessions
  = filter (λ s, Benchmark.sessionId s ∉ completedSessions) sessions.
Proof.
  revert completedSessions.
  induction sessions as [|s0 rest IH]; intros completedSessions Hnd; simpl;
    [done|].
  apply NoDup_cons in Hnd as [Hnotin Hnd].
  case_bool_decide as Hin.
  - rewrite filter_cons_False by naive_solver. by apply IH.
  - rewrite filter_cons_True by done. f_equal. rewrite IH by done.
    apply filter_ext_in. intros s Hs. rewrite elem_of_app.
    split; [naive_solver|]. intros Hn [?|Heq%list_elem_of_singleton]; [done|].
    apply Hnotin. apply list_elem_of_fmap. by exists s.
Qed.

End SessionsFacts.


(** * Properties of the checkpoint and of the phase tasks *)

Module PhasesFacts.
Import ParallelExecutor ParallelExecutorFacts Phases.

Section Facts.
Context {Backend : Type}.
Variable shouldStop : string → Backend → bool.
Variable now : Backend → Z.
Variable toISOString : Z → string.
Variable getModelConfig : string → ModelConfig.
Variable DEFAULT_ANSWERING_MODEL : string.
Variable generateText : GenerateParams → Backend → (string + Thrown) * Backend.
Variable buildDefaultAnswerPrompt : string → list SearchRecord → option string → string.
Variable buildContextString : list SearchRecord → string.
Variable calculateRetrievalMetrics :
  string → string → string → list SearchRecord
  → Backend → (option RetrievalMetrics + Thrown) * Backend.
Variable getResultsDir : string → string.
Variable trim : string → string.
Variable join : string → string → string.
Variable judgeRejectsFirst : Backend → bool.
Variable completion : nat → list nat.

Implicit Types (w : @World Backend) (c : RunCheckpoint) (e t : Thrown).
Implicit Types (provider : @Provider Backend).

(** *** The checkpoint operations *)

Lemma phaseOf_mergePhase c questionId phase updates :
  phaseOf (mergePhase c questionId phase updates) questionId phase
  = (λ st, updates ∪ st) <$> phaseOf c questionId phase.
Proof.
  unfold phaseOf, mergePhase. simpl. rewrite lookup_alter_eq.
  destruct (questions c !! questionId) as [q|]; simpl; [|done].
  by rewrite fn_lookup_insert.
Qed.

Lemma phaseOf_mergePhase_other c questionId phase updates questionId' phase' :
  questionId' ≠ questionId ∨ phase' ≠ phase →
  phaseOf (mergePhase c questionId phase updates) questionId' phase'
  = phaseOf c questionId' phase'.
Proof.
  intros Hne. unfold phaseOf, mergePhase. simpl.
  destruct (decide (questionId' = questionId)) as [->|Hq].
  - rewrite lookup_alter_eq.
    destruct (questions c !! questionId) as [q|]; simpl; [|done].
    rewrite fn_lookup_insert_ne; [done|]. naive_solver.
  - by rewrite lookup_alter_ne.
Qed.

Lemma runId_mergePhase c questionId phase updates :
  runId (mergePhase c questionId phase updates) = runId c.
Proof. done. Qed.

Lemma entries_updatePhase w questionId phase updates :
  entries (updatePhase w questionId phase updates) = entries w.
Proof. unfold entries. simpl. apply dom_alter_L. Qed.

Lemma entries_updateSessions w questionId metadata :
  entries (updateSessions w questionId metadata) = entries w.
Proof. unfold entries. simpl. apply dom_alter_L. Qed.

Lemma entries_push w questionId sessionId :
  entries (mutate w (pushCompletedSession (checkpoint w) questionId sessionId))
  = entries w.
Proof. unfold entries. simpl. apply dom_alter_L. Qed.

Lemma entries_await {A} (call : Call) (f : Backend → (A + Thrown) * Backend) w :
  entries (await call f w).2 = entries w.
Proof. unfold await. by destruct (f (backend w)). Qed.

Lemma checkpoint_await {A} (call : Call) (f : Backend → (A + Thrown) * Backend) w :
  checkpoint (await call f w).2 = checkpoint w.
Proof. unfold await. by destruct (f (backend w)). Qed.

Lemma elem_of_entries w questionId :
  questionId ∈ entries w ↔ is_Some (questions (checkpoint w) !! questionId).
Proof. apply elem_of_dom. Qed.

Lemma failureRecorded_updatePhase w phase questionId error :
  questionId ∈ entries w →
  failureRecorded phase questionId error
    (updatePhase w questionId phase
       {[ "status" := Status failed; "error" := Str error ]}).
Proof.
  intros [q Hq]%elem_of_entries. unfold failureRecorded, updatePhase.
  cbn [checkpoint durable save]. rewrite phaseOf_mergePhase.
  unfold phaseOf. rewrite Hq. simpl. split_and!.
  - unfold statusOf. by rewrite lookup_union_l'.
  - unfold stringOf.
    rewrite (lookup_union_Some_l _ _ _ (Str error)); [done|].
    by simplify_map_eq.
  - by rewrite lookup_insert_eq.
Qed.

Lemma recordFailure_spec what phase questionId e w :
  questionId ∈ entries w →
  ∃ t w', recordFailure what phase questionId e w = (inr t, w')
          ∧ recordedThenThrown what phase questionId e t w'
          ∧ entries w' = entries w.
Proof.
  intros Hq. eexists _, _. split; [done|]. split; [split; [done|]|].
  - by apply failureRecorded_updatePhase.
  - apply entries_updatePhase.
Qed.

(** *** Tasks leave the set of checkpointed questions as it is *)

Lemma await_entries {A} (call : Call) (f : Backend → (A + Thrown) * Backend)
    w r w' :
  await call f w = (r, w') → entries w' = entries w.
Proof. intros H. by rewrite <- (entries_await call f w), H. Qed.

Lemma ingestSessions_entries provider containerTag questionId sessions :
  ∀ combined w r w',
    ingestSessions provider containerTag questionId sessions combined w = (r, w') →
    entries w' = entries w.
Proof.
  induction sessions as [|session rest IH]; intros combined w r w' Hrun;
    simpl in Hrun.
  - by simplify_eq.
  - destruct (phaseOf (checkpoint w) questionId Ingest ≫= completedSessionsOf)
      as [done_|]; [|by simplify_eq].
    case_bool_decide; [by eapply IH|].
    destruct (await _ _ w) as [[result|e] w1] eqn:Hcall; [|simplify_eq].
    + apply IH in Hrun. rewrite Hrun, entries_updatePhase, entries_push.
      by eapply await_entries.
    + by eapply await_entries.
Qed.

Lemma ingestQuestion_entries provider containerTag question sessions startTime
    w r w' :
  ingestQuestion now toISOString provider containerTag question sessions startTime w
    = (r, w') →
  entries w' = entries w.
Proof.
  unfold ingestQuestion. intros Hrun.
  destruct (questions (checkpoint w) !! _); [|by simplify_eq].
  destruct (ingestSessions _ _ _ _ _ w) as [[combined|e] w1] eqn:Hloop;
    simplify_eq; [rewrite entries_updatePhase|];
    by eapply ingestSessions_entries.
Qed.

Lemma awaitIndexed_entries provider question r startTime w res w' :
  awaitIndexed now toISOString provider question r startTime w = (res, w') →
  entries w' = entries w.
Proof.
  unfold awaitIndexed. intros Hrun.
  destruct (await _ _ w) as [[u|e] w1] eqn:Hcall; simplify_eq;
    [rewrite entries_updatePhase|]; by eapply await_entries.
Qed.

Lemma searchQuestion_entries provider resultsDir containerTag question startTime
    w res w' :
  searchQuestion now toISOString join provider resultsDir containerTag question
                 startTime w = (res, w') →
  entries w' = entries w.
Proof.
  unfold searchQuestion. intros Hrun.
  destruct (await _ _ w) as [[results|e] w1] eqn:Hcall; simplify_eq;
    [rewrite entries_updatePhase; unfold entries; simpl|];
    by eapply await_entries.
Qed.

Lemma answerQuestion_entries modelConfig (provider : option Provider) question
    resultFile startTime w res w' :
  answerQuestion now toISOString generateText buildDefaultAnswerPrompt
                 buildContextString trim modelConfig provider question resultFile
                 startTime w = (res, w') →
  entries w' = entries w.
Proof.
  unfold answerQuestion. intros Hrun.
  destruct (readResultFile w resultFile) as [data|e]; [|by simplify_eq].
  destruct (await _ _ w) as [[text|e] w1] eqn:Hcall; simplify_eq;
    [rewrite entries_updatePhase|]; by eapply await_entries.
Qed.

Lemma judgeAndMeasure_entries (judge : Judge) input question groundTruth results
    w res w' :
  judgeAndMeasure calculateRetrievalMetrics judgeRejectsFirst judge input question
                  groundTruth results w = (res, w') →
  entries w' = entries w.
Proof.
  unfold judgeAndMeasure. intros Hrun.
  destruct (await _ _ w) as [r1 w1] eqn:H1.
  destruct (await _ _ w1) as [r2 w2] eqn:H2.
  apply await_entries in H1, H2.
  destruct r1, r2; simplify_eq; congruence.
Qed.

Lemma evaluateQuestion_entries (judge : Judge) (provider : option Provider)
    question hypothesis startTime w res w' :
  evaluateQuestion now toISOString calculateRetrievalMetrics judgeRejectsFirst
                   judge provider question hypothesis startTime w = (res, w') →
  entries w' = entries w.
Proof.
  unfold evaluateQuestion. intros Hrun.
  destruct (judgeAndMeasure _ _ _ _ _ _ _ w) as [[[result metrics]|e] w1] eqn:Hj;
    simplify_eq; [rewrite entries_updatePhase|];
    by eapply judgeAndMeasure_entries.
Qed.

(** *** A failing task has recorded its failure *)

Lemma recordFailure_inv what phase questionId e w r w' :
  recordFailure what phase questionId e w = (r, w') →
  questionId ∈ entries w →
  (∃ t, r = inr t ∧ recordedThenThrown what phase questionId e t w')
  ∧ entries w' = entries w.
Proof.
  intros Hrun Hq.
  destruct (recordFailure_spec what phase questionId e w Hq)
    as (t & w'' & Hrun' & Hrec & Hent).
  rewrite Hrun in Hrun'. simplify_eq. eauto.
Qed.

Lemma recordFailure_entries what phase questionId e w r w' :
  recordFailure what phase questionId e w = (r, w') → entries w' = entries w.
Proof.
  unfold recordFailure. intros [= _ <-]. apply entries_updatePhase.
Qed.

Lemma ingestTask_entries provider benchmark context w r w' :
  ingestTask now toISOString provider benchmark context w = (r, w') →
  entries w' = entries w.
Proof.
  unfold ingestTask. intros Hrun.
  destruct (ingestQuestion _ _ _ _ _ _ _ _) as [[report|e] w1] eqn:Htry;
    apply ingestQuestion_entries in Htry;
    rewrite entries_updatePhase, entries_updateSessions in Htry;
    [by simplify_eq|].
  apply recordFailure_entries in Hrun. congruence.
Qed.

Lemma ingestTask_fails provider benchmark context w t w' :
  ingestTask now toISOString provider benchmark context w = (inr t, w') →
  Benchmark.questionId (item context) ∈ entries w →
  ∃ e containerTag sessions startTime w0 w1,
    ingestQuestion now toISOString provider containerTag (item context)
                   sessions startTime w0 = (inr e, w1)
    ∧ recordedThenThrown "Ingest" Ingest
        (Benchmark.questionId (item context)) e t w'.
Proof.
  unfold ingestTask. intros Hrun Hq.
  destruct (ingestQuestion _ _ _ _ _ _ _ _) as [[report|e] w1] eqn:Htry;
    [by simplify_eq|].
  apply recordFailure_inv in Hrun as [(t' & [= <-] & Hrec) _].
  - by eexists e, _, _, _, _, w1.
  - apply ingestQuestion_entries in Htry.
    by rewrite Htry, entries_updatePhase, entries_updateSessions.
Qed.


Lemma indexingTask_fails provider context w t w' :
  indexingTask now toISOString provider context w = (inr t, w') →
  questionId (item context) ∈ entries w →
  ∃ e ingestResult startTime w0 w1,
    awaitIndexed now toISOString provider (item context) ingestResult
                 startTime w0 = (inr e, w1)
    ∧ recordedThenThrown "Indexing" Indexing (questionId (item context)) e t w'.
Proof.
  unfold indexingTask. intros Hrun Hq.
  destruct (ingestResultOf _) as [res|]; [|by simplify_eq].
  destruct (nothingToIndex _); [by simplify_eq|].
  destruct (awaitIndexed _ _ _ _ _ _ _) as [[report|e] w1] eqn:Htry;
    [by simplify_eq|].
  apply recordFailure_inv in Hrun as [(t' & [= <-] & Hrec) _].
  - by eexists e, _, _, _, w1.
  - apply awaitIndexed_entries in Htry.
    by rewrite Htry, entries_updatePhase.
Qed.

Lemma searchTask_entries provider resultsDir context w r w' :
  searchTask now toISOString join provider resultsDir context w = (r, w') →
  entries w' = entries w.
Proof.
  unfold searchTask. intros Hrun.
  destruct (searchQuestion _ _ _ _ _ _ _ _ _) as [[report|e] w1] eqn:Htry;
    apply searchQuestion_entries in Htry;
    rewrite entries_updatePhase in Htry; [by simplify_eq|].
  apply recordFailure_entries in Hrun. congruence.
Qed.

Lemma searchTask_fails provider resultsDir context w t w' :
  searchTask now toISOString join provider resultsDir context w = (inr t, w') →
  Benchmark.questionId (item context) ∈ entries w →
  ∃ e containerTag startTime w0 w1,
    searchQuestion now toISOString join provider resultsDir containerTag
                   (item context) startTime w0 = (inr e, w1)
    ∧ recordedThenThrown "Search" Search
        (Benchmark.questionId (item context)) e t w'.
Proof.
  unfold searchTask. intros Hrun Hq.
  destruct (searchQuestion _ _ _ _ _ _ _ _ _) as [[report|e] w1] eqn:Htry;
    [by simplify_eq|].
  apply recordFailure_inv in Hrun as [(t' & [= <-] & Hrec) _].
  - by eexists e, _, _, _, w1.
  - apply searchQuestion_entries in Htry.
    by rewrite Htry, entries_updatePhase.
Qed.

Lemma answerTask_entries modelConfig (provider : option Provider) context w r w' :
  answerTask now toISOString generateText buildDefaultAnswerPrompt
             buildContextString trim modelConfig provider context w = (r, w') →
  entries w' = entries w.
Proof.
  unfold answerTask. intros Hrun.
  destruct (questions (checkpoint w) !! _) as [entry|]; [|by simplify_eq].
  destruct (answerQuestion _ _ _ _ _ _ _ _ _ _ _ _) as [[report|e] w1] eqn:Htry;
    apply answerQuestion_entries in Htry;
    rewrite entries_updatePhase in Htry; [by simplify_eq|].
  apply recordFailure_entries in Hrun. congruence.
Qed.

Lemma answerTask_fails modelConfig (provider : option Provider) context w t w' :
  answerTask now toISOString generateText buildDefaultAnswerPrompt
             buildContextString trim modelConfig provider context w = (inr t, w') →
  Benchmark.questionId (item context) ∈ entries w →
  ∃ e resultFile startTime w0 w1,
    answerQuestion now toISOString generateText buildDefaultAnswerPrompt
                   buildContextString trim modelConfig provider (item context)
                   resultFile startTime w0 = (inr e, w1)
    ∧ recordedThenThrown "Answer" Answer
        (Benchmark.questionId (item context)) e t w'.
Proof.
  unfold answerTask. intros Hrun Hq.
  destruct (questions (checkpoint w) !! _) as [entry|] eqn:Hentry.
  2:{ apply elem_of_entries in Hq as [? Hq]. congruence. }
  destruct (answerQuestion _ _ _ _ _ _ _ _ _ _ _ _) as [[report|e] w1] eqn:Htry;
    [by simplify_eq|].
  apply recordFailure_inv in Hrun as [(t' & [= <-] & Hrec) _].
  - by eexists e, _, _, _, w1.
  - apply answerQuestion_entries in Htry.
    by rewrite Htry, entries_updatePhase.
Qed.

Lemma evaluateTask_entries (judge : Judge) (provider : option Provider)
    context w r w' :
  evaluateTask now toISOString calculateRetrievalMetrics judgeRejectsFirst
               judge provider context w = (r, w') →
  entries w' = entries w.
Proof.
  unfold evaluateTask. intros Hrun.
  destruct (questions (checkpoint w) !! _) as [entry|]; [|by simplify_eq].
  destruct (evaluateQuestion _ _ _ _ _ _ _ _ _ _) as [[report|e] w1] eqn:Htry;
    apply evaluateQuestion_entries in Htry;
    rewrite entries_updatePhase in Htry; [by simplify_eq|].
  apply recordFailure_entries in Hrun. congruence.
Qed.

Lemma evaluateTask_fails (judge : Judge) (provider : option Provider)
    context w t w' :
  evaluateTask now toISOString calculateRetrievalMetrics judgeRejectsFirst
               judge provider context w = (inr t, w') →
  Benchmark.questionId (item context) ∈ entries w →
  ∃ e hypothesis startTime w0 w1,
    evaluateQuestion now toISOString calculateRetrievalMetrics judgeRejectsFirst
                     judge provider (item context) hypothesis startTime w0
      = (inr e, w1)
    ∧ recordedThenThrown "Evaluate" Evaluate
        (Benchmark.questionId (item context)) e t w'.
Proof.
  unfold evaluateTask. intros Hrun Hq.
  destruct (questions (checkpoint w) !! _) as [entry|] eqn:Hentry.
  2:{ apply elem_of_entries in Hq as [? Hq]. congruence. }
  destruct (evaluateQuestion _ _ _ _ _ _ _ _ _ _) as [[report|e] w1] eqn:Htry;
    [by simplify_eq|].
  apply recordFailure_inv in Hrun as [(t' & [= <-] & Hrec) _].
  - by eexists e, _, _, _, w1.
  - apply evaluateQuestion_entries in Htry.
    by rewrite Htry, entries_updatePhase.
Qed.

(** *** What the tasks throw *)





(** *** The runners *)

Lemma executed_drives {T} (o : @ParallelExecutionOptions T TaskReport World)
    w0 w x l :
  items o = x :: l →
  drivesExecutorOver
    (executed (executeBatched (stopRequested shouldStop) completion o w0))
    w (x :: l).
Proof.
  intros Hitems. unfold drivesExecutorOver, executed.
  destruct (executeBatched _ _ o w0) as [[out w'] trace] eqn:Hrun.
  exists out, trace, w'. split; [done|]. intros b c Hd. rewrite <- Hitems.
  by eapply executeBatched_dispatched_items.
Qed.



(** *** Working sets (claim C6) *)

Lemma ingest_drives provider benchmark questionIds w :
  drivesExecutorOver
    (runIngestPhase shouldStop now toISOString completion provider benchmark
                    questionIds w)
    w (ingestPending benchmark (checkpoint w) questionIds).
Proof.
  unfold runIngestPhase.
  destruct (ingestPending benchmark (checkpoint w) questionIds) as [|x l] eqn:Hp;
    [done|].
  rewrite bool_decide_eq_false_2 by done. by apply executed_drives.
Qed.

Lemma indexing_drives provider questionIds w :
  drivesExecutorOver
    (runIndexingPhase shouldStop now toISOString completion provider questionIds w)
    w (indexingPending (checkpoint w) questionIds).
Proof.
  unfold runIndexingPhase.
  destruct (indexingPending (checkpoint w) questionIds) as [|x l] eqn:Hp; [done|].
  rewrite bool_decide_eq_false_2 by done. by apply executed_drives.
Qed.

Lemma search_drives provider benchmark questionIds w :
  drivesExecutorOver
    (runSearchPhase shouldStop now toISOString getResultsDir join completion
                    provider benchmark questionIds w)
    w (searchPending benchmark (checkpoint w) questionIds).
Proof.
  unfold runSearchPhase.
  destruct (searchPending benchmark (checkpoint w) questionIds) as [|x l] eqn:Hp;
    [done|].
  rewrite bool_decide_eq_false_2 by done.
  destruct (existsSync w _); by apply executed_drives.
Qed.

Lemma answer_drives benchmark questionIds (provider : option Provider) w :
  drivesExecutorOver
    (runAnswerPhase shouldStop now toISOString getModelConfig
                    DEFAULT_ANSWERING_MODEL generateText buildDefaultAnswerPrompt
                    buildContextString trim completion benchmark questionIds
                    provider w)
    w (answerPending benchmark w questionIds).
Proof.
  unfold runAnswerPhase.
  destruct (answerPending benchmark w questionIds) as [|x l] eqn:Hp; [done|].
  rewrite bool_decide_eq_false_2 by done. by apply executed_drives.
Qed.

Lemma evaluate_drives (judge : Judge) benchmark questionIds
    (provider : option Provider) w :
  drivesExecutorOver
    (runEvaluatePhase shouldStop now toISOString calculateRetrievalMetrics
                      judgeRejectsFirst completion judge benchmark questionIds
                      provider w)
    w (evaluatePending benchmark (checkpoint w) questionIds).
Proof.
  unfold runEvaluatePhase.
  destruct (evaluatePending benchmark (checkpoint w) questionIds) as [|x l] eqn:Hp;
    [done|].
  rewrite bool_decide_eq_false_2 by done. by apply executed_drives.
Qed.

Lemma statusOf_completed (st : PhaseState) :
  statusOf st = Some completed ↔ default pending (statusOf st) = completed.
Proof. destruct (statusOf st) as [[]|]; simpl; naive_solver. Qed.

(** C6.  In each of the five runners a candidate question is in the
    working set exactly when its status for the phase is not [completed]
    and the prerequisite of the phase holds: none for ingest; ingest
    completed for indexing; indexing completed for search; search
    completed with a recorded result file that exists for answer; answer
    completed with a non-empty hypothesis for evaluate.  A runner whose
    working set is empty returns without calling the executor, and
    otherwise it drives the executor, which dispatches only members of
    the working set, so a question with an unmet prerequisite is passed
    over. *)
Theorem phase_working_sets provider (judge : Judge) benchmark questionIds
    (optionalProvider : option Provider) w :
  let c := checkpoint w in
  let candidates := targetQuestions (Benchmark.getQuestions benchmark) questionIds in
  let status q phase := getPhaseStatus c (Benchmark.questionId q) phase in
  ((∀ q, q ∈ ingestPending benchmark c questionIds
         ↔ q ∈ candidates ∧ status q Ingest ≠ completed)
   ∧ drivesExecutorOver
       (runIngestPhase shouldStop now toISOString completion provider benchmark
                       questionIds w)
       w (ingestPending benchmark c questionIds))
  ∧ ((∀ q, q ∈ indexingPending c questionIds
           ↔ q ∈ targetCheckpoints (checkpointQuestions c) questionIds
             ∧ statusIn q Indexing ≠ completed
             ∧ statusIn q Ingest = completed)
     ∧ drivesExecutorOver
         (runIndexingPhase shouldStop now toISOString completion provider
                           questionIds w)
         w (indexingPending c questionIds))
  ∧ ((∀ q, q ∈ searchPending benchmark c questionIds
           ↔ q ∈ candidates ∧ status q Search ≠ completed
             ∧ status q Indexing = completed)
     ∧ drivesExecutorOver
         (runSearchPhase shouldStop now toISOString getResultsDir join completion
                         provider benchmark questionIds w)
         w (searchPending benchmark c questionIds))
  ∧ ((∀ q, q ∈ answerPending benchmark w questionIds
           ↔ q ∈ candidates ∧ status q Answer ≠ completed
             ∧ status q Search = completed
             ∧ ∃ resultFile,
                 phaseOf c (Benchmark.questionId q) Search ≫= stringOf "resultFile"
                   = Some resultFile
                 ∧ resultFile ≠ ""
                 ∧ existsSync w resultFile = true)
     ∧ drivesExecutorOver
         (runAnswerPhase shouldStop now toISOString getModelConfig
                         DEFAULT_ANSWERING_MODEL generateText
                         buildDefaultAnswerPrompt buildContextString trim
                         completion benchmark questionIds optionalProvider w)
         w (answerPending benchmark w questionIds))
  ∧ ((∀ q, q ∈ evaluatePending benchmark c questionIds
           ↔ q ∈ candidates ∧ status q Evaluate ≠ completed
             ∧ status q Answer = completed
             ∧ ∃ hypothesis,
                 phaseOf c (Benchmark.questionId q) Answer ≫= stringOf "hypothesis"
                   = Some hypothesis
                 ∧ hypothesis ≠ "")
     ∧ drivesExecutorOver
         (runEvaluatePhase shouldStop now toISOString calculateRetrievalMetrics
                           judgeRejectsFirst completion judge benchmark
                           questionIds optionalProvider w)
         w (evaluatePending benchmark c questionIds)).
Proof.
  intros c candidates status.
  split; [split|split; [split|split; [split|split; [split|split]]]].
  - intros q. unfold ingestPending. rewrite list_elem_of_filter. tauto.
  - apply ingest_drives.
  - intros q. unfold indexingPending, statusIn. rewrite list_elem_of_filter.
    rewrite (statusOf_completed (phases q Ingest)).
    destruct (statusOf (phases q Indexing)) as [[]|]; simpl; naive_solver.
  - apply indexing_drives.
  - intros q. unfold searchPending. rewrite list_elem_of_filter. tauto.
  - apply search_drives.
  - intros q. unfold answerPending. rewrite list_elem_of_filter.
    unfold truthy. fold c. fold (status q Answer) (status q Search).
    destruct (phaseOf c (Benchmark.questionId q) Search
                ≫= stringOf "resultFile") as [path|].
    + change (default "" (Some path)) with path. split.
      * intros [(H1 & H2 & (text & [= <-] & H3) & H4) H5].
        split_and!; try done. by exists path.
      * intros (H5 & H1 & H2 & text & [= <-] & H3 & H4).
        split_and!; try done. by exists path.
    + split.
      * by intros [(_ & _ & (text & [=] & _) & _) _].
      * by intros (_ & _ & _ & text & [=] & _).
  - apply answer_drives.
  - intros q. unfold evaluatePending. rewrite list_elem_of_filter.
    unfold truthy. fold c. fold (status q Evaluate) (status q Answer). tauto.
  - apply evaluate_drives.
Qed.

(** *** Failures (claim C8) *)






(** *** The [catch] blocks *)








(** *** Container tags (claim C9) *)

Lemma calls_updatePhase w questionId phase updates :
  calls (updatePhase w questionId phase updates) = calls w.
Proof. done. Qed.

Lemma await_calls {A} (call : Call) (f : Backend → (A + Thrown) * Backend)
    w r w' :
  await call f w = (r, w') → calls w' = calls w ++ [call].
Proof. unfold await. destruct (f (backend w)). by intros [= _ <-]. Qed.

Lemma ingestSessions_calls provider containerTag questionId sessions :
  ∀ combined w r w',
    ingestSessions provider containerTag questionId sessions combined w = (r, w') →
    ∃ called,
      calls w' = calls w ++ ((λ s, IngestCall [s] containerTag) <$> called)
      ∧ called `sublist_of` sessions.
Proof.
  induction sessions as [|session rest IH]; intros combined w r w' Hrun;
    simpl in Hrun.
  - simplify_eq. exists []. by rewrite app_nil_r.
  - destruct (phaseOf (checkpoint w) questionId Ingest ≫= completedSessionsOf)
      as [done_|].
    2:{ simplify_eq. exists []. rewrite app_nil_r. split; [done|].
        apply sublist_nil_l. }
    case_bool_decide.
    { apply IH in Hrun as (called & Hc & Hsub). exists called.
      split; [done|]. by apply sublist_cons. }
    destruct (await _ _ w) as [[result|e] w1] eqn:Hcall;
      apply await_calls in Hcall.
    + apply IH in Hrun as (called & Hc & Hsub). exists (session :: called).
      split; [|by apply sublist_skip].
      rewrite Hc. simpl. rewrite Hcall. by rewrite <- app_assoc.
    + simplify_eq. exists [session]. split; [done|].
      apply sublist_skip, sublist_nil_l.
Qed.

Lemma ingestTask_calls provider benchmark context w r w' :
  ingestTask now toISOString provider benchmark context w = (r, w') →
  ∃ called,
    calls w'
    = calls w
      ++ ((λ s, IngestCall [s] (ingestContainerTag (item context) (checkpoint w)))
            <$> called).
Proof.
  unfold ingestTask, ingestQuestion. intros Hrun.
  set (w0 := updatePhase (updateSessions w _ _) _ _ _) in Hrun.
  assert (Hw0 : calls w0 = calls w) by done.
  destruct (questions (checkpoint w0) !! _).
  2:{ unfold recordFailure in Hrun. simplify_eq. exists []. by rewrite app_nil_r. }
  destruct (ingestSessions _ _ _ _ _ w0) as [[combined|e] w1] eqn:Hloop;
    apply ingestSessions_calls in Hloop as (called & Hc & _);
    unfold recordFailure in Hrun; simplify_eq; exists called; simpl;
    by rewrite Hc, Hw0.
Qed.

Lemma searchTask_calls provider resultsDir context w r w' :
  searchTask now toISOString join provider resultsDir context w = (r, w') →
  calls w'
  = calls w
    ++ [SearchCall (Benchmark.question (item context))
          (mkSearchOptions (searchContainerTagOf (item context) (checkpoint w))
                           10 (mkFraction 3 10))].
Proof.
  unfold searchTask, searchQuestion. intros Hrun.
  destruct (await _ _ _) as [[results|e] w1] eqn:Hcall;
    apply await_calls in Hcall; unfold recordFailure in Hrun; simplify_eq;
    simpl; by rewrite Hcall.
Qed.

(** C9.  The container tag is the question identifier, a hyphen and the
    data-source run identifier, whatever else the checkpoint holds; the
    ingest task and the search task derive the same tag from the same
    question and checkpoint, and it is under this tag that the ingest
    task makes every one of its ingest calls and the search task its
    search call. *)
Theorem containerTag_derivation provider benchmark resultsDir :
  (∀ q c, ingestContainerTag q c
          = Benchmark.questionId q +:+ "-" +:+ dataSourceRunId c)
  ∧ (∀ q c, searchContainerTagOf q c = ingestContainerTag q c)
  ∧ (∀ q q' c c',
       Benchmark.questionId q = Benchmark.questionId q' →
       dataSourceRunId c = dataSourceRunId c' →
       ingestContainerTag q c = ingestContainerTag q' c'
       ∧ searchContainerTagOf q c = searchContainerTagOf q' c')
  ∧ (∀ context w r w',
       ingestTask now toISOString provider benchmark context w = (r, w') →
       ∃ called,
         calls w'
         = calls w
           ++ ((λ s, IngestCall [s]
                       (ingestContainerTag (item context) (checkpoint w)))
                 <$> called))
  ∧ (∀ context w r w',
       searchTask now toISOString join provider resultsDir context w = (r, w') →
       calls w'
       = calls w
         ++ [SearchCall (Benchmark.question (item context))
               (mkSearchOptions (ingestContainerTag (item context) (checkpoint w))
                                10 (mkFraction 3 10))]).
Proof.
  split_and!; try done.
  - intros q q' c c' Hq Hc. unfold ingestContainerTag, searchContainerTagOf.
    by rewrite Hq, Hc.
  - intros *. apply ingestTask_calls.
  - intros *. apply searchTask_calls.
Qed.

(** *** The answer prompt (claim C10) *)

Lemma customAnswerPrompt_template provider template :
  prompts provider ≫= answerPrompt = Some (TemplatePrompt template) →
  template ≠ "" →
  customAnswerPrompt (Some provider) = Some (TemplatePrompt template).
Proof.
  intros Hp Hne. unfold customAnswerPrompt. simpl. rewrite Hp.
  by rewrite bool_decide_eq_false_2.
Qed.

(** C10.  With a string template as override (a string that is not
    empty), the prompt is the template after three calls of [replace] in
    a row, for [{{question}}], [{{questionDate}}] and [{{context}}].  Each
    call rewrites the first occurrence of its placeholder in the string
    it is given and leaves the rest of that string as it is; so a
    placeholder that the template holds twice is still in the prompt.
    An absent question date is replaced by [Not specified], inserted
    literally. *)
Theorem buildAnswerPrompt_template_first_occurrence provider template question
    context questionDate :
  prompts provider ≫= answerPrompt = Some (TemplatePrompt template) →
  template ≠ "" →
  let prompt :=
    buildAnswerPrompt buildDefaultAnswerPrompt buildContextString question
                      context questionDate (Some provider) in
  prompt
  = JsString.replace "{{context}}" (buildContextString context)
      (JsString.replace "{{questionDate}}" (dateOrNotSpecified questionDate)
         (JsString.replace "{{question}}" question template))
  ∧ (∀ pat rep s pre post,
       s = pre +:+ pat +:+ post →
       (∀ x y, s = x +:+ pat +:+ y → String.length pre ≤ String.length x) →
       JsString.replace pat rep s
       = pre +:+ JsString.GetSubstitution pat pre post rep +:+ post)
  ∧ (∀ pat rep s, ¬ JsString.occurs pat s → JsString.replace pat rep s = s)
  ∧ (∀ placeholder,
       placeholder ∈ ["{{question}}"; "{{questionDate}}"; "{{context}}"] →
       JsString.occursTwice placeholder template →
       JsString.occurs placeholder prompt)
  ∧ (questionDate = None →
     dateOrNotSpecified questionDate = "Not specified"
     ∧ ∀ matched pre post,
         JsString.GetSubstitution matched pre post "Not specified"
         = "Not specified").
Proof.
  intros Hp Hne prompt.
  assert (Hprompt : prompt
    = JsString.replace "{{context}}" (buildContextString context)
        (JsString.replace "{{questionDate}}" (dateOrNotSpecified questionDate)
           (JsString.replace "{{question}}" question template))).
  { unfold prompt, buildAnswerPrompt.
    by rewrite (customAnswerPrompt_template _ _ Hp Hne). }
  split; [exact Hprompt|]. split; [apply JsStringFacts.replace_first|].
  split; [apply JsStringFacts.replace_absent|]. split.
  - intros placeholder Hin Htwice. rewrite Hprompt.
    apply elem_of_cons in Hin as [->|Hin];
      [|apply elem_of_cons in Hin as [->|Hin];
        [|apply list_elem_of_singleton in Hin as ->]].
    + apply JsStringFacts.occurs_replace_other;
        [apply JsStringFacts.question_apart_context|].
      apply JsStringFacts.occurs_replace_other;
        [apply JsStringFacts.question_apart_questionDate|].
      by apply JsStringFacts.occursTwice_replace_self.
    + apply JsStringFacts.occurs_replace_other;
        [apply JsStringFacts.questionDate_apart_context|].
      apply JsStringFacts.occursTwice_replace_self.
      apply JsStringFacts.occursTwice_replace_other; [|done].
      apply JsStringFacts.apart_sym, JsStringFacts.question_apart_questionDate.
    + apply JsStringFacts.occursTwice_replace_self.
      apply JsStringFacts.occursTwice_replace_other;
        [apply JsStringFacts.apart_sym, JsStringFacts.questionDate_apart_context|].
      apply JsStringFacts.occursTwice_replace_other; [|done].
      apply JsStringFacts.apart_sym, JsStringFacts.question_apart_context.
  - intros ->. split; [done|]. intros matched pre post.
    by apply JsStringFacts.GetSubstitution_plain.
Qed.
(** *** What the tasks leave alone *)

Lemma sameBut_refl phase (q : QuestionCheckpoint) : sameBut phase q q.
Proof. by split_and!. Qed.

Lemma sameBut_trans phase (q1 q2 q3 : QuestionCheckpoint) :
  sameBut phase q1 q2 → sameBut phase q2 q3 → sameBut phase q1 q3.
Proof.
  intros (H1 & H2 & H3 & H4) (G1 & G2 & G3 & G4). split_and!; try congruence.
  intros phase' Hne. by rewrite G4, H4.
Qed.

Lemma touchesOnly_refl questionId phase w : touchesOnly questionId phase w w.
Proof.
  split_and!; try done.
  destruct (questions (checkpoint w) !! questionId);
    constructor; apply sameBut_refl.
Qed.

Lemma touchesOnly_trans questionId phase w1 w2 w3 :
  touchesOnly questionId phase w1 w2 →
  touchesOnly questionId phase w2 w3 →
  touchesOnly questionId phase w1 w3.
Proof.
  intros (H1 & H2 & H3 & H4 & H5 & H6 & H7 & H8)
         (G1 & G2 & G3 & G4 & G5 & G6 & G7 & G8).
  split_and!; try congruence.
  - intros q' Hne. by rewrite G5, H5.
  - destruct H6 as [q1 q2 H6|]; inversion G6 as [q2' q3 G6'|]; simplify_eq;
      constructor. by eapply sameBut_trans.
  - by etrans.
  - by etrans.
Qed.

Lemma touchesOnly_checkpoint questionId phase w w' :
  checkpoint w' = checkpoint w →
  dom (files w) ⊆ dom (files w') →
  directories w ⊆ directories w' →
  touchesOnly questionId phase w w'.
Proof.
  intros Hc Hf Hd. unfold touchesOnly. rewrite Hc. split_and!; try done.
  destruct (questions (checkpoint w) !! questionId);
    constructor; apply sameBut_refl.
Qed.

Lemma touchesOnly_updatePhase questionId phase updates w :
  touchesOnly questionId phase w (updatePhase w questionId phase updates).
Proof.
  unfold touchesOnly, updatePhase, save, mergePhase. simpl. split_and!; try done.
  - intros q' Hne. by rewrite lookup_alter_ne.
  - rewrite lookup_alter_eq.
    destruct (questions (checkpoint w) !! questionId) as [q|]; simpl;
      constructor. split_and!; try done.
    intros phase' Hne. simpl. by rewrite fn_lookup_insert_ne.
Qed.

Lemma touchesOnly_updateSessions questionId phase metadata w :
  touchesOnly questionId phase w (updateSessions w questionId metadata).
Proof.
  unfold touchesOnly, updateSessions, save, setSessions. simpl.
  split_and!; try done.
  - intros q' Hne. by rewrite lookup_alter_ne.
  - rewrite lookup_alter_eq.
    destruct (questions (checkpoint w) !! questionId) as [q|]; simpl;
      constructor. by split_and!.
Qed.

Lemma touchesOnly_push questionId sessionId w :
  touchesOnly questionId Ingest w
    (mutate w (pushCompletedSession (checkpoint w) questionId sessionId)).
Proof.
  unfold touchesOnly, mutate, pushCompletedSession. simpl. split_and!; try done.
  - intros q' Hne. by rewrite lookup_alter_ne.
  - rewrite lookup_alter_eq.
    destruct (questions (checkpoint w) !! questionId) as [q|]; simpl;
      constructor. split_and!; try done.
    intros phase' Hne. simpl. by rewrite fn_lookup_insert_ne.
Qed.

Lemma touchesOnly_await {A} questionId phase (call : Call)
    (f : Backend → (A + Thrown) * Backend) w r w' :
  await call f w = (r, w') → touchesOnly questionId phase w w'.
Proof.
  unfold await. destruct (f (backend w)) as [r0 b]. intros [= _ <-].
  by apply touchesOnly_checkpoint.
Qed.

Lemma touchesOnly_writeFileSync questionId phase path data w :
  touchesOnly questionId phase w (writeFileSync w path data).
Proof.
  apply touchesOnly_checkpoint; try done. simpl. rewrite dom_insert. set_solver.
Qed.

Lemma touchesOnly_recordFailure what phase questionId e w r w' :
  recordFailure what phase questionId e w = (r, w') →
  touchesOnly questionId phase w w'.
Proof. unfold recordFailure. intros [= _ <-]. apply touchesOnly_updatePhase. Qed.

Lemma ingestSessions_touchesOnly provider containerTag questionId sessions :
  ∀ combined w r w',
    ingestSessions provider containerTag questionId sessions combined w = (r, w') →
    touchesOnly questionId Ingest w w'.
Proof.
  induction sessions as [|session rest IH]; intros combined w r w' Hrun;
    simpl in Hrun.
  - simplify_eq. apply touchesOnly_refl.
  - destruct (phaseOf (checkpoint w) questionId Ingest ≫= completedSessionsOf)
      as [done_|]; [|simplify_eq; apply touchesOnly_refl].
    case_bool_decide; [by eapply IH|].
    destruct (await _ _ w) as [[result|e] w1] eqn:Hcall; [|simplify_eq].
    + eapply touchesOnly_trans; [by eapply touchesOnly_await|].
      eapply touchesOnly_trans; [apply touchesOnly_push|].
      eapply touchesOnly_trans; [apply touchesOnly_updatePhase|].
      by eapply IH.
    + by eapply touchesOnly_await.
Qed.

Lemma ingestQuestion_touchesOnly provider containerTag question sessions
    startTime w r w' :
  ingestQuestion now toISOString provider containerTag question sessions startTime w
    = (r, w') →
  touchesOnly (Benchmark.questionId question) Ingest w w'.
Proof.
  unfold ingestQuestion. intros Hrun.
  destruct (questions (checkpoint w) !! _);
    [|simplify_eq; apply touchesOnly_refl].
  destruct (ingestSessions _ _ _ _ _ w) as [[combined|e] w1] eqn:Hloop;
    simplify_eq.
  - eapply touchesOnly_trans; [by eapply ingestSessions_touchesOnly|].
    apply touchesOnly_updatePhase.
  - by eapply ingestSessions_touchesOnly.
Qed.

Lemma ingestTask_touchesOnly provider benchmark context w r w' :
  ingestTask now toISOString provider benchmark context w = (r, w') →
  touchesOnly (Benchmark.questionId (item context)) Ingest w w'.
Proof.
  unfold ingestTask. intros Hrun.
  eapply touchesOnly_trans; [apply touchesOnly_updateSessions|].
  eapply touchesOnly_trans; [apply touchesOnly_updatePhase|].
  destruct (ingestQuestion _ _ _ _ _ _ _ _) as [[report|e] w1] eqn:Htry;
    apply ingestQuestion_touchesOnly in Htry.
  - by simplify_eq.
  - eapply touchesOnly_trans; [exact Htry|].
    by eapply touchesOnly_recordFailure.
Qed.

Lemma awaitIndexed_touchesOnly provider question r startTime w res w' :
  awaitIndexed now toISOString provider question r startTime w = (res, w') →
  touchesOnly (questionId question) Indexing w w'.
Proof.
  unfold awaitIndexed. intros Hrun.
  destruct (await _ _ w) as [[u|e] w1] eqn:Hcall; simplify_eq.
  - eapply touchesOnly_trans; [by eapply touchesOnly_await|].
    apply touchesOnly_updatePhase.
  - by eapply touchesOnly_await.
Qed.

Lemma indexingTask_touchesOnly provider context w r w' :
  indexingTask now toISOString provider context w = (r, w') →
  touchesOnly (questionId (item context)) Indexing w w'.
Proof.
  unfold indexingTask. intros Hrun.
  destruct (ingestResultOf _) as [res|];
    [|simplify_eq; apply touchesOnly_updatePhase].
  destruct (nothingToIndex _); [simplify_eq; apply touchesOnly_updatePhase|].
  eapply touchesOnly_trans; [apply touchesOnly_updatePhase|].
  destruct (awaitIndexed _ _ _ _ _ _ _) as [[report|e] w1] eqn:Htry;
    apply awaitIndexed_touchesOnly in Htry.
  - by simplify_eq.
  - eapply touchesOnly_trans; [exact Htry|].
    by eapply touchesOnly_recordFailure.
Qed.

Lemma searchQuestion_touchesOnly provider resultsDir containerTag question
    startTime w res w' :
  searchQuestion now toISOString join provider resultsDir containerTag question
                 startTime w = (res, w') →
  touchesOnly (Benchmark.questionId question) Search w w'.
Proof.
  unfold searchQuestion. intros Hrun.
  destruct (await _ _ w) as [[results|e] w1] eqn:Hcall; simplify_eq.
  - eapply touchesOnly_trans; [by eapply touchesOnly_await|].
    eapply touchesOnly_trans; [apply touchesOnly_writeFileSync|].
    apply touchesOnly_updatePhase.
  - by eapply touchesOnly_await.
Qed.

Lemma searchTask_touchesOnly provider resultsDir context w r w' :
  searchTask now toISOString join provider resultsDir context w = (r, w') →
  touchesOnly (Benchmark.questionId (item context)) Search w w'.
Proof.
  unfold searchTask. intros Hrun.
  eapply touchesOnly_trans; [apply touchesOnly_updatePhase|].
  destruct (searchQuestion _ _ _ _ _ _ _ _ _) as [[report|e] w1] eqn:Htry;
    apply searchQuestion_touchesOnly in Htry.
  - by simplify_eq.
  - eapply touchesOnly_trans; [exact Htry|].
    by eapply touchesOnly_recordFailure.
Qed.

Lemma answerQuestion_touchesOnly modelConfig (provider : option Provider)
    question resultFile startTime w res w' :
  answerQuestion now toISOString generateText buildDefaultAnswerPrompt
                 buildContextString trim modelConfig provider question resultFile
                 startTime w = (res, w') →
  touchesOnly (Benchmark.questionId question) Answer w w'.
Proof.
  unfold answerQuestion. intros Hrun.
  destruct (readResultFile w resultFile) as [data|e];
    [|simplify_eq; apply touchesOnly_refl].
  destruct (await _ _ w) as [[text|e] w1] eqn:Hcall; simplify_eq.
  - eapply touchesOnly_trans; [by eapply touchesOnly_await|].
    apply touchesOnly_updatePhase.
  - by eapply touchesOnly_await.
Qed.

Lemma answerTask_touchesOnly modelConfig (provider : option Provider)
    context w r w' :
  answerTask now toISOString generateText buildDefaultAnswerPrompt
             buildContextString trim modelConfig provider context w = (r, w') →
  touchesOnly (Benchmark.questionId (item context)) Answer w w'.
Proof.
  unfold answerTask. intros Hrun.
  destruct (questions (checkpoint w) !! _);
    [|simplify_eq; apply touchesOnly_refl].
  eapply touchesOnly_trans; [apply touchesOnly_updatePhase|].
  destruct (answerQuestion _ _ _ _ _ _ _ _ _ _ _ _) as [[report|e] w1] eqn:Htry;
    apply answerQuestion_touchesOnly in Htry.
  - by simplify_eq.
  - eapply touchesOnly_trans; [exact Htry|].
    by eapply touchesOnly_recordFailure.
Qed.

Lemma judgeAndMeasure_touchesOnly (judge : Judge) input question groundTruth
    results questionId w res w' :
  judgeAndMeasure calculateRetrievalMetrics judgeRejectsFirst judge input question
                  groundTruth results w = (res, w') →
  touchesOnly questionId Evaluate w w'.
Proof.
  unfold judgeAndMeasure. intros Hrun.
  destruct (await _ _ w) as [r1 w1] eqn:H1.
  destruct (await _ _ w1) as [r2 w2] eqn:H2.
  apply (touchesOnly_await questionId Evaluate) in H1, H2.
  assert (w' = w2) as -> by (destruct r1, r2; by simplify_eq).
  by eapply touchesOnly_trans.
Qed.

Lemma evaluateQuestion_touchesOnly (judge : Judge) (provider : option Provider)
    question hypothesis startTime w res w' :
  evaluateQuestion now toISOString calculateRetrievalMetrics judgeRejectsFirst
                   judge provider question hypothesis startTime w = (res, w') →
  touchesOnly (Benchmark.questionId question) Evaluate w w'.
Proof.
  unfold evaluateQuestion. intros Hrun.
  destruct (judgeAndMeasure _ _ _ _ _ _ _ w) as [[[result metrics]|e] w1] eqn:Hj;
    simplify_eq.
  - eapply touchesOnly_trans; [by eapply judgeAndMeasure_touchesOnly|].
    apply touchesOnly_updatePhase.
  - by eapply judgeAndMeasure_touchesOnly.
Qed.

Lemma evaluateTask_touchesOnly (judge : Judge) (provider : option Provider)
    context w r w' :
  evaluateTask now toISOString calculateRetrievalMetrics judgeRejectsFirst
               judge provider context w = (r, w') →
  touchesOnly (Benchmark.questionId (item context)) Evaluate w w'.
Proof.
  unfold evaluateTask. intros Hrun.
  destruct (questions (checkpoint w) !! _);
    [|simplify_eq; apply touchesOnly_refl].
  eapply touchesOnly_trans; [apply touchesOnly_updatePhase|].
  destruct (evaluateQuestion _ _ _ _ _ _ _ _ _ _) as [[report|e] w1] eqn:Htry;
    apply evaluateQuestion_touchesOnly in Htry.
  - by simplify_eq.
  - eapply touchesOnly_trans; [exact Htry|].
    by eapply touchesOnly_recordFailure.
Qed.

(** X7.  A task changes the checkpoint only in the state of its own
    phase of its own question (the ingest task also in that question's
    session metadata): the run's identifiers and settings, every other
    question, the question's other phases, its container tag and date
    are as before, no entry appears or disappears, and no result file or
    directory is removed.  This holds for each of the five tasks,
    whether it returns or throws. *)
Theorem tasks_touch_only_their_phase provider (judge : Judge) benchmark
    resultsDir modelConfig (answerer : option Provider) :
  (∀ context w,
     touchesOnly (Benchmark.questionId (item context)) Ingest w
       (ingestTask now toISOString provider benchmark context w).2)
  ∧ (∀ context w,
       touchesOnly (questionId (item context)) Indexing w
         (indexingTask now toISOString provider context w).2)
  ∧ (∀ context w,
       touchesOnly (Benchmark.questionId (item context)) Search w
         (searchTask now toISOString join provider resultsDir context w).2)
  ∧ (∀ context w,
       touchesOnly (Benchmark.questionId (item context)) Answer w
         (answerTask now toISOString generateText buildDefaultAnswerPrompt
                     buildContextString trim modelConfig answerer context w).2)
  ∧ (∀ context w,
       touchesOnly (Benchmark.questionId (item context)) Evaluate w
         (evaluateTask now toISOString calculateRetrievalMetrics
                       judgeRejectsFirst judge answerer context w).2).
Proof.
  split_and!; intros context w.
  - destruct (ingestTask _ _ _ _ _ _) as [r w'] eqn:H.
    by eapply ingestTask_touchesOnly.
  - destruct (indexingTask _ _ _ _ _) as [r w'] eqn:H.
    by eapply indexingTask_touchesOnly.
  - destruct (searchTask _ _ _ _ _ _ _) as [r w'] eqn:H.
    by eapply searchTask_touchesOnly.
  - destruct (answerTask _ _ _ _ _ _ _ _ _ _) as [r w'] eqn:H.
    by eapply answerTask_touchesOnly.
  - destruct (evaluateTask _ _ _ _ _ _ _ _) as [r w'] eqn:H.
    by eapply evaluateTask_touchesOnly.
Qed.

(** *** The durable checkpoint when a task settles *)

Lemma persisted_updatePhase w questionId phase updates :
  persisted (updatePhase w questionId phase updates).
Proof. unfold persisted, updatePhase, save. simpl. by rewrite lookup_insert_eq. Qed.

Lemma persisted_updateSessions w questionId metadata :
  persisted (updateSessions w questionId metadata).
Proof.
  unfold persisted, updateSessions, save. simpl. by rewrite lookup_insert_eq.
Qed.

Lemma persisted_await {A} (call : Call) (f : Backend → (A + Thrown) * Backend)
    w r w' :
  await call f w = (r, w') → persisted w → persisted w'.
Proof.
  unfold await. destruct (f (backend w)) as [r0 b]. by intros [= _ <-].
Qed.

Lemma persisted_recordFailure what phase questionId e w r w' :
  recordFailure what phase questionId e w = (r, w') → persisted w'.
Proof. unfold recordFailure. intros [= _ <-]. apply persisted_updatePhase. Qed.

Lemma ingestSessions_persisted provider containerTag questionId sessions :
  ∀ combined w r w',
    ingestSessions provider containerTag questionId sessions combined w = (r, w') →
    persisted w → persisted w'.
Proof.
  induction sessions as [|session rest IH]; intros combined w r w' Hrun Hp;
    simpl in Hrun.
  - by simplify_eq.
  - destruct (phaseOf (checkpoint w) questionId Ingest ≫= completedSessionsOf)
      as [done_|]; [|by simplify_eq].
    case_bool_decide; [by eapply IH|].
    destruct (await _ _ w) as [[result|e] w1] eqn:Hcall; [|simplify_eq].
    + eapply IH; [exact Hrun|]. apply persisted_updatePhase.
    + by eapply persisted_await.
Qed.

Lemma ingestTask_persisted provider benchmark context w r w' :
  ingestTask now toISOString provider benchmark context w = (r, w') →
  persisted w'.
Proof.
  unfold ingestTask. intros Hrun.
  destruct (ingestQuestion _ _ _ _ _ _ _ _) as [[report|e] w1] eqn:Htry.
  - simplify_eq. unfold ingestQuestion in Htry.
    destruct (questions _ !! _); [|done].
    destruct (ingestSessions _ _ _ _ _ _) as [[combined|e] w1] eqn:Hloop;
      simplify_eq. apply persisted_updatePhase.
  - by eapply persisted_recordFailure.
Qed.

Lemma indexingTask_persisted provider context w r w' :
  indexingTask now toISOString provider context w = (r, w') →
  persisted w'.
Proof.
  unfold indexingTask. intros Hrun.
  destruct (ingestResultOf _) as [res|];
    [|simplify_eq; apply persisted_updatePhase].
  destruct (nothingToIndex _); [simplify_eq; apply persisted_updatePhase|].
  destruct (awaitIndexed _ _ _ _ _ _ _) as [[report|e] w1] eqn:Htry.
  - simplify_eq. unfold awaitIndexed in Htry.
    destruct (await _ _ _) as [[u|e] w1]; simplify_eq.
    apply persisted_updatePhase.
  - by eapply persisted_recordFailure.
Qed.

Lemma searchTask_persisted provider resultsDir context w r w' :
  searchTask now toISOString join provider resultsDir context w = (r, w') →
  persisted w'.
Proof.
  unfold searchTask. intros Hrun.
  destruct (searchQuestion _ _ _ _ _ _ _ _ _) as [[report|e] w1] eqn:Htry.
  - simplify_eq. unfold searchQuestion in Htry.
    destruct (await _ _ _) as [[results|e] w1]; simplify_eq.
    apply persisted_updatePhase.
  - by eapply persisted_recordFailure.
Qed.

Lemma answerTask_persisted modelConfig (provider : option Provider)
    context w r w' :
  answerTask now toISOString generateText buildDefaultAnswerPrompt
             buildContextString trim modelConfig provider context w = (r, w') →
  Benchmark.questionId (item context) ∈ entries w →
  persisted w'.
Proof.
  unfold answerTask. intros Hrun [q Hq]%elem_of_entries. rewrite Hq in Hrun.
  destruct (answerQuestion _ _ _ _ _ _ _ _ _ _ _ _) as [[report|e] w1] eqn:Htry.
  - simplify_eq. unfold answerQuestion in Htry.
    destruct (readResultFile _ _); [|done].
    destruct (await _ _ _) as [[text|e] w1]; simplify_eq.
    apply persisted_updatePhase.
  - by eapply persisted_recordFailure.
Qed.

Lemma evaluateTask_persisted (judge : Judge) (provider : option Provider)
    context w r w' :
  evaluateTask now toISOString calculateRetrievalMetrics judgeRejectsFirst
               judge provider context w = (r, w') →
  Benchmark.questionId (item context) ∈ entries w →
  persisted w'.
Proof.
  unfold evaluateTask. intros Hrun [q Hq]%elem_of_entries. rewrite Hq in Hrun.
  destruct (evaluateQuestion _ _ _ _ _ _ _ _ _ _) as [[report|e] w1] eqn:Htry.
  - simplify_eq. unfold evaluateQuestion in Htry.
    destruct (judgeAndMeasure _ _ _ _ _ _ _ _) as [[[result metrics]|e] w1];
      simplify_eq. apply persisted_updatePhase.
  - by eapply persisted_recordFailure.
Qed.

(** X8.  When a task settles, the checkpoint in durable storage is the
    in-memory checkpoint: the last thing every path of a task does to the
    checkpoint is an [updatePhase], also after the in-place [push] of the
    ingest loop.  The answer and evaluate tasks read the question's
    entry before their first [updatePhase]; when there is none they throw
    with the world as it was. *)
Theorem tasks_settle_persisted provider (judge : Judge) benchmark
    resultsDir modelConfig (answerer : option Provider) :
  (∀ context w,
     persisted (ingestTask now toISOString provider benchmark context w).2)
  ∧ (∀ context w,
       persisted (indexingTask now toISOString provider context w).2)
  ∧ (∀ context w,
       persisted (searchTask now toISOString join provider resultsDir context w).2)
  ∧ (∀ context w,
       let run :=
         answerTask now toISOString generateText buildDefaultAnswerPrompt
                    buildContextString trim modelConfig answerer context w in
       if decide (Benchmark.questionId (item context) ∈ entries w)
       then persisted run.2
       else run = (inr typeError, w))
  ∧ (∀ context w,
       let run :=
         evaluateTask now toISOString calculateRetrievalMetrics
                      judgeRejectsFirst judge answerer context w in
       if decide (Benchmark.questionId (item context) ∈ entries w)
       then persisted run.2
       else run = (inr typeError, w)).
Proof.
  split_and!; intros context w.
  - destruct (ingestTask _ _ _ _ _ _) as [r w'] eqn:H.
    by eapply ingestTask_persisted.
  - destruct (indexingTask _ _ _ _ _) as [r w'] eqn:H.
    by eapply indexingTask_persisted.
  - destruct (searchTask _ _ _ _ _ _ _) as [r w'] eqn:H.
    by eapply searchTask_persisted.
  - simpl. case_decide as Hq.
    + destruct (answerTask _ _ _ _ _ _ _ _ _ _) as [r w'] eqn:H.
      by eapply answerTask_persisted.
    + unfold answerTask.
      destruct (questions (checkpoint w) !! _) as [q|] eqn:Hl; [|done].
      exfalso. apply Hq. apply elem_of_entries. by eexists.
  - simpl. case_decide as Hq.
    + destruct (evaluateTask _ _ _ _ _ _ _ _) as [r w'] eqn:H.
      by eapply evaluateTask_persisted.
    + unfold evaluateTask.
      destruct (questions (checkpoint w) !! _) as [q|] eqn:Hl; [|done].
      exfalso. apply Hq. apply elem_of_entries. by eexists.
Qed.

(** *** What a task that settled has written *)

Lemma phaseOf_is_Some w questionId phase :
  questionId ∈ entries w ↔ is_Some (phaseOf (checkpoint w) questionId phase).
Proof.
  rewrite elem_of_entries. unfold phaseOf.
  destruct (questions (checkpoint w) !! questionId); simpl; split;
    intros [? ?]; by eauto.
Qed.

Lemma lookup_updatePhase w questionId phase updates key v :
  questionId ∈ entries w →
  updates !! key = Some v →
  phaseOf (checkpoint (updatePhase w questionId phase updates)) questionId phase
    ≫= (.!! key) = Some v.
Proof.
  intros [st Hst]%(phaseOf_is_Some _ _ phase) Hkey.
  unfold updatePhase, save. cbn [checkpoint].
  rewrite phaseOf_mergePhase, Hst. simpl.
  by apply lookup_union_Some_l.
Qed.

Lemma getPhaseStatus_updatePhase w questionId phase updates s :
  questionId ∈ entries w →
  updates !! "status" = Some (Status s) →
  getPhaseStatus (checkpoint (updatePhase w questionId phase updates))
                 questionId phase = s.
Proof.
  intros Hq Hs. pose proof (lookup_updatePhase _ _ phase _ _ _ Hq Hs) as H.
  unfold getPhaseStatus.
  destruct (phaseOf _ questionId phase) as [st|]; simpl in *; [|done].
  unfold statusOf. by rewrite H.
Qed.

Lemma stringOf_updatePhase w questionId phase updates key v :
  questionId ∈ entries w →
  updates !! key = Some (Str v) →
  phaseOf (checkpoint (updatePhase w questionId phase updates)) questionId phase
    ≫= stringOf key = Some v.
Proof.
  intros Hq Hs. pose proof (lookup_updatePhase _ _ phase _ _ _ Hq Hs) as H.
  destruct (phaseOf _ questionId phase) as [st|]; simpl in *; [|done].
  unfold stringOf. by rewrite H.
Qed.

Lemma phaseOf_touchesOnly questionId phase w w' questionId' phase' :
  touchesOnly questionId phase w w' →
  questionId' ≠ questionId ∨ phase' ≠ phase →
  phaseOf (checkpoint w') questionId' phase'
  = phaseOf (checkpoint w) questionId' phase'.
Proof.
  intros (_ & _ & _ & _ & Hother & Hown & _) Hne. unfold phaseOf.
  destruct (decide (questionId' = questionId)) as [->|Hq].
  - destruct Hne as [?|Hp]; [done|].
    destruct Hown as [q q2 (_ & _ & _ & Hphases)|]; simpl; [|done].
    by rewrite Hphases.
  - by rewrite Hother.
Qed.

Lemma getPhaseStatus_touchesOnly questionId phase w w' questionId' phase' :
  touchesOnly questionId phase w w' →
  questionId' ≠ questionId ∨ phase' ≠ phase →
  getPhaseStatus (checkpoint w') questionId' phase'
  = getPhaseStatus (checkpoint w) questionId' phase'.
Proof.
  intros Ht Hne. unfold getPhaseStatus. by rewrite (phaseOf_touchesOnly _ _ _ _ _ _ Ht).
Qed.

Lemma entries_touchesOnly questionId phase w w' :
  touchesOnly questionId phase w w' → entries w' = entries w.
Proof.
  intros (_ & _ & _ & _ & Hother & Hown & _). apply set_eq. intros q.
  rewrite !elem_of_entries.
  destruct (decide (q = questionId)) as [->|Hq]; [|by rewrite Hother].
  destruct Hown; split; intros [? ?]; by eauto.
Qed.

Lemma existsSync_touchesOnly questionId phase w w' path :
  touchesOnly questionId phase w w' →
  existsSync w path = true → existsSync w' path = true.
Proof.
  intros (_ & _ & _ & _ & _ & _ & Hf & Hd). unfold existsSync.
  rewrite !bool_decide_eq_true, <- !elem_of_dom. set_solver.
Qed.

(** The success path of each task. *)

Lemma resultsOf_updatePhase w questionId phase updates results :
  questionId ∈ entries w →
  updates !! "results" = Some (Records results) →
  phaseOf (checkpoint (updatePhase w questionId phase updates)) questionId phase
    ≫= resultsOf = Some results.
Proof.
  intros Hq Hs. pose proof (lookup_updatePhase _ _ phase _ _ _ Hq Hs) as H.
  destruct (phaseOf _ questionId phase) as [st|]; simpl in *; [|done].
  unfold resultsOf. by rewrite H.
Qed.

Lemma ingestTask_success provider benchmark context w report w' :
  ingestTask now toISOString provider benchmark context w = (inl report, w') →
  Benchmark.questionId (item context) ∈ entries w
  ∧ getPhaseStatus (checkpoint w') (Benchmark.questionId (item context)) Ingest
    = completed
  ∧ reportQuestionId report = Benchmark.questionId (item context).
Proof.
  unfold ingestTask. intros Hrun.
  destruct (ingestQuestion _ _ _ _ _ _ _ _) as [[report'|e] w1] eqn:Htry;
    [|unfold recordFailure in Hrun; by simplify_eq].
  simplify_eq. unfold ingestQuestion in Htry.
  destruct (questions _ !! _) as [q|] eqn:Hq; [|done].
  destruct (ingestSessions _ _ _ _ _ _) as [[combined|e] w1] eqn:Hloop; [|done].
  simplify_eq. apply ingestSessions_entries in Hloop.
  apply mk_is_Some, elem_of_entries in Hq.
  split_and!.
  - by rewrite entries_updatePhase, entries_updateSessions in Hq.
  - apply getPhaseStatus_updatePhase; [by rewrite Hloop|].
    by rewrite lookup_insert_eq.
  - done.
Qed.

Lemma indexingTask_success provider context w report w' :
  indexingTask now toISOString provider context w = (inl report, w') →
  questionId (item context) ∈ entries w →
  getPhaseStatus (checkpoint w') (questionId (item context)) Indexing = completed
  ∧ reportQuestionId report = questionId (item context).
Proof.
  unfold indexingTask. intros Hrun Hq.
  destruct (ingestResultOf _) as [res|].
  2:{ simplify_eq. split; [|done].
      apply getPhaseStatus_updatePhase; [done|]. by rewrite lookup_insert_eq. }
  destruct (nothingToIndex _).
  { simplify_eq. split; [|done].
    apply getPhaseStatus_updatePhase; [done|]. by rewrite lookup_insert_eq. }
  destruct (awaitIndexed _ _ _ _ _ _ _) as [[report'|e] w1] eqn:Htry;
    [|unfold recordFailure in Hrun; by simplify_eq].
  simplify_eq. unfold awaitIndexed in Htry.
  destruct (await _ _ _) as [[u|e] w1] eqn:Hcall; simplify_eq.
  split; [|done].
  apply getPhaseStatus_updatePhase; [|by rewrite lookup_insert_eq].
  apply await_entries in Hcall. by rewrite Hcall, entries_updatePhase.
Qed.

Lemma searchTask_success provider resultsDir context w report w' :
  searchTask now toISOString join provider resultsDir context w = (inl report, w') →
  Benchmark.questionId (item context) ∈ entries w →
  let questionId := Benchmark.questionId (item context) in
  let resultFile := join resultsDir (questionId +:+ ".json") in
  getPhaseStatus (checkpoint w') questionId Search = completed
  ∧ reportQuestionId report = questionId
  ∧ phaseOf (checkpoint w') questionId Search ≫= stringOf "resultFile"
    = Some resultFile
  ∧ ∃ results data,
      phaseOf (checkpoint w') questionId Search ≫= resultsOf = Some results
      ∧ files w' !! resultFile = Some data
      ∧ rdResults data = Some results
      ∧ rdQuestionId data = questionId
      ∧ rdContainerTag data = searchContainerTagOf (item context) (checkpoint w).
Proof.
  intros Hrun Hq questionId resultFile. unfold searchTask in Hrun.
  destruct (searchQuestion _ _ _ _ _ _ _ _ _) as [[report'|e] w1] eqn:Htry;
    [|unfold recordFailure in Hrun; by simplify_eq].
  simplify_eq. unfold searchQuestion in Htry.
  destruct (await _ _ _) as [[results|e] w1] eqn:Hcall; simplify_eq.
  apply await_entries in Hcall. rewrite entries_updatePhase in Hcall.
  set (data := mkResultData _ _ _ _ _ _ _ _).
  assert (Hent : questionId ∈ entries (writeFileSync w1 resultFile data)).
  { unfold entries. simpl. fold (entries w1). by rewrite Hcall. }
  split_and!.
  - apply getPhaseStatus_updatePhase; [done|]. by rewrite lookup_insert_eq.
  - done.
  - apply stringOf_updatePhase; [done|]. by simplify_map_eq.
  - exists results, data. split_and!; try done.
    + apply resultsOf_updatePhase; [done|]. by simplify_map_eq.
    + simpl. by rewrite lookup_insert_eq.
Qed.

Lemma answerTask_success modelConfig (provider : option Provider)
    context w report w' :
  answerTask now toISOString generateText buildDefaultAnswerPrompt
             buildContextString trim modelConfig provider context w
    = (inl report, w') →
  Benchmark.questionId (item context) ∈ entries w
  ∧ getPhaseStatus (checkpoint w') (Benchmark.questionId (item context)) Answer
    = completed
  ∧ reportQuestionId report = Benchmark.questionId (item context)
  ∧ ∃ text,
      phaseOf (checkpoint w') (Benchmark.questionId (item context)) Answer
        ≫= stringOf "hypothesis" = Some (trim text).
Proof.
  unfold answerTask. intros Hrun.
  destruct (questions _ !! _) as [q|] eqn:Hq; [|done].
  apply mk_is_Some, elem_of_entries in Hq.
  destruct (answerQuestion _ _ _ _ _ _ _ _ _ _ _ _) as [[report'|e] w1] eqn:Htry;
    [|unfold recordFailure in Hrun; by simplify_eq].
  simplify_eq. unfold answerQuestion in Htry.
  destruct (readResultFile _ _) as [data|e]; [|done].
  destruct (await _ _ _) as [[text|e] w1] eqn:Hcall; simplify_eq.
  apply await_entries in Hcall. rewrite entries_updatePhase in Hcall.
  split_and!; try done.
  - apply getPhaseStatus_updatePhase; [by rewrite Hcall|].
    by rewrite lookup_insert_eq.
  - exists text. apply stringOf_updatePhase; [by rewrite Hcall|].
    by simplify_map_eq.
Qed.

Lemma evaluateTask_success (judge : Judge) (provider : option Provider)
    context w report w' :
  evaluateTask now toISOString calculateRetrievalMetrics judgeRejectsFirst
               judge provider context w = (inl report, w') →
  Benchmark.questionId (item context) ∈ entries w
  ∧ getPhaseStatus (checkpoint w') (Benchmark.questionId (item context)) Evaluate
    = completed
  ∧ reportQuestionId report = Benchmark.questionId (item context)
  ∧ ∃ label,
      reportLabel report = Some label
      ∧ phaseOf (checkpoint w') (Benchmark.questionId (item context)) Evaluate
          ≫= stringOf "label" = Some label.
Proof.
  unfold evaluateTask. intros Hrun.
  destruct (questions _ !! _) as [q|] eqn:Hq; [|done].
  apply mk_is_Some, elem_of_entries in Hq.
  destruct (evaluateQuestion _ _ _ _ _ _ _ _ _ _) as [[report'|e] w1] eqn:Htry;
    [|unfold recordFailure in Hrun; by simplify_eq].
  simplify_eq. unfold evaluateQuestion in Htry.
  destruct (judgeAndMeasure _ _ _ _ _ _ _ _) as [[[result metrics]|e] w1] eqn:Hj;
    simplify_eq.
  apply judgeAndMeasure_entries in Hj. rewrite entries_updatePhase in Hj.
  split_and!; try done.
  - apply getPhaseStatus_updatePhase; [by rewrite Hj|].
    by rewrite lookup_insert_eq.
  - exists (label result). split; [done|].
    apply stringOf_updatePhase; [by rewrite Hj|]. by simplify_map_eq.
Qed.

(** *** The working sets after a task has settled *)

Lemma failed_status what phase questionId e t w' :
  recordedThenThrown what phase questionId e t w' →
  getPhaseStatus (checkpoint w') questionId phase = failed.
Proof. intros (_ & Hs & _). unfold getPhaseStatus. by rewrite Hs. Qed.

Lemma getPhaseStatus_no_entry w questionId phase :
  questionId ∉ entries w →
  getPhaseStatus (checkpoint w) questionId phase = pending.
Proof.
  intros Hq. unfold getPhaseStatus, phaseOf.
  destruct (questions (checkpoint w) !! questionId) as [q|] eqn:Hl; [|done].
  exfalso. apply Hq, elem_of_entries. by eexists.
Qed.

Lemma getPhaseStatus_lookup c questionId phase s :
  s ≠ pending →
  getPhaseStatus c questionId phase = s ↔
  ∃ q, questions c !! questionId = Some q ∧ statusOf (phases q phase) = Some s.
Proof.
  intros Hs. unfold getPhaseStatus, phaseOf.
  destruct (questions c !! questionId) as [q|]; simpl.
  - destruct (statusOf (phases q phase)) as [s'|] eqn:Hst; simpl; split.
    + intros ->. by exists q.
    + intros (q0 & [= <-] & Hs'). congruence.
    + intros <-. done.
    + intros (q0 & [= <-] & Hs'). congruence.
  - split; [intros <-; done|]. by intros (q0 & [=] & _).
Qed.

Lemma elem_of_checkpointQuestions c (q : QuestionCheckpoint) :
  q ∈ checkpointQuestions c ↔ ∃ key, questions c !! key = Some q.
Proof.
  unfold checkpointQuestions. rewrite list_elem_of_fmap. split.
  - intros ([key q'] & -> & Hin). exists key. by apply elem_of_map_to_list.
  - intros [key Hkey]. exists (key, q). split; [done|].
    by apply elem_of_map_to_list.
Qed.

(** X9.  A task that returns has recorded [completed] for its phase, and
    its question is in no working set of that phase computed from the
    checkpoint it leaves, whatever the selection of question ids: a
    resumed run does not repeat it.  (The indexing and search tasks
    write to the entry of the question without reading it first, so the
    entry is a premise there.) *)
Theorem returned_task_leaves_working_set provider (judge : Judge) benchmark
    resultsDir modelConfig (answerer : option Provider) :
  (∀ context w report w',
     ingestTask now toISOString provider benchmark context w = (inl report, w') →
     getPhaseStatus (checkpoint w') (Benchmark.questionId (item context)) Ingest
     = completed
     ∧ ∀ ids, item context ∉ ingestPending benchmark (checkpoint w') ids)
  ∧ (∀ context w report w',
       indexingTask now toISOString provider context w = (inl report, w') →
       questionId (item context) ∈ entries w →
       getPhaseStatus (checkpoint w') (questionId (item context)) Indexing
       = completed
       ∧ ∀ ids q, questions (checkpoint w') !! questionId (item context) = Some q →
                  q ∉ indexingPending (checkpoint w') ids)
  ∧ (∀ context w report w',
       searchTask now toISOString join provider resultsDir context w
         = (inl report, w') →
       Benchmark.questionId (item context) ∈ entries w →
       getPhaseStatus (checkpoint w') (Benchmark.questionId (item context)) Search
       = completed
       ∧ ∀ ids, item context ∉ searchPending benchmark (checkpoint w') ids)
  ∧ (∀ context w report w',
       answerTask now toISOString generateText buildDefaultAnswerPrompt
                  buildContextString trim modelConfig answerer context w
         = (inl report, w') →
       getPhaseStatus (checkpoint w') (Benchmark.questionId (item context)) Answer
       = completed
       ∧ ∀ ids, item context ∉ answerPending benchmark w' ids)
  ∧ (∀ context w report w',
       evaluateTask now toISOString calculateRetrievalMetrics judgeRejectsFirst
                    judge answerer context w = (inl report, w') →
       getPhaseStatus (checkpoint w') (Benchmark.questionId (item context)) Evaluate
       = completed
       ∧ ∀ ids, item context ∉ evaluatePending benchmark (checkpoint w') ids).
Proof.
  split_and!.
  - intros context w report w' Hrun.
    apply ingestTask_success in Hrun as (_ & Hs & _). split; [done|].
    intros ids [Hp _]%list_elem_of_filter. done.
  - intros context w report w' Hrun Hq.
    apply indexingTask_success in Hrun as (Hs & _); [|done]. split; [done|].
    intros ids q Hl [[_ Hp] _]%list_elem_of_filter. apply Hp.
    apply getPhaseStatus_lookup in Hs as (q' & Hl' & Hs); [|done].
    congruence.
  - intros context w report w' Hrun Hq.
    apply searchTask_success in Hrun as (Hs & _); [|done]. split; [done|].
    intros ids [[Hp _] _]%list_elem_of_filter. done.
  - intros context w report w' Hrun.
    apply answerTask_success in Hrun as (_ & Hs & _). split; [done|].
    intros ids [[Hp _] _]%list_elem_of_filter. done.
  - intros context w report w' Hrun.
    apply evaluateTask_success in Hrun as (_ & Hs & _). split; [done|].
    intros ids [[Hp _] _]%list_elem_of_filter. done.
Qed.

(** The status of a phase after its task threw is not [completed]. *)
Lemma thrown_not_completed what phase questionId w w' :
  entries w' = entries w →
  (questionId ∈ entries w →
   ∃ e t, recordedThenThrown what phase questionId e t w') →
  getPhaseStatus (checkpoint w') questionId phase ≠ completed.
Proof.
  intros Hent Hrec. destruct (decide (questionId ∈ entries w)) as [Hq|Hq].
  - destruct (Hrec Hq) as (e & t & Hr). by rewrite (failed_status _ _ _ _ _ _ Hr).
  - rewrite getPhaseStatus_no_entry; [done|]. by rewrite Hent.
Qed.

(** X10.  A task that throws leaves its question in the working set of
    its phase: a question that was pending before the task is pending in
    the world the failed task leaves, for the same selection of question
    ids, so resuming the run retries it.  (The indexing runner works on
    the checkpoint's own objects; the object at the question's key is
    the one that is pending afterwards.) *)
Theorem thrown_task_stays_pending provider (judge : Judge) benchmark
    resultsDir modelConfig (answerer : option Provider) :
  (∀ context w t w' ids,
     ingestTask now toISOString provider benchmark context w = (inr t, w') →
     item context ∈ ingestPending benchmark (checkpoint w) ids →
     item context ∈ ingestPending benchmark (checkpoint w') ids)
  ∧ (∀ context w t w' ids,
       indexingTask now toISOString provider context w = (inr t, w') →
       item context ∈ indexingPending (checkpoint w) ids →
       questions (checkpoint w) !! questionId (item context) = Some (item context) →
       ∃ q, questions (checkpoint w') !! questionId (item context) = Some q
            ∧ q ∈ indexingPending (checkpoint w') ids)
  ∧ (∀ context w t w' ids,
       searchTask now toISOString join provider resultsDir context w = (inr t, w') →
       item context ∈ searchPending benchmark (checkpoint w) ids →
       item context ∈ searchPending benchmark (checkpoint w') ids)
  ∧ (∀ context w t w' ids,
       answerTask now toISOString generateText buildDefaultAnswerPrompt
                  buildContextString trim modelConfig answerer context w
         = (inr t, w') →
       item context ∈ answerPending benchmark w ids →
       item context ∈ answerPending benchmark w' ids)
  ∧ (∀ context w t w' ids,
       evaluateTask now toISOString calculateRetrievalMetrics judgeRejectsFirst
                    judge answerer context w = (inr t, w') →
       item context ∈ evaluatePending benchmark (checkpoint w) ids →
       item context ∈ evaluatePending benchmark (checkpoint w') ids).
Proof.
  split_and!.
  - intros context w t w' ids Hrun [_ Htarget]%list_elem_of_filter.
    apply list_elem_of_filter. split; [|done].
    eapply (thrown_not_completed "Ingest"); [by eapply ingestTask_entries|].
    intros Hq. destruct (ingestTask_fails _ _ _ _ _ _ Hrun Hq)
      as (e & ? & ? & ? & ? & ? & _ & Hrec). eauto.
  - intros context w t w' ids Hrun [[Hingest Hindexing] Htarget]%list_elem_of_filter
      Hkey.
    pose proof (indexingTask_touchesOnly _ _ _ _ _ Hrun) as Ht.
    assert (Hq : questionId (item context) ∈ entries w).
    { apply elem_of_entries. by eexists. }
    destruct (indexingTask_fails _ _ _ _ _ Hrun Hq)
      as (e & ? & ? & ? & ? & _ & Hrec).
    apply failed_status, getPhaseStatus_lookup in Hrec as (q & Hl & Hs); [|done].
    exists q. split; [done|].
    destruct Ht as (_ & _ & _ & _ & _ & Hown & _).
    rewrite Hkey, Hl in Hown.
    inversion Hown as [? ? (Hid & _ & _ & Hphases)|]; subst.
    apply list_elem_of_filter. split_and!.
    + by rewrite Hphases.
    + by rewrite Hs.
    + unfold targetCheckpoints in *. destruct ids as [l|].
      * apply list_elem_of_filter in Htarget as [Hin _].
        apply list_elem_of_filter. split; [by rewrite Hid|].
        apply elem_of_checkpointQuestions. by eexists.
      * apply elem_of_checkpointQuestions. by eexists.
  - intros context w t w' ids Hrun [[Hsearch Hindexing] Htarget]%list_elem_of_filter.
    pose proof (searchTask_touchesOnly _ _ _ _ _ _ Hrun) as Ht.
    apply list_elem_of_filter. split_and!; [| |done].
    + eapply (thrown_not_completed "Search"); [by eapply searchTask_entries|].
      intros Hq. destruct (searchTask_fails _ _ _ _ _ _ Hrun Hq)
        as (e & ? & ? & ? & ? & _ & Hrec). eauto.
    + rewrite (getPhaseStatus_touchesOnly _ _ _ _ _ _ Ht); [done|by right].
  - intros context w t w' ids Hrun
      [(Hanswer & Hsearch & Hfile & Hexists) Htarget]%list_elem_of_filter.
    pose proof (answerTask_touchesOnly _ _ _ _ _ _ Hrun) as Ht.
    apply list_elem_of_filter. split; [|done]. cbv zeta.
    rewrite (getPhaseStatus_touchesOnly _ _ _ _ _ Search Ht) by by right.
    rewrite (phaseOf_touchesOnly _ _ _ _ _ Search Ht) by by right.
    split_and!; try done.
    + eapply (thrown_not_completed "Answer"); [by eapply answerTask_entries|].
      intros Hq. destruct (answerTask_fails _ _ _ _ _ _ Hrun Hq)
        as (e & ? & ? & ? & ? & _ & Hrec). eauto.
    + by eapply existsSync_touchesOnly.
  - intros context w t w' ids Hrun
      [(Hevaluate & Hanswer & Hhyp) Htarget]%list_elem_of_filter.
    pose proof (evaluateTask_touchesOnly _ _ _ _ _ _ Hrun) as Ht.
    apply list_elem_of_filter. split; [|done].
    rewrite (getPhaseStatus_touchesOnly _ _ _ _ _ Answer Ht) by by right.
    rewrite (phaseOf_touchesOnly _ _ _ _ _ Answer Ht) by by right.
    split_and!; try done.
    eapply (thrown_not_completed "Evaluate"); [by eapply evaluateTask_entries|].
    intros Hq. destruct (evaluateTask_fails _ _ _ _ _ _ Hrun Hq)
      as (e & ? & ? & ? & ? & _ & Hrec). eauto.
Qed.

(** *** From one phase to the next *)



(** *** The session loop of the ingest task *)

Import SessionsFacts.

Lemma completedSessions_recorded w questionId sessionId l :
  questionId ∈ entries w →
  phaseOf (checkpoint
             (updatePhase
                (mutate w (pushCompletedSession (checkpoint w) questionId sessionId))
                questionId Ingest {[ "completedSessions" := Strs l ]}))
          questionId Ingest ≫= completedSessionsOf
  = Some l.
Proof.
  intros Hq.
  pose proof (lookup_updatePhase
                (mutate w (pushCompletedSession (checkpoint w) questionId sessionId))
                questionId Ingest {[ "completedSessions" := Strs l ]}
                "completedSessions" (Strs l)) as H.
  rewrite entries_push in H. specialize (H Hq (lookup_singleton_eq _ _)).
  destruct (phaseOf _ questionId Ingest) as [st|]; simpl in *; [|done].
  unfold completedSessionsOf. by rewrite H.
Qed.

(** [ok] are the sessions whose call returned, in order. *)
Lemma ingestSessions_spec provider containerTag questionId sessions :
  ∀ combined w completedSessions r w',
    phaseOf (checkpoint w) questionId Ingest ≫= completedSessionsOf
      = Some completedSessions →
    ingestSessions provider containerTag questionId sessions combined w = (r, w') →
    ∃ ok,
      phaseOf (checkpoint w') questionId Ingest ≫= completedSessionsOf
        = Some (completedSessions ++ (Benchmark.sessionId <$> ok))
      ∧ match r with
        | inl _ =>
            ok = sessionsToIngest completedSessions sessions
            ∧ calls w' = calls w ++ ((λ s, IngestCall [s] containerTag) <$> ok)
        | inr _ =>
            ∃ session,
              (ok ++ [session]) `prefix_of` sessionsToIngest completedSessions sessions
              ∧ calls w'
                = calls w ++ ((λ s, IngestCall [s] containerTag) <$> ok ++ [session])
        end.
Proof.
  induction sessions as [|session rest IH];
    intros combined w completedSessions r w' Hdone Hrun; simpl in Hrun.
  - simplify_eq. exists []. simpl. rewrite !app_nil_r. done.
  - rewrite Hdone in Hrun. simpl.
    case_bool_decide as Hin; [by eapply IH|].
    assert (Hq : questionId ∈ entries w).
    { apply (phaseOf_is_Some _ _ Ingest).
      by destruct (phaseOf (checkpoint w) questionId Ingest). }
    unfold await in Hrun.
    destruct (ingest provider [session] containerTag (backend w))
      as [[result|e] b] eqn:Hcall.
    + set (w1 := mkWorld (checkpoint w) (durable w) (files w) (directories w) b
                         (calls w ++ [IngestCall [session] containerTag])) in *.
      assert (Hq1 : questionId ∈ entries w1) by done.
      pose proof (completedSessions_recorded w1 questionId
                    (Benchmark.sessionId session)
                    (completedSessions ++ [Benchmark.sessionId session]) Hq1)
        as Hdone'.
      destruct (IH _ _ _ _ _ Hdone' Hrun) as (ok & Hrec & Hr).
      exists (session :: ok). split.
      { rewrite Hrec. simpl. by rewrite <- app_assoc. }
      destruct r as [res|e].
      * destruct Hr as [-> Hcalls]. split; [done|].
        rewrite Hcalls. simpl. by rewrite <- app_assoc.
      * destruct Hr as (failing & Hpre & Hcalls). exists failing. split.
        -- simpl. by apply prefix_cons.
        -- rewrite Hcalls. simpl. by rewrite <- app_assoc.
    + simplify_eq. exists []. simpl. rewrite app_nil_r. split; [done|].
      exists session. split; [|done]. simpl. apply prefix_cons, prefix_nil.
Qed.

(** X12.  The session loop never hands the provider a session that is
    in [completedSessions] when the loop starts, and never the same
    session id twice: the calls it adds are calls for one session each,
    with the task's container tag, for sessions of the haystack in
    haystack order.  When the loop ends without a rejection every session
    of the haystack is in [completedSessions] already or was handed over;
    with distinct session ids the sessions handed over are then exactly
    those that were not in [completedSessions]. *)
Theorem ingestSessions_skips_completed provider containerTag questionId sessions
    combined w completedSessions r w' :
  phaseOf (checkpoint w) questionId Ingest ≫= completedSessionsOf
    = Some completedSessions →
  ingestSessions provider containerTag questionId sessions combined w = (r, w') →
  ∃ attempted,
    calls w' = calls w ++ ((λ s, IngestCall [s] containerTag) <$> attempted)
    ∧ attempted `sublist_of` sessions
    ∧ NoDup (Benchmark.sessionId <$> attempted)
    ∧ (∀ s, s ∈ attempted → Benchmark.sessionId s ∉ completedSessions)
    ∧ (∀ result, r = inl result →
         (∀ s, s ∈ sessions →
               Benchmark.sessionId s ∈ completedSessions
               ∨ Benchmark.sessionId s ∈ Benchmark.sessionId <$> attempted)
         ∧ (NoDup (Benchmark.sessionId <$> sessions) →
            attempted
            = filter (λ s, Benchmark.sessionId s ∉ completedSessions) sessions)).
Proof.
  intros Hdone Hrun.
  destruct (ingestSessions_spec _ _ _ _ _ _ _ _ _ Hdone Hrun) as (ok & _ & Hr).
  assert (Hpre : ∃ attempted,
            attempted `prefix_of` sessionsToIngest completedSessions sessions
            ∧ calls w'
              = calls w ++ ((λ s, IngestCall [s] containerTag) <$> attempted)
            ∧ (∀ result, r = inl result →
                 attempted = sessionsToIngest completedSessions sessions)).
  { destruct r as [res|e].
    - destruct Hr as [-> Hcalls]. eexists. split_and!; [done|done|done].
    - destruct Hr as (failing & Hpre & Hcalls). exists (ok ++ [failing]).
      split_and!; [done|done|]. by intros. }
  destruct Hpre as (attempted & Hpre & Hcalls & Hall).
  exists attempted. split_and!.
  - done.
  - etrans; [by apply prefix_sublist|]. apply sessionsToIngest_sublist.
  - eapply NoDup_prefix; [|apply (sessionsToIngest_NoDup completedSessions sessions)].
    destruct Hpre as [m Hm]. rewrite Hm, fmap_app. by eexists.
  - intros s Hs. apply (sessionsToIngest_fresh _ sessions).
    destruct Hpre as [m ->]. apply elem_of_app. by left.
  - intros result Hres. rewrite (Hall _ Hres). split.
    + intros s Hs. by apply sessionsToIngest_covers.
    + apply sessionsToIngest_filter.
Qed.

(** X13.  [completedSessions] is append-only through the session loop,
    and what is appended are the ids of the sessions whose call returned,
    in order.  When a call is rejected the loop stops there: the id of
    that session is not in [completedSessions].  When the loop ends
    without a rejection every session of the haystack is in
    [completedSessions].  If the durable checkpoint was the in-memory one
    before the loop, it is so after it. *)
Theorem ingestSessions_records_completed provider containerTag questionId sessions
    combined w completedSessions r w' :
  phaseOf (checkpoint w) questionId Ingest ≫= completedSessionsOf
    = Some completedSessions →
  ingestSessions provider containerTag questionId sessions combined w = (r, w') →
  ∃ ok,
    phaseOf (checkpoint w') questionId Ingest ≫= completedSessionsOf
      = Some (completedSessions ++ (Benchmark.sessionId <$> ok))
    ∧ (persisted w → persisted w')
    ∧ match r with
      | inl _ =>
          calls w' = calls w ++ ((λ s, IngestCall [s] containerTag) <$> ok)
          ∧ ∀ s, s ∈ sessions →
                 Benchmark.sessionId s
                   ∈ completedSessions ++ (Benchmark.sessionId <$> ok)
      | inr _ =>
          ∃ session,
            calls w'
            = calls w ++ ((λ s, IngestCall [s] containerTag) <$> ok ++ [session])
            ∧ Benchmark.sessionId session
                ∉ completedSessions ++ (Benchmark.sessionId <$> ok)
      end.
Proof.
  intros Hdone Hrun.
  destruct (ingestSessions_spec _ _ _ _ _ _ _ _ _ Hdone Hrun) as (ok & Hrec & Hr).
  exists ok. split; [done|]. split; [by eapply ingestSessions_persisted|].
  destruct r as [res|e].
  - destruct Hr as [-> Hcalls]. split; [done|].
    intros s Hs. apply elem_of_app. by apply sessionsToIngest_covers.
  - destruct Hr as (failing & Hpre & Hcalls). exists failing. split; [done|].
    intros [Hin|Hin]%elem_of_app.
    + apply (sessionsToIngest_fresh completedSessions sessions failing); [|done].
      destruct Hpre as [m ->]. apply elem_of_app. left. apply elem_of_app.
      right. left.
    + pose proof (sessionsToIngest_NoDup completedSessions sessions) as Hnd.
      destruct Hpre as [m Hm]. rewrite Hm, !fmap_app in Hnd.
      apply NoDup_app in Hnd as [Hnd _].
      apply NoDup_app in Hnd as (_ & Hdisj & _).
      apply (Hdisj _ Hin). simpl. left.
Qed.

(** A provider that accepts every call and reports no document lets the
    loop run to its end without a document. *)
Lemma ingestSessions_no_documents provider containerTag questionId sessions :
  (∀ session b, ∃ result b',
     ingest provider [session] containerTag b = (inl result, b')
     ∧ documentIds result = []) →
  ∀ combined w completedSessions,
    phaseOf (checkpoint w) questionId Ingest ≫= completedSessionsOf
      = Some completedSessions →
    ∃ combined' w',
      ingestSessions provider containerTag questionId sessions combined w
        = (inl combined', w')
      ∧ documentIds combined' = documentIds combined.
Proof.
  intros Hprov.
  induction sessions as [|session rest IH]; intros combined w completedSessions Hdone;
    simpl.
  - by eexists _, _.
  - rewrite Hdone. case_bool_decide as Hin; [by eapply IH|].
    assert (Hq : questionId ∈ entries w).
    { apply (phaseOf_is_Some _ _ Ingest).
      by destruct (phaseOf (checkpoint w) questionId Ingest). }
    unfold await.
    destruct (Hprov session (backend w)) as (result & b' & -> & Hdocs).
    set (w1 := mkWorld (checkpoint w) (durable w) (files w) (directories w) b'
                       (calls w ++ [IngestCall [session] containerTag])).
    assert (Hq1 : questionId ∈ entries w1) by done.
    pose proof (completedSessions_recorded w1 questionId
                  (Benchmark.sessionId session)
                  (completedSessions ++ [Benchmark.sessionId session]) Hq1)
      as Hdone'.
    edestruct (IH (mkIngestResult (documentIds combined ++ documentIds result)
                     (Some (default [] (taskIds combined)
                              ++ default [] (taskIds result))))
                  _ _ Hdone') as (combined' & w' & Hrun & Hd).
    exists combined', w'. split; [exact Hrun|].
    rewrite Hd. simpl. by rewrite Hdocs, app_nil_r.
Qed.

(** *** The runners and the executor *)

Import ParallelExecutorTrace ParallelExecutorMore.

Lemma executeBatched_config_error {T}
    (o : @ParallelExecutionOptions T TaskReport World) w :
  items o ≠ [] →
  (concurrency o ≤ 0)%Z →
  executeBatched (stopRequested shouldStop) completion o w
  = (Threw concurrencyError, w, []).
Proof.
  intros Hne Hc. unfold executeBatched.
  rewrite bool_decide_eq_false_2.
  2:{ intros Hlen. by destruct (items o). }
  by rewrite bool_decide_eq_true_2.
Qed.

Lemma length_zero_iff_nil {A} (l : list A) : length l = 0 ↔ l = [].
Proof. by destruct l. Qed.

(** X14.  A resolved parallelism that is not positive stops a phase that
    has pending work before any task runs: the runner throws the
    configuration error of the executor, no task is dispatched and the
    checkpoint is untouched (the search runner has created its results
    directory by then).  The resolver hands such a number on as it is
    configured, and no runner checks it. *)
Theorem nonpositive_parallelism_stops_phase provider (judge : Judge) benchmark ids
    (answerer : option Provider) w :
  let resolved phase defaults :=
    Parallelism.resolveParallelism phase (parallelism (checkpoint w)) defaults in
  (ingestPending benchmark (checkpoint w) ids ≠ [] →
   (resolved Ingest (defaultParallelism provider) ≤ 0)%Z →
   runIngestPhase shouldStop now toISOString completion provider benchmark ids w
   = (Executed (Threw concurrencyError) [], w))
  ∧ (indexingPending (checkpoint w) ids ≠ [] →
     (resolved Indexing (defaultParallelism provider) ≤ 0)%Z →
     runIndexingPhase shouldStop now toISOString completion provider ids w
     = (Executed (Threw concurrencyError) [], w))
  ∧ (searchPending benchmark (checkpoint w) ids ≠ [] →
     (resolved Search (defaultParallelism provider) ≤ 0)%Z →
     runSearchPhase shouldStop now toISOString getResultsDir join completion
                    provider benchmark ids w
     = (Executed (Threw concurrencyError) [],
        if existsSync w (getResultsDir (runId (checkpoint w))) then w
        else mkdirSync w (getResultsDir (runId (checkpoint w)))))
  ∧ (answerPending benchmark w ids ≠ [] →
     (resolved Answer (answerer ≫= defaultParallelism) ≤ 0)%Z →
     runAnswerPhase shouldStop now toISOString getModelConfig
                    DEFAULT_ANSWERING_MODEL generateText buildDefaultAnswerPrompt
                    buildContextString trim completion benchmark ids answerer w
     = (Executed (Threw concurrencyError) [], w))
  ∧ (evaluatePending benchmark (checkpoint w) ids ≠ [] →
     (resolved Evaluate (answerer ≫= defaultParallelism) ≤ 0)%Z →
     runEvaluatePhase shouldStop now toISOString calculateRetrievalMetrics
                      judgeRejectsFirst completion judge benchmark ids answerer w
     = (Executed (Threw concurrencyError) [], w)).
Proof.
  intros resolved. subst resolved. split_and!; intros Hne Hc.
  - unfold runIngestPhase.
    rewrite bool_decide_eq_false_2 by by rewrite length_zero_iff_nil.
    unfold executed. by rewrite executeBatched_config_error.
  - unfold runIndexingPhase, executeParallel.
    rewrite bool_decide_eq_false_2 by by rewrite length_zero_iff_nil.
    unfold executed. by rewrite executeBatched_config_error.
  - unfold runSearchPhase, executeParallel.
    rewrite bool_decide_eq_false_2 by by rewrite length_zero_iff_nil.
    unfold executed. rewrite executeBatched_config_error; [done|done|].
    by destruct (existsSync _ _).
  - unfold runAnswerPhase, executeParallel.
    rewrite bool_decide_eq_false_2 by by rewrite length_zero_iff_nil.
    unfold executed. by rewrite executeBatched_config_error.
  - unfold runEvaluatePhase, executeParallel.
    rewrite bool_decide_eq_false_2 by by rewrite length_zero_iff_nil.
    unfold executed. by rewrite executeBatched_config_error.
Qed.

(** X15.  Only the ingest phase is rate limited: its runner sleeps
    [RATE_LIMIT_MS] = 1000 ms between batches and at most once less than
    there are batches; the indexing, search, answer and evaluate runners
    never sleep. *)
Theorem only_ingest_sleeps provider (judge : Judge) benchmark ids
    (answerer : option Provider) w :
  (∃ k, waits (traceOf
                 (runIngestPhase shouldStop now toISOString completion provider
                                 benchmark ids w).1)
        = replicate k 1000%Z
      ∧ k ≤ ceilDiv (length (ingestPending benchmark (checkpoint w) ids))
                    (Z.to_nat (Parallelism.resolveParallelism Ingest
                                 (parallelism (checkpoint w))
                                 (defaultParallelism provider))) - 1)
  ∧ waits (traceOf
             (runIndexingPhase shouldStop now toISOString completion provider
                               ids w).1) = []
  ∧ waits (traceOf
             (runSearchPhase shouldStop now toISOString getResultsDir join
                             completion provider benchmark ids w).1) = []
  ∧ waits (traceOf
             (runAnswerPhase shouldStop now toISOString getModelConfig
                             DEFAULT_ANSWERING_MODEL generateText
                             buildDefaultAnswerPrompt buildContextString trim
                             completion benchmark ids answerer w).1) = []
  ∧ waits (traceOf
             (runEvaluatePhase shouldStop now toISOString
                               calculateRetrievalMetrics judgeRejectsFirst
                               completion judge benchmark ids answerer w).1) = [].
Proof.
  assert (Hpar : ∀ T (l : list T) n run phase
                   (exec : @Task T TaskReport World) w0,
            waits (executeParallel (stopRequested shouldStop) completion
                                   l n run phase exec w0).2 = []).
  { intros T l n run phase exec w0. unfold executeParallel.
    destruct (executeBatched_waits (stopRequested shouldStop) completion
                (mkOptions l n 0%Z run phase exec) w0)
      as (k & -> & _ & Hzero & _).
    by rewrite Hzero. }
  split_and!.
  - unfold runIngestPhase. case_bool_decide as Hlen.
    + exists 0. split; [done|lia].
    + destruct (executeBatched_waits (stopRequested shouldStop) completion
                  (mkOptions (ingestPending benchmark (checkpoint w) ids)
                     (Parallelism.resolveParallelism Ingest
                        (parallelism (checkpoint w)) (defaultParallelism provider))
                     RATE_LIMIT_MS (runId (checkpoint w)) "ingest"
                     (ingestTask now toISOString provider benchmark)) w)
        as (k & Hk & Hle & _).
      exists k. split; [exact Hk|exact Hle].
  - unfold runIndexingPhase. case_bool_decide; [done|]. apply Hpar.
  - unfold runSearchPhase. case_bool_decide; [done|]. apply Hpar.
  - unfold runAnswerPhase. case_bool_decide; [done|]. apply Hpar.
  - unfold runEvaluatePhase. case_bool_decide; [done|]. apply Hpar.
Qed.

(** *** The calls a task makes *)

Lemma calls_recordFailure what phase questionId e w r w' :
  recordFailure what phase questionId e w = (r, w') → calls w' = calls w.
Proof. unfold recordFailure. by intros [= _ <-]. Qed.

(** X16.  The indexing task calls the provider only when there is
    something to wait for.  When the question's ingest state holds no
    ingest result, or one without document ids and without task ids, the
    task returns a duration of 0 without any call and leaves the outside
    as it is, recording [completed] when the question has an entry.
    Otherwise it makes exactly one call, [awaitIndexing] with the stored
    ingest result and the container tag kept in the checkpoint object,
    whether that call returns or is rejected. *)
Theorem indexingTask_awaits_only_when_needed provider context w :
  let question := item context in
  let run := indexingTask now toISOString provider context w in
  (nothingToIndex (ingestResultOf (phases question Ingest)) = true →
   run.1 = inl (mkReport (questionId question) 0 None)
   ∧ calls run.2 = calls w
   ∧ backend run.2 = backend w
   ∧ (questionId question ∈ entries w →
      getPhaseStatus (checkpoint run.2) (questionId question) Indexing = completed
      ∧ phaseOf (checkpoint run.2) (questionId question) Indexing
          ≫= (.!! "durationMs") = Some (Num 0)))
  ∧ (∀ ingestResult,
       ingestResultOf (phases question Ingest) = Some ingestResult →
       nothingToIndex (Some ingestResult) = false →
       calls run.2
       = calls w ++ [AwaitIndexingCall ingestResult (containerTag question)]).
Proof.
  intros question run. subst run question. split.
  - intros Hnothing. unfold indexingTask.
    destruct (ingestResultOf _) as [res|]; [rewrite Hnothing|]; simpl;
      (split_and!; try done; intros Hq; split;
       [apply getPhaseStatus_updatePhase; [done|by rewrite lookup_insert_eq]
       |apply lookup_updatePhase; [done|by simplify_map_eq]]).
  - intros ingestResult Hres Hsome. unfold indexingTask.
    rewrite Hres, Hsome.
    destruct (awaitIndexed _ _ _ _ _ _ _) as [[report|e] w1] eqn:Htry;
      unfold awaitIndexed, await in Htry; simpl in Htry;
      destruct (awaitIndexing provider _ _ _) as [[u|e'] b]; simplify_eq; done.
Qed.

Lemma questionDate_updatePhase w questionId phase updates :
  questions (checkpoint (updatePhase w questionId phase updates)) !! questionId
    ≫= questionDate
  = questions (checkpoint w) !! questionId ≫= questionDate.
Proof.
  unfold updatePhase, save, mergePhase. simpl. rewrite lookup_alter_eq.
  by destruct (questions (checkpoint w) !! questionId).
Qed.

(** The call the answer task makes, given what the question's entry and
    the result file hold. *)
Lemma answerTask_call modelConfig (answerer : option Provider) context w entry
    resultFile data :
  questions (checkpoint w) !! Benchmark.questionId (item context) = Some entry →
  stringOf "resultFile" (phases entry Search) = Some resultFile →
  files w !! resultFile = Some data →
  calls (answerTask now toISOString generateText buildDefaultAnswerPrompt
                    buildContextString trim modelConfig answerer context w).2
  = calls w
    ++ [GenerateTextCall
          (mkGenerateParams (modelProvider modelConfig, modelId modelConfig)
             (buildAnswerPrompt buildDefaultAnswerPrompt buildContextString
                (Benchmark.question (item context))
                (default [] (rdResults data)) (questionDate entry) answerer)
             (defaultMaxTokens modelConfig)
             (if supportsTemperature modelConfig
              then Some (defaultTemperature modelConfig) else None))].
Proof.
  intros Hentry Hfile Hdata. unfold answerTask. rewrite Hentry, Hfile.
  unfold answerQuestion, readResultFile. cbn [files updatePhase save].
  rewrite Hdata, questionDate_updatePhase, Hentry.
  cbn [mbind option_bind].
  unfold await. cbn [backend calls checkpoint durable files directories
                     updatePhase save].
  destruct (generateText _ _) as [[text|e] b]; done.
Qed.

(** X17.  The answer prompt is built from the records the search task
    stored.  After a search task has returned for a question, the answer
    task for that question, run in the world the search task left, makes
    exactly one call to the model, whether that call returns or is
    rejected: its prompt is [buildAnswerPrompt] of the question text, the
    records now under [results] in the checkpoint (read back from the
    result file) and the question date of the checkpoint; [maxTokens] is
    the default of the model, and a temperature is passed only for a
    model that supports one. *)
Theorem answer_prompt_uses_search_results provider resultsDir modelConfig
    (answerer : option Provider) context w report w1 :
  searchTask now toISOString join provider resultsDir context w = (inl report, w1) →
  Benchmark.questionId (item context) ∈ entries w →
  ∃ results,
    phaseOf (checkpoint w1) (Benchmark.questionId (item context)) Search
      ≫= resultsOf = Some results
    ∧ ∀ context',
        item context' = item context →
        calls (answerTask now toISOString generateText buildDefaultAnswerPrompt
                          buildContextString trim modelConfig answerer context'
                          w1).2
        = calls w1
          ++ [GenerateTextCall
                (mkGenerateParams (modelProvider modelConfig, modelId modelConfig)
                   (buildAnswerPrompt buildDefaultAnswerPrompt buildContextString
                      (Benchmark.question (item context)) results
                      (questions (checkpoint w1)
                         !! Benchmark.questionId (item context) ≫= questionDate)
                      answerer)
                   (defaultMaxTokens modelConfig)
                   (if supportsTemperature modelConfig
                    then Some (defaultTemperature modelConfig) else None))].
Proof.
  intros Hrun Hq.
  apply searchTask_success in Hrun
    as (_ & _ & Hfile & results & data & Hres & Hdata & Hrd & _); [|done].
  exists results. split; [done|]. intros context' Hitem.
  unfold phaseOf in Hfile.
  destruct (questions (checkpoint w1) !! _) as [entry|] eqn:Hentry; [|done].
  simpl in Hfile.
  rewrite (answerTask_call modelConfig answerer context' w1 entry
             (join resultsDir (Benchmark.questionId (item context) +:+ ".json"))
             data);
    rewrite ?Hitem; try done.
  by rewrite Hrd.
Qed.

(** X18.  The evaluate task starts both collaborators before it waits
    for either: once it has found the question's entry it makes exactly
    two calls, the judge with the question, its type, the ground truth,
    the stored hypothesis and the provider's prompts, then the retrieval
    metrics with the question, the ground truth and the search records of
    the checkpoint (none when there are none), whether the calls return
    or are rejected.  Without an entry it throws before any call. *)
Theorem evaluateTask_calls (judge : Judge) (answerer : option Provider) context w :
  let question := item context in
  let run :=
    evaluateTask now toISOString calculateRetrievalMetrics judgeRejectsFirst
                 judge answerer context w in
  match questions (checkpoint w) !! Benchmark.questionId question with
  | Some entry =>
      calls run.2
      = calls w
        ++ [JudgeCall
              (mkJudgeInput (Benchmark.question question)
                 (Benchmark.questionType question)
                 (Benchmark.groundTruth question)
                 (stringOf "hypothesis" (phases entry Answer))
                 (answerer ≫= prompts));
            RetrievalMetricsCall (Benchmark.question question)
              (Benchmark.groundTruth question)
              (default [] (resultsOf (phases entry Search)))]
  | None => run = (inr typeError, w)
  end.
Proof.
  intros question run. subst run question. unfold evaluateTask.
  destruct (questions (checkpoint w) !! _) as [entry|] eqn:Hentry; [|done].
  unfold evaluateQuestion, judgeAndMeasure, await.
  cbn [backend calls checkpoint durable files directories updatePhase save].
  rewrite phaseOf_mergePhase_other by by right.
  unfold phaseOf. rewrite Hentry.
  cbn [fmap option_fmap option_map mbind option_bind].
  destruct (evaluate judge _ _) as [[result|e1] b1];
    destruct (calculateRetrievalMetrics _ _ _ _ _) as [[metrics|e2] b2];
    cbn [calls snd fst updatePhase save recordFailure];
    by rewrite <- app_assoc.
Qed.

(** *** Dollar signs in the question text *)

Import JsChars JsStringMore.

Lemma chained_replace_noBrace s rep1 rep2 :
  noBrace s = true →
  JsString.replace "{{context}}" rep2
    (JsString.replace "{{questionDate}}" rep1 s) = s.
Proof.
  intros Hs. rewrite (replace_noBrace _ rep1 s) by done.
  by rewrite replace_noBrace.
Qed.

(** X19.  The question text is used as the replacement argument of
    [String.prototype.replace], so the dollar patterns of that built-in
    are expanded in it.  For a template with the one placeholder
    [{{question}}] and no other brace, and question texts made of two
    parts without dollar sign or brace around one pattern: [$$] comes out
    as a single dollar sign, [$&] as the placeholder [{{question}}]
    itself, a dollar and a backquote as the part of the template before
    the placeholder, a dollar and a quote as the part after it.  Only a
    question without such a pattern is inserted as it is. *)
Theorem question_text_is_a_replacement_pattern provider pre post a b context
    questionDate :
  prompts provider ≫= answerPrompt
    = Some (TemplatePrompt (pre +:+ "{{question}}" +:+ post)) →
  noBrace pre = true → noBrace post = true →
  noBrace a = true → noBrace b = true →
  JsString.plain a = true → JsString.plain b = true →
  let prompt question :=
    buildAnswerPrompt buildDefaultAnswerPrompt buildContextString question
                      context questionDate (Some provider) in
  prompt (a +:+ b) = pre +:+ a +:+ b +:+ post
  ∧ prompt (a +:+ "$$" +:+ b) = pre +:+ a +:+ "$" +:+ b +:+ post
  ∧ prompt (a +:+ "$&" +:+ b) = pre +:+ a +:+ "{{question}}" +:+ b +:+ post
  ∧ prompt (a +:+ "$`" +:+ b) = pre +:+ a +:+ pre +:+ b +:+ post
  ∧ prompt (a +:+ "$'" +:+ b) = pre +:+ a +:+ post +:+ b +:+ post.
Proof.
  intros Hp Hpre Hpost Ha Hb Hpa Hpb prompt.
  assert (Hne : pre +:+ "{{question}}" +:+ post ≠ "").
  { intros Heq. apply (f_equal String.length) in Heq.
    rewrite !JsStringFacts.length_app in Heq. simpl in Heq. lia. }
  assert (Hprompt : ∀ question,
    prompt question
    = JsString.replace "{{context}}" (buildContextString context)
        (JsString.replace "{{questionDate}}" (dateOrNotSpecified questionDate)
           (pre +:+ JsString.GetSubstitution "{{question}}" pre post question
                +:+ post))).
  { intros question. unfold prompt, buildAnswerPrompt.
    rewrite (customAnswerPrompt_template _ _ Hp Hne).
    by rewrite replace_single. }
  assert (Hsub : ∀ mid,
    JsString.GetSubstitution "{{question}}" pre post (a +:+ mid +:+ b)
    = a +:+ JsString.GetSubstitution "{{question}}" pre post (mid +:+ b)).
  { intros mid. by apply GetSubstitution_app_plain. }
  assert (Hb' : JsString.GetSubstitution "{{question}}" pre post b = b)
    by by apply JsStringFacts.GetSubstitution_plain.
  destruct (GetSubstitution_patterns "{{question}}" pre post b)
    as (Hdd & Hda & Hdb & Hdq).
  split_and!; rewrite Hprompt.
  - rewrite GetSubstitution_app_plain, Hb' by done.
    rewrite chained_replace_noBrace.
    + by rewrite !JsStringFacts.app_assoc.
    + rewrite !noBrace_app, Hpre, Hpost, Ha, Hb. done.
  - rewrite Hsub, Hdd, Hb'.
    rewrite chained_replace_noBrace.
    + by rewrite !JsStringFacts.app_assoc.
    + rewrite !noBrace_app, noBrace_dollar, Hpre, Hpost, Ha, Hb. done.
  - rewrite Hsub, Hda, Hb'.
    replace (pre +:+ (a +:+ "{{question}}" +:+ b) +:+ post)
      with ((pre +:+ a) +:+ "{{question}}" +:+ (b +:+ post))
      by by rewrite !JsStringFacts.app_assoc.
    rewrite (JsStringFacts.replace_absent "{{questionDate}}").
    2:{ apply apart_absent; [apply JsStringFacts.question_apart_questionDate| |];
          by rewrite noBrace_app, ?Hpre, ?Hpost, ?Ha, ?Hb. }
    rewrite (JsStringFacts.replace_absent "{{context}}").
    2:{ apply apart_absent; [apply JsStringFacts.question_apart_context| |];
          by rewrite noBrace_app, ?Hpre, ?Hpost, ?Ha, ?Hb. }
    by rewrite !JsStringFacts.app_assoc.
  - rewrite Hsub, Hdb, Hb'.
    rewrite chained_replace_noBrace.
    + by rewrite !JsStringFacts.app_assoc.
    + rewrite !noBrace_app, Hpre, Hpost, Ha, Hb. done.
  - rewrite Hsub, Hdq, Hb'.
    rewrite chained_replace_noBrace.
    + by rewrite !JsStringFacts.app_assoc.
    + rewrite !noBrace_app, Hpre, Hpost, Ha, Hb. done.
Qed.

(** *** A run of a phase that returns *)

Import ParallelExecutorMore.

Lemma filter_nil_intro {A} (P : A → Prop) `{!∀ x, Decision (P x)} (l : list A) :
  (∀ x, x ∈ l → ¬ P x) → filter P l = [].
Proof.
  intros Hno. destruct (filter P l) as [|x rest] eqn:Hf; [done|].
  assert (Hx : x ∈ filter P l) by (rewrite Hf; left).
  apply list_elem_of_filter in Hx as [HP Hx]. by destruct (Hno x Hx).
Qed.

(** What the executor leaves when it returns, for tasks that touch only
    [phase] of the question [key] of their item and that record
    [completed] there when they return: the entries of the checkpoint
    and the other phases are as they were, what was completed is
    completed, and so is every item.  [J] is a further invariant of the
    returning tasks. *)
Lemma run_established {T} (key : T → string) phase
    (o : @ParallelExecutionOptions T TaskReport World) (J : World → Prop)
    w rs w' evs :
  (∀ context w0 r w1, executeTask o context w0 = (r, w1) →
                      touchesOnly (key (item context)) phase w0 w1) →
  (∀ context w0 r w1, item context ∈ items o → entries w0 = entries w →
                      executeTask o context w0 = (inl r, w1) →
                      getPhaseStatus (checkpoint w1) (key (item context)) phase
                      = completed) →
  (∀ context w0 r w1, J w0 → executeTask o context w0 = (inl r, w1) → J w1) →
  J w →
  executeBatched (stopRequested shouldStop) completion o w
  = (Returned rs, w', evs) →
  J w'
  ∧ entries w' = entries w
  ∧ (∀ q phase', phase' ≠ phase →
       phaseOf (checkpoint w') q phase' = phaseOf (checkpoint w) q phase')
  ∧ (∀ q, getPhaseStatus (checkpoint w) q phase = completed →
          getPhaseStatus (checkpoint w') q phase = completed)
  ∧ (∀ x, x ∈ items o →
          getPhaseStatus (checkpoint w') (key x) phase = completed).
Proof.
  intros Htouch Hsucc HJ HJw Hrun.
  destruct (executeBatched_established (stopRequested shouldStop) completion o
              (λ w0, J w0
                     ∧ entries w0 = entries w
                     ∧ (∀ q phase', phase' ≠ phase →
                          phaseOf (checkpoint w0) q phase'
                          = phaseOf (checkpoint w) q phase')
                     ∧ (∀ q, getPhaseStatus (checkpoint w) q phase = completed →
                             getPhaseStatus (checkpoint w0) q phase = completed))
              (λ x w0, getPhaseStatus (checkpoint w0) (key x) phase = completed)
              w rs w' evs) as (HI & Hdone & _).
  - intros context w0 r w1 Hc (HJ0 & Hent & Hframe & Hkeep) Hexec.
    pose proof (Htouch _ _ _ _ Hexec) as Ht. split_and!.
    + by eapply HJ.
    + rewrite <- Hent. by eapply entries_touchesOnly.
    + intros q phase' Hne. rewrite <- Hframe by done.
      eapply phaseOf_touchesOnly; [done|by right].
    + intros q Hq. destruct (decide (q = key (item context))) as [->|Hne].
      * by eapply Hsucc.
      * erewrite getPhaseStatus_touchesOnly; [by apply Hkeep|done|by left].
  - intros context w0 r w1 Hc (HJ0 & Hent & Hframe & Hkeep) Hexec. split.
    + by eapply Hsucc.
    + intros x Hx. destruct (decide (key x = key (item context))) as [Heq|Hne].
      * rewrite Heq. by eapply Hsucc.
      * erewrite getPhaseStatus_touchesOnly; [done|by eapply Htouch|by left].
  - done.
  - done.
  - destruct HI as (? & ? & ? & ?). done.
Qed.

Lemma getPhaseStatus_frame w w' q phase :
  phaseOf (checkpoint w') q phase = phaseOf (checkpoint w) q phase →
  getPhaseStatus (checkpoint w') q phase = getPhaseStatus (checkpoint w) q phase.
Proof. unfold getPhaseStatus. by intros ->. Qed.

Lemma completed_entry w q phase :
  getPhaseStatus (checkpoint w) q phase = completed → q ∈ entries w.
Proof.
  intros Hs. destruct (decide (q ∈ entries w)) as [|Hq]; [done|].
  by rewrite getPhaseStatus_no_entry in Hs.
Qed.

(** The answer task writes no file and creates no directory. *)
Lemma answerTask_files modelConfig (provider : option Provider) context w r w' :
  answerTask now toISOString generateText buildDefaultAnswerPrompt
             buildContextString trim modelConfig provider context w = (r, w') →
  files w' = files w ∧ directories w' = directories w.
Proof.
  unfold answerTask. intros Hrun.
  destruct (questions _ !! _) as [q|]; [|by simplify_eq].
  destruct (answerQuestion _ _ _ _ _ _ _ _ _ _ _ _) as [[report|e] w1] eqn:Htry.
  all: assert (files w1 = files w ∧ directories w1 = directories w) as [Hf Hd].
  1,3: unfold answerQuestion in Htry;
       destruct (readResultFile _ _) as [data|e'];
       [|by simplify_eq];
       unfold await in Htry; destruct (generateText _ _) as [[text|e''] b];
       by simplify_eq.
  - by simplify_eq.
  - unfold recordFailure in Hrun. by simplify_eq.
Qed.

Lemma runIngestPhase_returned provider benchmark ids w reports trace w' :
  runIngestPhase shouldStop now toISOString completion provider benchmark ids w
  = (Executed (Returned reports) trace, w') →
  ingestPending benchmark (checkpoint w') ids = [].
Proof.
  unfold runIngestPhase. case_bool_decide as Hlen; [done|].
  unfold executed. intros Hrun.
  destruct (executeBatched _ _ _ _) as [[out w1] evs] eqn:Hexec.
  simpl in Hrun. simplify_eq.
  eapply (run_established Benchmark.questionId Ingest _
            (λ _, True)) in Hexec
    as (_ & _ & _ & Hkeep & Hdone).
  - apply filter_nil_intro. intros q Hq Hpend.
    destruct (decide (getPhaseStatus (checkpoint w) (Benchmark.questionId q)
                                     Ingest = completed)) as [Hc|Hc].
    + by apply Hkeep in Hc.
    + apply Hpend, Hdone. simpl. unfold ingestPending.
      by apply list_elem_of_filter.
  - intros context w0 r w1. apply ingestTask_touchesOnly.
  - intros context w0 r w1 _ _ Hexec'. simpl in Hexec'.
    by apply ingestTask_success in Hexec' as (_ & ? & _).
  - done.
  - done.
Qed.

Lemma runSearchPhase_returned provider benchmark ids w reports trace w' :
  runSearchPhase shouldStop now toISOString getResultsDir join completion
                 provider benchmark ids w
  = (Executed (Returned reports) trace, w') →
  searchPending benchmark (checkpoint w') ids = [].
Proof.
  unfold runSearchPhase, executeParallel. case_bool_decide as Hlen; [done|].
  unfold executed. intros Hrun.
  set (w0 := if existsSync w _ then w else mkdirSync w _) in *.
  assert (Hw0 : checkpoint w0 = checkpoint w).
  { unfold w0. by destruct (existsSync _ _). }
  destruct (executeBatched _ _ _ _) as [[out w1] evs] eqn:Hexec.
  simpl in Hrun. simplify_eq.
  eapply (run_established Benchmark.questionId Search _
            (λ _, True)) in Hexec
    as (_ & _ & Hframe & Hkeep & Hdone).
  - rewrite Hw0 in Hframe, Hkeep. apply filter_nil_intro. intros q Hq [Hpend Hix].
    rewrite (getPhaseStatus_frame w) in Hix by by apply Hframe.
    destruct (decide (getPhaseStatus (checkpoint w) (Benchmark.questionId q)
                                     Search = completed)) as [Hc|Hc].
    + by apply Hkeep in Hc.
    + apply Hpend, Hdone. simpl. unfold searchPending.
      by apply list_elem_of_filter.
  - intros context w1 r w2. apply searchTask_touchesOnly.
  - intros context w1 r w2 Hc Hent Hexec'. simpl in Hc, Hexec'.
    eapply searchTask_success in Hexec' as [Hs _]; [done|].
    rewrite Hent. unfold entries. rewrite Hw0. fold (entries w).
    apply list_elem_of_filter in Hc as [[_ Hix] _].
    by eapply completed_entry.
  - done.
  - done.
Qed.

Lemma runAnswerPhase_returned benchmark ids (provider : option Provider) w
    reports trace w' :
  runAnswerPhase shouldStop now toISOString getModelConfig
                 DEFAULT_ANSWERING_MODEL generateText buildDefaultAnswerPrompt
                 buildContextString trim completion benchmark ids provider w
  = (Executed (Returned reports) trace, w') →
  answerPending benchmark w' ids = [].
Proof.
  unfold runAnswerPhase, executeParallel. case_bool_decide as Hlen; [done|].
  unfold executed. intros Hrun.
  destruct (executeBatched _ _ _ _) as [[out w1] evs] eqn:Hexec.
  simpl in Hrun. simplify_eq.
  eapply (run_established Benchmark.questionId Answer _
            (λ w0, files w0 = files w ∧ directories w0 = directories w)) in Hexec
    as ([Hfiles Hdirs] & _ & Hframe & Hkeep & Hdone).
  - apply filter_nil_intro. intros q Hq (Hpend & Hs & Hfile & Hex).
    rewrite (getPhaseStatus_frame w) in Hs by by apply Hframe.
    rewrite Hframe in Hfile, Hex by done.
    assert (Hex' : existsSync w
                     (default "" (phaseOf (checkpoint w) (Benchmark.questionId q)
                                          Search ≫= stringOf "resultFile"))
                   = true).
    { unfold existsSync in Hex |- *. by rewrite Hfiles, Hdirs in Hex. }
    destruct (decide (getPhaseStatus (checkpoint w) (Benchmark.questionId q)
                                     Answer = completed)) as [Hc|Hc].
    + by apply Hkeep in Hc.
    + apply Hpend, Hdone. simpl. unfold answerPending.
      by apply list_elem_of_filter.
  - intros context w0 r w1. apply answerTask_touchesOnly.
  - intros context w0 r w1 _ _ Hexec'. simpl in Hexec'.
    by apply answerTask_success in Hexec' as (_ & ? & _).
  - intros context w0 r w1 [Hf Hd] Hexec'. simpl in Hexec'.
    apply answerTask_files in Hexec' as [-> ->]. done.
  - done.
Qed.

Lemma runEvaluatePhase_returned (judge : Judge) benchmark ids
    (provider : option Provider) w reports trace w' :
  runEvaluatePhase shouldStop now toISOString calculateRetrievalMetrics
                   judgeRejectsFirst completion judge benchmark ids provider w
  = (Executed (Returned reports) trace, w') →
  evaluatePending benchmark (checkpoint w') ids = [].
Proof.
  unfold runEvaluatePhase, executeParallel. case_bool_decide as Hlen; [done|].
  unfold executed. intros Hrun.
  destruct (executeBatched _ _ _ _) as [[out w1] evs] eqn:Hexec.
  simpl in Hrun. simplify_eq.
  eapply (run_established Benchmark.questionId Evaluate _
            (λ _, True)) in Hexec
    as (_ & _ & Hframe & Hkeep & Hdone).
  - apply filter_nil_intro. intros q Hq (Hpend & Hs & Hhyp).
    rewrite (getPhaseStatus_frame w) in Hs by by apply Hframe.
    rewrite Hframe in Hhyp by done.
    destruct (decide (getPhaseStatus (checkpoint w) (Benchmark.questionId q)
                                     Evaluate = completed)) as [Hc|Hc].
    + by apply Hkeep in Hc.
    + apply Hpend, Hdone. simpl. unfold evaluatePending.
      by apply list_elem_of_filter.
  - intros context w0 r w1. apply evaluateTask_touchesOnly.
  - intros context w0 r w1 _ _ Hexec'. simpl in Hexec'.
    by apply evaluateTask_success in Hexec' as (_ & ? & _).
  - done.
  - done.
Qed.

Lemma keyedById_touchesOnly questionId phase w w' :
  touchesOnly questionId phase w w' →
  keyedById (checkpoint w) → keyedById (checkpoint w').
Proof.
  intros (_ & _ & _ & _ & Hother & Hown & _) Hk key q Hq.
  destruct (decide (key = questionId)) as [->|Hne].
  - rewrite Hq in Hown. inversion Hown as [q0 q2 (Hid & _) Hq0|]; subst.
    rewrite Hid. apply Hk. by symmetry.
  - apply Hk. by rewrite <- Hother.
Qed.

Lemma elem_of_targetCheckpoints (q : QuestionCheckpoint) allQuestions ids :
  q ∈ targetCheckpoints allQuestions ids ↔
  q ∈ allQuestions ∧ ∀ selected, ids = Some selected → questionId q ∈ selected.
Proof.
  unfold targetCheckpoints. destruct ids as [selected|].
  - rewrite list_elem_of_filter. split.
    + intros [Hin Hq]. split; [done|]. by intros ? [= <-].
    + intros [Hq Hin]. split; [by apply Hin|done].
  - split; [|by intros [? _]]. intros Hq. split; [done|]. by intros ? [=].
Qed.

Lemma runIndexingPhase_returned provider ids w reports trace w' :
  keyedById (checkpoint w) →
  runIndexingPhase shouldStop now toISOString completion provider ids w
  = (Executed (Returned reports) trace, w') →
  indexingPending (checkpoint w') ids = [].
Proof.
  intros Hkeyed. unfold runIndexingPhase, executeParallel.
  case_bool_decide as Hlen; [done|].
  unfold executed. intros Hrun.
  destruct (executeBatched _ _ _ _) as [[out w1] evs] eqn:Hexec.
  simpl in Hrun. simplify_eq.
  eapply (run_established questionId Indexing _
            (λ w0, keyedById (checkpoint w0))) in Hexec
    as (Hkeyed' & _ & Hframe & Hkeep & Hdone).
  - apply filter_nil_intro. intros q' Hq' [Hing Hpend].
    apply elem_of_targetCheckpoints in Hq' as [Hq' Hsel].
    apply elem_of_checkpointQuestions in Hq' as [key Hkey].
    pose proof (Hkeyed' _ _ Hkey) as Hid.
    pose proof (Hframe key Ingest ltac:(done)) as Hingest.
    unfold phaseOf in Hingest. rewrite Hkey in Hingest. simpl in Hingest.
    destruct (questions (checkpoint w) !! key) as [q|] eqn:Hq; [|done].
    simpl in Hingest. injection Hingest as Hingest.
    pose proof (Hkeyed _ _ Hq) as Hid0.
    assert (Hnow : getPhaseStatus (checkpoint w') key Indexing ≠ completed).
    { intros Hc. apply getPhaseStatus_lookup in Hc as (q2 & Hq2 & Hs); [|done].
      by simplify_eq. }
    destruct (decide (getPhaseStatus (checkpoint w) key Indexing = completed))
      as [Hc|Hc].
    + by apply Hkeep in Hc.
    + apply Hnow. rewrite <- Hid0. apply Hdone. simpl.
      unfold indexingPending. apply list_elem_of_filter. split.
      * split; [by rewrite <- Hingest|].
        intros Hs. apply Hc. apply getPhaseStatus_lookup; [done|]. by exists q.
      * apply elem_of_targetCheckpoints. split.
        -- apply elem_of_checkpointQuestions. by exists key.
        -- intros selected ->. rewrite Hid0, <- Hid. by apply Hsel.
  - intros context w0 r w1. apply indexingTask_touchesOnly.
  - intros context w0 r w1 Hc Hent Hexec'. simpl in Hc, Hexec'.
    eapply indexingTask_success in Hexec' as [Hs _]; [done|].
    rewrite Hent.
    apply list_elem_of_filter in Hc as [_ Hc].
    apply elem_of_targetCheckpoints in Hc as [Hc _].
    apply elem_of_checkpointQuestions in Hc as [key Hkey].
    rewrite (Hkeyed _ _ Hkey). apply elem_of_entries. by eexists.
  - intros context w0 r w1 Hk Hexec'. simpl in Hexec'.
    by eapply keyedById_touchesOnly; [eapply indexingTask_touchesOnly|].
  - done.
Qed.

(** X29.  A phase runner that returns has left nothing to do for its
    phase: computed again from the checkpoint and the files it leaves,
    with the same selection of question ids, the working set is empty.
    (The executor returns only when no task threw and no stop was
    requested; the tasks of a run touch only their own phase, so
    whatever made a question eligible is as the runner found it.)  The
    indexing runner iterates over the checkpoint objects and writes
    under the question id each of them carries: for that runner the
    premise is that every object is stored under its own id. *)
Theorem returned_run_leaves_nothing_pending provider (judge : Judge) benchmark
    ids (answerer : option Provider) w :
  (∀ reports trace w',
     runIngestPhase shouldStop now toISOString completion provider benchmark ids w
     = (Executed (Returned reports) trace, w') →
     ingestPending benchmark (checkpoint w') ids = [])
  ∧ (keyedById (checkpoint w) →
     ∀ reports trace w',
       runIndexingPhase shouldStop now toISOString completion provider ids w
       = (Executed (Returned reports) trace, w') →
       indexingPending (checkpoint w') ids = [])
  ∧ (∀ reports trace w',
       runSearchPhase shouldStop now toISOString getResultsDir join completion
                      provider benchmark ids w
       = (Executed (Returned reports) trace, w') →
       searchPending benchmark (checkpoint w') ids = [])
  ∧ (∀ reports trace w',
       runAnswerPhase shouldStop now toISOString getModelConfig
                      DEFAULT_ANSWERING_MODEL generateText
                      buildDefaultAnswerPrompt buildContextString trim completion
                      benchmark ids answerer w
       = (Executed (Returned reports) trace, w') →
       answerPending benchmark w' ids = [])
  ∧ (∀ reports trace w',
       runEvaluatePhase shouldStop now toISOString calculateRetrievalMetrics
                        judgeRejectsFirst completion judge benchmark ids answerer w
       = (Executed (Returned reports) trace, w') →
       evaluatePending benchmark (checkpoint w') ids = []).
Proof.
  split_and!; [|intros Hkeyed|..]; intros reports trace w'.
  - apply runIngestPhase_returned.
  - by apply runIndexingPhase_returned.
  - apply runSearchPhase_returned.
  - apply runAnswerPhase_returned.
  - apply runEvaluatePhase_returned.
Qed.

End Facts.
End PhasesFacts.
(** * Properties of the Graphiti provider *)

Module GraphitiFacts.
Import Phases Graphiti.

Section Facts.
Context {Net : Type}.
Variable fetch : Request → Net → (Response + Thrown) * Net.
Variable showStatus : Z → string.

Implicit Types (w : @World Net) (s : string).

#[local] Arguments String.append !_ _ : simpl nomatch.

(** *** Group ids *)

Lemma sanitize_allowed s : allAllowed (sanitize s) = true.
Proof.
  induction s as [|c s IH]; [done|]. simpl. rewrite IH, andb_true_r.
  destruct (allowed c) eqn:Hc; [done|]. reflexivity.
Qed.

Lemma sanitize_fixed s : allAllowed s = true → sanitize s = s.
Proof.
  induction s as [|c s IH]; [done|]. simpl. intros [Hc Hs]%andb_prop.
  by rewrite Hc, IH.
Qed.

Lemma sanitize_length s : String.length (sanitize s) = String.length s.
Proof. induction s as [|c s IH]; [done|]. simpl. by rewrite IH. Qed.

Lemma sanitize_app x y : sanitize (x +:+ y) = sanitize x +:+ sanitize y.
Proof. induction x as [|c x IH]; [done|]. simpl. by rewrite IH. Qed.

Lemma groupIdOf_nonempty containerTag : groupIdOf containerTag ≠ "".
Proof. done. Qed.

(** X20.  The group a container tag is stored under is [memorybench_]
    followed by the tag with every code unit outside [[a-zA-Z0-9_-]]
    replaced by an underscore: it has the length of the tag plus 12,
    consists of allowed code units only, is the tag itself after the
    prefix when the tag has no other code unit, and sanitizing twice
    changes nothing.  The mapping is not injective: two tags that differ
    in one place, by two code units outside the class, share a group. *)
Theorem groupIdOf_sanitized containerTag :
  groupIdOf containerTag = "memorybench_" +:+ sanitize containerTag
  ∧ String.length (groupIdOf containerTag) = 12 + String.length containerTag
  ∧ allAllowed (groupIdOf containerTag) = true
  ∧ (allAllowed containerTag = true →
     groupIdOf containerTag = "memorybench_" +:+ containerTag)
  ∧ sanitize (sanitize containerTag) = sanitize containerTag
  ∧ (∀ x y c1 c2,
       allowed c1 = false → allowed c2 = false →
       groupIdOf (x +:+ String c1 y) = groupIdOf (x +:+ String c2 y)).
Proof.
  split_and!.
  - done.
  - unfold groupIdOf. simpl. by rewrite sanitize_length.
  - unfold groupIdOf. simpl. apply sanitize_allowed.
  - intros Hall. unfold groupIdOf. by rewrite sanitize_fixed.
  - apply sanitize_fixed, sanitize_allowed.
  - intros x y c1 c2 H1 H2. unfold groupIdOf. f_equal.
    rewrite !sanitize_app. simpl. by rewrite H1, H2.
Qed.

(** *** The group map *)

Lemma send_frame request w r w' :
  send fetch request w = (r, w') →
  baseUrl w' = baseUrl w ∧ groupIds w' = groupIds w
  ∧ requests w' = requests w ++ [request].
Proof.
  unfold send. destruct (fetch request (net w)) as [r0 n]. by intros [= _ <-].
Qed.

(** The loop of [ingest] sends one [POST /messages] for the group per
    session, in order, until a rejection; the document ids it returns
    are those of the sessions answered with [ok]. *)
Lemma postSessions_spec groupId sessions :
  ∀ documentIds w r w',
    postSessions fetch groupId sessions documentIds w = (r, w') →
    baseUrl w' = baseUrl w ∧ groupIds w' = groupIds w
    ∧ ∃ attempted,
        attempted `prefix_of` sessions
        ∧ requests w'
          = requests w
            ++ ((λ session, mkRequest (baseUrl w +:+ "/messages") "POST"
                              (MessagesBody groupId session)) <$> attempted)
        ∧ ∀ documentIds',
            r = inl documentIds' →
            attempted = sessions
            ∧ ∃ accepted,
                accepted `sublist_of` sessions
                ∧ documentIds' = documentIds ++ (Benchmark.sessionId <$> accepted).
Proof.
  induction sessions as [|session rest IH]; intros documentIds w r w' Hrun;
    simpl in Hrun.
  - simplify_eq. split_and!; try done. exists []. simpl.
    rewrite app_nil_r. split_and!; try done.
    intros ? [= <-]. split; [done|]. exists []. by rewrite app_nil_r.
  - destruct (send fetch _ w) as [[resp|e] w1] eqn:Hsend;
      apply send_frame in Hsend as (Hb & Hg & Hr).
    2:{ simplify_eq. split_and!; try done. exists [session].
        split_and!; [apply prefix_cons, prefix_nil|done|done]. }
    assert (Hrest : ∀ documentIds0 r0 w0,
      postSessions fetch groupId rest documentIds0 w1 = (r0, w0) →
      (∃ keep, keep `sublist_of` [session]
               ∧ documentIds0 = documentIds ++ (Benchmark.sessionId <$> keep)) →
      baseUrl w0 = baseUrl w ∧ groupIds w0 = groupIds w
      ∧ ∃ attempted,
          attempted `prefix_of` session :: rest
          ∧ requests w0
            = requests w
              ++ ((λ session, mkRequest (baseUrl w +:+ "/messages") "POST"
                                (MessagesBody groupId session)) <$> attempted)
          ∧ ∀ documentIds',
              r0 = inl documentIds' →
              attempted = session :: rest
              ∧ ∃ accepted,
                  accepted `sublist_of` session :: rest
                  ∧ documentIds'
                    = documentIds ++ (Benchmark.sessionId <$> accepted)).
    { intros documentIds0 r0 w0 Hrun0 (keep & Hkeep & ->).
      destruct (IH _ _ _ _ Hrun0) as (Hb0 & Hg0 & attempted & Hpre & Hreq & Hret).
      split; [congruence|]. split; [congruence|].
      exists (session :: attempted). split_and!.
      - by apply prefix_cons.
      - rewrite Hreq, Hr, Hb. simpl. by rewrite <- app_assoc.
      - intros documentIds' ->. destruct (Hret _ eq_refl) as (-> & acc & Hacc & ->).
        split; [done|]. exists (keep ++ acc). split.
        + change (session :: rest) with ([session] ++ rest).
          by apply sublist_app.
        + by rewrite fmap_app, app_assoc. }
    destruct (ok resp).
    + apply (Hrest _ _ _ Hrun). exists [session]. done.
    + destruct (text resp) as [t|e].
      * apply (Hrest _ _ _ Hrun). exists []. split; [apply sublist_nil_l|].
        by rewrite app_nil_r.
      * simplify_eq. split_and!; try done. exists [session].
        split_and!; [apply prefix_cons, prefix_nil|by rewrite Hr|done].
Qed.

Lemma groupOf_lookup w containerTag :
  groupIds w !! containerTag = Some (groupIdOf containerTag) →
  groupOf w containerTag = Some (groupIdOf containerTag).
Proof. unfold groupOf. intros ->. done. Qed.

Lemma ingest_group sessions containerTag w r w' :
  ingest fetch sessions containerTag w = (r, w') →
  baseUrl w' = baseUrl w
  ∧ groupIds w' = <[containerTag := groupIdOf containerTag]> (groupIds w).
Proof.
  unfold ingest. intros Hrun.
  destruct (postSessions _ _ _ _ _) as [[documentIds|e] w1] eqn:Hloop;
    apply postSessions_spec in Hloop as (Hb & Hg & _); by simplify_eq.
Qed.

(** X21.  A search finds the group of a container tag only in the map
    the provider keeps in memory.  Without an entry for the tag, as in a
    process that has not ingested into it, [search] throws [No group
    found for container <tag>] and sends nothing.  After [ingest] for the
    tag, however it ended, the map sends the tag to its group, and a
    search for the tag sends exactly one request, a [POST] to [/search]
    for that group alone, with [max_facts] the limit, or 20 for a limit
    of 0.  [clear] removes the entry when its [DELETE] request is
    answered, with any status, and keeps it when the request is
    rejected. *)
Theorem search_needs_group_in_memory query options w :
  let containerTag := searchContainerTag options in
  (groupIds w !! containerTag = None →
   search fetch showStatus query options w
   = (inr (ThrownError (mkError ("No group found for container " +:+ containerTag))),
      w))
  ∧ (∀ sessions r w1,
       ingest fetch sessions containerTag w = (r, w1) →
       groupIds w1 !! containerTag = Some (groupIdOf containerTag)
       ∧ requests (search fetch showStatus query options w1).2
         = requests w1
           ++ [mkRequest (baseUrl w +:+ "/search") "POST"
                 (SearchBody query [groupIdOf containerTag]
                    (if bool_decide (limit options = 0%Z) then 20%Z
                     else limit options))])
  ∧ (∀ r w1,
       clear fetch containerTag w = (r, w1) →
       match r with
       | inl _ =>
           search fetch showStatus query options w1
           = (inr (ThrownError
                     (mkError ("No group found for container " +:+ containerTag))),
              w1)
       | inr _ => groupIds w1 = groupIds w
       end).
Proof.
  intros containerTag. subst containerTag. split_and!.
  - intros Hnone. unfold search, groupOf. by rewrite Hnone.
  - intros sessions r w1 Hrun.
    apply ingest_group in Hrun as (Hb & Hg).
    assert (Hl : groupIds w1 !! searchContainerTag options
                 = Some (groupIdOf (searchContainerTag options))).
    { by rewrite Hg, lookup_insert_eq. }
    split; [done|]. unfold search. rewrite (groupOf_lookup _ _ Hl).
    destruct (send fetch _ w1) as [[resp|e] w2] eqn:Hsend;
      apply send_frame in Hsend as (_ & _ & Hr); rewrite <- Hb.
    + destruct (ok resp); [destruct (facts resp)|destruct (text resp)]; done.
    + done.
  - intros r w1 Hrun. unfold clear in Hrun.
    destruct (groupOf w _) as [groupId|] eqn:Hgroup.
    + destruct (send fetch _ w) as [[resp|e] w2] eqn:Hsend;
        apply send_frame in Hsend as (_ & Hg & _); simplify_eq; [|done].
      unfold search, groupOf. simpl. by rewrite lookup_delete_eq.
    + simplify_eq. unfold search. by rewrite Hgroup.
Qed.


(** *** The provider in the ingest phase *)

Variable awaitIndexing :
  IngestResult → string → @World Net → (unit + Thrown) * @World Net.
Variable buildGraphitiAnswerPrompt :
  string → list SearchRecord → option string → string.

Lemma ingest_refused session containerTag w :
  refusing fetch →
  ∃ w', ingest fetch [session] containerTag w
        = (inl (mkIngestResult [] (Some [groupIdOf containerTag])), w').
Proof.
  intros Hrefusing. unfold ingest. simpl. unfold send. simpl.
  destruct (Hrefusing
              (mkRequest (baseUrl w +:+ "/messages") "POST"
                 (MessagesBody (groupIdOf containerTag) session)) (net w))
    as (resp & n' & t & -> & Hok & Ht).
  rewrite Hok, Ht. by eexists.
Qed.

(** X23.  With the Graphiti provider, a session the server refuses is
    recorded as completed by the ingest phase.  When the server answers
    every request with a status that is not [ok], the session loop of the
    ingest task still runs to its end without an error: it gathers no
    document id, and yet every session of the haystack is in
    [completedSessions] afterwards, so a resumed run does not send any of
    them again. *)
Theorem refused_sessions_are_recorded_completed containerTag questionId sessions
    combined (w : @Phases.World (@World Net)) completedSessions :
  refusing fetch →
  phaseOf (checkpoint w) questionId Ingest ≫= completedSessionsOf
    = Some completedSessions →
  let graphiti := provider fetch showStatus awaitIndexing buildGraphitiAnswerPrompt in
  ∃ combined' (w' : @Phases.World (@World Net)),
     ingestSessions graphiti containerTag questionId sessions combined w
       = (inl combined', w')
     ∧ documentIds combined' = documentIds combined
     ∧ (∃ ingested,
          phaseOf (checkpoint w') questionId Ingest ≫= completedSessionsOf
            = Some (completedSessions ++ (Benchmark.sessionId <$> ingested))
          ∧ calls w'
            = calls w
              ++ ((λ session, IngestCall [session] containerTag) <$> ingested))
     ∧ ∀ session, session ∈ sessions →
            ∃ recorded,
              phaseOf (checkpoint w') questionId Ingest ≫= completedSessionsOf
                = Some recorded
              ∧ Benchmark.sessionId session ∈ recorded.
Proof.
  intros Hrefusing Hdone graphiti.
  destruct (PhasesFacts.ingestSessions_no_documents graphiti containerTag
              questionId sessions) with (combined := combined) (w := w)
              (completedSessions := completedSessions)
    as (combined' & w' & Hrun & Hdocs); [|done|].
  { intros session b. destruct (ingest_refused session containerTag b Hrefusing)
      as (b' & Hb). by eexists _, b'. }
  exists combined', w'. split; [done|]. split; [done|].
  destruct (PhasesFacts.ingestSessions_spec graphiti containerTag questionId
              sessions combined w completedSessions _ _ Hdone Hrun)
    as (ok & Hrec & -> & Hcalls).
  split; [by eexists|].
  intros session Hs. eexists. split; [exact Hrec|].
  apply elem_of_app. by apply SessionsFacts.sessionsToIngest_covers.
Qed.

End Facts.
End GraphitiFacts.
(** * Properties of the CTE provider *)

Module CteFacts.
Import Phases Cte.

Section Facts.
Context {Lib : Type}.
Variable cte_c_tag_new : string → Lib → Z * Lib.
Variable cte_c_tag_free : Z → Lib → Lib.
Variable cte_c_tag_put_blob : Z → string → string → Z → Lib → Z * Lib.
Variable cte_c_tag_get_blob_size : Z → string → Lib → Z * Lib.
Variable cte_c_tag_get_blob : Z → string → Z → Lib → (Z * string) * Lib.
Variable cte_c_tag_get_contained_blobs : Z → Lib → (Z * option string) * Lib.
Variable cte_c_free_string : Lib → Lib.
Variable stringify : Benchmark.UnifiedSession → string.
Variable parseNames : string → list string + Thrown.
Variable parseRecord : string → SearchRecord + Thrown.

Implicit Types (w : @World Lib) (tag : Z).

Lemma usesOnly_nil tag : usesOnly tag [].
Proof. by intros call ?%elem_of_nil. Qed.

Lemma usesOnly_cons tag call calls :
  (∀ p, handleOf call = Some p → p = tag) →
  (∀ name p, call ≠ CTagNew name p) →
  (∀ p, call ≠ CTagFree p) →
  usesOnly tag calls → usesOnly tag (call :: calls).
Proof.
  intros H1 H2 H3 Hrest call' [->|Hin]%elem_of_cons; [done|by apply Hrest].
Qed.

Lemma usesOnly_app tag calls1 calls2 :
  usesOnly tag calls1 → usesOnly tag calls2 → usesOnly tag (calls1 ++ calls2).
Proof. intros H1 H2 call [?|?]%elem_of_app; [by apply H1|by apply H2]. Qed.

(** The loop of [ingest] puts one blob per session, named after the
    session, until a put fails. *)
Lemma putSessions_spec tag sessions :
  ∀ documentIds w r w',
    putSessions cte_c_tag_put_blob stringify tag sessions documentIds w = (r, w') →
    initialized w' = initialized w
    ∧ ∃ calls,
        journal w' = journal w ++ calls
        ∧ usesOnly tag calls
        ∧ match r with
          | inl documentIds' =>
              documentIds' = documentIds ++ (Benchmark.sessionId <$> sessions)
              ∧ length calls = length sessions
          | inr e =>
              ∃ session,
                session ∈ sessions
                ∧ e = ThrownError
                        (mkError ("Failed to put blob: "
                                    +:+ Benchmark.sessionId session))
          end.
Proof.
  induction sessions as [|session rest IH]; intros documentIds w r w' Hrun;
    simpl in Hrun.
  - simplify_eq. split; [done|]. exists []. rewrite !app_nil_r.
    split_and!; try done. apply usesOnly_nil.
  - unfold cteTagPutBlob in Hrun.
    destruct (cte_c_tag_put_blob tag _ _ _ (lib w)) as [rc l] eqn:Hput.
    case_bool_decide as Hrc.
    + simplify_eq. split; [done|]. eexists [_]. split_and!; [done| |].
      * apply usesOnly_cons; [by intros ? [= <-]|done|done|apply usesOnly_nil].
      * exists session. split; [left|done].
    + apply IH in Hrun as (Hinit & calls & Hj & Huses & Hr).
      split; [done|]. eexists (_ :: calls). split_and!.
      * rewrite Hj. simpl. by rewrite <- app_assoc.
      * apply usesOnly_cons; [by intros ? [= <-]|done|done|done].
      * destruct r as [documentIds'|e].
        -- destruct Hr as [-> Hlen]. rewrite <- app_assoc. simpl.
           split; [done|]. by rewrite Hlen.
        -- destruct Hr as (s & Hs & ->). exists s. split; [by right|done].
Qed.

Lemma free_journal tag w :
  tag ≠ 0%Z →
  journal (free cte_c_tag_free tag w) = journal w ++ [CTagFree tag]
  ∧ initialized (free cte_c_tag_free tag w) = initialized w.
Proof. intros Hp. unfold free. by rewrite bool_decide_eq_false_2. Qed.

(** X26.  [ingest] of the CTE provider never leaks a tag handle and
    stores all sessions or fails.  On a provider that is not initialized
    it throws [Provider not initialized] without a call into the library.
    Otherwise it asks for one handle; when the library returns the null
    pointer it throws [Failed to create tag: <tag>] and makes no other
    call; when it returns a handle, every later call works on that
    handle, and the handle is released exactly once, as the last call,
    whether the puts succeed or one of them fails ([finally]).  When
    [ingest] returns, one blob was put per session and the document ids
    are the ids of all sessions, in order; when a put fails it throws
    [Failed to put blob: <session id>] for a session of the list. *)
Theorem ingest_releases_handle sessions containerTag w :
  let run :=
    ingest cte_c_tag_new cte_c_tag_free cte_c_tag_put_blob stringify
           sessions containerTag w in
  if initialized w then
    ∃ added,
      journal run.2 = journal w ++ added
      ∧ ((added = [CTagNew containerTag 0]
          ∧ run.1 = inr (ThrownError
                           (mkError ("Failed to create tag: " +:+ containerTag))))
         ∨ (bracketed containerTag added
            ∧ match run.1 with
              | inl result =>
                  documentIds result = Benchmark.sessionId <$> sessions
                  ∧ taskIds result = None
                  ∧ length added = length sessions + 2
              | inr e =>
                  ∃ session,
                    session ∈ sessions
                    ∧ e = ThrownError
                            (mkError ("Failed to put blob: "
                                        +:+ Benchmark.sessionId session))
              end))
  else run = (inr notInitialized, w).
Proof.
  intros run. subst run. unfold ingest.
  destruct (initialized w) eqn:Hinit; simpl; [|done].
  unfold cteTagNew.
  destruct (cte_c_tag_new containerTag (lib w)) as [p l] eqn:Hnew.
  case_bool_decide as Hp.
  - subst p. eexists. split; [done|]. by left.
  - destruct (putSessions _ _ _ _ _ _) as [r w1] eqn:Hloop.
    apply putSessions_spec in Hloop as (_ & calls & Hj & Huses & Hr).
    destruct (free_journal p w1 Hp) as [Hfree _].
    exists (CTagNew containerTag p :: calls ++ [CTagFree p]). split.
    + destruct r; simpl; rewrite Hfree, Hj; simpl;
        by rewrite <- !app_assoc.
    + right. split; [by exists p, calls|].
      destruct r as [documentIds|e]; simpl.
      * destruct Hr as [-> Hlen]. split_and!; [done|done|].
        rewrite length_app, Hlen. simpl. lia.
      * done.
Qed.

(** The loop of [search] reads sizes and blobs through the handle. *)
Lemma readBlobs_spec tag blobNames :
  ∀ sessions w r w',
    readBlobs cte_c_tag_get_blob_size cte_c_tag_get_blob parseRecord
              tag blobNames sessions w = (r, w') →
    ∃ calls,
      journal w' = journal w ++ calls
      ∧ usesOnly tag calls
      ∧ ∀ records, r = inl records →
          ∃ read, records = sessions ++ read ∧ length read ≤ length blobNames.
Proof.
  induction blobNames as [|blobName rest IH]; intros sessions w r w' Hrun;
    simpl in Hrun.
  - simplify_eq. exists []. rewrite app_nil_r. split_and!; [done|apply usesOnly_nil|].
    intros ? [= <-]. exists []. by rewrite app_nil_r.
  - unfold cteTagGetBlobSize in Hrun.
    destruct (cte_c_tag_get_blob_size tag blobName (lib w)) as [size l] eqn:Hsize.
    assert (Hcons : ∀ w1 first sessions1,
      journal w1 = journal w ++ first →
      usesOnly tag first →
      (∃ one, sessions1 = sessions ++ one ∧ length one ≤ 1) →
      readBlobs cte_c_tag_get_blob_size cte_c_tag_get_blob parseRecord
                tag rest sessions1 w1 = (r, w') →
      ∃ calls,
        journal w' = journal w ++ calls
        ∧ usesOnly tag calls
        ∧ ∀ records, r = inl records →
            ∃ read, records = sessions ++ read
                    ∧ length read ≤ length (blobName :: rest)).
    { intros w1 first sessions1 Hj1 Hu1 (one & -> & Hone) Hrest.
      apply IH in Hrest as (calls & Hj & Hu & Hr).
      exists (first ++ calls). split_and!.
      - by rewrite Hj, Hj1, <- app_assoc.
      - by apply usesOnly_app.
      - intros records Hrec. destruct (Hr records Hrec) as (read & -> & Hlen).
        exists (one ++ read). rewrite app_assoc. split; [done|].
        rewrite length_app. simpl. lia. }
    case_bool_decide as Hzero.
    + eapply (Hcons _ [_]) in Hrun; [exact Hrun|done| |].
      * apply usesOnly_cons; [by intros ? [= <-]|done|done|apply usesOnly_nil].
      * exists []. split; [by rewrite app_nil_r|simpl; lia].
    + unfold cteTagGetBlob in Hrun. cbn [lib native] in Hrun.
      destruct (cte_c_tag_get_blob tag blobName size l) as [[rc buf] l2] eqn:Hget.
      assert (Htwo : usesOnly tag [CTagGetBlobSize tag blobName size;
                                   CTagGetBlob tag blobName size rc]).
      { apply usesOnly_cons; [by intros ? [= <-]|done|done|].
        apply usesOnly_cons; [by intros ? [= <-]|done|done|apply usesOnly_nil]. }
      case_bool_decide as Hrc.
      * simplify_eq. eexists [_; _]. split_and!; [|done|done].
        simpl. by rewrite <- app_assoc.
      * destruct (parseRecord buf) as [record|e].
        -- eapply (Hcons _ [_; _]) in Hrun; [exact Hrun| |exact Htwo|].
           ++ simpl. by rewrite <- app_assoc.
           ++ exists [record]. split; [done|simpl; lia].
        -- eapply (Hcons _ [_; _]) in Hrun; [exact Hrun| |exact Htwo|].
           ++ simpl. by rewrite <- app_assoc.
           ++ exists []. split; [by rewrite app_nil_r|simpl; lia].
Qed.

(** X27.  [search] of the CTE provider never leaks a tag handle either.
    On a provider that is not initialized it throws [Provider not
    initialized] without a call into the library.  Otherwise it asks for
    one handle; when the library returns the null pointer it throws
    [Failed to create tag: <tag>] and makes no other call; when it
    returns a handle, every later call works on that handle or on none,
    and the handle is released exactly once, as the last call, also when
    listing or reading the blobs fails ([finally]). *)
Theorem search_releases_handle query options w :
  let run :=
    search cte_c_tag_new cte_c_tag_free cte_c_tag_get_blob_size
           cte_c_tag_get_blob cte_c_tag_get_contained_blobs cte_c_free_string
           parseNames parseRecord query options w in
  if initialized w then
    ∃ added,
      journal run.2 = journal w ++ added
      ∧ ((added = [CTagNew (searchContainerTag options) 0]
          ∧ run.1 = inr (ThrownError
                           (mkError ("Failed to create tag: "
                                       +:+ searchContainerTag options))))
         ∨ bracketed (searchContainerTag options) added)
  else run = (inr notInitialized, w).
Proof.
  intros run. subst run. unfold search.
  destruct (initialized w) eqn:Hinit; simpl; [|done].
  unfold cteTagNew.
  destruct (cte_c_tag_new _ (lib w)) as [p l] eqn:Hnew.
  case_bool_decide as Hp.
  - subst p. eexists. split; [done|]. by left.
  - set (w0 := native w l (CTagNew (searchContainerTag options) p)).
    assert (Hbody : ∃ r w1 calls,
      match cteTagGetContainedBlobs cte_c_tag_get_contained_blobs
              cte_c_free_string parseNames p w0 with
      | (inr e, w) => (inr e, w)
      | (inl blobNames, w) =>
          readBlobs cte_c_tag_get_blob_size cte_c_tag_get_blob parseRecord
                    p blobNames [] w
      end = (r, w1)
      ∧ journal w1 = journal w0 ++ calls ∧ usesOnly p calls).
    { unfold cteTagGetContainedBlobs.
      destruct (cte_c_tag_get_contained_blobs p (lib w0)) as [[rc out] l1] eqn:Hlist.
      assert (Hone : usesOnly p [CTagGetContainedBlobs p rc]).
      { apply usesOnly_cons; [by intros ? [= <-]|done|done|apply usesOnly_nil]. }
      case_bool_decide as Hrc; [by eexists _, _, [_]|].
      destruct out as [jsonStr|].
      - assert (Htwo : usesOnly p [CTagGetContainedBlobs p rc; CFreeString]).
        { apply usesOnly_cons; [by intros ? [= <-]|done|done|].
          apply usesOnly_cons; [done|done|done|apply usesOnly_nil]. }
        destruct (parseNames jsonStr) as [blobNames|e].
        + destruct (readBlobs _ _ _ _ _ _ _) as [r w1] eqn:Hread.
          apply readBlobs_spec in Hread as (calls & Hj & Hu & _).
          exists r, w1, ([CTagGetContainedBlobs p rc; CFreeString] ++ calls).
          split; [done|]. split; [|by apply usesOnly_app].
          rewrite Hj. simpl. by rewrite <- !app_assoc.
        + eexists _, _, [_; _]. split; [done|]. split; [|done].
          simpl. by rewrite <- app_assoc.
      - simpl. eexists _, _, [_]. by split_and!. }
    destruct Hbody as (r & w1 & calls & -> & Hj & Hu).
    destruct (free_journal p w1 Hp) as [Hfree _].
    exists (CTagNew (searchContainerTag options) p :: calls ++ [CTagFree p]).
    split.
    + simpl. rewrite Hfree, Hj. simpl. by rewrite <- !app_assoc.
    + right. by exists p, calls.
Qed.

End Facts.
End CteFacts.

(** * Properties of the configuration *)

Module ConfigFacts.
Import Config.

Lemma envOr_empty_is_unset env name fallback key :
  envOr (<[key := ""]> env) name fallback = envOr (delete key env) name fallback.
Proof.
  unfold envOr. destruct (decide (key = name)) as [->|Hne].
  - by rewrite lookup_insert_eq, lookup_delete_eq.
  - by rewrite lookup_insert_ne, lookup_delete_ne.
Qed.

Lemma envOr_nonempty env name fallback : fallback ≠ "" → envOr env name fallback ≠ "".
Proof.
  intros Hf. unfold envOr. destruct (env !! name) as [value|]; [|done].
  by case_bool_decide.
Qed.

(** X28.  Configuration.  A variable of the environment that is set to
    the empty string counts as unset: the configuration is the same as
    without it.  The base URLs of the configuration are never empty.
    [getProviderConfig] accepts exactly the names of the provider
    registry and throws [Unknown provider: <name>] for every other
    string; for [cte], [hindsight] and [graphiti] the API key is empty
    and a base URL is given.  [getJudgeConfig] accepts the name of each
    provider of a model that the answer phase has a client for. *)
Theorem configuration_defaults_and_names loaded env :
  (∀ key, config (<[key := ""]> loaded) = config (delete key loaded))
  ∧ (supermemoryBaseUrl (config loaded) ≠ ""
     ∧ hindsightBaseUrl (config loaded) ≠ ""
     ∧ graphitiBaseUrl (config loaded) ≠ "")
  ∧ (∀ name,
       (∃ c, getProviderConfig loaded env name = inl c)
       ↔ name ∈ getAvailableProviders)
  ∧ (∀ name,
       name ∉ getAvailableProviders →
       getProviderConfig loaded env name
       = inr (ThrownError (mkError ("Unknown provider: " +:+ name))))
  ∧ (∀ name c,
       name ∈ ["cte"; "hindsight"; "graphiti"] →
       getProviderConfig loaded env name = inl c →
       apiKey c = "" ∧ is_Some (baseUrl c))
  ∧ (∀ p, ∃ key, getJudgeConfig loaded (judgeName p) = inl key).
Proof.
  split_and!.
  - intros key. unfold config. by rewrite !envOr_empty_is_unset.
  - by apply envOr_nonempty.
  - by apply envOr_nonempty.
  - by apply envOr_nonempty.
  - intros name. unfold getProviderConfig, getAvailableProviders.
    rewrite !elem_of_cons, elem_of_nil.
    repeat case_bool_decide; split; intros Hx; try tauto; try (by eexists);
      by destruct Hx.
  - intros name Hnot. unfold getProviderConfig, getAvailableProviders in *.
    rewrite !elem_of_cons, elem_of_nil in Hnot.
    repeat case_bool_decide; try done; exfalso; tauto.
  - intros name c Hin. unfold getProviderConfig.
    rewrite !elem_of_cons, elem_of_nil in Hin.
    destruct Hin as [->|[->|[->|[]]]]; simpl; intros [= <-]; simpl; eauto.
  - intros [] ; simpl; by eexists.
Qed.

End ConfigFacts.

Module ExecutorDemoFacts.
Import ParallelExecutor ParallelExecutorFacts ExecutorDemo.


Example run_failing :
  run [1; 13; 3] 2
  = (Threw (mkError "unlucky"), (false, [1]),
     [StopSampled 0 false; OnBatchStart 0 2;
      Dispatched 0 (mkContext 1 0 3); Dispatched 0 (mkContext 13 1 3);
      OnError (mkContext 13 1 3) (mkError "unlucky");
      OnTaskComplete (mkContext 1 0 3) 10]).
Proof. reflexivity. Qed.

Example run_stopped :
  run [99; 2; 3] 2
  = (Threw stopError, (true, [2; 99]),
     [StopSampled 0 false; OnBatchStart 0 2;
      Dispatched 0 (mkContext 99 0 3); Dispatched 0 (mkContext 2 1 3);
      OnTaskComplete (mkContext 2 1 3) 20; OnTaskComplete (mkContext 99 0 3) 990;
      OnBatchComplete 0 [990; 20];
      StopSampled 1 true]).
Proof. reflexivity. Qed.

(** The claim as first stated fails on the empty list: no error is
    raised for a concurrency of zero. *)
Lemma executeBatched_empty_zero_concurrency_returns :
  (concurrency (options [] 0) ≤ 0)%Z
  ∧ ¬ ∃ e, (run [] 0).1.1 = Threw e.
Proof. split; [done|]. intros [e He]. discriminate He. Qed.

Lemma executeBatched_nonpositive_concurrency_witness :
  (concurrency (options [1%nat; 2%nat] (-1)) ≤ 0)%Z
  ∧ run [1; 2] (-1) = (Threw concurrencyError, (false, []), [])
  ∧ run [] (-1) = (Returned [], (false, []), []).
Proof.
  pose proof (executeBatched_nonpositive_concurrency shouldStop completion
                (options [1; 2] (-1)) (false, []) ltac:(done)) as [H1 _].
  pose proof (executeBatched_nonpositive_concurrency shouldStop completion
                (options [] (-1)) (false, []) ltac:(done)) as [_ H2].
  split; [done|]. split; [by apply H1|by apply H2].
Defined.



Lemma executeBatched_fail_fast_witness :
  (0 < concurrency (options [1%nat; 13%nat; 3%nat] 2))%Z
  ∧ OnError (mkContext 13 1 3) (mkError "unlucky") ∈ (run [1; 13; 3] 2).2
  ∧ ∃ c e, (run [1; 13; 3] 2).1.1 = Threw e
      ∧ OnError c e ∈ (run [1; 13; 3] 2).2
      ∧ (∀ b' c', Dispatched b' c' ∈ (run [1; 13; 3] 2).2 → b' ≤ index c `div` 2).
Proof.
  split; [done|].
  pose proof run_failing as Hrun. rewrite Hrun. unfold run in Hrun.
  assert (Hin : OnError (mkContext 13 1 3) (mkError "unlucky")
                  ∈ (run [1; 13; 3] 2).2).
  { do 4 right. left. }
  split; [exact Hin|].
  destruct (executeBatched_fail_fast _ _ _ _ _ _ _ _ _ Hrun ltac:(done) Hin)
    as (c & e & Hout & He & _ & _ & _ & _ & Hno).
  exists c, e. split; [exact Hout|]. split; [exact He|exact Hno].
Defined.

(** Item 99 raises the stop flag while the first batch is in flight.
    Item 2 of that batch still settles and the batch completes; the
    sample for the second batch finds the flag set and ends the run
    with the stop error; item 3 is never started, and the journal of
    the two tasks that ran is kept. *)
Lemma executeBatched_stop_between_batches_witness :
  run [99; 2; 3] 2 = (Threw stopError, (true, [2; 99]), (run [99; 2; 3] 2).2)
  ∧ (∃ rest, (run [99; 2; 3] 2).2 = StopSampled 0 false :: rest)
  ∧ StopSampled 1 true ∈ (run [99; 2; 3] 2).2
  ∧ (∃ l, (run [99; 2; 3] 2).2 = l ++ [StopSampled 1 true]
          ∧ (true, [2; 99]) = effects task (settles l) (false, []))
  ∧ (∀ b' c, Dispatched b' c ∈ (run [99; 2; 3] 2).2 → b' < 1)
  ∧ settles (run [99; 2; 3] 2).2 ≡ₚ (dispatches (run [99; 2; 3] 2).2).*2.
Proof.
  assert (Hrun : run [99; 2; 3] 2
                 = (Threw stopError, (true, [2; 99]), (run [99; 2; 3] 2).2))
    by reflexivity.
  assert (Hin : StopSampled 1 true ∈ (run [99; 2; 3] 2).2).
  { apply (list_elem_of_lookup_2 _ 7). reflexivity. }
  destruct (executeBatched_stop_between_batches shouldStop completion
              (options [99; 2; 3] 2) (false, []) _ _ _ Hrun)
    as (Hfirst & _ & _ & _ & _ & _ & _ & _ & Hstop & Hsettle & _).
  destruct (Hstop 1 Hin) as (_ & Hl & Hno).
  split; [exact Hrun|]. split.
  { apply Hfirst; [discriminate|reflexivity]. }
  split; [exact Hin|]. split; [exact Hl|]. split; [exact Hno|exact Hsettle].
Defined.

End ExecutorDemoFacts.

(** * The ingest phase resumed after a failed attempt (claim C3) *)

Module IngestDemoFacts.
Import ParallelExecutor Phases IngestDemo.

Example firstAttempt_outcome :
  ∃ trace,
    firstAttempt.1
    = Executed
        (Threw (mkError "Ingest failed at q1: backend unavailable. Fix the issue and resume with the same run ID."))
        trace.
Proof. eexists. vm_compute. reflexivity. Qed.

Example firstAttempt_state :
  ingestState firstAttempt.2 ≫= statusOf = Some failed
  ∧ ingestState firstAttempt.2 ≫= completedSessionsOf = Some ["s1"; "s2"]
  ∧ ingestState firstAttempt.2 ≫= ingestResultOf = None
  ∧ ingestCalls (calls firstAttempt.2)
    = [([session "s1"], "q1-data-1"); ([session "s2"], "q1-data-1");
       ([session "s3"], "q1-data-1")].
Proof. vm_compute. done. Qed.

(** C3, on the run of the specification (five sessions, the third failed
    in the earlier attempt).  The resumed attempt calls the provider for
    the sessions [s3], [s4], [s5] only, in that order, completes the
    list of completed sessions to [s1 .. s5] and completes the phase;
    but the ingest result it stores holds the documents of [s3], [s4],
    [s5] alone: those of [s1] and [s2], returned in the failed attempt,
    were never stored and are missing. *)
Theorem resumed_ingest_loses_earlier_documents :
  (∃ report trace, resumed.1 = Executed (Returned [report]) trace)
  ∧ ingestCalls (drop (length (calls firstAttempt.2)) (calls resumed.2))
    = [([session "s3"], "q1-data-1"); ([session "s4"], "q1-data-1");
       ([session "s5"], "q1-data-1")]
  ∧ ingestState resumed.2 ≫= completedSessionsOf
    = Some ["s1"; "s2"; "s3"; "s4"; "s5"]
  ∧ ingestState resumed.2 ≫= statusOf = Some completed
  ∧ durable resumed.2 !! "run-1" = Some (checkpoint resumed.2)
  ∧ documentIds <$> (ingestState resumed.2 ≫= ingestResultOf)
    = Some ["doc-s3"; "doc-s4"; "doc-s5"]
  ∧ ¬ (∃ r, ingestState resumed.2 ≫= ingestResultOf = Some r
            ∧ "doc-s1" ∈ documentIds r ∧ "doc-s2" ∈ documentIds r).
Proof.
  split; [do 2 eexists; vm_compute; reflexivity|].
  split; [vm_compute; reflexivity|].
  split; [vm_compute; reflexivity|].
  split; [vm_compute; reflexivity|].
  split; [vm_compute; reflexivity|].
  assert (Hr : ingestState resumed.2 ≫= ingestResultOf
               = Some (mkIngestResult ["doc-s3"; "doc-s4"; "doc-s5"] None))
    by (vm_compute; reflexivity).
  split; [by rewrite Hr|].
  intros (r & Hr' & H1 & _). rewrite Hr in Hr'. injection Hr' as <-.
  simpl in H1.
  repeat (apply elem_of_cons in H1 as [H1|H1]; [discriminate H1|]).
  by apply elem_of_nil in H1.
Qed.

End IngestDemoFacts.

Module PromptDemoFacts.
Import Phases PromptDemo.

Example prompt_value :
  prompt = "Q: Where? (Not specified) C: in Paris Again: {{question}}".
Proof. reflexivity. Qed.

Lemma buildAnswerPrompt_template_first_occurrence_witness :
  prompts provider ≫= answerPrompt = Some (TemplatePrompt template)
  ∧ template ≠ ""
  ∧ JsString.occurs "{{question}}" prompt.
Proof.
  assert (H1 : prompts provider ≫= answerPrompt = Some (TemplatePrompt template))
    by reflexivity.
  assert (H2 : template ≠ "") by discriminate.
  split; [exact H1|]. split; [exact H2|].
  destruct (PhasesFacts.buildAnswerPrompt_template_first_occurrence
              buildDefaultAnswerPrompt buildContextString provider template
              "Where?" ["in Paris"] None H1 H2) as (_ & _ & _ & Hocc & _).
  apply Hocc; [left|].
  exists "Q: ", " ({{questionDate}}) C: {{context}} Again: ", "".
  reflexivity.
Defined.

End PromptDemoFacts.
(** * The further properties on the small instances *)

Module ExecutorMoreDemoFacts.
Import ParallelExecutor ParallelExecutorFacts ParallelExecutorMore ExecutorDemo.

Lemma executeBatched_sequential_deterministic_witness :
  concurrency (options [1; 2; 3] 1) = 1%Z
  ∧ executeBatched shouldStop completion (options [1; 2; 3] 1) (false, [])
    = executeBatched shouldStop (λ _, [2; 0]) (options [1; 2; 3] 1) (false, []).
Proof.
  split; [reflexivity|].
  apply (executeBatched_sequential_deterministic shouldStop completion
           (λ _, [2; 0]) (options [1; 2; 3] 1) (false, [])).
  reflexivity.
Defined.

Lemma executeBatched_throws_only_witness :
  run [1; 13; 3] 2
  = (Threw (mkError "unlucky"), (false, [1]), (run [1; 13; 3] 2).2)
  ∧ (mkError "unlucky" = stopError ∨ mkError "unlucky" = concurrencyError
     ∨ ∃ c w0 t,
         item c ∈ [1; 13; 3]
         ∧ (task c w0).1 = inr t
         ∧ mkError "unlucky" = asError t
         ∧ "unlucky" = errorText t).
Proof.
  assert (H : run [1; 13; 3] 2
              = (Threw (mkError "unlucky"), (false, [1]), (run [1; 13; 3] 2).2))
    by reflexivity.
  split; [exact H|].
  exact (executeBatched_throws_only shouldStop completion
           (options [1; 13; 3] 2) (false, []) (mkError "unlucky") (false, [1])
           (run [1; 13; 3] 2).2 H).
Defined.

(** Item 13 is never journalled. *)
Lemma executeBatched_preserves_witness :
  (∀ c w0, item c ∈ items (options [1; 13; 3] 2) →
           13 ∉ w0.2 → 13 ∉ (task c w0).2.2)
  ∧ 13 ∉ (run [1; 13; 3] 2).1.2.2.
Proof.
  assert (Htask : ∀ (c : @ParallelTaskContext nat) (w0 : World),
            item c ∈ items (options [1; 13; 3] 2) →
            13 ∉ w0.2 → 13 ∉ (task c w0).2.2).
  { intros c w0 _ Hw. unfold task. destruct (Nat.eqb (item c) 13) eqn:Hc; [done|].
    simpl. apply Nat.eqb_neq in Hc. rewrite elem_of_app, list_elem_of_singleton.
    intros [?|?]; [done|]. congruence. }
  split; [exact Htask|].
  apply (executeBatched_preserves shouldStop completion (options [1; 13; 3] 2)
           (λ w, 13 ∉ w.2) (false, []) Htask).
  simpl. apply not_elem_of_nil.
Defined.

(** Items 1 and 2 make the first batch, item 3 the second: when item 3
    is dispatched, item 1 has settled. *)
Lemma executeBatched_batch_barrier_witness :
  (run [1; 2; 3] 2).2
  = take 9 (run [1; 2; 3] 2).2
    ++ Dispatched 1 (mkContext 3 2 3) :: drop 10 (run [1; 2; 3] 2).2
  ∧ Dispatched 0 (mkContext 1 0 3) ∈ take 9 (run [1; 2; 3] 2).2
  ∧ 0 ≤ 1
  ∧ (0 < 1 → mkContext 1 0 3 ∈ settles (take 9 (run [1; 2; 3] 2).2)).
Proof.
  assert (Heq : (run [1; 2; 3] 2).2
                = take 9 (run [1; 2; 3] 2).2
                  ++ Dispatched 1 (mkContext 3 2 3) :: drop 10 (run [1; 2; 3] 2).2)
    by reflexivity.
  assert (Hin : Dispatched 0 (mkContext 1 0 3) ∈ take 9 (run [1; 2; 3] 2).2).
  { apply (list_elem_of_lookup_2 _ 2). reflexivity. }
  split; [exact Heq|]. split; [exact Hin|].
  exact (executeBatched_batch_barrier shouldStop completion (options [1; 2; 3] 2)
           (false, []) _ _ _ _ Heq _ _ Hin).
Defined.

End ExecutorMoreDemoFacts.

Module IngestLoopDemoFacts.
Import Phases PhasesFacts IngestDemo IngestLoopDemo.

Lemma ingest_start_completedSessions :
  phaseOf (checkpoint start) "q1" Ingest ≫= completedSessionsOf = Some [].
Proof. reflexivity. Defined.

Lemma ingestSessions_skips_completed_witness :
  phaseOf (checkpoint start) "q1" Ingest ≫= completedSessionsOf = Some []
  ∧ ∃ attempted,
      calls (ingestSessions provider "q1-data-1" "q1" sessions
               (mkIngestResult [] (Some [])) start).2
      = calls start ++ ((λ s, IngestCall [s] "q1-data-1") <$> attempted)
      ∧ attempted `sublist_of` sessions
      ∧ NoDup (Benchmark.sessionId <$> attempted).
Proof.
  split; [exact ingest_start_completedSessions|].
  destruct (ingestSessions provider "q1-data-1" "q1" sessions
              (mkIngestResult [] (Some [])) start) as [r w'] eqn:Hrun.
  destruct (ingestSessions_skips_completed provider "q1-data-1" "q1" sessions
              (mkIngestResult [] (Some [])) start [] r w'
              ingest_start_completedSessions Hrun)
    as (attempted & Hcalls & Hsub & Hnd & _).
  exists attempted. split; [exact Hcalls|]. split; [exact Hsub|exact Hnd].
Defined.

Lemma ingestSessions_records_completed_witness :
  phaseOf (checkpoint start) "q1" Ingest ≫= completedSessionsOf = Some []
  ∧ ∃ ok,
      phaseOf (checkpoint (ingestSessions provider "q1-data-1" "q1" sessions
                             (mkIngestResult [] (Some [])) start).2)
              "q1" Ingest ≫= completedSessionsOf
      = Some ([] ++ (Benchmark.sessionId <$> ok)).
Proof.
  split; [exact ingest_start_completedSessions|].
  destruct (ingestSessions provider "q1-data-1" "q1" sessions
              (mkIngestResult [] (Some [])) start) as [r w'] eqn:Hrun.
  destruct (ingestSessions_records_completed provider "q1-data-1" "q1" sessions
              (mkIngestResult [] (Some [])) start [] r w'
              ingest_start_completedSessions Hrun)
    as (ok & Hrec & _).
  exists ok. exact Hrec.
Defined.

End IngestLoopDemoFacts.

Module SearchDemoFacts.
Import ParallelExecutor Phases PhasesFacts IngestDemo SearchDemo.

Lemma q1_entry : "q1" ∈ entries start.
Proof. apply elem_of_dom. eexists. apply lookup_singleton_eq. Defined.

Lemma answer_prompt_uses_search_results_witness :
  (∃ report, searched.1 = inl report)
  ∧ "q1" ∈ entries start
  ∧ ∃ results,
      phaseOf (checkpoint searched.2) "q1" Search ≫= resultsOf = Some results
      ∧ calls (answerTask now toISOString generateText (λ q _ _, q)
                          (λ _, "") (λ text, text) modelConfig None context
                          searched.2).2
        = calls searched.2
          ++ [GenerateTextCall
                (mkGenerateParams (openai, "gpt-4o")
                   (buildAnswerPrompt (Backend := Backend) (λ q _ _, q) (λ _, "")
                      "Where did I go?" results
                      (questions (checkpoint searched.2) !! "q1" ≫= questionDate)
                      None)
                   1000 (Some (mkFraction 0 1)))].
Proof.
  assert (Hrun : searchTask now toISOString join provider "results" context start
                 = (inl (mkReport "q1" 0 None), searched.2)) by reflexivity.
  split; [by eexists|]. split; [exact q1_entry|].
  destruct (answer_prompt_uses_search_results now toISOString generateText
              (λ q _ _, q) (λ _, "") (λ text, text) join provider "results"
              modelConfig None context start _ _ Hrun q1_entry)
    as (results & Hres & Hcalls).
  exists results. split; [exact Hres|]. exact (Hcalls context eq_refl).
Defined.

End SearchDemoFacts.

Module PatternDemoFacts.
Import Phases PhasesFacts PatternDemo.

Lemma question_text_is_a_replacement_pattern_witness :
  prompts provider ≫= answerPrompt
    = Some (TemplatePrompt ("Q: " +:+ "{{question}}" +:+ " A:"))
  ∧ buildAnswerPrompt (λ q _ _, q) (λ _, "") ("cost: " +:+ "$$" +:+ "5")
                      [] None (Some provider)
    = "Q: " +:+ "cost: " +:+ "$" +:+ "5" +:+ " A:"
  ∧ buildAnswerPrompt (λ q _ _, q) (λ _, "") ("cost: " +:+ "$&" +:+ "5")
                      [] None (Some provider)
    = "Q: " +:+ "cost: " +:+ "{{question}}" +:+ "5" +:+ " A:".
Proof.
  split; [reflexivity|].
  destruct (question_text_is_a_replacement_pattern (λ q _ _, q) (λ _, "")
              provider "Q: " " A:" "cost: " "5" [] None
              eq_refl eq_refl eq_refl eq_refl eq_refl eq_refl eq_refl)
    as (_ & Hdd & Hda & _).
  split; [exact Hdd|exact Hda].
Defined.

End PatternDemoFacts.

Module GraphitiDemoFacts.
Import Phases Graphiti GraphitiFacts GraphitiDemo.


Lemma fetch_refusing : refusing fetch.
Proof. intros request n. by eexists _, _, _. Defined.

Lemma graphiti_start_completedSessions :
  phaseOf (checkpoint start) "q1" Ingest ≫= completedSessionsOf = Some [].
Proof. reflexivity. Defined.

Lemma refused_sessions_are_recorded_completed_witness :
  refusing fetch
  ∧ phaseOf (checkpoint start) "q1" Ingest ≫= completedSessionsOf = Some []
  ∧ ∃ combined' (w' : @Phases.World (@World unit)),
      ingestSessions graphiti "q1-data-1" "q1" sessions
                     (mkIngestResult [] (Some [])) start
        = (inl combined', w')
      ∧ documentIds combined' = [].
Proof.
  split; [exact fetch_refusing|]. split; [exact graphiti_start_completedSessions|].
  destruct (refused_sessions_are_recorded_completed fetch showStatus awaitIndexing
              buildGraphitiAnswerPrompt "q1-data-1" "q1" sessions
              (mkIngestResult [] (Some [])) start []
              fetch_refusing graphiti_start_completedSessions)
    as (combined' & w' & Hrun & Hdocs & _).
  exists combined', w'. split; [exact Hrun|exact Hdocs].
Defined.

End GraphitiDemoFacts.

Module NoEntryDemoFacts.
Import ParallelExecutor Phases IngestDemo NoEntryDemo.


End NoEntryDemoFacts.
